(** * Conflation of OpenStreetMap tags into a lanelet map

    A shallow embedding of [src/conflation/conflation.cpp] (class
    [cconflation]) and the properties of its conflation engine, with
    [get_intersection_nodes] of [src/map_transformation/align.cpp].

    Conventions of the embedding:
    - a C++ [double] is a primitive binary64 float;
    - an [int] index or counter that is never negative is a [nat], the
      lane counts compared with the parsed [lanes] tag are [Z];
    - a Lanelet2 primitive is a handle on shared data: linestrings live in
      a heap addressed by location, lanelets live in the lanelet layer
      under their id, points are immutable here and are values that are
      identified by their id;
    - undefined behaviour of the source (indexing past the end, [front()]
      of an empty container, dereferencing an empty optional, signed
      overflow) is the outcome [Undefined]; a C++ exception is [Throws];
    - functions of Lanelet2, of libm and of the match class ([s_match],
      whose header is not part of the sources) are parameters. *)

From Stdlib Require Import ZArith Floats Ascii.
From stdpp Require Import gmap strings list pretty sorting.

Local Open Scope string_scope.
Local Open Scope list_scope.
Local Open Scope Z_scope.

(** ** Outcomes *)

Inductive exn := invalid_argument | out_of_range.

(** Why a call does not return: a C++ exception, undefined behaviour, or
    a loop of the model that was not given enough fuel. *)
Inductive failure := Thrown (e : exn) | UB | Fuel.

Inductive outcome (A : Type) : Type :=
| Ok (a : A)
| Fail (f : failure).
Arguments Ok {A} a.
Arguments Fail {A} f.

Abbreviation Throws e := (Fail (Thrown e)).
Abbreviation Undefined := (Fail UB).

Definition obind {A B} (m : outcome A) (k : A → outcome B) : outcome B :=
  match m with
  | Ok a => k a
  | Fail f => Fail f
  end.

Notation "x <- m ;;; k" := (obind m (λ x, k))
  (at level 100, m at next level, right associativity, only parsing).

Definition of_option {A} (o : option A) : outcome A :=
  match o with Some a => Ok a | None => Undefined end.

(** [v[i]] on a [std::vector]: undefined past the end. *)
Definition at_ {A} (l : list A) (i : nat) : outcome A := of_option (l !! i).

(** [v.front()] and [v.back()]. *)
Definition front {A} (l : list A) : outcome A := of_option (head l).
Definition back {A} (l : list A) : outcome A := of_option (last l).

Fixpoint omapM {A B} (f : A → outcome B) (l : list A) : outcome (list B) :=
  match l with
  | [] => Ok []
  | x :: r => y <- f x ;;; ys <- omapM f r ;;; Ok (y :: ys)
  end.

(** ** Primitives *)

Definition Id := Z.
Definition InvalId : Id := 0.
Definition loc := positive.

Abbreviation AttributeMap := (gmap string string).

Record BasicPoint3d := mkBasicPoint { bp_x : float; bp_y : float; bp_z : float }.

Record Point3d := mkPoint {
  pt_id : Id;
  pt_x : float;
  pt_y : float;
  pt_z : float;
  pt_attrs : AttributeMap }.

Definition basicPoint (p : Point3d) : BasicPoint3d :=
  mkBasicPoint (pt_x p) (pt_y p) (pt_z p).

(** [operator==] on points compares the underlying object. *)
Definition pt_eqb (p q : Point3d) : bool := bool_decide (pt_id p = pt_id q).

Record LineStringData := mkLineStringData {
  lsd_id : Id;
  lsd_pts : list Point3d;
  lsd_attrs : AttributeMap }.

(** A [LineString3d]: the shared data and the direction it is read in. *)
Record LineString3d := mkLineString { ls_loc : loc; ls_inverted : bool }.

Definition invert (ls : LineString3d) : LineString3d :=
  mkLineString (ls_loc ls) (negb (ls_inverted ls)).

(** The points of a linestring in the order its handle reads them. *)
Definition view (d : LineStringData) (inverted : bool) : list Point3d :=
  if inverted then rev (lsd_pts d) else lsd_pts d.

Definition set_view (d : LineStringData) (inverted : bool) (v : list Point3d)
  : LineStringData :=
  mkLineStringData (lsd_id d) (if inverted then rev v else v) (lsd_attrs d).

(** A parameter of a regulatory element.  A [RegulatoryElementPtr], a
    [WeakLanelet], a [WeakArea] and a polygon are the id of the element
    here, resolved in the map that holds the element that refers to it. *)
Inductive RuleParameter :=
| ParamPoint (p : Point3d)
| ParamLineString (ls : LineString3d)
| ParamPolygon (id : Id)
| ParamLanelet (id : Id)
| ParamArea (id : Id).

Record LaneletData := mkLaneletData {
  lld_left : LineString3d;
  lld_right : LineString3d;
  lld_attrs : AttributeMap;
  lld_centerline : option LineString3d;
  lld_regelems : list Id }.

(** The lanelet [d] with the attributes [attrs]. *)
Definition with_attrs (d : LaneletData) (attrs : AttributeMap) : LaneletData :=
  mkLaneletData (lld_left d) (lld_right d) attrs (lld_centerline d) (lld_regelems d).

(** A [Lanelet]: an element of the lanelet layer, or the default
    constructed lanelet that [find_ll] returns when the lookup fails. *)
Inductive Lanelet := LlIn (id : Id) | LlEmpty.

Global Instance Lanelet_eq_dec : EqDecision Lanelet.
Proof. solve_decision. Defined.

Definition ll_id (ll : Lanelet) : Id :=
  match ll with LlIn id => id | LlEmpty => InvalId end.

(** Areas, regulatory elements and polygons are only passed on, with
    what they own or refer to. *)
Record Area := mkArea {
  area_attrs : AttributeMap;
  area_outer : list LineString3d;
  area_inner : list (list LineString3d);
  area_regelems : list Id }.
Record RegulatoryElement := mkRegElem {
  regelem_attrs : AttributeMap;
  regelem_params : list RuleParameter }.
Record Polygon3d := mkPolygon { poly_pts : list Point3d; poly_attrs : AttributeMap }.

Record LaneletMap := mkMap {
  laneletLayer : gmap Id LaneletData;
  areaLayer : gmap Id Area;
  regulatoryElementLayer : gmap Id RegulatoryElement;
  polygonLayer : gmap Id Polygon3d;
  lineStringLayer : gmap Id LineString3d;
  pointLayer : gmap Id Point3d }.

Definition empty_map : LaneletMap := mkMap ∅ ∅ ∅ ∅ ∅ ∅.

(** A segment of a reference or target polyline. *)
Record Segment := mkSegment {
  seg_id : Id;
  seg_pts : list Point3d;
  seg_attrs : AttributeMap }.

Record s_match := mkMatch {
  ref_pline : list Segment;
  target_pline : list Segment }.

(** The map behind [map_ptr], the linestring heap, the id generator
    [lanelet::utils::getId] and what was written to the console. *)
Record World := mkWorld {
  w_map : LaneletMap;
  w_heap : gmap loc LineStringData;
  w_next_loc : loc;
  w_next_id : Id;
  w_log : list string }.

(** ** The state monad of the engine *)

Definition M (A : Type) : Type := World → outcome (A * World).

Definition ret {A} (a : A) : M A := λ w, Ok (a, w).

Definition bind {A B} (m : M A) (k : A → M B) : M B :=
  λ w, match m w with
       | Ok (a, w') => k a w'
       | Fail f => Fail f
       end.

Definition lift {A} (o : outcome A) : M A :=
  λ w, match o with
       | Ok a => Ok (a, w)
       | Fail f => Fail f
       end.

Notation "x <~ m ;; k" := (bind m (λ x, k))
  (at level 100, m at next level, right associativity, only parsing).

Definition getId : M Id :=
  λ w, Ok (w_next_id w,
           mkWorld (w_map w) (w_heap w) (w_next_loc w) (w_next_id w + 1) (w_log w)).

Definition alloc (d : LineStringData) : M LineString3d :=
  λ w, Ok (mkLineString (w_next_loc w) false,
           mkWorld (w_map w) (<[w_next_loc w := d]> (w_heap w))
                   (Pos.succ (w_next_loc w)) (w_next_id w) (w_log w)).

Definition deref (ls : LineString3d) : M LineStringData :=
  λ w, lift (of_option (w_heap w !! ls_loc ls)) w.

Definition store (l : loc) (d : LineStringData) : M unit :=
  λ w, Ok (tt, mkWorld (w_map w) (<[l := d]> (w_heap w))
                       (w_next_loc w) (w_next_id w) (w_log w)).

Definition print (s : string) : M unit :=
  λ w, Ok (tt, mkWorld (w_map w) (w_heap w) (w_next_loc w) (w_next_id w)
                       (w_log w ++ [s])).

Definition get_map : M LaneletMap := λ w, Ok (w_map w, w).

Definition set_map (m : LaneletMap) : M unit :=
  λ w, Ok (tt, mkWorld m (w_heap w) (w_next_loc w) (w_next_id w) (w_log w)).

Definition set_lanelets (ll : gmap Id LaneletData) : M unit :=
  λ w, Ok (tt, mkWorld (mkMap ll (areaLayer (w_map w))
                              (regulatoryElementLayer (w_map w))
                              (polygonLayer (w_map w))
                              (lineStringLayer (w_map w)) (pointLayer (w_map w)))
                       (w_heap w) (w_next_loc w) (w_next_id w) (w_log w)).

(** [lanelet::utils::registerId]: the generator is moved past [id]. *)
Definition registerId (id : Id) : M unit :=
  λ w, Ok (tt, mkWorld (w_map w) (w_heap w) (w_next_loc w)
                       (Z.max (w_next_id w) (id + 1)) (w_log w)).

(** ** Console messages

    The texts that the engine writes to [std::cout] and [std::cerr], with
    the escape sequences that colour them. *)

Definition ESC : string := String "027"%char "".

Definition yellow (s : string) : string := ESC +:+ "[33m" +:+ s +:+ ESC +:+ "[0m".
Definition red (s : string) : string := ESC +:+ "[31m" +:+ s +:+ ESC +:+ "[0m".
Definition bold_red (s : string) : string := ESC +:+ "[1;31m" +:+ s +:+ ESC +:+ "[0m".

Definition find_ll_message : string :=
  "find_ll: " +:+ bold_red "!! Couldn't find lanelet for id !!".

Definition find_ll_from_bound_message : string :=
  "find_ll_from_bound: " +:+ bold_red "!! Couldn't find lanelet for bounds !!".

Definition skip_message : string :=
  red "~~~~~> Couldn't identify wrong lanelets clearly! - Skipping segment!".

(** ** Library interfaces *)

(** Lanelet2: [geometry::project], [geometry::distance],
    [geometry::distance2d], [geometry::follows] and [Attribute::asId]. *)
Class Lanelet2 := {
  project : list Point3d → BasicPoint3d → BasicPoint3d;
  distance : BasicPoint3d → BasicPoint3d → float;
  distance2d : Point3d → Point3d → float;
  follows : LaneletMap → gmap loc LineStringData → Lanelet → Lanelet → bool;
  asId : string → option Id }.

(** libm: [std::atan2] and [std::atan]. *)
Class Libm := {
  atan2 : float → float → float;
  atan : float → float }.

(** The two mutators of [s_match] that the engine calls. *)
Class MatchOps := {
  update_ref_tags : string → Id → Id → nat → s_match → s_match;
  remove_tag_ref_pline : Id → s_match → s_match }.

(** ** [std::min_element] followed by [std::distance] from [begin()] *)

Fixpoint min_element_from (best_i : nat) (best : float) (i : nat)
    (l : list float) : nat :=
  match l with
  | [] => best_i
  | x :: r =>
      if PrimFloat.ltb x best then min_element_from i x (S i) r
      else min_element_from best_i best (S i) r
  end.

Definition min_element (l : list float) : nat :=
  match l with
  | [] => 0%nat
  | x :: r => min_element_from 0 x 1 r
  end.

(** ** [find_segment_2D] *)

Definition slope (p q : Point3d) : float :=
  ((pt_y q - pt_y p) / (pt_x q - pt_x p))%float.

Fixpoint segment_diffs (pt : Point3d) (ls : list Point3d) : list float :=
  match ls with
  | p :: ((q :: _) as tl) =>
      let m := slope p q in
      let t := (pt_y p - m * pt_x p)%float in
      abs (pt_y pt - (m * pt_x pt + t))%float :: segment_diffs pt tl
  | _ => []
  end.

(** The loop runs to [ls.end() - 1], which does not exist for an empty
    linestring. *)
Definition find_segment_2D (pt : Point3d) (ls : list Point3d) : outcome nat :=
  match ls with
  | [] => Undefined
  | _ => Ok (min_element (segment_diffs pt ls))
  end.

(** ** [used_Id] *)

Definition used_Id (ids : list Id) (id : Id) : bool := bool_decide (id ∈ ids).

Definition used_Id_cols (cols : list (Id * string)) (id : Id) : bool :=
  bool_decide (id ∈ cols.*1).

(** [std::distance(v.begin(), std::find(v.begin(), v.end(), x))] *)
Fixpoint index_of (x : Id) (l : list Id) : nat :=
  match l with
  | [] => 0%nat
  | y :: r => if bool_decide (y = x) then 0%nat else S (index_of x r)
  end.

(** ** Strings: [std::to_string], [std::string::find], [std::stoi] *)

(** [key + std::to_string(i)] *)
Definition chain_key (key : string) (i : nat) : string := key +:+ pretty i.

(** [s.find(sub) != std::string::npos] *)
Definition contains (sub s : string) : bool :=
  match String.index 0 sub s with Some _ => true | None => false end.

Definition INT_MAX : Z := 2147483647.
Definition INT_MIN : Z := -2147483648.

Definition is_space (c : ascii) : bool :=
  let n := nat_of_ascii c in
  bool_decide (n = 32 ∨ (9 ≤ n ∧ n ≤ 13))%nat.

Definition digit_of (c : ascii) : option Z :=
  let n := Z.of_nat (nat_of_ascii c) in
  if bool_decide (48 ≤ n ≤ 57) then Some (n - 48) else None.

Fixpoint skip_spaces (s : string) : string :=
  match s with
  | String c r => if is_space c then skip_spaces r else s
  | EmptyString => s
  end.

Fixpoint read_digits (acc : Z) (s : string) : Z :=
  match s with
  | String c r =>
      match digit_of c with
      | Some n => read_digits (10 * acc + n) r
      | None => acc
      end
  | EmptyString => acc
  end.

Definition read_sign (s : string) : bool * string :=
  match s with
  | String c r =>
      if Ascii.eqb c "-" then (true, r)
      else if Ascii.eqb c "+" then (false, r) else (false, s)
  | EmptyString => (false, s)
  end.

(** [std::stoi(s)], base 10: leading white space, an optional sign, then
    the longest run of digits; [std::invalid_argument] when there is no
    digit, [std::out_of_range] when the value is not an [int]. *)
Definition stoi (s : string) : outcome Z :=
  let '(neg, s) := read_sign (skip_spaces s) in
  match s with
  | String c _ =>
      match digit_of c with
      | Some _ =>
          let v := read_digits 0 s in
          let v := if neg : bool then - v else v in
          if bool_decide (INT_MIN ≤ v ≤ INT_MAX) then Ok v
          else Throws out_of_range
      | None => Throws invalid_argument
      end
  | EmptyString => Throws invalid_argument
  end.

(** [a + b] on [int]: signed overflow is undefined. *)
Definition int_add (a b : Z) : outcome Z :=
  if bool_decide (INT_MIN ≤ a + b ≤ INT_MAX) then Ok (a + b) else Undefined.

(** ** Attribute chains of a reference segment *)

(** The values under [key1], [key2], ... as long as the key is present:
    what the loops [while (seg.hasAttribute(key_ind))] visit. A map with
    [n] entries holds at most [n] of these keys. *)
Fixpoint chain_from (attrs : AttributeMap) (key : string) (fuel i : nat)
    : list string :=
  match fuel with
  | O => []
  | S fuel =>
      match attrs !! chain_key key i with
      | Some v => v :: chain_from attrs key fuel (S i)
      | None => []
      end
  end.

Definition chain (attrs : AttributeMap) (key : string) : list string :=
  chain_from attrs key (size attrs) 1.

(** The attributes in the order an [AttributeMap] is iterated in, by key. *)
Definition attr_items (attrs : AttributeMap) : list (string * string) :=
  merge_sort (λ a b, String.leb a.1 b.1) (map_to_list attrs).

(** ** [highway2subtype_location] *)

Definition highway_nonurban : list string :=
  ["motorway"; "trunk"; "motorway_link"; "trunk_link"].

Definition road_urban : list string :=
  ["primary"; "secondary"; "tertiary"; "unclassified"; "residential";
   "primary_link"; "secondary_link"; "tertiary_link"; "service"].

Definition highway2subtype_location (val_osm : string) : string * string :=
  if bool_decide (val_osm ∈ highway_nonurban) then ("highway", "nonurban")
  else if bool_decide (val_osm ∈ road_urban) then ("road", "urban")
  else if bool_decide (val_osm = "living_street") then ("play_street", "")
  else if bool_decide (val_osm = "busway") then ("bus_lane", "urban")
  else if bool_decide (val_osm = "cycleway") then ("bicycle_lane", "")
  else ("", "").

(** ** [check_tag_change] *)

Fixpoint tag_changes (key val : string) (rest : list Segment)
    (pts_ : list Point3d) (values_ : list string)
    : outcome (list Point3d * list string) :=
  match rest with
  | [] => Ok (pts_, values_)
  | it :: rest =>
      match seg_attrs it !! key with
      | Some v =>
          if bool_decide (v ≠ val) then
            p <- front (seg_pts it) ;;;
            tag_changes key v rest (pts_ ++ [p]) (values_ ++ [v])
          else tag_changes key val rest pts_ values_
      | None =>
          if bool_decide (val ≠ "") then
            p <- front (seg_pts it) ;;;
            tag_changes key "" rest (pts_ ++ [p]) (values_ ++ [""])
          else tag_changes key val rest pts_ values_
      end
  end.

(** The value the scan of one key starts with. *)
Definition first_value (pline : list Segment) (key : string) : string :=
  match pline with
  | seg :: _ => default "" (seg_attrs seg !! key)
  | [] => ""
  end.

(** The body of the loop over the keys. *)
Definition check_tag_change_key (pline : list Segment) (key : string)
    : outcome (list Point3d * list string) :=
  let val := first_value pline key in
  tag_changes key val (tail pline) [] [val].

Fixpoint check_tag_change (pline : list Segment) (keys : list string)
    (pts : list (list Point3d)) (values : list (list string))
    : outcome (list (list Point3d) * list (list string)) :=
  match keys with
  | [] => Ok (pts, values)
  | key :: keys =>
      r <- check_tag_change_key pline key ;;;
      check_tag_change pline keys (pts ++ [r.1]) (values ++ [r.2])
  end.

(** ** [merge_point_vec] *)

Definition merge_point_vec (pts_change : list (list Point3d)) : list Point3d :=
  foldl (λ pts_merged vec,
    foldl (λ pts_merged pt,
      if existsb (pt_eqb pt) pts_merged then pts_merged
      else pts_merged ++ [pt]) pts_merged vec) [] pts_change.

(** The inner loop of [merge_point_vec], over one vector. *)
Definition merge_into (pts_merged vec : list Point3d) : list Point3d :=
  foldl (λ pts_merged pt,
      if existsb (pt_eqb pt) pts_merged then pts_merged
      else pts_merged ++ [pt]) pts_merged vec.

(** ** [remove_attributes] and [remove_tags] *)

Definition remove_attributes (pt : Point3d) (names : list string) : Point3d :=
  mkPoint (pt_id pt) (pt_x pt) (pt_y pt) (pt_z pt)
          (foldl (λ attr name, delete name attr) (pt_attrs pt) names).

Definition remove_tags (m : LaneletMap) : bool * LaneletMap :=
  (true,
   mkMap (laneletLayer m) (areaLayer m) (regulatoryElementLayer m) (polygonLayer m)
         (lineStringLayer m)
         ((λ pt, remove_attributes pt ["local_x"; "local_y"; "mgrs_code"])
            <$> pointLayer m)).

(** ** [LaneletMap::add]

    Of Lanelet2: [add] files an element under its id together with all
    that the element owns or refers to.  The map that receives the
    elements is the map of the world; [src] is the map in which the ids
    that an element refers to are resolved.  [fuel] bounds the depth of
    the calls of [add] from within [add]. *)

Definition layer_add {A} (id : Id) (x : A) (layer : gmap Id A) : gmap Id A :=
  match layer !! id with
  | Some _ => layer
  | None => <[id := x]> layer
  end.

(** [PrimitiveLayer::add] of each layer of the map. *)
Definition set_areas (l : gmap Id Area) : M unit :=
  λ w, set_map (mkMap (laneletLayer (w_map w)) l (regulatoryElementLayer (w_map w))
                      (polygonLayer (w_map w)) (lineStringLayer (w_map w))
                      (pointLayer (w_map w))) w.

Definition set_regelems (l : gmap Id RegulatoryElement) : M unit :=
  λ w, set_map (mkMap (laneletLayer (w_map w)) (areaLayer (w_map w)) l
                      (polygonLayer (w_map w)) (lineStringLayer (w_map w))
                      (pointLayer (w_map w))) w.

Definition set_polygons (l : gmap Id Polygon3d) : M unit :=
  λ w, set_map (mkMap (laneletLayer (w_map w)) (areaLayer (w_map w))
                      (regulatoryElementLayer (w_map w)) l
                      (lineStringLayer (w_map w)) (pointLayer (w_map w))) w.

Definition set_linestrings (l : gmap Id LineString3d) : M unit :=
  λ w, set_map (mkMap (laneletLayer (w_map w)) (areaLayer (w_map w))
                      (regulatoryElementLayer (w_map w)) (polygonLayer (w_map w))
                      l (pointLayer (w_map w))) w.

Definition set_points (l : gmap Id Point3d) : M unit :=
  λ w, set_map (mkMap (laneletLayer (w_map w)) (areaLayer (w_map w))
                      (regulatoryElementLayer (w_map w)) (polygonLayer (w_map w))
                      (lineStringLayer (w_map w)) l) w.

Definition laneletLayer_add (id : Id) (d : LaneletData) : M unit :=
  λ w, set_lanelets (layer_add id d (laneletLayer (w_map w))) w.

Definition areaLayer_add (id : Id) (area : Area) : M unit :=
  λ w, set_areas (layer_add id area (areaLayer (w_map w))) w.

Definition regulatoryElementLayer_add (id : Id) (regElem : RegulatoryElement)
    : M unit :=
  λ w, set_regelems (layer_add id regElem (regulatoryElementLayer (w_map w))) w.

Definition polygonLayer_add (id : Id) (poly : Polygon3d) : M unit :=
  λ w, set_polygons (layer_add id poly (polygonLayer (w_map w))) w.

Definition lineStringLayer_add (id : Id) (ls : LineString3d) : M unit :=
  λ w, set_linestrings (layer_add id ls (lineStringLayer (w_map w))) w.

Definition pointLayer_add (id : Id) (p : Point3d) : M unit :=
  λ w, set_points (layer_add id p (pointLayer (w_map w))) w.

(** The head of every [add]: an element without id is given the next id,
    an element whose id is in the layer is not added again ([None]), and
    the id of an element that is new to the layer is registered. *)
Definition id_to_add {A} (layer : gmap Id A) (id : Id) : M (option Id) :=
  if bool_decide (id = InvalId) then id <~ getId ;; ret (Some id)
  else match layer !! id with
       | Some _ => ret None
       | None => _ <~ registerId id ;; ret (Some id)
       end.

Fixpoint iterM {A} (f : A → M unit) (l : list A) : M unit :=
  match l with
  | [] => ret tt
  | x :: l => _ <~ f x ;; iterM f l
  end.

Definition set_pt_id (id : Id) (p : Point3d) : Point3d :=
  mkPoint id (pt_x p) (pt_y p) (pt_z p) (pt_attrs p).

(** [add(Point3d)]; the result is the point with the id it has then. *)
Definition add_point (p : Point3d) : M Point3d :=
  map <~ get_map ;;
  go <~ id_to_add (pointLayer map) (pt_id p) ;;
  match go with
  | None => ret p
  | Some id =>
      _ <~ pointLayer_add id (set_pt_id id p) ;;
      ret (set_pt_id id p)
  end.

Fixpoint add_points (pts : list Point3d) : M (list Point3d) :=
  match pts with
  | [] => ret []
  | p :: pts =>
      p <~ add_point p ;;
      pts <~ add_points pts ;;
      ret (p :: pts)
  end.

(** [add(LineString3d)]: the points in the order the handle reads them,
    then the linestring. *)
Definition add_linestring (ls : LineString3d) : M unit :=
  d <~ deref ls ;;
  map <~ get_map ;;
  go <~ id_to_add (lineStringLayer map) (lsd_id d) ;;
  match go with
  | None => ret tt
  | Some id =>
      pts <~ add_points (view d (ls_inverted ls)) ;;
      _ <~ store (ls_loc ls)
             (set_view (mkLineStringData id (lsd_pts d) (lsd_attrs d))
                       (ls_inverted ls) pts) ;;
      lineStringLayer_add id ls
  end.

(** [add(Polygon3d)] *)
Definition add_polygon (id : Id) (poly : Polygon3d) : M unit :=
  map <~ get_map ;;
  go <~ id_to_add (polygonLayer map) id ;;
  match go with
  | None => ret tt
  | Some id =>
      pts <~ add_points (poly_pts poly) ;;
      polygonLayer_add id (mkPolygon pts (poly_attrs poly))
  end.

(** The regulatory element, the lanelet or the area that an id of the
    element being added refers to; a weak reference that does not resolve
    has expired. *)
Definition resolved {A} (layer : gmap Id A) (id : Id) (add : Id → A → M unit)
    : M unit :=
  match layer !! id with
  | Some x => add id x
  | None => ret tt
  end.

(** [add(Lanelet)], [add(RegulatoryElementPtr)] and [add(Area)].  The
    result of [add_lanelet] is the id that the lanelet has then. *)
Fixpoint add_lanelet (fuel : nat) (src : LaneletMap) (id : Id) (d : LaneletData)
    {struct fuel} : M Id :=
  match fuel with
  | O => lift (Fail Fuel)
  | S fuel =>
      map <~ get_map ;;
      go <~ id_to_add (laneletLayer map) id ;;
      match go with
      | None => ret id
      | Some id =>
          _ <~ add_linestring (lld_left d) ;;
          _ <~ add_linestring (lld_right d) ;;
          _ <~ (match lld_centerline d with
                | Some center => add_linestring center
                | None => ret tt
                end) ;;
          _ <~ laneletLayer_add id d ;;
          _ <~ iterM (λ r, resolved (regulatoryElementLayer src) r
                             (add_regelem fuel src)) (lld_regelems d) ;;
          ret id
      end
  end
with add_regelem (fuel : nat) (src : LaneletMap) (id : Id)
    (regElem : RegulatoryElement) {struct fuel} : M unit :=
  match fuel with
  | O => lift (Fail Fuel)
  | S fuel =>
      map <~ get_map ;;
      go <~ id_to_add (regulatoryElementLayer map) id ;;
      match go with
      | None => ret tt
      | Some id =>
          _ <~ regulatoryElementLayer_add id regElem ;;
          iterM (λ p, match p with
                      | ParamPoint p => _ <~ add_point p ;; ret tt
                      | ParamLineString l => add_linestring l
                      | ParamPolygon i => resolved (polygonLayer src) i add_polygon
                      | ParamLanelet i =>
                          resolved (laneletLayer src) i
                            (λ i ll, _ <~ add_lanelet fuel src i ll ;; ret tt)
                      | ParamArea i => resolved (areaLayer src) i (add_area fuel src)
                      end) (regelem_params regElem)
      end
  end
with add_area (fuel : nat) (src : LaneletMap) (id : Id) (area : Area)
    {struct fuel} : M unit :=
  match fuel with
  | O => lift (Fail Fuel)
  | S fuel =>
      map <~ get_map ;;
      go <~ id_to_add (areaLayer map) id ;;
      match go with
      | None => ret tt
      | Some id =>
          _ <~ iterM add_linestring (area_outer area) ;;
          _ <~ iterM (iterM add_linestring) (area_inner area) ;;
          _ <~ areaLayer_add id area ;;
          iterM (λ r, resolved (regulatoryElementLayer src) r
                        (add_regelem fuel src)) (area_regelems area)
      end
  end.

(** ** [create_updated_map]

    [new_map] is the map of the world, [map_ptr] is only read. *)

Definition create_updated_map (fuel : nat) (map_ptr : LaneletMap)
    (deleted : list Lanelet) : M bool :=
  _ <~ iterM (λ ll, if bool_decide (LlIn ll.1 ∉ deleted)
                     then _ <~ add_lanelet fuel map_ptr ll.1 ll.2 ;; ret tt
                     else ret tt)
         (map_to_list (laneletLayer map_ptr)) ;;
  _ <~ iterM (λ area, add_area fuel map_ptr area.1 area.2)
         (map_to_list (areaLayer map_ptr)) ;;
  _ <~ iterM (λ regEl, add_regelem fuel map_ptr regEl.1 regEl.2)
         (map_to_list (regulatoryElementLayer map_ptr)) ;;
  _ <~ iterM (λ poly, add_polygon poly.1 poly.2)
         (map_to_list (polygonLayer map_ptr)) ;;
  ret true.

(** ** [get_intersection_nodes]

    Of [calign], in [src/map_transformation/align.cpp]: the linestrings
    are read as their points, [ls_pts] holds the points that were met,
    [pt] receives the points whose id was met before. *)

Definition seen_before (point : Point3d) (ls_pts : list Point3d) : bool :=
  existsb (λ ls_pt, bool_decide (pt_id point = pt_id ls_pt)) ls_pts.

Definition visit_point (st : list Point3d * list Point3d) (point : Point3d)
    : list Point3d * list Point3d :=
  let '(ls_pts, pt) := st in
  if seen_before point ls_pts then (ls_pts, pt ++ [point])
  else (ls_pts ++ [point], pt).

Definition get_intersection_nodes (osm_ls : list (list Point3d))
    (pt : list Point3d) : list Point3d :=
  (foldl (λ st ls, foldl visit_point st ls) ([], pt) osm_ls).2.

(** ** Lanelets of the map *)

(** The loop over the lanelet layer, which holds one lanelet per id. *)
Definition find_ll (id : Id) : M Lanelet :=
  map <~ get_map ;;
  match laneletLayer map !! id with
  | Some _ => ret (LlIn id)
  | None =>
      _ <~ print find_ll_message ;;
      ret LlEmpty
  end.

Definition empty_linestring : LineStringData := mkLineStringData InvalId [] ∅.

Definition leftBound (ll : Lanelet) : M LineString3d :=
  match ll with
  | LlIn id =>
      map <~ get_map ;;
      d <~ lift (of_option (laneletLayer map !! id)) ;;
      ret (lld_left d)
  | LlEmpty => alloc empty_linestring
  end.

Definition rightBound (ll : Lanelet) : M LineString3d :=
  match ll with
  | LlIn id =>
      map <~ get_map ;;
      d <~ lift (of_option (laneletLayer map !! id)) ;;
      ret (lld_right d)
  | LlEmpty => alloc empty_linestring
  end.

Definition attributes (ll : Lanelet) : M AttributeMap :=
  match ll with
  | LlIn id =>
      map <~ get_map ;;
      d <~ lift (of_option (laneletLayer map !! id)) ;;
      ret (lld_attrs d)
  | LlEmpty => ret ∅
  end.

(** [ll.attributes()[key] = val]: lost when [ll] is not in the map. *)
Definition set_attribute (ll : Lanelet) (key val : string) : M unit :=
  match ll with
  | LlIn id =>
      map <~ get_map ;;
      set_lanelets
        (alter (λ d, with_attrs d (<[key := val]> (lld_attrs d)))
               id (laneletLayer map))
  | LlEmpty => ret tt
  end.

(** ** Reference implementations of the interfaces

    Used to run the engine on concrete maps. *)

Definition sq (a : float) : float := (a * a)%float.

Definition distance_ref (a b : BasicPoint3d) : float :=
  sqrt (sq (bp_x a - bp_x b) + sq (bp_y a - bp_y b) + sq (bp_z a - bp_z b))%float.

Definition distance2d_ref (a b : Point3d) : float :=
  sqrt (sq (pt_x a - pt_x b) + sq (pt_y a - pt_y b))%float.

(** The point of the segment from [a] to [b] that is closest to [p]. *)
Definition project_segment (a b p : BasicPoint3d) : BasicPoint3d :=
  let abx := (bp_x b - bp_x a)%float in
  let aby := (bp_y b - bp_y a)%float in
  let abz := (bp_z b - bp_z a)%float in
  let len2 := (sq abx + sq aby + sq abz)%float in
  if PrimFloat.eqb len2 0 then a
  else
    let t := (((bp_x p - bp_x a) * abx + (bp_y p - bp_y a) * aby
               + (bp_z p - bp_z a) * abz) / len2)%float in
    let t := if PrimFloat.ltb t 0 then 0%float
             else if PrimFloat.ltb 1 t then 1%float else t in
    mkBasicPoint (bp_x a + t * abx)%float (bp_y a + t * aby)%float
                 (bp_z a + t * abz)%float.

Fixpoint project_from (best : BasicPoint3d) (v : list Point3d)
    (p : BasicPoint3d) : BasicPoint3d :=
  match v with
  | a :: ((b :: _) as tl) =>
      let c := project_segment (basicPoint a) (basicPoint b) p in
      let best := if PrimFloat.ltb (distance_ref c p) (distance_ref best p)
                  then c else best in
      project_from best tl p
  | _ => best
  end.

(** The point of the polyline [v] that is closest to [p]. *)
Definition project_ref (v : list Point3d) (p : BasicPoint3d) : BasicPoint3d :=
  match v with
  | [] => p
  | a :: _ => project_from (basicPoint a) v p
  end.

Definition bounds_of (m : LaneletMap) (heap : gmap loc LineStringData)
    (ll : Lanelet) : option (list Point3d * list Point3d) :=
  match ll with
  | LlIn id =>
      d ← laneletLayer m !! id;
      l ← heap !! ls_loc (lld_left d);
      r ← heap !! ls_loc (lld_right d);
      Some (view l (ls_inverted (lld_left d)), view r (ls_inverted (lld_right d)))
  | LlEmpty => Some ([], [])
  end.

(** [next] follows [prev]: its bounds start where those of [prev] end. *)
Definition follows_ref (m : LaneletMap) (heap : gmap loc LineStringData)
    (prev next : Lanelet) : bool :=
  match bounds_of m heap prev, bounds_of m heap next with
  | Some (pl, pr), Some (nl, nr) =>
      match last pl, head nl, last pr, head nr with
      | Some a, Some b, Some c, Some d => pt_eqb a b && pt_eqb c d
      | _, _, _, _ => false
      end
  | _, _ => false
  end.

Fixpoint all_digits (s : string) : bool :=
  match s with
  | String c r => bool_decide (is_Some (digit_of c)) && all_digits r
  | EmptyString => true
  end.

(** A decimal id, with an optional minus sign. *)
Definition asId_ref (s : string) : option Id :=
  match s with
  | EmptyString => None
  | String "-" r =>
      if bool_decide (r ≠ "") && all_digits r then Some (- read_digits 0 r) else None
  | _ => if all_digits s then Some (read_digits 0 s) else None
  end.

Definition lanelet2_ref : Lanelet2 := {|
  project := project_ref;
  distance := distance_ref;
  distance2d := distance2d_ref;
  follows := follows_ref;
  asId := asId_ref |}.

Definition pi_ref : float := 0x1.921fb54442d18p+1%float.

(** The arc tangent on [-1, 1], within 0.004. *)
Definition atan_unit (z : float) : float :=
  (z * (pi_ref / 4) + 0x1.178d4fdf3b646p-2 * z * (1 - abs z))%float.

Definition atan_ref (z : float) : float :=
  if PrimFloat.leb (abs z) 1 then atan_unit z
  else if PrimFloat.ltb 0 z then (pi_ref / 2 - atan_unit (1 / z))%float
  else (- (pi_ref / 2) - atan_unit (1 / z))%float.

Definition atan2_ref (y x : float) : float :=
  if PrimFloat.ltb 0 x then atan_ref (y / x)
  else if PrimFloat.ltb x 0 then
    if PrimFloat.leb 0 y then (atan_ref (y / x) + pi_ref)%float
    else (atan_ref (y / x) - pi_ref)%float
  else if PrimFloat.ltb 0 y then (pi_ref / 2)%float
  else if PrimFloat.ltb y 0 then (- (pi_ref / 2))%float
  else 0%float.

Definition libm_ref : Libm := {| atan2 := atan2_ref; atan := atan_ref |}.

(** Modelled from the spec: [s_match::update_ref_tags], declared in the
    match header, "update the match's chain to replace, at that index and
    for the same segment object, the old LaneElement id with the new one". *)
Definition update_ref_tags_spec (key : string) (id_orig id_new : Id)
    (ind : nat) (match_ : s_match) : s_match :=
  mkMatch
    (alter (λ seg,
       match seg_attrs seg !! key with
       | Some a =>
           if bool_decide (asId_ref a = Some id_orig) then
             mkSegment (seg_id seg) (seg_pts seg)
                       (<[key := pretty id_new]> (seg_attrs seg))
           else seg
       | None => seg
       end) ind (ref_pline match_))
    (target_pline match_).

(** The chain under [key] without the entries that hold [id], numbered
    from 1 again. *)
Definition rechain (key : string) (id : Id) (attrs : AttributeMap) : AttributeMap :=
  let vals := chain attrs key in
  let kept := filter (λ a, asId_ref a ≠ Some id) vals in
  let cleared :=
    foldl (λ acc i, delete (chain_key key (S i)) acc) attrs (seq 0 (length vals)) in
  foldl (λ acc iv, <[chain_key key (S iv.1) := iv.2]> acc) cleared (imap pair kept).

(** Modelled from the spec: [s_match::remove_tag_ref_pline], declared in
    the match header, "strips its chain entry's attribute key from the
    owning reference segment so later lookups no longer see it", the
    chain staying "contiguous, 1-based". *)
Definition remove_tag_ref_pline_spec (id : Id) (match_ : s_match) : s_match :=
  mkMatch
    ((λ seg, mkSegment (seg_id seg) (seg_pts seg)
               (rechain "ll_id_backward_" id
                  (rechain "ll_id_forward_" id (seg_attrs seg))))
       <$> ref_pline match_)
    (target_pline match_).

Definition matchops_spec : MatchOps := {|
  update_ref_tags := update_ref_tags_spec;
  remove_tag_ref_pline := remove_tag_ref_pline_spec |}.

(** ** Example maps and matches *)

Definition P (id : Id) (x y : float) : Point3d := mkPoint id x y 0 ∅.

(** A curve of three vertices, and two split points: [ex_pt_end] lies
    beyond the end of the curve, so that its projection is the last
    vertex; the projection of [ex_pt_mid] is inside the first segment. *)
Definition ex_curve : list Point3d := [P 1 0 0; P 2 2 1; P 3 4 3].
Definition ex_curve_data : LineStringData := mkLineStringData 100 ex_curve ∅.
Definition ex_ls : LineString3d := mkLineString 1%positive false.
Definition ex_world : World :=
  mkWorld empty_map {[ 1%positive := ex_curve_data ]} 2%positive 1000 [].
Definition ex_pt_end : Point3d := P 50 5 5.
Definition ex_pt_mid : Point3d := P 51 1 0.5.

(** The world after the split of [ex_ls] at [ex_pt_mid]. *)
Definition ex_suffix : LineString3d := mkLineString 2%positive false.
Definition ex_prefix_data : LineStringData :=
  mkLineStringData 100 [P 1 0 0; P 1000 1 0.5] ∅.
Definition ex_world_split : World :=
  mkWorld empty_map
    {[ 1%positive := ex_prefix_data;
       2%positive := mkLineStringData 1001 [P 1000 1 0.5; P 2 2 1; P 3 4 3] ∅ ]}
    3%positive 1002 [].

Definition seg_of (id : Id) (pts : list Point3d) (attrs : list (string * string))
  : Segment :=
  mkSegment id pts (list_to_map attrs).

(** Three lanelets: 12 follows 10, and 11 has no neighbour. *)
Definition ex_heap3 : gmap loc LineStringData :=
  {[ 1%positive := mkLineStringData 101 [P 1 0 0; P 2 10 0] ∅;
     2%positive := mkLineStringData 102 [P 3 0 3; P 4 10 3] ∅;
     3%positive := mkLineStringData 103 [P 5 0 6; P 6 10 6] ∅;
     4%positive := mkLineStringData 104 [P 7 0 9; P 8 10 9] ∅;
     5%positive := mkLineStringData 105 [P 2 10 0; P 9 20 0] ∅;
     6%positive := mkLineStringData 106 [P 4 10 3; P 10 20 3] ∅ ]}.

Definition ex_layer3 : gmap Id LaneletData :=
  {[ 10 := mkLaneletData (mkLineString 1%positive false) (mkLineString 2%positive false) ∅ None [];
     11 := mkLaneletData (mkLineString 3%positive false) (mkLineString 4%positive false) ∅ None [];
     12 := mkLaneletData (mkLineString 5%positive false) (mkLineString 6%positive false) ∅ None [] ]}.

Definition ex_world3 : World :=
  mkWorld (mkMap ex_layer3 ∅ ∅ ∅ ∅ ∅) ex_heap3 7%positive 1000 [].

(** A reference segment that stands for the lanelets 10 and 11. *)
Definition ex_ref_seg : Segment :=
  seg_of 200 [P 20 0 1.5; P 21 10 1.5]
    [("ll_id_forward_1", "10"); ("ll_id_forward_2", "11")].

Definition ex_target_seg (lanes : string) : Segment :=
  seg_of 300 [P 30 0 2; P 31 10 2] [("highway", "primary"); ("lanes", lanes)].

Definition ex_match_lanes (lanes : string) : s_match :=
  mkMatch [ex_ref_seg] [ex_target_seg lanes].

(** A match without reference polyline whose [highway] value changes. *)
Definition ex_match_noref : s_match :=
  mkMatch []
    [seg_of 300 [P 30 0 2; P 31 10 2] [("highway", "motorway")];
     seg_of 301 [P 31 10 2; P 32 20 2] [("highway", "primary")]].

(** A match without target polyline. *)
Definition ex_match_notarget : s_match := mkMatch [ex_ref_seg] [].

(** A match whose [highway] value changes in the middle of the reference
    segment. *)
Definition ex_match_change : s_match :=
  mkMatch [ex_ref_seg]
    [seg_of 300 [P 30 0 2; P 31 5 2] [("highway", "motorway")];
     seg_of 301 [P 31 5 2; P 32 10 2] [("highway", "primary")]].

(** A segment whose forward chain has a gap behind the second entry. *)
Definition ex_gap_seg : Segment :=
  seg_of 201 [P 20 0 1.5; P 21 10 1.5]
    [("ll_id_forward_1", "10"); ("ll_id_forward_2", "11"); ("ll_id_forward_4", "12")].

(** A map with one point that carries two attributes. *)
Definition ex_point_map : LaneletMap :=
  mkMap ∅ ∅ ∅ ∅ ∅
    {[ 1 := mkPoint 1 0 0 0 (list_to_map [("local_x", "1.0"); ("ele", "5")]) ]}.

(** A linestring whose first segment is vertical, and a point on its
    second segment. *)
Definition ex_vertical : list Point3d := [P 1 1 0; P 2 1 1; P 3 2 1].
Definition ex_pt_on_second : Point3d := P 9 1.5 1.

(** Two linestrings that meet in the point 2. *)
Definition ex_ways : list (list Point3d) :=
  [[P 1 0 0; P 2 1 0]; [P 2 1 0; P 3 2 0]].

(** The map of [ex_world3] with a regulatory element that lanelet 10
    holds and that refers to lanelet 11, and an empty new map beside the
    linestrings of that map. *)
Definition ex_map_regelem : LaneletMap :=
  mkMap (<[10 := mkLaneletData (mkLineString 1%positive false)
                   (mkLineString 2%positive false) ∅ None [500]]> ex_layer3)
        ∅ {[ 500 := mkRegElem ∅ [ParamLanelet 11] ]} ∅ ∅ ∅.

Definition ex_world_new : World := mkWorld empty_map ex_heap3 7%positive 1000 [].

(** Three lanelets in a row, one for each of three reference segments,
    and a target polyline whose [shoulder] value changes at x = 12 and
    whose [lanes] value changes at x = 25. *)
Definition ex_heap_row : gmap loc LineStringData :=
  {[ 1%positive := mkLineStringData 201 [P 1 0 0; P 2 10 0] ∅;
     2%positive := mkLineStringData 202 [P 3 0 3; P 4 10 3] ∅;
     3%positive := mkLineStringData 203 [P 2 10 0; P 5 20 0] ∅;
     4%positive := mkLineStringData 204 [P 4 10 3; P 6 20 3] ∅;
     5%positive := mkLineStringData 205 [P 5 20 0; P 7 30 0] ∅;
     6%positive := mkLineStringData 206 [P 6 20 3; P 8 30 3] ∅ ]}.

Definition ex_layer_row : gmap Id LaneletData :=
  {[ 20 := mkLaneletData (mkLineString 1%positive false) (mkLineString 2%positive false) ∅ None [];
     21 := mkLaneletData (mkLineString 3%positive false) (mkLineString 4%positive false) ∅ None [];
     22 := mkLaneletData (mkLineString 5%positive false) (mkLineString 6%positive false) ∅ None [] ]}.

Definition ex_world_row : World :=
  mkWorld (mkMap ex_layer_row ∅ ∅ ∅ ∅ ∅) ex_heap_row 7%positive 1000 [].

Definition ex_match_row : s_match :=
  mkMatch
    [seg_of 210 [P 40 0 1.5; P 41 10 1.5] [("ll_id_forward_1", "20")];
     seg_of 211 [P 41 10 1.5; P 42 20 1.5] [("ll_id_forward_1", "21")];
     seg_of 212 [P 42 20 1.5; P 43 30 1.5] [("ll_id_forward_1", "22")]]
    [seg_of 310 [P 50 0 2; P 51 12 2] [("lanes", "1"); ("shoulder", "yes")];
     seg_of 311 [P 51 12 2; P 52 25 2] [("lanes", "1")];
     seg_of 312 [P 52 25 2; P 53 30 2] [("lanes", "2")]].

(** ** [split_linestring] *)

(** The literal [1e-3] as the binary64 value nearest to it. *)
Definition tolerance : float := 0x1.0624dd2f1a9fcp-10%float.

Definition midpoint (id : Id) (a b : Point3d) : Point3d :=
  mkPoint id ((pt_x a + pt_x b) / 2)%float ((pt_y a + pt_y b) / 2)%float
          ((pt_z a + pt_z b) / 2)%float ∅.

Section Engine.
Context `{Lanelet2} `{Libm} `{MatchOps}.

(** The part of [split_linestring] from the projection of the split
    point to the choice of the split vertex [new_pt] and of the index
    [ind] of the last vertex that the original linestring keeps, for the
    linestring read as [v].  [new_id] is the id that [new_pt] was given
    when it was created. *)
Definition split_vertex (new_id : Id) (v : list Point3d) (pt : Point3d)
  : outcome (Point3d * nat) :=
  let pt_proj := project v (basicPoint pt) in
  let d := map (λ pt_ls, distance pt_proj (basicPoint pt_ls)) v in
  let k := min_element d in
  dmin <- at_ d k ;;;
  if PrimFloat.ltb dmin tolerance then
    if bool_decide (k = 0%nat) then
      p0 <- at_ v 0 ;;;
      p1 <- at_ v 1 ;;;
      let new_pt := midpoint new_id p0 p1 in
      ind <- find_segment_2D new_pt v ;;;
      Ok (new_pt, ind)
    else if bool_decide ((length d - k)%nat = 0%nat) then
      let sz := length v in
      p0 <- at_ v (sz - 1) ;;;
      p1 <- at_ v sz ;;;
      let new_pt := midpoint new_id p0 p1 in
      ind <- find_segment_2D new_pt v ;;;
      Ok (new_pt, ind)
    else
      new_pt <- at_ v k ;;;
      Ok (new_pt, k)
  else
    let new_pt := mkPoint new_id (bp_x pt_proj) (bp_y pt_proj) (bp_z pt_proj) ∅ in
    ind <- find_segment_2D new_pt v ;;;
    Ok (new_pt, ind).

Definition split_linestring (orig_ls : LineString3d) (splitted : list Id)
    (new_lss : list LineString3d) (pt : Point3d) (inv : bool)
  : M (LineString3d * list Id * list LineString3d) :=
  let orig_ls := if inv then invert orig_ls else orig_ls in
  d <~ deref orig_ls ;;
  r <~
    (if negb (used_Id splitted (lsd_id d)) then
       let v := view d (ls_inverted orig_ls) in
       new_id <~ getId ;;
       sv <~ lift (split_vertex new_id v pt) ;;
       let '(new_pt, ind) := sv in
       ls_id <~ getId ;;
       new_ls <~ alloc (mkLineStringData ls_id (new_pt :: drop (S ind) v) (lsd_attrs d)) ;;
       _ <~ store (ls_loc orig_ls)
              (set_view d (ls_inverted orig_ls) (take (S ind) v ++ [new_pt])) ;;
       ret (new_ls, splitted ++ [lsd_id d], new_lss ++ [new_ls])
     else
       let ind := index_of (lsd_id d) splitted in
       new_ls <~ lift (at_ new_lss ind) ;;
       ret (new_ls, splitted, new_lss)) ;;
  let '(new_ls, splitted, new_lss) := r in
  ret (if inv then invert new_ls else new_ls, splitted, new_lss).

(** ** [split_ll_dir] and [split_lanelet] *)

(** The loop re-reads the segment of the match that its body updates, so
    that it is bounded by [fuel] here. *)
Fixpoint split_ll_dir_loop (fuel : nat) (match_ : s_match) (ind : nat)
    (key : string) (i : nat) (splitted : list Id) (newls : list LineString3d)
    (pt : Point3d) : M (s_match * list Id * list LineString3d) :=
  seg <~ lift (at_ (ref_pline match_) ind) ;;
  let key_ind := chain_key key i in
  let inv := contains "backward" key in
  match seg_attrs seg !! key_ind with
  | None => ret (match_, splitted, newls)
  | Some a =>
      match fuel with
      | O => lift (Fail Fuel)
      | S fuel =>
          id <~ lift (of_option (asId a)) ;;
          orig <~ find_ll id ;;
          left <~ leftBound orig ;;
          r <~ split_linestring left splitted newls pt inv ;;
          let '(new_left, splitted, newls) := r in
          right <~ rightBound orig ;;
          r <~ split_linestring right splitted newls pt inv ;;
          let '(new_right, splitted, newls) := r in
          attrs <~ attributes orig ;;
          new_id <~ getId ;;
          map <~ get_map ;;
          new_id <~ add_lanelet 1 map new_id
                      (mkLaneletData new_left new_right attrs None []) ;;
          let match_ := update_ref_tags key_ind (ll_id orig) new_id ind match_ in
          split_ll_dir_loop fuel match_ ind key (S i) splitted newls pt
      end
  end.

Definition split_ll_dir (fuel : nat) (match_ : s_match) (ind : nat)
    (key : string) (splitted : list Id) (newls : list LineString3d)
    (pt : Point3d) : M (s_match * list Id * list LineString3d) :=
  split_ll_dir_loop fuel match_ ind key 1 splitted newls pt.

(** ** [get_index] and [same_direction] *)

Definition get_index (match_ : s_match) (pt : Point3d) : outcome nat :=
  d <- omapM (λ seg,
         f <- front (seg_pts seg) ;;;
         b <- back (seg_pts seg) ;;;
         Ok (distance2d f pt + distance2d b pt)%float) (ref_pline match_) ;;;
  Ok (min_element d).

Definition same_direction (match_ : s_match) : outcome bool :=
  if bool_decide (ref_pline match_ ≠ [] ∧ target_pline match_ ≠ []) then
    rb <- back (ref_pline match_) ;;;
    rbb <- back (seg_pts rb) ;;;
    rf <- front (ref_pline match_) ;;;
    rff <- front (seg_pts rf) ;;;
    tb <- back (target_pline match_) ;;;
    tbb <- back (seg_pts tb) ;;;
    tf <- front (target_pline match_) ;;;
    tff <- front (seg_pts tf) ;;;
    let v1x := (pt_x rbb - pt_x rff)%float in
    let v1y := (pt_y rbb - pt_y rff)%float in
    let v2x := (pt_x tbb - pt_x tff)%float in
    let v2y := (pt_y tbb - pt_y tff)%float in
    let angle := atan2 (v1x * v2y - v2x * v1y)%float (v1x * v2x + v1y * v2y)%float in
    Ok (PrimFloat.ltb (abs angle) (atan 1 * 2)%float)
  else Ok false.

Fixpoint split_lanelet_loop (fuel : nat) (match_ : s_match)
    (pts : list Point3d) (splitted : list Id) (newLss : list LineString3d)
    : M s_match :=
  match pts with
  | [] => ret match_
  | pt :: pts =>
      ind <~ lift (get_index match_ pt) ;;
      r <~ split_ll_dir fuel match_ ind "ll_id_forward_" splitted newLss pt ;;
      let '(match_, splitted, newLss) := r in
      r <~ split_ll_dir fuel match_ ind "ll_id_backward_" splitted newLss pt ;;
      let '(match_, splitted, newLss) := r in
      split_lanelet_loop fuel match_ pts splitted newLss
  end.

Definition split_lanelet (fuel : nat) (match_ : s_match) (pts : list Point3d)
    : M s_match :=
  split_lanelet_loop fuel match_ pts [] [].

(** ** [split_on_tag_change] *)

Definition split_on_tag_change (fuel : nat) (match_ : s_match)
    (target_keys : list string)
    : M (s_match * list (list Point3d) * list (list string)) :=
  r <~ lift (check_tag_change (target_pline match_) target_keys [] []) ;;
  let '(pts_change, values) := r in
  let pts_merged := merge_point_vec pts_change in
  match_ <~ (if bool_decide (pts_merged ≠ []) then split_lanelet fuel match_ pts_merged
             else ret match_) ;;
  ret (match_, pts_change, values).

(** ** Writing a value on the lanelets of a segment *)

Fixpoint set_value_ids (ids : list string) (key_ref val : string)
    (setll : list Id) : M (list Id) :=
  match ids with
  | [] => ret setll
  | a :: ids =>
      id <~ lift (of_option (asId a)) ;;
      ll <~ find_ll id ;;
      setll <~ (if negb (used_Id setll (ll_id ll)) then
                  _ <~ set_attribute ll key_ref val ;;
                  ret (setll ++ [ll_id ll])
                else ret setll) ;;
      set_value_ids ids key_ref val setll
  end.

Definition set_value_dir (key : string) (seg : Segment) (key_ref val : string)
    (setll : list Id) : M (list Id) :=
  set_value_ids (chain (seg_attrs seg) key) key_ref val setll.

Definition count_lanes_dir (key : string) (seg : Segment) (count : Z) : Z :=
  count + Z.of_nat (length (chain (seg_attrs seg) key)).

Fixpoint set_color_code_ids (ids : list string) (col_code : string)
    (cols : list (Id * string)) : M (list (Id * string)) :=
  match ids with
  | [] => ret cols
  | a :: ids =>
      id <~ lift (of_option (asId a)) ;;
      ll <~ find_ll id ;;
      let cols := if negb (used_Id_cols cols (ll_id ll))
                  then cols ++ [(ll_id ll, col_code)] else cols in
      set_color_code_ids ids col_code cols
  end.

Definition set_color_code_dir (key : string) (seg : Segment) (col_code : string)
    (cols : list (Id * string)) : M (list (Id * string)) :=
  set_color_code_ids (chain (seg_attrs seg) key) col_code cols.

(** The value that is active at segment [ind]: the loop over [j] with
    [if (ind >= ind_change[j]) val = values[j + 1]]. *)
Fixpoint active_value {A} (ind j : nat) (ind_change : list nat)
    (values : list A) (val : A) : outcome A :=
  match ind_change with
  | [] => Ok val
  | c :: ind_change =>
      if bool_decide (c ≤ ind)%nat then
        val <- at_ values (S j) ;;;
        active_value ind (S j) ind_change values val
      else active_value ind (S j) ind_change values val
  end.

(** ** [set_type_location] *)

Fixpoint set_type_location_loop (segs : list Segment) (ind : nat)
    (ind_change : list nat) (values : list string)
    (set_ll_subtype set_ll_location : list Id) : M unit :=
  match segs with
  | [] => ret tt
  | seg :: segs =>
      val <~ lift (front values) ;;
      val <~ lift (active_value ind 0 ind_change values val) ;;
      let '(subtype, location) := highway2subtype_location val in
      set_ll_subtype <~ set_value_dir "ll_id_forward_" seg "subtype" subtype set_ll_subtype ;;
      set_ll_subtype <~ set_value_dir "ll_id_backward_" seg "subtype" subtype set_ll_subtype ;;
      set_ll_location <~ set_value_dir "ll_id_forward_" seg "location" location set_ll_location ;;
      set_ll_location <~ set_value_dir "ll_id_backward_" seg "location" location set_ll_location ;;
      set_type_location_loop segs (S ind) ind_change values set_ll_subtype set_ll_location
  end.

Definition set_type_location (match_ : s_match) (pts_change : list Point3d)
    (values : list string) : M unit :=
  if bool_decide (values ≠ []) then
    ind_change <~ lift (omapM (get_index match_) pts_change) ;;
    sd <~ lift (same_direction match_) ;;
    let values := if negb sd then rev values else values in
    set_type_location_loop (ref_pline match_) 0 ind_change values [] []
  else ret tt.

(** ** [transfer_tag] and [transfer_att] *)

Fixpoint transfer_tag_loop (segs : list Segment) (ind : nat) (key_ref : string)
    (ind_change : list nat) (values : list string) (setll : list Id)
    : M (list Id) :=
  match segs with
  | [] => ret setll
  | seg :: segs =>
      val <~ lift (front values) ;;
      val <~ lift (active_value ind 0 ind_change values val) ;;
      setll <~ set_value_dir "ll_id_forward_" seg key_ref val setll ;;
      setll <~ set_value_dir "ll_id_backward_" seg key_ref val setll ;;
      transfer_tag_loop segs (S ind) key_ref ind_change values setll
  end.

Definition transfer_tag (match_ : s_match) (key_ref : string)
    (ind_change : list nat) (values : list string) (setll : list Id)
    : M (list Id) :=
  if bool_decide (values ≠ []) then
    sd <~ lift (same_direction match_) ;;
    let values := if negb sd then rev values else values in
    transfer_tag_loop (ref_pline match_) 0 key_ref ind_change values setll
  else ret setll.

Definition transfer_att (match_ : s_match) (ref_key : string)
    (pts_change : list Point3d) (values : list string) : M unit :=
  ind_change <~ lift (omapM (get_index match_) pts_change) ;;
  _ <~ transfer_tag match_ ref_key ind_change values [] ;;
  ret tt.

(** ** [find_wrong_lanelet] *)

Fixpoint find_wrong_lanelet_candidates_loop (attrs : list (string * string))
    (cand : list Lanelet) : M (list Lanelet) :=
  match attrs with
  | [] => ret cand
  | attr :: attrs =>
      if contains "forward" attr.1 || contains "backward" attr.1 then
        id <~ lift (of_option (asId attr.2)) ;;
        ll <~ find_ll id ;;
        find_wrong_lanelet_candidates_loop attrs (cand ++ [ll])
      else find_wrong_lanelet_candidates_loop attrs cand
  end.

Definition find_wrong_lanelet_candidates (seg : Segment) (cand : list Lanelet)
    : M (list Lanelet) :=
  find_wrong_lanelet_candidates_loop (attr_items (seg_attrs seg)) cand.

(** The elements of the lanelet layer. *)
Definition lanelets_of (m : LaneletMap) : list Lanelet :=
  LlIn <$> (map_to_list (laneletLayer m)).*1.

Definition has_predecessor (m : LaneletMap) (heap : gmap loc LineStringData)
    (ll : Lanelet) : bool :=
  existsb (λ ll_, bool_decide (ll_id ll_ ≠ ll_id ll) && follows m heap ll_ ll)
          (lanelets_of m).

Definition has_successor (m : LaneletMap) (heap : gmap loc LineStringData)
    (ll : Lanelet) : bool :=
  existsb (λ ll_, bool_decide (ll_id ll_ ≠ ll_id ll) && follows m heap ll ll_)
          (lanelets_of m).

(** Neither a predecessor nor a successor. *)
Definition lonely (m : LaneletMap) (heap : gmap loc LineStringData)
    (ll : Lanelet) : bool :=
  negb (has_predecessor m heap ll) && negb (has_successor m heap ll).

Definition find_wrong_lanelet (seg : Segment) (deleted : list Lanelet)
    (match_ : s_match) : M (bool * list Lanelet * s_match) :=
  candidates <~ find_wrong_lanelet_candidates seg [] ;;
  λ w,
    match List.find (lonely (w_map w) (w_heap w)) candidates with
    | Some ll_found =>
        Ok ((true, deleted ++ [ll_found],
             remove_tag_ref_pline (ll_id ll_found) match_), w)
    | None => Ok ((false, deleted, match_), w)
    end.

(** ** [check_lanes] *)

(** The values of the [lanes] and [shoulder] tags at the merged points. *)
Fixpoint merged_values (pts_merged pts_change_lanes pts_change_shoulder : list Point3d)
    (val_lanes val_shoulder : list string) (count_lanes count_shoulder : nat)
    (val_lanes_new val_shoulder_new : list string)
    : outcome (list string * list string) :=
  match pts_merged with
  | [] => Ok (val_lanes_new, val_shoulder_new)
  | pt :: pts_merged =>
      let count_lanes :=
        if existsb (λ q, pt_eqb q pt) pts_change_lanes then S count_lanes
        else count_lanes in
      let count_shoulder :=
        if existsb (λ q, pt_eqb q pt) pts_change_shoulder then S count_shoulder
        else count_shoulder in
      vl <- at_ val_lanes count_lanes ;;;
      vs <- at_ val_shoulder count_shoulder ;;;
      merged_values pts_merged pts_change_lanes pts_change_shoulder
        val_lanes val_shoulder count_lanes count_shoulder
        (val_lanes_new ++ [vl]) (val_shoulder_new ++ [vs])
  end.

(** The lanelets that a segment stands for, forward and backward. *)
Definition lanes_count_of (seg : Segment) : Z :=
  count_lanes_dir "ll_id_backward_" seg (count_lanes_dir "ll_id_forward_" seg 0).

(** [lanes_osm] of a segment whose active [lanes] value is not empty. *)
Definition lanes_osm_of (val_lane val_sh : string) : outcome Z :=
  lanes_osm <- stoi val_lane ;;;
  if bool_decide (val_sh = "yes" ∨ val_sh = "left" ∨ val_sh = "right") then
    int_add lanes_osm 1
  else if bool_decide (val_sh = "both") then int_add lanes_osm 2
  else Ok lanes_osm.

(** The colour code of a segment and its [lanes_osm] (0 without tag). *)
Definition col_code_of (val_lane val_sh : string) (lanes_count : Z)
    : outcome (string * Z) :=
  if bool_decide (val_lane ≠ "") then
    lanes_osm <- lanes_osm_of val_lane val_sh ;;;
    if bool_decide (lanes_count = lanes_osm) then Ok ("WEBGreen", lanes_osm)
    else Ok ("WEBRed", lanes_osm)
  else Ok ("WEBBlueLight", 0).

(** [while (lanes_count > lanes_osm)]: [excess] is the difference, each
    turn of the loop removes one lanelet or leaves the loop. *)
Fixpoint remove_wrong_lanelets (excess : nat) (ind : nat)
    (deleted : list Lanelet) (match_ : s_match)
    : M (list Lanelet * s_match) :=
  match excess with
  | O => ret (deleted, match_)
  | S excess =>
      seg <~ lift (at_ (ref_pline match_) ind) ;;
      r <~ find_wrong_lanelet seg deleted match_ ;;
      let '(found, deleted, match_) := r in
      if found : bool then remove_wrong_lanelets excess ind deleted match_
      else
        _ <~ print skip_message ;;
        ret (deleted, match_)
  end.

(** The body of the loop over the segments of the reference polyline. *)
Definition check_lanes_seg (ind : nat) (ind_change : list nat)
    (val_lanes_new val_shoulder_new : list string)
    (cols : list (Id * string)) (deleted : list Lanelet) (match_ : s_match)
    : M (list (Id * string) * list Lanelet * s_match) :=
  seg <~ lift (at_ (ref_pline match_) ind) ;;
  val_lane <~ lift (front val_lanes_new) ;;
  val_sh <~ lift (front val_shoulder_new) ;;
  vals <~ lift (active_value ind 0 ind_change
                  (zip val_lanes_new val_shoulder_new) (val_lane, val_sh)) ;;
  let '(val_lane, val_sh) := vals in
  let lanes_count := lanes_count_of seg in
  cc <~ lift (col_code_of val_lane val_sh lanes_count) ;;
  let '(col_code, lanes_osm) := cc in
  cols <~ set_color_code_dir "ll_id_forward_" seg col_code cols ;;
  cols <~ set_color_code_dir "ll_id_backward_" seg col_code cols ;;
  r <~ (if bool_decide (val_lane ≠ "") then
          remove_wrong_lanelets (Z.to_nat (lanes_count - lanes_osm)) ind deleted match_
        else ret (deleted, match_)) ;;
  let '(deleted, match_) := r in
  ret (cols, deleted, match_).

Fixpoint check_lanes_loop (n ind : nat) (ind_change : list nat)
    (val_lanes_new val_shoulder_new : list string)
    (cols : list (Id * string)) (deleted : list Lanelet) (match_ : s_match)
    : M (list (Id * string) * list Lanelet * s_match) :=
  match n with
  | O => ret (cols, deleted, match_)
  | S n =>
      r <~ check_lanes_seg ind ind_change val_lanes_new val_shoulder_new
             cols deleted match_ ;;
      let '(cols, deleted, match_) := r in
      check_lanes_loop n (S ind) ind_change val_lanes_new val_shoulder_new
        cols deleted match_
  end.

Definition check_lanes (match_ : s_match) (cols : list (Id * string))
    (pts_change_lanes pts_change_shoulder : list Point3d)
    (val_lanes val_shoulder : list string) (deleted : list Lanelet)
    : M (list (Id * string) * list Lanelet * s_match) :=
  let pts_merged := merge_point_vec [pts_change_lanes; pts_change_shoulder] in
  ind_change <~ lift (omapM (get_index match_) pts_merged) ;;
  sd <~ lift (same_direction match_) ;;
  let val_lanes := if negb sd then rev val_lanes else val_lanes in
  let val_shoulder := if negb sd then rev val_shoulder else val_shoulder in
  l0 <~ lift (front val_lanes) ;;
  s0 <~ lift (front val_shoulder) ;;
  vn <~ lift (merged_values pts_merged pts_change_lanes pts_change_shoulder
                val_lanes val_shoulder 0 0 [l0] [s0]) ;;
  let '(val_lanes_new, val_shoulder_new) := vn in
  check_lanes_loop (length (ref_pline match_)) 0 ind_change
    val_lanes_new val_shoulder_new cols deleted match_.

(** ** [conflate_lanelet_OSM] *)

Definition target_keys : list string :=
  ["highway"; "maxspeed"; "name"; "oneway"; "surface"; "lane_markings";
   "lanes"; "shoulder"].

(** The body of the loop over the matches. *)
Definition conflate_match (fuel : nat) (match_ : s_match)
    (cols : list (Id * string)) (deleted : list Lanelet)
    : M (s_match * list (Id * string) * list Lanelet) :=
  if bool_decide (target_pline match_ ≠ []) then
    r <~ split_on_tag_change fuel match_ target_keys ;;
    let '(match_, pts_change, values) := r in
    p0 <~ lift (at_ pts_change 0) ;; v0 <~ lift (at_ values 0) ;;
    _ <~ set_type_location match_ p0 v0 ;;
    p1 <~ lift (at_ pts_change 1) ;; v1 <~ lift (at_ values 1) ;;
    _ <~ transfer_att match_ "speed_limit" p1 v1 ;;
    p2 <~ lift (at_ pts_change 2) ;; v2 <~ lift (at_ values 2) ;;
    _ <~ transfer_att match_ "road_name" p2 v2 ;;
    p3 <~ lift (at_ pts_change 3) ;; v3 <~ lift (at_ values 3) ;;
    _ <~ transfer_att match_ "one_way" p3 v3 ;;
    p4 <~ lift (at_ pts_change 4) ;; v4 <~ lift (at_ values 4) ;;
    _ <~ transfer_att match_ "road_surface" p4 v4 ;;
    p5 <~ lift (at_ pts_change 5) ;; v5 <~ lift (at_ values 5) ;;
    _ <~ transfer_att match_ "lane_markings" p5 v5 ;;
    p6 <~ lift (at_ pts_change 6) ;; p7 <~ lift (at_ pts_change 7) ;;
    v6 <~ lift (at_ values 6) ;; v7 <~ lift (at_ values 7) ;;
    r <~ check_lanes match_ cols p6 p7 v6 v7 deleted ;;
    let '(cols, deleted, match_) := r in
    ret (match_, cols, deleted)
  else ret (match_, cols, deleted).

Fixpoint conflate_matches (fuel : nat) (matches : list s_match)
    (cols : list (Id * string)) (deleted : list Lanelet)
    : M (list s_match * list (Id * string) * list Lanelet) :=
  match matches with
  | [] => ret ([], cols, deleted)
  | match_ :: matches =>
      r <~ conflate_match fuel match_ cols deleted ;;
      let '(match_, cols, deleted) := r in
      r <~ conflate_matches fuel matches cols deleted ;;
      let '(matches, cols, deleted) := r in
      ret (match_ :: matches, cols, deleted)
  end.

Definition final_messages : list string :=
  [yellow "~~~~~> Set lanelet subtype and location based on OSM highway tag!";
   yellow "~~~~~> Transferred maxspeed to speed_limit!";
   yellow "~~~~~> Transferred name to road_name!";
   yellow "~~~~~> Transferred oneway to one_way!";
   yellow "~~~~~> Transferred surface to road_surface!";
   yellow "~~~~~> Transferred lane_markings to lane_markings!";
   yellow "~~~~~> Colorized lanelets based on amount of adjacent lanes!"].

Fixpoint print_all (msgs : list string) : M unit :=
  match msgs with
  | [] => ret tt
  | s :: msgs => _ <~ print s ;; print_all msgs
  end.

Definition conflate_lanelet_OSM (fuel : nat) (matches : list s_match)
    (cols : list (Id * string)) (deleted : list Lanelet)
    : M (bool * list s_match * list (Id * string) * list Lanelet) :=
  r <~ conflate_matches fuel matches cols deleted ;;
  let '(matches, cols, deleted) := r in
  _ <~ print_all final_messages ;;
  ret (true, matches, cols, deleted).

End Engine.


(** ** Lookups that the engine does not call *)

(** [find_ll_from_bound]: the loop over the lanelet layer, which stops at
    the first lanelet whose bounds have the ids of [left] and [right]. *)

(** [ls.id()] *)
Definition ls_id (ls : LineString3d) : M Id :=
  d <~ deref ls ;; ret (lsd_id d).

Fixpoint find_ll_from_bound_loop (lls : list (Id * LaneletData))
    (left right : LineString3d) : M Lanelet :=
  match lls with
  | [] =>
      _ <~ print find_ll_from_bound_message ;;
      ret LlEmpty
  | ll :: lls =>
      l <~ ls_id (lld_left ll.2) ;;
      l' <~ ls_id left ;;
      if bool_decide (l = l') then
        r <~ ls_id (lld_right ll.2) ;;
        r' <~ ls_id right ;;
        if bool_decide (r = r') then ret (LlIn ll.1)
        else find_ll_from_bound_loop lls left right
      else find_ll_from_bound_loop lls left right
  end.

Definition find_ll_from_bound (left right : LineString3d) : M Lanelet :=
  map <~ get_map ;;
  find_ll_from_bound_loop (map_to_list (laneletLayer map)) left right.

(** A null [map_ptr] is [None]. *)
Definition lanelet_layer (map_ptr : option LaneletMap) : M (list Lanelet) :=
  match map_ptr with
  | None => _ <~ print "No map received!" ;; ret []
  | Some m => ret (lanelets_of m)
  end.

(** ** Predicates of the statements *)

(** From [w] to [w'] nothing but console output. *)
Definition log_only (w w' : World) : Prop :=
  w_map w' = w_map w ∧ w_heap w' = w_heap w ∧
  w_next_loc w' = w_next_loc w ∧ w_next_id w' = w_next_id w ∧
  w_log w `prefix_of` w_log w'.

(** [cols'] is [cols] followed by entries for ids that had none, one
    each. *)
Definition cols_grow (cols cols' : list (Id * string)) : Prop :=
  ∃ added, cols' = cols ++ added ∧ NoDup added.*1 ∧
           ∀ e, e ∈ added → e.1 ∉ cols.*1.

(** The id of the lanelet that [find_ll] returns for [id]. *)
Definition found_id (m : LaneletMap) (id : Id) : Id :=
  match laneletLayer m !! id with Some _ => id | None => InvalId end.

(** No C++ exception leaves the computation. *)
Definition o_no_throw {A} (o : outcome A) : Prop := ∀ e, o ≠ Throws e.
Definition no_throw {A} (m : M A) : Prop := ∀ w e, m w ≠ Throws e.

(** The increment of [lanes_osm] for a [shoulder] value. *)
Definition shoulder_lanes (val_sh : string) : Z :=
  if bool_decide (val_sh = "yes" ∨ val_sh = "left" ∨ val_sh = "right") then 1
  else if bool_decide (val_sh = "both") then 2 else 0.

Definition lanelets_kept (keys : list string) (l l' : gmap Id LaneletData) : Prop :=
  ∀ id d, l !! id = Some d →
    ∃ d', l' !! id = Some d' ∧
      lld_left d' = lld_left d ∧ lld_right d' = lld_right d ∧
      (lld_centerline d' = lld_centerline d ∧ lld_regelems d' = lld_regelems d) ∧
      ∀ k, k ∉ keys → lld_attrs d' !! k = lld_attrs d !! k.

(** The linestrings of [h] are in [h'] with their attributes and, when
    they have one, with their id. *)
Definition linestrings_kept (h h' : gmap loc LineStringData) : Prop :=
  ∀ l d, h !! l = Some d →
    ∃ d', h' !! l = Some d' ∧ (lsd_id d ≠ InvalId → lsd_id d' = lsd_id d) ∧
          lsd_attrs d' = lsd_attrs d.

(** No linestring at or above the next free location. *)
Definition heap_wf (w : World) : Prop :=
  ∀ l : loc, (w_next_loc w ≤ l)%positive → w_heap w !! l = None.

(** From [w] to [w'] nothing is taken away: lanelets and linestrings are
    kept, the layers of the linestrings and of the points keep their
    entries, the layers of the areas, the regulatory elements and the
    polygons are the same, the counters and the console output only
    grow. *)
Definition world_kept (keys : list string) (w w' : World) : Prop :=
  lanelets_kept keys (laneletLayer (w_map w)) (laneletLayer (w_map w')) ∧
  areaLayer (w_map w') = areaLayer (w_map w) ∧
  regulatoryElementLayer (w_map w') = regulatoryElementLayer (w_map w) ∧
  polygonLayer (w_map w') = polygonLayer (w_map w) ∧
  (lineStringLayer (w_map w) ⊆ lineStringLayer (w_map w') ∧
   pointLayer (w_map w) ⊆ pointLayer (w_map w')) ∧
  linestrings_kept (w_heap w) (w_heap w') ∧
  (w_next_loc w ≤ w_next_loc w')%positive ∧
  w_next_id w ≤ w_next_id w' ∧
  w_log w `prefix_of` w_log w'.

(** From [w] to [w'] points and linestrings were filed in the map. *)
Definition prims_added (w w' : World) : Prop :=
  laneletLayer (w_map w') = laneletLayer (w_map w) ∧
  areaLayer (w_map w') = areaLayer (w_map w) ∧
  regulatoryElementLayer (w_map w') = regulatoryElementLayer (w_map w) ∧
  polygonLayer (w_map w') = polygonLayer (w_map w) ∧
  lineStringLayer (w_map w) ⊆ lineStringLayer (w_map w') ∧
  pointLayer (w_map w) ⊆ pointLayer (w_map w') ∧
  linestrings_kept (w_heap w) (w_heap w') ∧
  (∀ l : loc, w_heap w !! l = None → w_heap w' !! l = None) ∧
  w_next_loc w' = w_next_loc w ∧ w_next_id w ≤ w_next_id w' ∧
  w_log w' = w_log w.

(** From [w] to [w'] elements were filed in the map: every layer keeps
    its entries. *)
Definition grown (w w' : World) : Prop :=
  laneletLayer (w_map w) ⊆ laneletLayer (w_map w') ∧
  areaLayer (w_map w) ⊆ areaLayer (w_map w') ∧
  regulatoryElementLayer (w_map w) ⊆ regulatoryElementLayer (w_map w') ∧
  polygonLayer (w_map w) ⊆ polygonLayer (w_map w') ∧
  lineStringLayer (w_map w) ⊆ lineStringLayer (w_map w') ∧
  pointLayer (w_map w) ⊆ pointLayer (w_map w') ∧
  linestrings_kept (w_heap w) (w_heap w') ∧
  (∀ l : loc, w_heap w !! l = None → w_heap w' !! l = None) ∧
  w_next_loc w' = w_next_loc w ∧ w_next_id w ≤ w_next_id w' ∧
  w_log w' = w_log w.

(** The lanelets that the regulatory elements filed from [w] to [w']
    refer to are in the map. *)
Definition refs_filed (src : LaneletMap) (w w' : World) : Prop :=
  ∀ r regElem i,
    regulatoryElementLayer (w_map w') !! r = Some regElem →
    regulatoryElementLayer (w_map w) !! r = None →
    ParamLanelet i ∈ regelem_params regElem → i ≠ InvalId →
    is_Some (laneletLayer src !! i) →
    is_Some (laneletLayer (w_map w') !! i).

(** The lanelets, areas and regulatory elements of [w'] are those of [w]
    and elements of [src]. *)
Definition from_src (src : LaneletMap) (w w' : World) : Prop :=
  (∀ id x, laneletLayer (w_map w') !! id = Some x →
     laneletLayer (w_map w) !! id = Some x ∨ laneletLayer src !! id = Some x) ∧
  (∀ id x, areaLayer (w_map w') !! id = Some x →
     areaLayer (w_map w) !! id = Some x ∨ areaLayer src !! id = Some x) ∧
  (∀ id x, regulatoryElementLayer (w_map w') !! id = Some x →
     regulatoryElementLayer (w_map w) !! id = Some x ∨
     regulatoryElementLayer src !! id = Some x).

Definition adds (src : LaneletMap) (w w' : World) : Prop :=
  grown w w' ∧ refs_filed src w w' ∧ from_src src w w'.

(** No element of the map is filed under [InvalId]. *)
Definition ids_valid (m : LaneletMap) : Prop :=
  laneletLayer m !! InvalId = None ∧ areaLayer m !! InvalId = None ∧
  regulatoryElementLayer m !! InvalId = None ∧ polygonLayer m !! InvalId = None.

(** A computation that takes nothing away, from a world whose next free
    location is free. *)
Definition keeps {A} (keys : list string) (m : M A) : Prop :=
  ∀ w a w', m w = Ok (a, w') → heap_wf w → heap_wf w' ∧ world_kept keys w w'.

Definition written_keys : list string :=
  ["subtype"; "location"; "speed_limit"; "road_name"; "one_way"; "road_surface";
   "lane_markings"].

(** The chain entries of a segment, forward then backward. *)
Definition seg_ids (seg : Segment) : list string :=
  chain (seg_attrs seg) "ll_id_forward_" ++ chain (seg_attrs seg) "ll_id_backward_".

(** [ll.attributes()[key] = val] on the data of a lanelet. *)
Definition set_attr (key val : string) (d : LaneletData) : LaneletData :=
  with_attrs d (<[key := val]> (lld_attrs d)).

(** The entries of [segs] in the order the loops over a reference
    polyline visit them. *)
Definition pline_ids (segs : list Segment) : list string :=
  concat (seg_ids <$> segs).

Section Writes.
Context `{Lanelet2}.

(** What a pass that writes on the lanelets named by [ids] does, with its
    memo going from [s] to [s']: the lanelets in the memo and the lanelets
    that are not named stay as they are, a named lanelet that is not in
    the memo becomes [f] of itself, and the memo receives the ids that
    [find_ll] returned. *)
Definition writes (f : LaneletData → LaneletData) (ids : list string)
    (s : list Id) (w : World) (s' : list Id) (w' : World) : Prop :=
  s ⊆ s' ∧
  w_heap w' = w_heap w ∧
  (∀ id, is_Some (laneletLayer (w_map w') !! id) ↔
         is_Some (laneletLayer (w_map w) !! id)) ∧
  (∀ id, id ∈ s ∨ (∀ a, a ∈ ids → asId a ≠ Some id) →
     laneletLayer (w_map w') !! id = laneletLayer (w_map w) !! id) ∧
  (∀ a id d, a ∈ ids → asId a = Some id → id ≠ InvalId →
     laneletLayer (w_map w) !! id = Some d →
     id ∈ s' ∧ (id ∉ s → laneletLayer (w_map w') !! id = Some (f d))) ∧
  (∀ x, x ∈ s' ↔
     x ∈ s ∨ ∃ a i, a ∈ ids ∧ asId a = Some i ∧ found_id (w_map w) i = x).

End Writes.

(** The bounds of the lanelet [d] have the ids of [left] and [right]. *)
Definition bounds_match (heap : gmap loc LineStringData) (d : LaneletData)
    (left right : LineString3d) : Prop :=
  ∃ dl dr l r,
    heap !! ls_loc (lld_left d) = Some dl ∧ heap !! ls_loc (lld_right d) = Some dr ∧
    heap !! ls_loc left = Some l ∧ heap !! ls_loc right = Some r ∧
    lsd_id dl = lsd_id l ∧ lsd_id dr = lsd_id r.

(** The points of [l] that are among the points [p]. *)
Definition among (p l : list Point3d) : list Point3d :=
  filter (λ pt, pt_id pt ∈ pt_id <$> p) l.

(** The value of [key] on a segment, empty when the key is missing. *)
Definition seg_value (key : string) (seg : Segment) : string :=
  default "" (seg_attrs seg !! key).

(** No two neighbours of [l] are equal. *)
Definition adjacent_distinct (l : list string) : Prop :=
  ∀ i a b, l !! i = Some a → l !! S i = Some b → a ≠ b.

(** The number of neighbours of [l] that differ. *)
Definition changes (l : list string) : nat :=
  length (filter (λ ab, ab.1 ≠ ab.2) (zip l (tail l))).

(** The attributes that [conflate_match] writes on a lanelet for the
    values [fv] of the OSM keys. *)
Definition conflated_attrs (fv : string → string) (attrs : AttributeMap)
    : AttributeMap :=
  <["lane_markings" := fv "lane_markings"]>
    (<["road_surface" := fv "surface"]>
       (<["one_way" := fv "oneway"]>
          (<["road_name" := fv "name"]>
             (<["speed_limit" := fv "maxspeed"]>
                (<["location" := (highway2subtype_location (fv "highway")).2]>
                   (<["subtype" := (highway2subtype_location (fv "highway")).1]>
                      attrs)))))).

(** The linestrings that the lanelets, the areas and the regulatory
    elements of [m] own or refer to are in the heap. *)
Definition handles_in (heap : gmap loc LineStringData) (m : LaneletMap) : Prop :=
  (∀ id d, laneletLayer m !! id = Some d →
     is_Some (heap !! ls_loc (lld_left d)) ∧ is_Some (heap !! ls_loc (lld_right d)) ∧
     ∀ c, lld_centerline d = Some c → is_Some (heap !! ls_loc c)) ∧
  (∀ id a, areaLayer m !! id = Some a →
     (∀ l, l ∈ area_outer a → is_Some (heap !! ls_loc l)) ∧
     (∀ ls l, ls ∈ area_inner a → l ∈ ls → is_Some (heap !! ls_loc l))) ∧
  (∀ id r l, regulatoryElementLayer m !! id = Some r →
     ParamLineString l ∈ regelem_params r → is_Some (heap !! ls_loc l)).

(** The lanelets, areas and regulatory elements of [src] that the map of
    [w] does not hold. *)
Definition missing (src : LaneletMap) (w : World) : nat :=
  size (dom (laneletLayer src) ∖ dom (laneletLayer (w_map w))) +
  size (dom (areaLayer src) ∖ dom (areaLayer (w_map w))) +
  size (dom (regulatoryElementLayer src) ∖ dom (regulatoryElementLayer (w_map w))).

(** What the calls of [add] from within [add] start from and keep: the
    handles are in the heap and [fuel] is above the number of elements
    that are still to be filed. *)
Definition ready (src : LaneletMap) (fuel : nat) (w : World) : Prop :=
  handles_in (w_heap w) src ∧ (missing src w < fuel)%nat.

(** The computation does not stop for want of fuel. *)
Definition o_no_fuel {A} (o : outcome A) : Prop := o ≠ Fail Fuel.
Definition no_fuel {A} (m : M A) : Prop := ∀ w, m w ≠ Fail Fuel.

(** The reference segments of [m'] have the keys of those of [m]. *)
Definition same_keys (m' m : s_match) : Prop :=
  Forall2 (λ s' s, dom (seg_attrs s') = dom (seg_attrs s)) (ref_pline m') (ref_pline m).

(** Every reference segment has fewer than [fuel] attributes. *)
Definition keys_below (fuel : nat) (m : s_match) : Prop :=
  Forall (λ seg, (size (seg_attrs seg) < fuel)%nat) (ref_pline m).

(** A computation that ends, and with [P] when it returns. *)
Definition ends {A} (P : A → Prop) (o : outcome (A * World)) : Prop :=
  match o with
  | Ok (a, _) => P a
  | Fail f => f ≠ Fuel
  end.


Section Steady.
Context `{Lanelet2} `{Libm}.

(** A match whose target values do not change along the route and on
    which the engine meets no undefined behaviour: the directions of the
    polylines compare, the chain entries are ids, and the [lanes] value
    is empty or an [int] that, with the shoulders, is not below the
    number of lanelets of a reference segment. *)
Definition steady (m : s_match) : Prop :=
  (∀ key seg, key ∈ target_keys → seg ∈ target_pline m →
     default "" (seg_attrs seg !! key) = first_value (target_pline m) key) ∧
  (∃ sd, same_direction m = Ok sd) ∧
  (∀ seg a, seg ∈ ref_pline m → a ∈ seg_ids seg → is_Some (asId a)) ∧
  (first_value (target_pline m) "lanes" = "" ∨
   ∃ n, stoi (first_value (target_pline m) "lanes") = Ok n ∧
        n + shoulder_lanes (first_value (target_pline m) "shoulder") ≤ INT_MAX ∧
        ∀ seg, seg ∈ ref_pline m →
          lanes_count_of seg ≤
            n + shoulder_lanes (first_value (target_pline m) "shoulder")).

End Steady.

(** ** Properties *)

Section Properties.
Context `{Lanelet2} `{Libm} `{MatchOps}.

(** *** The monad *)

Lemma bind_Ok {A B} (m : M A) (k : A → M B) w r :
  bind m k w = Ok r ↔ ∃ a w', m w = Ok (a, w') ∧ k a w' = Ok r.
Proof.
  unfold bind. split.
  - destruct (m w) as [[a w']|f]; [eauto|discriminate].
  - intros (a & w' & -> & Hk). exact Hk.
Qed.

Lemma bind_Fail {A B} (m : M A) (k : A → M B) w f :
  bind m k w = Fail f ↔
  m w = Fail f ∨ ∃ a w', m w = Ok (a, w') ∧ k a w' = Fail f.
Proof.
  unfold bind. split.
  - destruct (m w) as [[a w']|g]; [eauto|]. intros [= ->]. by left.
  - intros [->|(a & w' & -> & Hk)]; done.
Qed.

Lemma lift_Ok {A} (o : outcome A) w a w' :
  lift o w = Ok (a, w') ↔ o = Ok a ∧ w' = w.
Proof.
  unfold lift. destruct o; split; try intros [? ?]; try intros [= -> ->];
    simplify_eq; done.
Qed.

Lemma lift_Fail {A} (o : outcome A) w f : lift o w = Fail f ↔ o = Fail f.
Proof. unfold lift. destruct o; split; intros; simplify_eq; done. Qed.

Lemma obind_Ok {A B} (m : outcome A) (k : A → outcome B) r :
  obind m k = Ok r ↔ ∃ a, m = Ok a ∧ k a = Ok r.
Proof.
  destruct m; simpl; split; intros Hm.
  - eauto.
  - by destruct Hm as (? & [= <-] & ?).
  - discriminate.
  - by destruct Hm as (? & ? & ?).
Qed.

Lemma obind_Fail {A B} (m : outcome A) (k : A → outcome B) f :
  obind m k = Fail f ↔ m = Fail f ∨ ∃ a, m = Ok a ∧ k a = Fail f.
Proof.
  destruct m; simpl; split; intros Hm.
  - right. eauto.
  - by destruct Hm as [?|(? & [= <-] & ?)].
  - left. by injection Hm as ->.
  - destruct Hm as [Hm|(? & ? & ?)]; [by injection Hm as ->|discriminate].
Qed.

Lemma at_Ok {A} (l : list A) i x : at_ l i = Ok x ↔ l !! i = Some x.
Proof. unfold at_. destruct (l !! i); simpl; split; intros; simplify_eq; done. Qed.

Lemma at_not_Throws {A} (l : list A) i e : at_ l i ≠ Throws e.
Proof. unfold at_. by destruct (l !! i). Qed.

(** *** [std::min_element] *)


Lemma min_element_from_bound l : ∀ bi b i,
  (bi < i)%nat → (min_element_from bi b i l < i + length l)%nat.
Proof.
  induction l as [|x r IH]; intros bi b i Hlt; simpl; [lia|].
  destruct (PrimFloat.ltb x b).
  - specialize (IH i x (S i)). lia.
  - specialize (IH bi b (S i)). lia.
Qed.

Lemma min_element_bound l : l ≠ [] → (min_element l < length l)%nat.
Proof.
  destruct l as [|x r]; [done|]. intros _. simpl.
  pose proof (min_element_from_bound r 0 x 1). lia.
Qed.

Lemma segment_diffs_length pt ls :
  length (segment_diffs pt ls) = (length ls - 1)%nat.
Proof.
  induction ls as [|p [|q tl] IH]; simpl in *; try lia.
Qed.

Lemma slope_vertical p q :
  is_zero (pt_x q - pt_x p)%float = true → is_finite (slope p q) = false.
Proof.
  unfold slope, is_zero, is_finite, is_nan, is_infinity.
  generalize (pt_y q - pt_y p)%float (pt_x q - pt_x p)%float. intros n d.
  rewrite !FloatAxioms.eqb_spec, FloatAxioms.abs_spec, !FloatAxioms.div_spec.
  change (Prim2SF PrimFloat.zero) with (S754_zero false).
  change (Prim2SF PrimFloat.infinity) with (S754_infinity false).
  destruct (Prim2SF d) as [s|s| |s m e]; cbn;
    try discriminate; try (destruct s; discriminate). intros _.
  destruct (Prim2SF n) as [[]|[]| |[]]; destruct s; reflexivity.
Qed.

(** C10: for a linestring with at least two points the index that
    [find_segment_2D] returns lies between 0 and the number of points
    minus 2; the slope of a segment is the quotient by the difference of
    the x-coordinates with no guard, so that a segment whose end points
    have the same x-coordinate has no finite slope. *)
Theorem find_segment_2D_range (pt : Point3d) (ls : list Point3d) :
  (2 ≤ length ls)%nat →
  (∃ i, find_segment_2D pt ls = Ok i ∧ 0 ≤ Z.of_nat i ≤ Z.of_nat (length ls) - 2) ∧
  (∀ p q, is_zero (pt_x q - pt_x p)%float = true → is_finite (slope p q) = false).
Proof.
  intros Hlen. split; [|apply slope_vertical].
  destruct ls as [|p tl]; [simpl in Hlen; lia|].
  eexists. split; [reflexivity|].
  pose proof (segment_diffs_length pt (p :: tl)) as Hd.
  assert (segment_diffs pt (p :: tl) ≠ []) as Hne.
  { intros E. rewrite E in Hd. simpl in *. lia. }
  pose proof (min_element_bound _ Hne). lia.
Qed.

(** *** The curve splitter *)

Lemma index_of_app_fresh (x : Id) (l : list Id) :
  x ∉ l → index_of x (l ++ [x]) = length l.
Proof.
  induction l as [|y r IH]; simpl; intros Hx.
  - by rewrite bool_decide_eq_true_2.
  - rewrite bool_decide_eq_false_2 by set_solver. f_equal. apply IH. set_solver.
Qed.

Lemma index_of_lt (x : Id) (l : list Id) : x ∈ l → (index_of x l < length l)%nat.
Proof.
  induction l as [|y r IH]; simpl; intros Hx; [by apply elem_of_nil in Hx|].
  case_bool_decide; [lia|].
  apply elem_of_cons in Hx as [->|Hx]; [done|]. specialize (IH Hx). lia.
Qed.

Lemma ls_loc_dir (inv : bool) (ls : LineString3d) :
  ls_loc (if inv then invert ls else ls) = ls_loc ls.
Proof. by destruct inv. Qed.

(** A curve whose id is in the memo is not split again. *)
Lemma split_linestring_memo orig_ls d splitted new_lss pt inv w prev :
  w_heap w !! ls_loc orig_ls = Some d →
  lsd_id d ∈ splitted →
  new_lss !! index_of (lsd_id d) splitted = Some prev →
  split_linestring orig_ls splitted new_lss pt inv w =
    Ok (if inv then invert prev else prev, splitted, new_lss, w).
Proof.
  intros Hd Hin Hprev. unfold split_linestring, bind, deref.
  rewrite ls_loc_dir, Hd. simpl.
  unfold used_Id. rewrite bool_decide_eq_true_2 by done. simpl.
  unfold at_. rewrite Hprev. reflexivity.
Qed.

(** The first split of a curve. *)
Lemma split_linestring_fresh (orig_ls : LineString3d) (d : LineStringData)
    splitted new_lss pt (inv : bool) (w : World) new_pt ind :
  let dir := ls_inverted (if inv then invert orig_ls else orig_ls) in
  let v := view d dir in
  let new_ls := mkLineString (w_next_loc w) false in
  w_heap w !! ls_loc orig_ls = Some d →
  lsd_id d ∉ splitted →
  split_vertex (w_next_id w) v pt = Ok (new_pt, ind) →
  split_linestring orig_ls splitted new_lss pt inv w =
    Ok (if inv then invert new_ls else new_ls,
        splitted ++ [lsd_id d], new_lss ++ [new_ls],
        mkWorld (w_map w)
          (<[ls_loc orig_ls := set_view d dir (take (S ind) v ++ [new_pt])]>
             (<[w_next_loc w :=
                  mkLineStringData (w_next_id w + 1) (new_pt :: drop (S ind) v)
                                   (lsd_attrs d)]> (w_heap w)))
          (Pos.succ (w_next_loc w)) (w_next_id w + 1 + 1) (w_log w)).
Proof.
  intros dir v new_ls Hd Hin Hsv. unfold split_linestring, bind, deref.
  rewrite ls_loc_dir, Hd. simpl.
  unfold used_Id. rewrite bool_decide_eq_false_2 by done. simpl.
  fold dir. fold v. rewrite Hsv. reflexivity.
Qed.

Lemma find_segment_2D_lt p v ind :
  find_segment_2D p v = Ok ind →
  (ind < length v)%nat ∧ (2 ≤ length v → S ind < length v)%nat.
Proof.
  unfold find_segment_2D. destruct v as [|a tl]; [done|]. intros Hfs.
  assert (∀ ds : list float, length ds = (length (a :: tl) - 1)%nat →
    (min_element ds < length (a :: tl))%nat ∧
    (2 ≤ length (a :: tl) → S (min_element ds) < length (a :: tl))%nat) as Hgen.
  { intros [|x r] Hl; [simpl in *; lia|].
    pose proof (min_element_bound (x :: r) ltac:(done)) as Hb. lia. }
  injection Hfs as <-. apply Hgen. exact (segment_diffs_length p (a :: tl)).
Qed.

(** The index that [split_vertex] returns is one of the linestring. *)
Lemma split_vertex_index new_id v pt new_pt ind :
  split_vertex new_id v pt = Ok (new_pt, ind) → (ind < length v)%nat.
Proof.
  unfold split_vertex.
  set (d := map _ v). intros Hsv.
  apply obind_Ok in Hsv as (dmin & Hdmin & Hsv).
  apply at_Ok in Hdmin. apply lookup_lt_Some in Hdmin.
  assert (length d = length v) as Hlen by (unfold d; by rewrite length_map).
  destruct (PrimFloat.ltb dmin tolerance).
  - case_bool_decide.
    + apply obind_Ok in Hsv as (p0 & _ & Hsv).
      apply obind_Ok in Hsv as (p1 & _ & Hsv).
      apply obind_Ok in Hsv as (i & Hi & [= <- <-]).
      by apply find_segment_2D_lt in Hi as [? _].
    + case_bool_decide; [lia|].
      apply obind_Ok in Hsv as (p & Hp & [= <- <-]). lia.
  - apply obind_Ok in Hsv as (i & Hi & [= <- <-]).
    by apply find_segment_2D_lt in Hi as [? _].
Qed.

(** C1: a curve whose id is in the memo [splitted] is not split again:
    for any split point the splitter returns the suffix curve stored for
    that id and leaves the world, the curve included, as it is; and after
    the first split of a curve, a second call on the same curve, from
    either side and at any point, returns the same suffix curve. *)
Theorem split_linestring_idempotent (orig_ls : LineString3d) (d : LineStringData)
    (splitted : list Id) (new_lss : list LineString3d) (w : World) :
  w_heap w !! ls_loc orig_ls = Some d →
  length splitted = length new_lss →
  (lsd_id d ∈ splitted → ∀ pt inv,
     ∃ prev, new_lss !! index_of (lsd_id d) splitted = Some prev ∧
       split_linestring orig_ls splitted new_lss pt inv w =
         Ok (if inv then invert prev else prev, splitted, new_lss, w)) ∧
  (lsd_id d ∉ splitted → ∀ pt inv new_ls splitted' new_lss' w',
     split_linestring orig_ls splitted new_lss pt inv w =
       Ok (new_ls, splitted', new_lss', w') →
     ∀ other pt' inv', ls_loc other = ls_loc orig_ls →
       ∃ new_ls',
         split_linestring other splitted' new_lss' pt' inv' w' =
           Ok (new_ls', splitted', new_lss', w') ∧
         ls_loc new_ls' = ls_loc new_ls).
Proof.
  intros Hd Hlen. split.
  - intros Hin pt inv.
    assert (is_Some (new_lss !! index_of (lsd_id d) splitted)) as [prev Hprev].
    { apply lookup_lt_is_Some_2. rewrite <- Hlen. by apply index_of_lt. }
    exists prev. split; [done|]. by apply split_linestring_memo with (d := d).
  - intros Hin pt inv new_ls splitted' new_lss' w' Hsplit other pt' inv' Hother.
    set (dir := ls_inverted (if inv then invert orig_ls else orig_ls)).
    destruct (split_vertex (w_next_id w) (view d dir) pt) as [[new_pt ind]|f] eqn:Hsv.
    + rewrite (split_linestring_fresh _ _ _ _ _ _ _ _ _ Hd Hin Hsv) in Hsplit.
      injection Hsplit as <- <- <- <-.
      set (nl := mkLineString (w_next_loc w) false).
      eexists. split.
      * eapply split_linestring_memo with (prev := nl); simpl.
        -- rewrite Hother. apply lookup_insert_eq.
        -- set_solver.
        -- rewrite index_of_app_fresh by done. rewrite Hlen.
           by rewrite list_lookup_middle.
      * by destruct inv, inv'.
    + unfold split_linestring, bind, deref in Hsplit.
      rewrite ls_loc_dir, Hd in Hsplit. simpl in Hsplit.
      unfold used_Id in Hsplit. rewrite bool_decide_eq_false_2 in Hsplit by done.
      simpl in Hsplit. fold dir in Hsplit. rewrite Hsv in Hsplit. discriminate.
Qed.

(** The closest vertex is the last one: [split_vertex] goes to the
    branch that snaps to an existing vertex. *)
Lemma split_vertex_last new_id (v : list Point3d) pt dmin last_pt :
  let d := map (λ pt_ls, distance (project v (basicPoint pt)) (basicPoint pt_ls)) v in
  (2 ≤ length v)%nat →
  min_element d = (length v - 1)%nat →
  d !! (length v - 1)%nat = Some dmin →
  PrimFloat.ltb dmin tolerance = true →
  last v = Some last_pt →
  split_vertex new_id v pt = Ok (last_pt, (length v - 1)%nat).
Proof.
  intros d Hlen Hk Hdmin Htol Hlast. unfold split_vertex. fold d.
  rewrite Hk. unfold at_ at 1. rewrite Hdmin. simpl. rewrite Htol.
  rewrite bool_decide_eq_false_2 by lia.
  assert (length d = length v) as Hld by (unfold d; by rewrite length_map).
  rewrite bool_decide_eq_false_2 by lia.
  rewrite last_lookup in Hlast.
  replace (Nat.pred (length v)) with (length v - 1)%nat in Hlast by lia.
  unfold at_. by rewrite Hlast.
Qed.

(** C2: when the vertex of the curve that is closest to the projected
    split point is its last vertex, within the tolerance, the new suffix
    curve holds that vertex alone: the branch that should put a midpoint
    between the last two vertices is never taken. *)
Theorem split_linestring_last_vertex (orig_ls : LineString3d)
    (d : LineStringData) (splitted : list Id) (new_lss : list LineString3d)
    (pt : Point3d) (w : World) (dmin : float) (last_pt : Point3d) :
  let v := view d (ls_inverted orig_ls) in
  let ds := map (λ pt_ls, distance (project v (basicPoint pt)) (basicPoint pt_ls)) v in
  w_heap w !! ls_loc orig_ls = Some d →
  w_heap w !! w_next_loc w = None →
  lsd_id d ∉ splitted →
  (2 ≤ length v)%nat →
  min_element ds = (length v - 1)%nat →
  ds !! (length v - 1)%nat = Some dmin →
  PrimFloat.ltb dmin tolerance = true →
  last v = Some last_pt →
  ∃ new_ls splitted' new_lss' w' dnew,
    split_linestring orig_ls splitted new_lss pt false w =
      Ok (new_ls, splitted', new_lss', w') ∧
    w_heap w' !! ls_loc new_ls = Some dnew ∧
    lsd_pts dnew = [last_pt] ∧ length (lsd_pts dnew) = 1%nat.
Proof.
  intros v ds Hd Hfresh Hin Hlen Hk Hdmin Htol Hlast.
  pose proof (split_vertex_last (w_next_id w) v pt dmin last_pt
                Hlen Hk Hdmin Htol Hlast) as Hsv.
  do 5 eexists. split.
  { by apply (split_linestring_fresh orig_ls d splitted new_lss pt false w
                last_pt (length v - 1)%nat Hd Hin). }
  simpl. split.
  - rewrite lookup_insert_ne, lookup_insert_eq; [done|].
    intros E. rewrite <- E, Hd in Hfresh. discriminate.
  - simpl. fold v. rewrite drop_ge by lia. done.
Qed.

(** C3: how [split_vertex] chooses the split vertex.  With the closest
    vertex within the tolerance, the first vertex gives the midpoint of
    the first two vertices and every other vertex, the last one too, is
    taken as it is; without a vertex within the tolerance the split
    vertex is a new point at the projection. *)
Theorem split_vertex_cases (new_id : Id) (v : list Point3d) (pt : Point3d)
    (dmin : float) :
  let pt_proj := project v (basicPoint pt) in
  let d := map (λ pt_ls, distance pt_proj (basicPoint pt_ls)) v in
  let k := min_element d in
  d !! k = Some dmin →
  (PrimFloat.ltb dmin tolerance = true → k = 0%nat →
     ∀ p0 p1, v !! 0%nat = Some p0 → v !! 1%nat = Some p1 →
       ∃ ind, find_segment_2D (midpoint new_id p0 p1) v = Ok ind ∧
         split_vertex new_id v pt = Ok (midpoint new_id p0 p1, ind)) ∧
  (PrimFloat.ltb dmin tolerance = true → k ≠ 0%nat →
     ∃ p, v !! k = Some p ∧ split_vertex new_id v pt = Ok (p, k)) ∧
  (PrimFloat.ltb dmin tolerance = false →
     ∃ ind,
       let new_pt := mkPoint new_id (bp_x pt_proj) (bp_y pt_proj) (bp_z pt_proj) ∅ in
       find_segment_2D new_pt v = Ok ind ∧
       split_vertex new_id v pt = Ok (new_pt, ind)).
Proof.
  intros pt_proj d k Hdmin.
  assert (length d = length v) as Hld by (unfold d; by rewrite length_map).
  pose proof (lookup_lt_Some _ _ _ Hdmin) as Hklt.
  assert (∀ p, ∃ ind, find_segment_2D p v = Ok ind) as Hfs.
  { intros p. unfold find_segment_2D. destruct v; [simpl in *; lia|eauto]. }
  assert (∀ B (f : float → outcome B), obind (at_ d k) f = f dmin) as Hat.
  { intros B f. unfold at_. by rewrite Hdmin. }
  unfold split_vertex. fold pt_proj. fold d. fold k. rewrite !Hat.
  split; [|split].
  - intros -> Hk p0 p1 Hp0 Hp1. rewrite bool_decide_eq_true_2 by done.
    unfold at_. rewrite Hp0, Hp1. simpl.
    destruct (Hfs (midpoint new_id p0 p1)) as [ind Hind].
    exists ind. by rewrite Hind.
  - intros -> Hk. rewrite bool_decide_eq_false_2 by done.
    rewrite bool_decide_eq_false_2 by lia.
    assert (is_Some (v !! k)) as [p Hp] by (apply lookup_lt_is_Some_2; lia).
    exists p. unfold at_. by rewrite Hp.
  - intros ->.
    destruct (Hfs (mkPoint new_id (bp_x pt_proj) (bp_y pt_proj) (bp_z pt_proj) ∅))
      as [ind Hind].
    exists ind. simpl. by rewrite Hind.
Qed.

(** *** The attribute-change detector *)

Lemma tag_changes_length key val rest pts_ values_ pts' values' :
  tag_changes key val rest pts_ values_ = Ok (pts', values') →
  length values_ = S (length pts_) → length values' = S (length pts').
Proof.
  revert val pts_ values_. induction rest as [|it rest IH]; simpl;
    intros val pts_ values_ Hrun Hlen.
  - by injection Hrun as <- <-.
  - destruct (seg_attrs it !! key) as [v|]; case_bool_decide;
      try (by eapply IH);
      apply obind_Ok in Hrun as (p & _ & Hrun);
      (eapply IH; [exact Hrun|]); rewrite !length_app; simpl; lia.
Qed.

Lemma tag_changes_returns key val rest pts_ values_ :
  (∀ seg, seg ∈ rest → seg_pts seg ≠ []) →
  ∃ r, tag_changes key val rest pts_ values_ = Ok r.
Proof.
  revert val pts_ values_. induction rest as [|it rest IH]; simpl;
    intros val pts_ values_ Hpts; [eauto|].
  assert (∃ p, front (seg_pts it) = Ok p) as [p Hp].
  { specialize (Hpts it ltac:(set_solver)).
    destruct (seg_pts it) as [|p ?]; [done|]. by exists p. }
  assert (∀ seg, seg ∈ rest → seg_pts seg ≠ []) as Hrest by set_solver.
  destruct (seg_attrs it !! key) as [v|]; case_bool_decide;
    rewrite ?Hp; simpl; by apply IH.
Qed.

Lemma tag_changes_constant key val rest pts_ values_ :
  (∀ seg, seg ∈ rest → default "" (seg_attrs seg !! key) = val) →
  tag_changes key val rest pts_ values_ = Ok (pts_, values_).
Proof.
  revert pts_ values_. induction rest as [|it rest IH]; simpl;
    intros pts_ values_ Hconst; [done|].
  pose proof (Hconst it ltac:(set_solver)) as Hit.
  assert (∀ seg, seg ∈ rest → default "" (seg_attrs seg !! key) = val) as Hrest
    by set_solver.
  destruct (seg_attrs it !! key) as [v|]; simpl in Hit; subst.
  - rewrite bool_decide_eq_false_2 by (intros Hne; by apply Hne). by apply IH.
  - rewrite bool_decide_eq_false_2 by (intros Hne; by apply Hne). by apply IH.
Qed.

(** Every value of the scan is the empty string or the value of the key
    on a segment. *)
Lemma tag_changes_values key val rest pts_ values_ pts' values' :
  tag_changes key val rest pts_ values_ = Ok (pts', values') →
  ∀ x, x ∈ values' →
    x ∈ values_ ∨ x = "" ∨ ∃ seg, seg ∈ rest ∧ seg_attrs seg !! key = Some x.
Proof.
  revert val pts_ values_. induction rest as [|it rest IH]; simpl;
    intros val pts_ values_ Hrun x Hx.
  - injection Hrun as <- <-. by left.
  - destruct (seg_attrs it !! key) as [v|] eqn:Hv; case_bool_decide.
    + apply obind_Ok in Hrun as (p & _ & Hrun).
      destruct (IH _ _ _ Hrun x Hx) as [Hin|[->|(seg & Hseg & Hs)]].
      * apply elem_of_app in Hin as [Hin|Hin]; [by left|].
        apply list_elem_of_singleton in Hin as ->.
        right; right. exists it. split; [set_solver|done].
      * by right; left.
      * right; right. exists seg. split; [set_solver|done].
    + destruct (IH _ _ _ Hrun x Hx) as [Hin|[->|(seg & Hseg & Hs)]];
        [by left|by right; left|].
      right; right. exists seg. split; [set_solver|done].
    + apply obind_Ok in Hrun as (p & _ & Hrun).
      destruct (IH _ _ _ Hrun x Hx) as [Hin|[->|(seg & Hseg & Hs)]].
      * apply elem_of_app in Hin as [Hin|Hin]; [by left|].
        apply list_elem_of_singleton in Hin as ->. by right; left.
      * by right; left.
      * right; right. exists seg. split; [set_solver|done].
    + destruct (IH _ _ _ Hrun x Hx) as [Hin|[->|(seg & Hseg & Hs)]];
        [by left|by right; left|].
      right; right. exists seg. split; [set_solver|done].
Qed.

(** [check_tag_change] appends the scan of each key. *)
Lemma check_tag_change_scans pline keys pts0 values0 pts values :
  check_tag_change pline keys pts0 values0 = Ok (pts, values) ↔
  ∃ rs, Forall2 (λ key r, check_tag_change_key pline key = Ok r) keys rs ∧
        pts = pts0 ++ rs.*1 ∧ values = values0 ++ rs.*2.
Proof.
  revert pts0 values0. induction keys as [|key keys IH]; simpl; intros pts0 values0.
  - split.
    + intros [= <- <-]. exists []. by rewrite !app_nil_r.
    + intros (rs & Hrs & -> & ->). apply Forall2_nil_inv_l in Hrs as ->.
      by rewrite !app_nil_r.
  - split.
    + intros Hrun. apply obind_Ok in Hrun as (r & Hr & Hrun).
      apply IH in Hrun as (rs & Hrs & -> & ->).
      exists (r :: rs). split; [by constructor|].
      by rewrite <- !app_assoc.
    + intros (rs & Hrs & -> & ->).
      apply Forall2_cons_inv_l in Hrs as (r & rs' & Hr & Hrs & ->).
      rewrite Hr. simpl. apply IH. exists rs'. split; [done|].
      by rewrite <- !app_assoc.
Qed.

(** C4: on a route whose segments have points, [check_tag_change]
    returns one point list and one value list per key; the value list of
    a key has one element more than its list of change points; when the
    value of a key (the empty string when the segment does not have the
    key) is the same on all segments, the key has no change point and one
    value, that of the first segment (the empty string on an empty
    route). *)
Theorem check_tag_change_lengths (pline : list Segment) (keys : list string) :
  (∀ seg, seg ∈ pline → seg_pts seg ≠ []) →
  ∃ pts values,
    check_tag_change pline keys [] [] = Ok (pts, values) ∧
    length pts = length keys ∧ length values = length keys ∧
    (∀ i p v, pts !! i = Some p → values !! i = Some v →
       length v = S (length p)) ∧
    (∀ i key, keys !! i = Some key →
       (∀ seg, seg ∈ pline →
          default "" (seg_attrs seg !! key) = first_value pline key) →
       pts !! i = Some [] ∧ values !! i = Some [first_value pline key]).
Proof.
  intros Hpts.
  assert (∃ rs, Forall2 (λ key r, check_tag_change_key pline key = Ok r) keys rs)
    as [rs Hrs].
  { induction keys as [|key keys [rs Hrs]]; [by exists []|].
    destruct (tag_changes_returns key (first_value pline key) (tail pline)
                [] [first_value pline key]) as [r Hr].
    { intros seg Hseg. apply Hpts. destruct pline; set_solver. }
    exists (r :: rs). by constructor. }
  exists (rs.*1), (rs.*2). split; [|split; [|split; [|split]]].
  - apply check_tag_change_scans. by exists rs.
  - rewrite length_fmap. symmetry. by eapply Forall2_length.
  - rewrite length_fmap. symmetry. by eapply Forall2_length.
  - intros i p v Hp Hv. rewrite list_lookup_fmap in Hp. rewrite list_lookup_fmap in Hv.
    destruct (rs !! i) as [[p' v']|] eqn:Hi; simplify_eq/=.
    destruct (Forall2_lookup_r _ _ _ _ _ Hrs Hi) as (key & _ & Hkey).
    by eapply tag_changes_length.
  - intros i key Hkey Hconst.
    destruct (Forall2_lookup_l _ _ _ _ _ Hrs Hkey) as (r & Hi & Hr).
    unfold check_tag_change_key in Hr.
    rewrite tag_changes_constant in Hr.
    + injection Hr as <-. rewrite !list_lookup_fmap, Hi. done.
    + intros seg Hseg. apply Hconst. destruct pline; set_solver.
Qed.

(** *** Console output only *)

Lemma log_only_refl w : log_only w w.
Proof. by repeat split. Qed.

Lemma log_only_trans w1 w2 w3 : log_only w1 w2 → log_only w2 w3 → log_only w1 w3.
Proof.
  intros (? & ? & ? & ? & ?) (? & ? & ? & ? & ?).
  repeat split; try congruence. by etrans.
Qed.

Lemma print_log_only s w : ∃ w', print s w = Ok (tt, w') ∧ log_only w w'.
Proof.
  eexists. split; [reflexivity|]. repeat split; simpl. by apply prefix_app_r.
Qed.

Lemma find_ll_spec id w ll w' :
  find_ll id w = Ok (ll, w') →
  log_only w w' ∧ ll_id ll = found_id (w_map w) id.
Proof.
  unfold find_ll, bind, get_map, found_id.
  destruct (laneletLayer (w_map w) !! id).
  - intros [= <- <-]. split; [apply log_only_refl|done].
  - simpl. intros [= <- <-]. split; [|done].
    repeat split; simpl. by apply prefix_app_r.
Qed.

Lemma find_ll_returns id w : ∃ ll w', find_ll id w = Ok (ll, w').
Proof.
  unfold find_ll, bind, get_map.
  destruct (laneletLayer (w_map w) !! id); simpl; eauto.
Qed.

(** *** Colour codes *)

Lemma set_color_code_ids_spec ids col_code : ∀ cols w cols' w',
  set_color_code_ids ids col_code cols w = Ok (cols', w') →
  log_only w w' ∧
  ∃ added, cols' = cols ++ added ∧
    Forall (λ e, e.2 = col_code) added ∧ NoDup added.*1 ∧
    (∀ e, e ∈ added → e.1 ∉ cols.*1) ∧
    Forall (λ a, ∃ id, asId a = Some id ∧ found_id (w_map w) id ∈ cols'.*1) ids.
Proof.
  induction ids as [|a ids IH]; simpl; intros cols w cols' w' Hrun.
  - injection Hrun as <- <-. split; [apply log_only_refl|].
    exists []. rewrite app_nil_r. repeat split; try constructor. set_solver.
  - apply bind_Ok in Hrun as (id & w1 & Hid & Hrun).
    apply lift_Ok in Hid as [Hid ->].
    destruct (asId a) as [id'|] eqn:Ha; [|done]. injection Hid as ->.
    apply bind_Ok in Hrun as (ll & w1 & Hll & Hrun).
    apply find_ll_spec in Hll as [Hlog Hllid].
    apply IH in Hrun as (Hlog' & added & -> & Hcol & Hnd & Hnew & Hall).
    split; [by eapply log_only_trans|].
    assert (w_map w1 = w_map w) as Hmap by apply Hlog.
    unfold used_Id_cols in *. case_bool_decide as Hused; simpl in *.
    + exists added. repeat split; try done.
      constructor; [|by rewrite <- Hmap].
      exists id. split; [done|]. rewrite <- Hllid, fmap_app.
      apply elem_of_app. by left.
    + exists ((ll_id ll, col_code) :: added). rewrite <- app_assoc. simpl.
      repeat split.
      * by constructor.
      * constructor; [|done]. intros Hin.
        apply list_elem_of_fmap in Hin as (e & He & Hin).
        apply (Hnew e Hin). rewrite fmap_app, <- He.
        apply elem_of_app. right. by left.
      * intros e He. apply elem_of_cons in He as [->|He]; [done|].
        intros Hin. apply (Hnew e He). rewrite fmap_app.
        apply elem_of_app. by left.
      * constructor; [|rewrite <- Hmap; by rewrite <- app_assoc in Hall].
        exists id. split; [done|]. rewrite <- Hllid, fmap_app.
        apply elem_of_app. right. by left.
Qed.

Lemma cols_grow_refl cols : cols_grow cols cols.
Proof. exists []. rewrite app_nil_r. repeat split; [constructor|set_solver]. Qed.

Lemma cols_grow_trans c1 c2 c3 : cols_grow c1 c2 → cols_grow c2 c3 → cols_grow c1 c3.
Proof.
  intros (a1 & -> & Hnd1 & Hn1) (a2 & -> & Hnd2 & Hn2).
  exists (a1 ++ a2). rewrite <- app_assoc. repeat split.
  - rewrite fmap_app. apply NoDup_app. repeat split; [done| |done].
    intros x Hx1 Hx2. apply list_elem_of_fmap in Hx2 as (e & -> & He).
    apply (Hn2 e He). rewrite fmap_app. apply elem_of_app. by right.
  - intros e He. apply elem_of_app in He as [He|He]; [by apply Hn1|].
    intros Hin. apply (Hn2 e He). rewrite fmap_app. apply elem_of_app. by left.
Qed.

Lemma cols_grow_NoDup cols cols' :
  cols_grow cols cols' → NoDup cols.*1 → NoDup cols'.*1.
Proof.
  intros (added & -> & Hnd & Hnew) Hc. rewrite fmap_app.
  apply NoDup_app. repeat split; [done| |done].
  intros x Hx1 Hx2. apply list_elem_of_fmap in Hx2 as (e & -> & He).
  by apply (Hnew e He).
Qed.

(** *** Lonely lanelets *)

Lemma elem_of_lanelets_of (m : LaneletMap) (ll : Lanelet) :
  ll ∈ lanelets_of m ↔ ∃ id, ll = LlIn id ∧ is_Some (laneletLayer m !! id).
Proof.
  unfold lanelets_of. rewrite list_elem_of_fmap. split.
  - intros (id & -> & Hid). exists id. split; [done|].
    apply list_elem_of_fmap in Hid as ([id' d] & -> & Hd).
    apply elem_of_map_to_list in Hd. by exists d.
  - intros (id & -> & [d Hd]). exists id. split; [done|].
    apply list_elem_of_fmap. exists (id, d). split; [done|].
    by apply elem_of_map_to_list.
Qed.

Lemma existsb_false {A} (f : A → bool) (l : list A) :
  existsb f l = false ↔ ∀ x, x ∈ l → f x = false.
Proof.
  induction l as [|y r IH]; simpl.
  - split; [|done]. intros _ x Hx. by apply elem_of_nil in Hx.
  - rewrite orb_false_iff, IH. split.
    + intros [Hy Hr] x Hx. apply elem_of_cons in Hx as [->|Hx]; auto.
    + intros Hall. split; [apply Hall; left|intros x Hx; apply Hall; by right].
Qed.

Lemma lonely_spec (m : LaneletMap) heap (ll : Lanelet) :
  lonely m heap ll = true ↔
  ∀ id, is_Some (laneletLayer m !! id) → id ≠ ll_id ll →
        follows m heap (LlIn id) ll = false ∧ follows m heap ll (LlIn id) = false.
Proof.
  unfold lonely, has_predecessor, has_successor.
  rewrite andb_true_iff, !negb_true_iff, !existsb_false. split.
  - intros [Hp Hs] id Hid Hne.
    assert (LlIn id ∈ lanelets_of m) as Hin by (apply elem_of_lanelets_of; eauto).
    specialize (Hp _ Hin). specialize (Hs _ Hin). simpl in Hp, Hs.
    rewrite bool_decide_eq_true_2 in Hp, Hs by done. by simpl in Hp, Hs.
  - intros Hall. split; intros x Hx;
      apply elem_of_lanelets_of in Hx as (id & -> & Hid); simpl;
      case_bool_decide; simpl; try done; by apply Hall.
Qed.

(** *** [find_wrong_lanelet] and the removal loop *)

Lemma find_wrong_lanelet_candidates_loop_log attrs : ∀ cand w cand' w',
  find_wrong_lanelet_candidates_loop attrs cand w = Ok (cand', w') → log_only w w'.
Proof.
  induction attrs as [|attr attrs IH]; simpl; intros cand w cand' w' Hrun.
  - injection Hrun as <- <-. apply log_only_refl.
  - destruct (contains "forward" attr.1 || contains "backward" attr.1).
    + apply bind_Ok in Hrun as (id & w1 & Hid & Hrun).
      apply lift_Ok in Hid as [_ ->].
      apply bind_Ok in Hrun as (ll & w1 & Hll & Hrun).
      apply find_ll_spec in Hll as [Hlog _]. apply IH in Hrun.
      by eapply log_only_trans.
    + by eapply IH.
Qed.

Lemma find_wrong_lanelet_candidates_loop_returns attrs : ∀ cand w,
  (∀ attr, attr ∈ attrs →
     contains "forward" attr.1 || contains "backward" attr.1 = true →
     is_Some (asId attr.2)) →
  ∃ cand' w', find_wrong_lanelet_candidates_loop attrs cand w = Ok (cand', w').
Proof.
  induction attrs as [|attr attrs IH]; simpl; intros cand w Hids; [by eexists _, _|].
  assert (∀ a, a ∈ attrs →
            contains "forward" a.1 || contains "backward" a.1 = true →
            is_Some (asId a.2)) as Hrest.
  { intros a Ha. apply Hids. by right. }
  destruct (contains "forward" attr.1 || contains "backward" attr.1) eqn:Hc.
  - destruct (Hids attr ltac:(by left) Hc) as [id Hid].
    unfold bind at 1. rewrite Hid. simpl.
    destruct (find_ll_returns id w) as (ll & w1 & Hll).
    unfold bind. rewrite Hll. by apply IH.
  - by apply IH.
Qed.

Lemma find_wrong_lanelet_spec seg deleted match_ w found deleted' match' w' :
  find_wrong_lanelet seg deleted match_ w = Ok (found, deleted', match', w') →
  log_only w w' ∧
  if found : bool then
    ∃ ll, deleted' = deleted ++ [ll] ∧
          lonely (w_map w) (w_heap w) ll = true ∧
          match' = remove_tag_ref_pline (ll_id ll) match_
  else deleted' = deleted ∧ match' = match_.
Proof.
  unfold find_wrong_lanelet. intros Hrun.
  apply bind_Ok in Hrun as (cands & w1 & Hc & Hrun).
  apply find_wrong_lanelet_candidates_loop_log in Hc.
  destruct (List.find _ cands) as [ll|] eqn:Hfind.
  - injection Hrun as <- <- <- <-. split; [done|].
    exists ll. apply find_some in Hfind as [_ Hl].
    destruct Hc as (Hm & Hh & _). rewrite Hm, Hh in Hl. done.
  - injection Hrun as <- <- <- <-. done.
Qed.

Lemma remove_wrong_lanelets_spec excess ind : ∀ deleted match_ w deleted' match' w',
  remove_wrong_lanelets excess ind deleted match_ w = Ok (deleted', match', w') →
  log_only w w' ∧
  ∃ removed, deleted' = deleted ++ removed ∧ (length removed ≤ excess)%nat ∧
    Forall (λ ll, lonely (w_map w) (w_heap w) ll = true) removed.
Proof.
  induction excess as [|excess IH]; simpl; intros deleted match_ w deleted' match' w' Hrun.
  - injection Hrun as <- <- <-. split; [apply log_only_refl|].
    exists []. by rewrite app_nil_r.
  - apply bind_Ok in Hrun as (seg & w1 & Hseg & Hrun).
    apply lift_Ok in Hseg as [_ ->].
    apply bind_Ok in Hrun as ([[found del1] m1] & w1 & Hfw & Hrun).
    apply find_wrong_lanelet_spec in Hfw as [Hlog Hfw].
    destruct found.
    + destruct Hfw as (ll & -> & Hl & ->).
      apply IH in Hrun as (Hlog' & removed & -> & Hlen & Hall).
      split; [by eapply log_only_trans|].
      exists (ll :: removed). rewrite <- app_assoc. simpl.
      repeat split; [lia|]. constructor; [done|].
      destruct Hlog as (Hm & Hh & _). by rewrite Hm, Hh in Hall.
    + destruct Hfw as [-> ->].
      apply bind_Ok in Hrun as ([] & w2 & Hp & Hrun).
      injection Hrun as <- <- <-.
      destruct (print_log_only
        skip_message w1)
        as (w3 & Hp' & Hlog').
      rewrite Hp in Hp'. injection Hp' as <-.
      split; [by eapply log_only_trans|].
      exists []. rewrite app_nil_r. repeat split; [simpl; lia|constructor].
Qed.

(** Without a lonely candidate the loop ends with the diagnostic. *)
Lemma remove_wrong_lanelets_stops excess ind deleted match_ seg cands w w1 :
  ref_pline match_ !! ind = Some seg →
  find_wrong_lanelet_candidates seg [] w = Ok (cands, w1) →
  Forall (λ ll, lonely (w_map w) (w_heap w) ll = false) cands →
  remove_wrong_lanelets (S excess) ind deleted match_ w =
    Ok (deleted, match_,
        mkWorld (w_map w1) (w_heap w1) (w_next_loc w1) (w_next_id w1)
          (w_log w1 ++
           [skip_message])).
Proof.
  intros Hseg Hc Hall. simpl. unfold bind at 1, at_. rewrite Hseg. simpl.
  unfold find_wrong_lanelet, bind. rewrite Hc.
  pose proof (find_wrong_lanelet_candidates_loop_log _ _ _ _ _ Hc) as (Hm & Hh & _).
  rewrite <- Hm, <- Hh in Hall.
  replace (List.find (lonely (w_map w1) (w_heap w1)) cands) with (@None Lanelet); [done|].
  symmetry. clear Hc. induction cands as [|c cands IH]; simpl; [done|].
  apply Forall_cons in Hall as [-> Hall]. by apply IH.
Qed.

(** *** One segment of [check_lanes] *)

Lemma check_lanes_seg_inv ind ind_change val_lanes_new val_shoulder_new
    cols deleted match_ w cols' deleted' match' w' :
  check_lanes_seg ind ind_change val_lanes_new val_shoulder_new
    cols deleted match_ w = Ok (cols', deleted', match', w') →
  ∃ seg l0 s0 val_lane val_sh col_code lanes_osm added removed,
    ref_pline match_ !! ind = Some seg ∧
    head val_lanes_new = Some l0 ∧ head val_shoulder_new = Some s0 ∧
    active_value ind 0 ind_change (zip val_lanes_new val_shoulder_new) (l0, s0)
      = Ok (val_lane, val_sh) ∧
    col_code_of val_lane val_sh (lanes_count_of seg) = Ok (col_code, lanes_osm) ∧
    cols' = cols ++ added ∧
    Forall (λ e, e.2 = col_code) added ∧ NoDup added.*1 ∧
    (∀ e, e ∈ added → e.1 ∉ cols.*1) ∧
    Forall (λ a, ∃ id, asId a = Some id ∧ found_id (w_map w) id ∈ cols'.*1)
      (chain (seg_attrs seg) "ll_id_forward_" ++
       chain (seg_attrs seg) "ll_id_backward_") ∧
    deleted' = deleted ++ removed ∧
    Forall (λ ll, lonely (w_map w) (w_heap w) ll = true) removed ∧
    Z.of_nat (length removed) ≤ Z.max 0 (lanes_count_of seg - lanes_osm) ∧
    (val_lane = "" → removed = [] ∧ match' = match_) ∧
    log_only w w'.
Proof.
  unfold check_lanes_seg. intros Hrun.
  apply bind_Ok in Hrun as (seg & w1 & Hseg & Hrun).
  apply lift_Ok in Hseg as [Hseg ->]. apply at_Ok in Hseg.
  apply bind_Ok in Hrun as (l0 & w1 & Hl0 & Hrun).
  apply lift_Ok in Hl0 as [Hl0 ->].
  apply bind_Ok in Hrun as (s0 & w1 & Hs0 & Hrun).
  apply lift_Ok in Hs0 as [Hs0 ->].
  apply bind_Ok in Hrun as ([val_lane val_sh] & w1 & Hact & Hrun).
  apply lift_Ok in Hact as [Hact ->].
  apply bind_Ok in Hrun as ([col_code lanes_osm] & w1 & Hcc & Hrun).
  apply lift_Ok in Hcc as [Hcc ->].
  apply bind_Ok in Hrun as (cols1 & w1 & Hc1 & Hrun).
  apply set_color_code_ids_spec in Hc1 as (Hlog1 & a1 & -> & Hcol1 & Hnd1 & Hnew1 & Hall1).
  apply bind_Ok in Hrun as (cols2 & w2 & Hc2 & Hrun).
  apply set_color_code_ids_spec in Hc2 as (Hlog2 & a2 & -> & Hcol2 & Hnd2 & Hnew2 & Hall2).
  apply bind_Ok in Hrun as ([del1 m1] & w3 & Hrm & Hrun).
  injection Hrun as <- <- <- <-.
  assert (log_only w w2) as Hlog12 by (by eapply log_only_trans).
  assert (w_map w1 = w_map w) as Hm1 by apply Hlog1.
  assert (∃ removed, del1 = deleted ++ removed ∧
            Forall (λ ll, lonely (w_map w) (w_heap w) ll = true) removed ∧
            Z.of_nat (length removed) ≤ Z.max 0 (lanes_count_of seg - lanes_osm) ∧
            (val_lane = "" → removed = [] ∧ m1 = match_) ∧ log_only w2 w3)
    as (removed & -> & Hlonely & Hlen & Hnone & Hlog3).
  { case_bool_decide as Hvl.
    - apply remove_wrong_lanelets_spec in Hrm as (Hlog3 & removed & -> & Hlen & Hl).
      exists removed. split_and!; try done; try lia.
      destruct Hlog12 as (Hm & Hh & _). by rewrite Hm, Hh in Hl.
    - injection Hrm as <- <- <-. exists []. rewrite app_nil_r.
      split_and!; try done; try (simpl; lia); try apply log_only_refl. }
  unfold front in Hl0, Hs0.
  destruct (head val_lanes_new) as [l0'|]; [|done]. injection Hl0 as ->.
  destruct (head val_shoulder_new) as [s0'|]; [|done]. injection Hs0 as ->.
  exists seg, l0, s0, val_lane, val_sh, col_code, lanes_osm, (a1 ++ a2), removed.
  rewrite <- app_assoc.
  split_and!; try done.
  - by apply Forall_app.
  - rewrite fmap_app. apply NoDup_app. repeat split; [done| |done].
    intros x Hx1 Hx2. apply list_elem_of_fmap in Hx2 as (e & -> & He).
    apply (Hnew2 e He). rewrite fmap_app. apply elem_of_app. by right.
  - intros e He. apply elem_of_app in He as [He|He]; [by apply Hnew1|].
    intros Hin. apply (Hnew2 e He). rewrite fmap_app. apply elem_of_app. by left.
  - apply Forall_app. split.
    + eapply Forall_impl; [exact Hall1|]. intros a (id & Ha & Hin).
      exists id. split; [done|]. rewrite app_assoc, fmap_app.
      apply elem_of_app. by left.
    + rewrite Hm1, <- app_assoc in Hall2. exact Hall2.
  - by eapply log_only_trans.
Qed.

(** *** The colour entries of a whole pass *)

Lemma check_lanes_seg_cols ind ind_change vln vsn cols deleted match_ w r w' :
  check_lanes_seg ind ind_change vln vsn cols deleted match_ w = Ok (r, w') →
  cols_grow cols r.1.1.
Proof.
  destruct r as [[cols' deleted'] match']. intros Hrun.
  apply check_lanes_seg_inv in Hrun
    as (seg & l0 & s0 & vl & vs & cc & lo & added & removed & _ & _ & _ & _ & _
        & -> & _ & Hnd & Hnew & _).
  by exists added.
Qed.

Lemma check_lanes_loop_cols n : ∀ ind ind_change vln vsn cols deleted match_ w r w',
  check_lanes_loop n ind ind_change vln vsn cols deleted match_ w = Ok (r, w') →
  cols_grow cols r.1.1.
Proof.
  induction n as [|n IH]; simpl; intros ind ind_change vln vsn cols deleted match_ w r w' Hrun.
  - injection Hrun as <- <-. apply cols_grow_refl.
  - apply bind_Ok in Hrun as ([[cols1 del1] m1] & w1 & Hseg & Hrun).
    apply check_lanes_seg_cols in Hseg. apply IH in Hrun.
    by eapply cols_grow_trans.
Qed.

Lemma check_lanes_cols match_ cols p6 p7 v6 v7 deleted w r w' :
  check_lanes match_ cols p6 p7 v6 v7 deleted w = Ok (r, w') →
  cols_grow cols r.1.1.
Proof.
  unfold check_lanes. intros Hrun.
  apply bind_Ok in Hrun as (ic & w1 & _ & Hrun).
  apply bind_Ok in Hrun as (sd & w2 & _ & Hrun).
  apply bind_Ok in Hrun as (l0 & w3 & _ & Hrun).
  apply bind_Ok in Hrun as (s0 & w4 & _ & Hrun).
  apply bind_Ok in Hrun as ([vln vsn] & w5 & _ & Hrun).
  by eapply check_lanes_loop_cols.
Qed.

(** What a match goes through. *)
Lemma conflate_match_inv fuel match_ cols deleted w r w' :
  conflate_match fuel match_ cols deleted w = Ok (r, w') →
  (target_pline match_ = [] ∧ r = (match_, cols, deleted) ∧ w' = w) ∨
  (target_pline match_ ≠ [] ∧
   ∃ m1 pts_change values w0 w1 p6 p7 v6 v7 cols' deleted' m',
     split_on_tag_change fuel match_ target_keys w = Ok (m1, pts_change, values, w0) ∧
     pts_change !! 6%nat = Some p6 ∧ pts_change !! 7%nat = Some p7 ∧
     values !! 6%nat = Some v6 ∧ values !! 7%nat = Some v7 ∧
     check_lanes m1 cols p6 p7 v6 v7 deleted w1 = Ok (cols', deleted', m', w') ∧
     r = (m', cols', deleted')).
Proof.
  unfold conflate_match. case_bool_decide as Ht.
  - intros Hrun. right. split; [done|].
    apply bind_Ok in Hrun as ([[m1 pts_change] values] & w0 & Hsplit & Hrun).
    do 18 (apply bind_Ok in Hrun as (? & ? & _ & Hrun)).
    apply bind_Ok in Hrun as (p6 & ? & Hp6 & Hrun). apply lift_Ok in Hp6 as [Hp6 ->].
    apply bind_Ok in Hrun as (p7 & ? & Hp7 & Hrun). apply lift_Ok in Hp7 as [Hp7 ->].
    apply bind_Ok in Hrun as (v6 & ? & Hv6 & Hrun). apply lift_Ok in Hv6 as [Hv6 ->].
    apply bind_Ok in Hrun as (v7 & w1 & Hv7 & Hrun). apply lift_Ok in Hv7 as [Hv7 ->].
    apply bind_Ok in Hrun as ([[cols' deleted'] m'] & w2 & Hcl & Hrun).
    injection Hrun as <- <-.
    apply at_Ok in Hp6, Hp7, Hv6, Hv7.
    eexists m1, pts_change, values, w0, _, p6, p7, v6, v7, cols', deleted', m'.
    split_and!; eauto.
  - intros [= <- <-]. left. split; [|done].
    destruct (target_pline match_); [done|]. by destruct Ht.
Qed.

Lemma conflate_matches_cols fuel matches : ∀ cols deleted w r w',
  conflate_matches fuel matches cols deleted w = Ok (r, w') →
  cols_grow cols r.1.2.
Proof.
  induction matches as [|m matches IH]; simpl; intros cols deleted w r w' Hrun.
  - injection Hrun as <- <-. apply cols_grow_refl.
  - apply bind_Ok in Hrun as ([[m1 cols1] del1] & w1 & Hm & Hrun).
    apply bind_Ok in Hrun as ([[ms cols2] del2] & w2 & Hms & Hrun).
    injection Hrun as <- <-. simpl. apply IH in Hms. simpl in Hms.
    eapply cols_grow_trans; [|exact Hms].
    apply conflate_match_inv in Hm
      as [(_ & [= <- <- <-] & _)|(_ & ? & ? & ? & ? & ? & ? & ? & ? & ? & ? & ? & ?
                                  & _ & _ & _ & _ & _ & Hcl & [= <- <- <-])].
    + apply cols_grow_refl.
    + by apply check_lanes_cols in Hcl.
Qed.

Lemma print_all_Ok msgs : ∀ w, ∃ w', print_all msgs w = Ok (tt, w').
Proof.
  induction msgs as [|s msgs IH]; simpl; intros w; [by eexists|].
  unfold bind, print. apply IH.
Qed.

Lemma conflate_lanelet_OSM_inv fuel matches cols deleted w r w' :
  conflate_lanelet_OSM fuel matches cols deleted w = Ok (r, w') →
  ∃ matches' cols' deleted' w1,
    conflate_matches fuel matches cols deleted w = Ok (matches', cols', deleted', w1) ∧
    r = (true, matches', cols', deleted').
Proof.
  unfold conflate_lanelet_OSM. intros Hrun.
  apply bind_Ok in Hrun as ([[ms cols'] del'] & w1 & Hms & Hrun).
  apply bind_Ok in Hrun as ([] & w2 & _ & Hrun).
  injection Hrun as <- <-. by exists ms, cols', del', w1.
Qed.

Lemma stoi_range s n : stoi s = Ok n → INT_MIN ≤ n ≤ INT_MAX.
Proof.
  unfold stoi. destruct (read_sign (skip_spaces s)) as [neg [|c r]]; [done|].
  destruct (digit_of c); [|done]. case_bool_decide; [|done]. by intros [= <-].
Qed.

Lemma stoi_fails s f : stoi s = Fail f → ∃ e, f = Thrown e.
Proof.
  unfold stoi. destruct (read_sign (skip_spaces s)) as [neg [|c r]].
  - intros [= <-]. eauto.
  - destruct (digit_of c); [|intros [= <-]; eauto].
    case_bool_decide; [done|]. intros [= <-]. eauto.
Qed.

(** For the pair of values that a segment is given, [lanes_osm] is the
    integer of the [lanes] value plus 1 for a
    shoulder [yes], [left] or [right] and plus 2 for [both]; the colour
    of a segment is light blue without a [lanes] value, green when the
    number of lanelets of the segment is [lanes_osm] and red otherwise;
    the lanelets of the segment that have no colour yet get that colour;
    in a whole pass the new colour entries are for distinct ids that had
    no entry. *)
Lemma check_lanes_classification :
  (∀ val_lane val_sh n,
     stoi val_lane = Ok n → n + shoulder_lanes val_sh ≤ INT_MAX →
     lanes_osm_of val_lane val_sh = Ok (n + shoulder_lanes val_sh)) ∧
  (∀ val_lane val_sh lanes_count lanes_osm,
     val_lane ≠ "" → lanes_osm_of val_lane val_sh = Ok lanes_osm →
     col_code_of val_lane val_sh lanes_count =
       Ok (if bool_decide (lanes_count = lanes_osm) then "WEBGreen" else "WEBRed",
           lanes_osm)) ∧
  (∀ val_sh lanes_count,
     col_code_of "" val_sh lanes_count = Ok ("WEBBlueLight", 0)) ∧
  (∀ ind ind_change val_lanes_new val_shoulder_new cols deleted match_ w
     cols' deleted' match' w',
     check_lanes_seg ind ind_change val_lanes_new val_shoulder_new
       cols deleted match_ w = Ok (cols', deleted', match', w') →
     ∃ seg l0 s0 val_lane val_sh col_code lanes_osm added,
       ref_pline match_ !! ind = Some seg ∧
       head val_lanes_new = Some l0 ∧ head val_shoulder_new = Some s0 ∧
       active_value ind 0 ind_change (zip val_lanes_new val_shoulder_new) (l0, s0)
         = Ok (val_lane, val_sh) ∧
       col_code_of val_lane val_sh (lanes_count_of seg) = Ok (col_code, lanes_osm) ∧
       cols' = cols ++ added ∧
       Forall (λ e, e.2 = col_code) added ∧ NoDup added.*1 ∧
       (∀ e, e ∈ added → e.1 ∉ cols.*1) ∧
       Forall (λ a, ∃ id, asId a = Some id ∧ found_id (w_map w) id ∈ cols'.*1)
         (chain (seg_attrs seg) "ll_id_forward_" ++
          chain (seg_attrs seg) "ll_id_backward_")) ∧
  (∀ fuel matches cols deleted w b matches' cols' deleted' w',
     conflate_lanelet_OSM fuel matches cols deleted w =
       Ok (b, matches', cols', deleted', w') →
     cols_grow cols cols' ∧ (NoDup cols.*1 → NoDup cols'.*1)).
Proof.
  split_and!.
  - intros val_lane val_sh n Hn Hmax. unfold lanes_osm_of, shoulder_lanes in *.
    rewrite Hn. simpl.
    pose proof (stoi_range _ _ Hn) as Hrange.
    unfold int_add. unfold INT_MIN, INT_MAX in *.
    repeat case_bool_decide; try done; try lia. by rewrite Z.add_0_r.
  - intros val_lane val_sh lanes_count lanes_osm Hne Hlo. unfold col_code_of.
    rewrite bool_decide_eq_true_2 by done. rewrite Hlo. simpl.
    by case_bool_decide.
  - intros val_sh lanes_count. unfold col_code_of.
    by rewrite bool_decide_eq_false_2 by (intros Hne; by apply Hne).
  - intros ind ind_change vln vsn cols deleted match_ w cols' deleted' match' w' Hrun.
    apply check_lanes_seg_inv in Hrun
      as (seg & l0 & s0 & vl & vs & cc & lo & added & removed & Hrest).
    exists seg, l0, s0, vl, vs, cc, lo, added. by destruct_and!.
  - intros fuel matches cols deleted w b matches' cols' deleted' w' Hrun.
    apply conflate_lanelet_OSM_inv in Hrun
      as (ms & c' & d' & w1 & Hms & [= -> -> -> ->]).
    apply conflate_matches_cols in Hms. simpl in Hms.
    split; [done|]. by apply cols_grow_NoDup.
Qed.

(** C5: [check_lanes] merges the change points of [lanes] and [shoulder]
    key by key and not along the route.  When the [lanes] value changes
    at [pl], behind the point [ps] where the [shoulder] value changes,
    the merged points are [pl; ps], and a reference segment [ind] that
    lies behind [ps] and before [pl] is classified with the [lanes]
    value [l1] of behind [pl], as if that were the value of the whole
    route, and not with the value [l0] that holds up to [pl]: the
    lanelets of its chains that have no colour yet are green when the
    length of the chains, forward plus backward, is the integer of [l1]
    plus the lanes of the shoulder [s1], and red otherwise. *)
Theorem check_lanes_merged_order (match_ : s_match) (pl ps : Point3d)
    (l0 l1 s0 s1 : string) (il is_ : nat) :
  pt_id pl ≠ pt_id ps →
  get_index match_ pl = Ok il → get_index match_ ps = Ok is_ →
  same_direction match_ = Ok true →
  (∀ cols deleted w,
     check_lanes match_ cols [pl] [ps] [l0; l1] [s0; s1] deleted w =
       check_lanes_loop (length (ref_pline match_)) 0 [il; is_]
         [l0; l1; l1] [s0; s0; s1] cols deleted match_ w) ∧
  (∀ ind cols deleted m w, (is_ ≤ ind < il)%nat →
     check_lanes_seg ind [il; is_] [l0; l1; l1] [s0; s0; s1] cols deleted m w =
       check_lanes_seg ind [] [l1] [s1] cols deleted m w) ∧
  (∀ ind cols deleted m w cols' deleted' m' w' n, (is_ ≤ ind < il)%nat →
     stoi l1 = Ok n → n + shoulder_lanes s1 ≤ INT_MAX →
     check_lanes_seg ind [il; is_] [l0; l1; l1] [s0; s0; s1] cols deleted m w =
       Ok (cols', deleted', m', w') →
     ∃ seg added,
       ref_pline m !! ind = Some seg ∧ cols' = cols ++ added ∧
       Forall (λ e, e.2 = if bool_decide (lanes_count_of seg = n + shoulder_lanes s1)
                          then "WEBGreen" else "WEBRed") added ∧
       Forall (λ a, ∃ id, asId a = Some id ∧ found_id (w_map w) id ∈ cols'.*1)
         (seg_ids seg)).
Proof.
  intros Hne Hil His Hsd.
  assert (pt_eqb ps pl = false) as Hsl.
  { unfold pt_eqb. by rewrite bool_decide_eq_false_2. }
  assert (pt_eqb pl ps = false) as Hls.
  { unfold pt_eqb. by rewrite bool_decide_eq_false_2. }
  assert (pt_eqb pl pl = true) as Hll by (unfold pt_eqb; by rewrite bool_decide_eq_true_2).
  assert (pt_eqb ps ps = true) as Hss by (unfold pt_eqb; by rewrite bool_decide_eq_true_2).
  split_and!.
  - intros cols deleted w. unfold check_lanes, merge_point_vec. simpl.
    rewrite Hsl. simpl. unfold bind, lift. rewrite Hil, His. simpl.
    rewrite Hsd. simpl. by rewrite Hll, Hsl, Hls, Hss.
  - intros ind cols deleted m w [Hlo Hhi]. unfold check_lanes_seg, bind, lift.
    destruct (at_ (ref_pline m) ind) as [seg|f]; [|done]. simpl.
    rewrite bool_decide_eq_false_2 by lia. rewrite bool_decide_eq_true_2 by lia.
    done.
  - intros ind cols deleted m w cols' deleted' m' w' n [Hlo Hhi] Hn Hmax Hrun.
    apply check_lanes_seg_inv in Hrun
      as (seg & l & s & vl & vs & cc & lo & added & removed & Hseg & Hl & Hs & Hact &
          Hcc & Hcols & Hadded & _ & _ & Hall & _).
    simpl in Hact.
    rewrite bool_decide_eq_false_2 in Hact by lia.
    rewrite bool_decide_eq_true_2 in Hact by lia.
    simpl in Hact. injection Hact as <- <-.
    destruct check_lanes_classification as (Hosm & Hcode & _).
    assert (l1 ≠ "") as Hl1 by (intros ->; discriminate).
    rewrite (Hcode l1 s1 _ _ Hl1 (Hosm l1 s1 n Hn Hmax)) in Hcc.
    injection Hcc as <- <-.
    by exists seg, added.
Qed.



(** *** Matches that are skipped *)

Lemma bind_eq {A B} (m : M A) (k : A → M B) w a w' :
  m w = Ok (a, w') → bind m k w = k a w'.
Proof. unfold bind. by intros ->. Qed.

Lemma check_tag_change_constant (pline : list Segment) (keys : list string) :
  (∀ key seg, key ∈ keys → seg ∈ pline →
     default "" (seg_attrs seg !! key) = first_value pline key) →
  check_tag_change pline keys [] [] =
    Ok (replicate (length keys) [], (λ key, [first_value pline key]) <$> keys).
Proof.
  intros Hconst. apply check_tag_change_scans.
  exists ((λ key, ([], [first_value pline key])) <$> keys). split_and!.
  - apply Forall2_fmap_r, Forall_Forall2_diag, Forall_forall. intros key Hkey.
    unfold check_tag_change_key. apply tag_changes_constant.
    intros seg Hseg. apply Hconst; [done|]. destruct pline; [done|by right].
  - simpl. rewrite <- list_fmap_compose. clear Hconst.
    induction keys as [|k keys IH]; simpl; by f_equal.
  - simpl. by rewrite <- list_fmap_compose.
Qed.

Lemma same_direction_no_ref match_ :
  ref_pline match_ = [] → same_direction match_ = Ok false.
Proof.
  intros Href. unfold same_direction.
  rewrite bool_decide_eq_false_2; [done|]. intros [Hne _]. by apply Hne.
Qed.

Lemma set_type_location_no_ref match_ values w :
  ref_pline match_ = [] → set_type_location match_ [] values w = Ok (tt, w).
Proof.
  intros Href. unfold set_type_location. case_bool_decide; [|done].
  simpl. unfold bind, lift. rewrite (same_direction_no_ref _ Href), Href. done.
Qed.

Lemma transfer_att_no_ref match_ ref_key values w :
  ref_pline match_ = [] → transfer_att match_ ref_key [] values w = Ok (tt, w).
Proof.
  intros Href. unfold transfer_att, transfer_tag. simpl. unfold bind at 1. simpl.
  case_bool_decide; [|done].
  unfold bind, lift. rewrite (same_direction_no_ref _ Href), Href. done.
Qed.

Lemma check_lanes_no_ref match_ cols l s deleted w :
  ref_pline match_ = [] →
  check_lanes match_ cols [] [] [l] [s] deleted w = Ok (cols, deleted, match_, w).
Proof.
  intros Href. unfold check_lanes. simpl. unfold bind, lift. simpl.
  rewrite (same_direction_no_ref _ Href), Href. done.
Qed.

(** A match without target polyline is skipped: the match, the colours,
    the deleted lanelets and the world stay as they are.  A match
    without reference polyline has no effect when no key changes its
    value along the target polyline. *)
Lemma conflate_match_skips (fuel : nat) (match_ : s_match)
    (cols : list (Id * string)) (deleted : list Lanelet) (w : World) :
  (target_pline match_ = [] →
   conflate_match fuel match_ cols deleted w = Ok (match_, cols, deleted, w)) ∧
  (ref_pline match_ = [] →
   (∀ key seg, key ∈ target_keys → seg ∈ target_pline match_ →
      default "" (seg_attrs seg !! key) = first_value (target_pline match_) key) →
   conflate_match fuel match_ cols deleted w = Ok (match_, cols, deleted, w)).
Proof.
  split.
  - intros Ht. unfold conflate_match.
    rewrite bool_decide_eq_false_2; [done|]. intros Hne. by apply Hne.
  - intros Href Hconst. unfold conflate_match. case_bool_decide; [|done].
    assert (split_on_tag_change fuel match_ target_keys w =
              Ok (match_, replicate (length target_keys) [],
                  (λ key, [first_value (target_pline match_) key]) <$> target_keys, w))
      as Hsplit.
    { unfold split_on_tag_change, bind, lift.
      by rewrite (check_tag_change_constant _ _ Hconst). }
    rewrite (bind_eq _ _ _ _ _ Hsplit). simpl.
    unfold bind at 1 2; simpl.
    rewrite (bind_eq _ _ _ _ _ (set_type_location_no_ref _ _ _ Href)).
    do 5 (unfold bind at 1 2; simpl;
          rewrite (bind_eq _ _ _ _ _ (transfer_att_no_ref _ _ _ _ Href))).
    unfold bind at 1 2 3 4; simpl.
    by rewrite (bind_eq _ _ _ _ _ (check_lanes_no_ref _ _ _ _ _ _ Href)).
Qed.

Lemma split_ll_dir_loop_no_ref fuel match_ ind key i splitted newls pt w :
  ref_pline match_ = [] →
  split_ll_dir_loop fuel match_ ind key i splitted newls pt w = Undefined.
Proof. intros Href. destruct fuel; simpl; unfold bind, lift, at_; by rewrite Href. Qed.

(** C8: a match without target polyline is skipped, but a match without
    reference polyline is not: when a value of a target key changes along
    its target polyline, [get_index] returns 0 for every change point and
    [split_ll_dir] indexes the empty reference polyline with it, which is
    undefined behaviour. *)
Theorem conflate_match_empty_reference (fuel : nat) (match_ : s_match)
    (cols : list (Id * string)) (deleted : list Lanelet) (w : World) :
  (target_pline match_ = [] →
   conflate_match fuel match_ cols deleted w = Ok (match_, cols, deleted, w)) ∧
  (∀ pts_change values,
     ref_pline match_ = [] → target_pline match_ ≠ [] →
     check_tag_change (target_pline match_) target_keys [] [] =
       Ok (pts_change, values) →
     merge_point_vec pts_change ≠ [] →
     (∀ pt, get_index match_ pt = Ok 0%nat) ∧
     conflate_match fuel match_ cols deleted w = Undefined).
Proof.
  split.
  { intros Htarget. unfold conflate_match.
    rewrite bool_decide_eq_false_2; [done|]. intros Hne. by apply Hne. }
  intros pts_change values Href Htarget Hctc Hmerged.
  assert (∀ pt, get_index match_ pt = Ok 0%nat) as Hindex.
  { intros pt. unfold get_index. by rewrite Href. }
  split; [done|].
  unfold conflate_match. rewrite bool_decide_eq_true_2 by done.
  unfold split_on_tag_change, bind at 1, lift at 1. rewrite Hctc.
  unfold bind at 1. unfold bind at 1. rewrite bool_decide_eq_true_2 by done.
  unfold split_lanelet.
  destruct (merge_point_vec pts_change) as [|pt pts]; [done|]. simpl.
  unfold bind at 1, lift at 1. rewrite Hindex. unfold bind at 1, split_ll_dir.
  by rewrite split_ll_dir_loop_no_ref.
Qed.


(** *** Exceptions *)

Lemma o_no_throw_Ok {A} (a : A) : o_no_throw (Ok a).
Proof. by intros e. Qed.

Lemma o_no_throw_Undefined {A} : o_no_throw (@Fail A UB).
Proof. by intros e. Qed.

Lemma o_no_throw_of_option {A} (o : option A) : o_no_throw (of_option o).
Proof. intros e. by destruct o. Qed.

Lemma o_no_throw_at {A} (l : list A) i : o_no_throw (at_ l i).
Proof. apply o_no_throw_of_option. Qed.

Lemma o_no_throw_front {A} (l : list A) : o_no_throw (front l).
Proof. apply o_no_throw_of_option. Qed.

Lemma o_no_throw_back {A} (l : list A) : o_no_throw (back l).
Proof. apply o_no_throw_of_option. Qed.

Lemma o_no_throw_obind {A B} (m : outcome A) (k : A → outcome B) :
  o_no_throw m → (∀ a, o_no_throw (k a)) → o_no_throw (obind m k).
Proof.
  intros Hm Hk e. destruct m as [a|f]; simpl; [apply Hk|].
  intros [= ->]. by apply (Hm e).
Qed.

Lemma o_no_throw_omapM {A B} (f : A → outcome B) (l : list A) :
  (∀ a, o_no_throw (f a)) → o_no_throw (omapM f l).
Proof.
  intros Hf. induction l as [|x r IH]; simpl; [apply o_no_throw_Ok|].
  apply o_no_throw_obind; [done|]. intros y.
  apply o_no_throw_obind; [done|]. intros ys. apply o_no_throw_Ok.
Qed.

Lemma no_throw_ret {A} (a : A) : no_throw (ret a).
Proof. by intros w e. Qed.

Lemma no_throw_lift {A} (o : outcome A) : o_no_throw o → no_throw (lift o).
Proof. intros Ho w e. unfold lift. destruct o as [a|f]; [done|]. intros [= ->]. by apply (Ho e). Qed.

Lemma no_throw_bind {A B} (m : M A) (k : A → M B) :
  no_throw m → (∀ a, no_throw (k a)) → no_throw (bind m k).
Proof.
  intros Hm Hk w e. unfold bind. destruct (m w) as [[a w']|f] eqn:Hmw; [apply Hk|].
  intros [= ->]. by apply (Hm w e).
Qed.

Lemma no_throw_getId : no_throw getId.
Proof. by intros w e. Qed.

Lemma no_throw_alloc d : no_throw (alloc d).
Proof. by intros w e. Qed.

Lemma no_throw_store l d : no_throw (store l d).
Proof. by intros w e. Qed.

Lemma no_throw_print s : no_throw (print s).
Proof. by intros w e. Qed.

Lemma no_throw_get_map : no_throw get_map.
Proof. by intros w e. Qed.

Lemma no_throw_set_lanelets ll : no_throw (set_lanelets ll).
Proof. by intros w e. Qed.

Lemma no_throw_deref ls : no_throw (deref ls).
Proof. intros w e. unfold deref. apply no_throw_lift, o_no_throw_of_option. Qed.

Lemma no_throw_Fuel {A} : no_throw (lift (@Fail A Fuel)).
Proof. by intros w e. Qed.

Create HintDb nothrow discriminated.

Hint Resolve o_no_throw_Ok o_no_throw_Undefined o_no_throw_of_option
  o_no_throw_at o_no_throw_front o_no_throw_back no_throw_ret no_throw_getId
  no_throw_alloc no_throw_store no_throw_print no_throw_get_map
  no_throw_set_lanelets no_throw_deref no_throw_Fuel : nothrow.

(** Goes through the binds and the case distinctions of a computation. *)
Ltac no_throw_step :=
  match goal with
  | |- no_throw (bind _ _) => apply no_throw_bind; [|intros ?]
  | |- no_throw (lift _) => apply no_throw_lift
  | |- o_no_throw (obind _ _) => apply o_no_throw_obind; [|intros ?]
  | |- o_no_throw (omapM _ _) => apply o_no_throw_omapM; intros ?
  | |- context [let '(_, _) := ?x in _] => destruct x
  | |- context [if ?b then _ else _] => destruct b
  | |- context [match ?x with Some _ => _ | None => _ end] => destruct x
  | |- context [match ?x with LlIn _ => _ | LlEmpty => _ end] => destruct x
  end.

Ltac no_throw_auto := repeat (first [progress eauto 2 with nothrow | no_throw_step]).

Lemma o_no_throw_find_segment_2D p v : o_no_throw (find_segment_2D p v).
Proof. unfold find_segment_2D. destruct v; eauto with nothrow. Qed.
Hint Resolve o_no_throw_find_segment_2D : nothrow.

Lemma o_no_throw_split_vertex new_id v pt : o_no_throw (split_vertex new_id v pt).
Proof. unfold split_vertex. no_throw_auto. Qed.
Hint Resolve o_no_throw_split_vertex : nothrow.

Lemma no_throw_split_linestring orig_ls splitted new_lss pt inv :
  no_throw (split_linestring orig_ls splitted new_lss pt inv).
Proof. unfold split_linestring. no_throw_auto. Qed.
Hint Resolve no_throw_split_linestring : nothrow.

Lemma no_throw_find_ll id : no_throw (find_ll id).
Proof. unfold find_ll. no_throw_auto. Qed.

Lemma no_throw_leftBound ll : no_throw (leftBound ll).
Proof. unfold leftBound. no_throw_auto. Qed.

Lemma no_throw_rightBound ll : no_throw (rightBound ll).
Proof. unfold rightBound. no_throw_auto. Qed.

Lemma no_throw_attributes ll : no_throw (attributes ll).
Proof. unfold attributes. no_throw_auto. Qed.

Lemma no_throw_set_attribute ll key val : no_throw (set_attribute ll key val).
Proof. unfold set_attribute. no_throw_auto. Qed.

Lemma no_throw_set_map m : no_throw (set_map m).
Proof. by intros w e. Qed.

Lemma no_throw_registerId id : no_throw (registerId id).
Proof. by intros w e. Qed.

Lemma no_throw_set_points l : no_throw (set_points l).
Proof. by intros w e. Qed.

Lemma no_throw_set_linestrings l : no_throw (set_linestrings l).
Proof. by intros w e. Qed.

Lemma no_throw_set_polygons l : no_throw (set_polygons l).
Proof. by intros w e. Qed.

Lemma no_throw_set_regelems l : no_throw (set_regelems l).
Proof. by intros w e. Qed.

Lemma no_throw_set_areas l : no_throw (set_areas l).
Proof. by intros w e. Qed.

Lemma no_throw_laneletLayer_add id d : no_throw (laneletLayer_add id d).
Proof. by intros w e. Qed.

Lemma no_throw_areaLayer_add id a : no_throw (areaLayer_add id a).
Proof. by intros w e. Qed.

Lemma no_throw_regulatoryElementLayer_add id r :
  no_throw (regulatoryElementLayer_add id r).
Proof. by intros w e. Qed.

Lemma no_throw_polygonLayer_add id p : no_throw (polygonLayer_add id p).
Proof. by intros w e. Qed.

Lemma no_throw_lineStringLayer_add id l : no_throw (lineStringLayer_add id l).
Proof. by intros w e. Qed.

Lemma no_throw_pointLayer_add id p : no_throw (pointLayer_add id p).
Proof. by intros w e. Qed.

Lemma no_throw_resolved {A} (layer : gmap Id A) id add :
  (∀ i x, no_throw (add i x)) → no_throw (resolved layer id add).
Proof. intros Hadd. unfold resolved. by destruct (layer !! id); [|apply no_throw_ret]. Qed.

Hint Resolve no_throw_set_map no_throw_registerId no_throw_set_points
  no_throw_set_linestrings no_throw_set_polygons no_throw_set_regelems
  no_throw_set_areas no_throw_laneletLayer_add no_throw_areaLayer_add
  no_throw_regulatoryElementLayer_add no_throw_polygonLayer_add
  no_throw_lineStringLayer_add no_throw_pointLayer_add : nothrow.

Lemma no_throw_id_to_add {A} (layer : gmap Id A) id : no_throw (id_to_add layer id).
Proof. unfold id_to_add. no_throw_auto. Qed.
Hint Resolve no_throw_id_to_add : nothrow.

Lemma no_throw_iterM {A} (f : A → M unit) (l : list A) :
  (∀ x, no_throw (f x)) → no_throw (iterM f l).
Proof. intros Hf. induction l as [|x l IH]; simpl; no_throw_auto. Qed.

Lemma no_throw_add_point p : no_throw (add_point p).
Proof. unfold add_point. no_throw_auto. Qed.
Hint Resolve no_throw_add_point : nothrow.

Lemma no_throw_add_points pts : no_throw (add_points pts).
Proof. induction pts as [|p pts IH]; simpl; no_throw_auto. Qed.
Hint Resolve no_throw_add_points : nothrow.

Lemma no_throw_add_linestring ls : no_throw (add_linestring ls).
Proof. unfold add_linestring. no_throw_auto. Qed.
Hint Resolve no_throw_add_linestring : nothrow.

Lemma no_throw_add_polygon id poly : no_throw (add_polygon id poly).
Proof. unfold add_polygon. no_throw_auto. Qed.
Hint Resolve no_throw_add_polygon : nothrow.

Lemma no_throw_add fuel :
  (∀ src id d, no_throw (add_lanelet fuel src id d)) ∧
  (∀ src id regElem, no_throw (add_regelem fuel src id regElem)) ∧
  (∀ src id area, no_throw (add_area fuel src id area)).
Proof.
  induction fuel as [|fuel (IHl & IHr & IHa)]; [by split_and!; intros; simpl; auto with nothrow|].
  split_and!; intros src id x; simpl.
  - no_throw_auto; apply no_throw_iterM; intros ?; by apply no_throw_resolved.
  - no_throw_auto. apply no_throw_iterM.
    intros [?|?|?|?|?]; no_throw_auto; apply no_throw_resolved; intros; no_throw_auto.
  - no_throw_auto; try (apply no_throw_iterM; intros ?; no_throw_auto).
    + apply no_throw_iterM; intros ?; no_throw_auto.
    + by apply no_throw_resolved.
Qed.

Lemma no_throw_add_lanelet fuel src id d : no_throw (add_lanelet fuel src id d).
Proof. apply no_throw_add. Qed.

Hint Resolve no_throw_find_ll no_throw_leftBound no_throw_rightBound
  no_throw_attributes no_throw_set_attribute no_throw_add_lanelet : nothrow.

Lemma no_throw_split_ll_dir_loop fuel : ∀ match_ ind key i splitted newls pt,
  no_throw (split_ll_dir_loop fuel match_ ind key i splitted newls pt).
Proof.
  induction fuel as [|fuel IH]; intros match_ ind key i splitted newls pt; simpl;
    no_throw_auto.
Qed.
Hint Resolve no_throw_split_ll_dir_loop : nothrow.

Lemma o_no_throw_get_index match_ pt : o_no_throw (get_index match_ pt).
Proof. unfold get_index. no_throw_auto. Qed.

Lemma o_no_throw_same_direction match_ : o_no_throw (same_direction match_).
Proof. unfold same_direction. no_throw_auto. Qed.
Hint Resolve o_no_throw_get_index o_no_throw_same_direction : nothrow.

Lemma no_throw_split_lanelet_loop fuel pts : ∀ match_ splitted newLss,
  no_throw (split_lanelet_loop fuel match_ pts splitted newLss).
Proof.
  induction pts as [|pt pts IH]; intros match_ splitted newLss; simpl;
    unfold split_ll_dir; no_throw_auto.
Qed.
Hint Resolve no_throw_split_lanelet_loop : nothrow.

Lemma o_no_throw_tag_changes key rest : ∀ val pts_ values_,
  o_no_throw (tag_changes key val rest pts_ values_).
Proof.
  induction rest as [|it rest IH]; intros val pts_ values_; simpl; no_throw_auto.
Qed.
Hint Resolve o_no_throw_tag_changes : nothrow.

Lemma o_no_throw_check_tag_change pline keys : ∀ pts values,
  o_no_throw (check_tag_change pline keys pts values).
Proof.
  induction keys as [|key keys IH]; intros pts values; simpl;
    unfold check_tag_change_key; no_throw_auto.
Qed.
Hint Resolve o_no_throw_check_tag_change : nothrow.

Lemma no_throw_split_on_tag_change fuel match_ keys :
  no_throw (split_on_tag_change fuel match_ keys).
Proof. unfold split_on_tag_change, split_lanelet. no_throw_auto. Qed.

Lemma no_throw_set_value_ids ids key_ref val : ∀ setll,
  no_throw (set_value_ids ids key_ref val setll).
Proof. induction ids as [|a ids IH]; intros setll; simpl; no_throw_auto. Qed.
Hint Resolve no_throw_set_value_ids : nothrow.

Lemma o_no_throw_active_value {A} ind ind_change (values : list A) : ∀ j val,
  o_no_throw (active_value ind j ind_change values val).
Proof.
  induction ind_change as [|c ic IH]; intros j val; simpl; no_throw_auto.
Qed.
Hint Resolve o_no_throw_active_value : nothrow.

Lemma no_throw_set_type_location_loop segs ind_change values : ∀ ind s1 s2,
  no_throw (set_type_location_loop segs ind ind_change values s1 s2).
Proof.
  induction segs as [|seg segs IH]; intros ind s1 s2; simpl;
    unfold set_value_dir; no_throw_auto.
Qed.
Hint Resolve no_throw_set_type_location_loop : nothrow.

Lemma no_throw_set_type_location match_ pts_change values :
  no_throw (set_type_location match_ pts_change values).
Proof. unfold set_type_location. no_throw_auto. Qed.

Lemma no_throw_transfer_tag_loop segs key_ref ind_change values : ∀ ind setll,
  no_throw (transfer_tag_loop segs ind key_ref ind_change values setll).
Proof.
  induction segs as [|seg segs IH]; intros ind setll; simpl;
    unfold set_value_dir; no_throw_auto.
Qed.
Hint Resolve no_throw_transfer_tag_loop : nothrow.

Lemma no_throw_transfer_att match_ ref_key pts_change values :
  no_throw (transfer_att match_ ref_key pts_change values).
Proof. unfold transfer_att, transfer_tag. no_throw_auto. Qed.

Hint Resolve no_throw_split_on_tag_change no_throw_set_type_location
  no_throw_transfer_att : nothrow.

Lemma no_throw_set_color_code_ids ids col_code : ∀ cols,
  no_throw (set_color_code_ids ids col_code cols).
Proof. induction ids as [|a ids IH]; intros cols; simpl; no_throw_auto. Qed.
Hint Resolve no_throw_set_color_code_ids : nothrow.

Lemma no_throw_find_wrong_lanelet_candidates_loop attrs : ∀ cand,
  no_throw (find_wrong_lanelet_candidates_loop attrs cand).
Proof. induction attrs as [|a attrs IH]; intros cand; simpl; no_throw_auto. Qed.
Hint Resolve no_throw_find_wrong_lanelet_candidates_loop : nothrow.

Lemma no_throw_find_wrong_lanelet seg deleted match_ :
  no_throw (find_wrong_lanelet seg deleted match_).
Proof.
  unfold find_wrong_lanelet, find_wrong_lanelet_candidates.
  apply no_throw_bind; [eauto with nothrow|]. intros cands w e.
  by destruct (List.find _ cands).
Qed.
Hint Resolve no_throw_find_wrong_lanelet : nothrow.

Lemma no_throw_remove_wrong_lanelets excess ind : ∀ deleted match_,
  no_throw (remove_wrong_lanelets excess ind deleted match_).
Proof.
  induction excess as [|excess IH]; intros deleted match_; simpl; no_throw_auto.
Qed.
Hint Resolve no_throw_remove_wrong_lanelets : nothrow.

Lemma o_no_throw_merged_values pts_merged p6 p7 v6 v7 : ∀ c6 c7 n6 n7,
  o_no_throw (merged_values pts_merged p6 p7 v6 v7 c6 c7 n6 n7).
Proof.
  induction pts_merged as [|pt pts IH]; intros c6 c7 n6 n7; simpl; no_throw_auto.
Qed.
Hint Resolve o_no_throw_merged_values : nothrow.

Lemma bind_Throws {A B} (m : M A) (k : A → M B) w e :
  no_throw m → bind m k w = Throws e →
  ∃ a w', m w = Ok (a, w') ∧ k a w' = Throws e.
Proof.
  intros Hm Hrun. apply bind_Fail in Hrun as [Hrun|Hrun]; [|done].
  by apply Hm in Hrun.
Qed.

Lemma col_code_of_Throws val_lane val_sh lanes_count e :
  col_code_of val_lane val_sh lanes_count = Throws e →
  val_lane ≠ "" ∧ stoi val_lane = Throws e.
Proof.
  unfold col_code_of. case_bool_decide as Hne; [|done]. intros Hrun.
  split; [done|].
  apply obind_Fail in Hrun as [Hrun|(lo & _ & Hrun)]; [|by case_bool_decide].
  unfold lanes_osm_of in Hrun.
  apply obind_Fail in Hrun as [Hrun|(n & _ & Hrun)]; [done|].
  unfold int_add in Hrun. by repeat case_bool_decide.
Qed.

Lemma active_value_elem {A} ind ind_change (values : list A) : ∀ j val v,
  active_value ind j ind_change values val = Ok v → v = val ∨ v ∈ values.
Proof.
  induction ind_change as [|c ic IH]; simpl; intros j val v Hrun.
  - injection Hrun as <-. by left.
  - case_bool_decide.
    + apply obind_Ok in Hrun as (x & Hx & Hrun). apply at_Ok in Hx.
      right. destruct (IH _ _ _ Hrun) as [->|Hin]; [|done].
      by eapply list_elem_of_lookup_2.
    + by eapply IH.
Qed.

Lemma check_lanes_seg_Throws ind ind_change vln vsn cols deleted match_ w e :
  check_lanes_seg ind ind_change vln vsn cols deleted match_ w = Throws e →
  ∃ v, v ∈ vln ∧ v ≠ "" ∧ stoi v = Throws e.
Proof.
  unfold check_lanes_seg. intros Hrun.
  apply bind_Throws in Hrun as (seg & w1 & _ & Hrun); [|no_throw_auto].
  apply bind_Throws in Hrun as (l0 & w2 & Hl0 & Hrun); [|no_throw_auto].
  apply lift_Ok in Hl0 as [Hl0 ->].
  apply bind_Throws in Hrun as (s0 & w3 & _ & Hrun); [|no_throw_auto].
  apply bind_Throws in Hrun as ([vl vs] & w4 & Hact & Hrun); [|no_throw_auto].
  apply lift_Ok in Hact as [Hact ->].
  apply bind_Fail in Hrun as [Hrun|([cc lo] & w5 & _ & Hrun)].
  - apply lift_Fail, col_code_of_Throws in Hrun as [Hne Hst].
    exists vl. split; [|done].
    apply active_value_elem in Hact as [[= -> ->]|Hin].
    + unfold front in Hl0. destruct vln as [|x r]; [done|].
      injection Hl0 as ->. by left.
    + by apply elem_of_zip_l in Hin.
  - exfalso. revert Hrun. unfold set_color_code_dir.
    generalize w5 e. change (no_throw
      (cols0 <~ set_color_code_ids (chain (seg_attrs seg) "ll_id_forward_") cc cols ;;
       cols1 <~ set_color_code_ids (chain (seg_attrs seg) "ll_id_backward_") cc cols0 ;;
       r <~ (if bool_decide (vl ≠ "")
             then remove_wrong_lanelets (Z.to_nat (lanes_count_of seg - lo)) ind
                    deleted match_
             else ret (deleted, match_)) ;;
       (let '(deleted0, match_0) := r in ret (cols1, deleted0, match_0)))).
    no_throw_auto.
Qed.

Lemma check_lanes_loop_Throws n : ∀ ind ind_change vln vsn cols deleted match_ w e,
  check_lanes_loop n ind ind_change vln vsn cols deleted match_ w = Throws e →
  ∃ v, v ∈ vln ∧ v ≠ "" ∧ stoi v = Throws e.
Proof.
  induction n as [|n IH]; simpl; intros ind ind_change vln vsn cols deleted match_ w e Hrun;
    [done|].
  apply bind_Fail in Hrun as [Hrun|([[c d] m] & w1 & _ & Hrun)].
  - by eapply check_lanes_seg_Throws.
  - by eapply IH.
Qed.

Lemma merged_values_elem pts_merged p6 p7 v6 v7 : ∀ c6 c7 n6 n7 vln vsn,
  merged_values pts_merged p6 p7 v6 v7 c6 c7 n6 n7 = Ok (vln, vsn) →
  ∀ x, x ∈ vln → x ∈ n6 ∨ x ∈ v6.
Proof.
  induction pts_merged as [|pt pts IH]; simpl; intros c6 c7 n6 n7 vln vsn Hrun x Hx.
  - injection Hrun as <- <-. by left.
  - apply obind_Ok in Hrun as (vl & Hvl & Hrun).
    apply obind_Ok in Hrun as (vs & _ & Hrun). apply at_Ok in Hvl.
    destruct (IH _ _ _ _ _ _ Hrun x Hx) as [Hin|Hin]; [|by right].
    apply elem_of_app in Hin as [Hin|Hin]; [by left|].
    apply list_elem_of_singleton in Hin as ->. right.
    by eapply list_elem_of_lookup_2.
Qed.

Lemma check_lanes_Throws match_ cols p6 p7 v6 v7 deleted w e :
  check_lanes match_ cols p6 p7 v6 v7 deleted w = Throws e →
  ∃ v, v ∈ v6 ∧ v ≠ "" ∧ stoi v = Throws e.
Proof.
  unfold check_lanes. intros Hrun.
  apply bind_Throws in Hrun as (ic & w1 & _ & Hrun); [|no_throw_auto].
  apply bind_Throws in Hrun as (sd & w2 & _ & Hrun); [|no_throw_auto].
  apply bind_Throws in Hrun as (l0 & w3 & Hl0 & Hrun); [|no_throw_auto].
  apply lift_Ok in Hl0 as [Hl0 ->].
  apply bind_Throws in Hrun as (s0 & w4 & _ & Hrun); [|no_throw_auto].
  apply bind_Throws in Hrun as ([vln vsn] & w5 & Hmv & Hrun); [|no_throw_auto].
  apply lift_Ok in Hmv as [Hmv ->].
  apply check_lanes_loop_Throws in Hrun as (v & Hv & Hne & Hst).
  exists v. split; [|done].
  assert (∀ x, x ∈ (if negb sd then rev v6 else v6) → x ∈ v6) as Hrev.
  { intros x. destruct sd; simpl; [done|].
    rewrite !list_elem_of_In. apply in_rev. }
  destruct (merged_values_elem _ _ _ _ _ _ _ _ _ _ _ Hmv v Hv) as [Hin|Hin].
  - apply list_elem_of_singleton in Hin as ->. apply Hrev.
    unfold front in Hl0. destruct (if negb sd then rev v6 else v6) as [|x r]; [done|].
    injection Hl0 as ->. by left.
  - by apply Hrev.
Qed.

Lemma split_on_tag_change_values fuel match_ keys w m1 pts_change values w' :
  split_on_tag_change fuel match_ keys w = Ok (m1, pts_change, values, w') →
  check_tag_change (target_pline match_) keys [] [] = Ok (pts_change, values).
Proof.
  unfold split_on_tag_change. intros Hrun.
  apply bind_Ok in Hrun as ([pc vals] & w1 & Hctc & Hrun).
  apply lift_Ok in Hctc as [Hctc ->].
  apply bind_Ok in Hrun as (m2 & w2 & _ & Hrun). by injection Hrun as <- <- <- <-.
Qed.

(** The values of a key are empty or values of the key on the route. *)
Lemma check_tag_change_values pline keys pts values i key vs x :
  check_tag_change pline keys [] [] = Ok (pts, values) →
  keys !! i = Some key → values !! i = Some vs → x ∈ vs →
  x = "" ∨ ∃ seg, seg ∈ pline ∧ seg_attrs seg !! key = Some x.
Proof.
  intros Hctc Hkey Hvs Hx.
  apply check_tag_change_scans in Hctc as (rs & Hrs & _ & ->). simpl in Hvs.
  rewrite list_lookup_fmap in Hvs.
  destruct (Forall2_lookup_l _ _ _ _ _ Hrs Hkey) as ([p v] & Hi & Hr).
  rewrite Hi in Hvs. injection Hvs as <-.
  unfold check_tag_change_key in Hr.
  destruct (tag_changes_values _ _ _ _ _ _ _ Hr x Hx) as [Hin|[->|(seg & Hseg & Hs)]].
  - apply list_elem_of_singleton in Hin as ->. unfold first_value.
    destruct pline as [|seg pline]; [by left|].
    destruct (seg_attrs seg !! key) as [v0|] eqn:Hv0; [|by left].
    right. exists seg. split; [by left|done].
  - by left.
  - right. exists seg. split; [|done]. destruct pline; [done|by right].
Qed.

Lemma conflate_match_Throws fuel match_ cols deleted w e :
  conflate_match fuel match_ cols deleted w = Throws e →
  ∃ seg v, seg ∈ target_pline match_ ∧ seg_attrs seg !! "lanes" = Some v ∧
           v ≠ "" ∧ stoi v = Throws e.
Proof.
  unfold conflate_match. case_bool_decide; [|done]. intros Hrun.
  apply bind_Throws in Hrun as ([[m1 pc] vals] & w0 & Hsplit & Hrun); [|no_throw_auto].
  apply split_on_tag_change_values in Hsplit.
  do 20 (apply bind_Throws in Hrun as (? & ? & _ & Hrun); [|no_throw_auto]).
  apply bind_Throws in Hrun as (v6 & ? & Hv6 & Hrun); [|no_throw_auto].
  apply lift_Ok in Hv6 as [Hv6 ->]. apply at_Ok in Hv6.
  apply bind_Throws in Hrun as (v7 & ? & _ & Hrun); [|no_throw_auto].
  apply bind_Fail in Hrun as [Hrun|([[c d] m] & ? & _ & Hrun)]; [|done].
  apply check_lanes_Throws in Hrun as (v & Hv & Hne & Hst).
  destruct (check_tag_change_values _ _ _ _ 6%nat "lanes" _ _ Hsplit eq_refl Hv6 Hv)
    as [->|(seg & Hseg & Hs)]; [done|].
  by exists seg, v.
Qed.

Lemma conflate_matches_Throws fuel matches : ∀ cols deleted w e,
  conflate_matches fuel matches cols deleted w = Throws e →
  ∃ match_ seg v, match_ ∈ matches ∧ seg ∈ target_pline match_ ∧
    seg_attrs seg !! "lanes" = Some v ∧ v ≠ "" ∧ stoi v = Throws e.
Proof.
  induction matches as [|m matches IH]; simpl; intros cols deleted w e Hrun; [done|].
  apply bind_Fail in Hrun as [Hrun|([[m1 c1] d1] & w1 & _ & Hrun)].
  - apply conflate_match_Throws in Hrun as (seg & v & ? & ? & ? & ?).
    exists m, seg, v. split_and!; try done. by left.
  - apply bind_Fail in Hrun as [Hrun|([[ms c2] d2] & w2 & _ & Hrun)]; [|done].
    apply IH in Hrun as (m' & seg & v & ? & ? & ? & ? & ?).
    exists m', seg, v. split_and!; try done. by right.
Qed.

(** *** Attribute chains *)

Lemma chain_key_inj key : Inj (=) (=) (chain_key key).
Proof.
  intros i j Hij. unfold chain_key in Hij.
  apply (inj (String.app key)) in Hij. by apply (inj pretty) in Hij.
Qed.

Lemma chain_from_lookup attrs key fuel : ∀ i j v,
  chain_from attrs key fuel i !! j = Some v →
  attrs !! chain_key key (i + j) = Some v.
Proof.
  induction fuel as [|fuel IH]; simpl; intros i j v Hj; [done|].
  destruct (attrs !! chain_key key i) as [x|] eqn:Hi; [|done].
  destruct j as [|j]; simpl in Hj.
  - injection Hj as <-. by rewrite Nat.add_0_r.
  - apply IH in Hj. by rewrite Nat.add_succ_r.
Qed.

Lemma chain_from_stops attrs key fuel : ∀ i,
  length (chain_from attrs key fuel i) = fuel ∨
  attrs !! chain_key key (i + length (chain_from attrs key fuel i)) = None.
Proof.
  induction fuel as [|fuel IH]; simpl; intros i; [by left|].
  destruct (attrs !! chain_key key i) as [x|] eqn:Hi; simpl.
  - destruct (IH (S i)) as [->|Hnone]; [by left|right].
    by rewrite Nat.add_succ_r.
  - right. by rewrite Nat.add_0_r.
Qed.

(** The loop over a chain ends where [chain] ends: the key after the last
    one is not in the map. *)
Lemma chain_complete (attrs : AttributeMap) (key : string) :
  attrs !! chain_key key (S (length (chain attrs key))) = None.
Proof.
  unfold chain. destruct (chain_from_stops attrs key (size attrs) 1) as [Hlen|Hnone];
    [|done].
  destruct (attrs !! chain_key key (S (length (chain_from attrs key (size attrs) 1))))
    as [v|] eqn:Hnext; [exfalso|done].
  set (n := size attrs) in *.
  assert (∀ i, (i < S n)%nat → chain_key key (S i) ∈ dom attrs) as Hdom.
  { intros i Hi. apply elem_of_dom.
    destruct (decide (i = n)) as [->|Hne].
    - rewrite Hlen in Hnext. by eexists.
    - destruct (lookup_lt_is_Some_2 (chain_from attrs key n 1) i) as [x Hx]; [lia|].
      apply chain_from_lookup in Hx. by eexists. }
  assert (NoDup (chain_key key <$> seq 1 (S n))) as Hnd.
  { apply NoDup_fmap; [apply chain_key_inj|apply NoDup_seq]. }
  assert (list_to_set (C := gset string) (chain_key key <$> seq 1 (S n)) ⊆ dom attrs)
    as Hsub.
  { intros k Hk. apply elem_of_list_to_set, list_elem_of_fmap in Hk as (i & -> & Hi).
    apply elem_of_seq in Hi. destruct i as [|i]; [lia|]. apply Hdom. lia. }
  apply subseteq_size in Hsub.
  rewrite size_list_to_set, length_fmap, length_seq, size_dom in Hsub by done.
  unfold n in Hsub. lia.
Qed.

(** *** What a split leaves behind *)

Lemma view_set_view d inv l : view (set_view d inv l) inv = l.
Proof. unfold view, set_view. simpl. destruct inv; [apply rev_involutive|done]. Qed.

(** After the first split of a curve the original curve holds the
    vertices up to the split index and the split vertex, the new curve
    the split vertex and the vertices behind the index: without the split
    vertex the two give the original sequence. *)
Lemma split_linestring_reconstructs (orig_ls : LineString3d) (d : LineStringData)
    splitted new_lss pt (w : World) new_ls splitted' new_lss' w' :
  let v := view d (ls_inverted orig_ls) in
  w_heap w !! ls_loc orig_ls = Some d →
  w_heap w !! w_next_loc w = None →
  lsd_id d ∉ splitted →
  split_linestring orig_ls splitted new_lss pt false w =
    Ok (new_ls, splitted', new_lss', w') →
  ∃ d1 d2 new_pt ind,
    w_heap w' !! ls_loc orig_ls = Some d1 ∧ w_heap w' !! ls_loc new_ls = Some d2 ∧
    (ind < length v)%nat ∧
    view d1 (ls_inverted orig_ls) = take (S ind) v ++ [new_pt] ∧
    lsd_pts d2 = new_pt :: drop (S ind) v ∧
    removelast (view d1 (ls_inverted orig_ls)) ++ tail (lsd_pts d2) = v ∧
    (2 ≤ length (view d1 (ls_inverted orig_ls)))%nat ∧
    (length (lsd_pts d2) = length v - ind)%nat.
Proof.
  intros v Hd Hfresh Hin Hsplit.
  destruct (split_vertex (w_next_id w) v pt) as [[new_pt ind]|f] eqn:Hsv.
  - rewrite (split_linestring_fresh orig_ls d splitted new_lss pt false w
               new_pt ind Hd Hin Hsv) in Hsplit.
    injection Hsplit as <- <- <- <-.
    pose proof (split_vertex_index _ _ _ _ _ Hsv) as Hind.
    assert (ls_loc orig_ls ≠ w_next_loc w) as Hne.
    { intros E. rewrite E, Hfresh in Hd. discriminate. }
    exists (set_view d (ls_inverted orig_ls) (take (S ind) v ++ [new_pt])),
      (mkLineStringData (w_next_id w + 1) (new_pt :: drop (S ind) v) (lsd_attrs d)),
      new_pt, ind.
    rewrite view_set_view. cbn [lsd_pts tail].
    split_and!.
    + apply lookup_insert_eq.
    + cbn [w_heap ls_loc]. rewrite lookup_insert_ne by done. apply lookup_insert_eq.
    + done.
    + done.
    + done.
    + rewrite removelast_last. apply take_drop.
    + rewrite length_app, length_take. change (length [new_pt]) with 1%nat. lia.
    + change (length (new_pt :: drop (S ind) v)) with (S (length (drop (S ind) v))).
      rewrite length_drop. lia.
  - unfold split_linestring, bind, deref in Hsplit. simpl in Hsplit.
    rewrite Hd in Hsplit. simpl in Hsplit.
    unfold used_Id in Hsplit. rewrite bool_decide_eq_false_2 in Hsplit by done.
    simpl in Hsplit. fold v in Hsplit. rewrite Hsv in Hsplit. discriminate.
Qed.


(** On a linestring of two or more vertices the split index leaves two
    or more vertices behind it, except when the split vertex is the last
    vertex of the linestring, found within the tolerance. *)
Lemma split_vertex_suffix new_id (v : list Point3d) pt new_pt ind :
  let d := map (λ pt_ls, distance (project v (basicPoint pt)) (basicPoint pt_ls)) v in
  split_vertex new_id v pt = Ok (new_pt, ind) →
  (2 ≤ length v)%nat →
  (S ind < length v)%nat ∨
  (ind = (length v - 1)%nat ∧ min_element d = ind ∧ last v = Some new_pt ∧
   ∃ dmin, d !! ind = Some dmin ∧ PrimFloat.ltb dmin tolerance = true).
Proof.
  intros d Hsv Hlen. unfold split_vertex in Hsv. fold d in Hsv.
  apply obind_Ok in Hsv as (dmin & Hdmin & Hsv). apply at_Ok in Hdmin.
  pose proof (lookup_lt_Some _ _ _ Hdmin) as Hklt.
  assert (length d = length v) as Hld by (unfold d; by rewrite length_map).
  destruct (PrimFloat.ltb dmin tolerance) eqn:Htol.
  - case_bool_decide as Hk0.
    + apply obind_Ok in Hsv as (p0 & _ & Hsv).
      apply obind_Ok in Hsv as (p1 & _ & Hsv).
      apply obind_Ok in Hsv as (i & Hi & [= <- <-]).
      left. apply find_segment_2D_lt in Hi as [_ Hi]. by apply Hi.
    + case_bool_decide; [lia|].
      apply obind_Ok in Hsv as (p & Hp & [= <- <-]). apply at_Ok in Hp.
      destruct (decide (S (min_element d) < length v)%nat) as [Hlt|Hge]; [by left|].
      right. assert (min_element d = (length v - 1)%nat) as Hlast by lia.
      split_and!; try done.
      * rewrite last_lookup.
        replace (Nat.pred (length v)) with (min_element d) by lia. done.
      * by exists dmin.
  - apply obind_Ok in Hsv as (i & Hi & [= <- <-]).
    left. apply find_segment_2D_lt in Hi as [_ Hi]. by apply Hi.
Qed.

(** *** Merged points *)

Lemma existsb_pt_eqb pt l : existsb (pt_eqb pt) l = true ↔ pt_id pt ∈ pt_id <$> l.
Proof.
  induction l as [|q r IH]; simpl.
  - split; [done|]. intros Hin. by apply elem_of_nil in Hin.
  - rewrite orb_true_iff, IH, elem_of_cons. unfold pt_eqb.
    by rewrite bool_decide_eq_true.
Qed.

Lemma merge_into_spec vec : ∀ acc,
  NoDup (pt_id <$> acc) →
  ∃ added, merge_into acc vec = acc ++ added ∧
    NoDup (pt_id <$> (acc ++ added)) ∧
    (∀ p, p ∈ added → p ∈ vec) ∧
    (∀ p, p ∈ vec → pt_id p ∈ pt_id <$> (acc ++ added)).
Proof.
  induction vec as [|pt vec IH]; simpl; intros acc Hnd.
  - exists []. rewrite app_nil_r. split_and!; try done;
      intros p Hp; by apply elem_of_nil in Hp.
  - destruct (existsb (pt_eqb pt) acc) eqn:Hex.
    + destruct (IH acc Hnd) as (added & Heq & Hnd' & Hsub & Hall).
      exists added. split_and!; try done.
      * intros p Hp. right. by apply Hsub.
      * intros p Hp. apply elem_of_cons in Hp as [->|Hp]; [|by apply Hall].
        apply existsb_pt_eqb in Hex. rewrite fmap_app. apply elem_of_app. by left.
    + assert (NoDup (pt_id <$> acc ++ [pt])) as Hnd1.
      { rewrite fmap_app. apply NoDup_app. split_and!; try done.
        - intros x Hx Hx'. apply list_elem_of_singleton in Hx'. subst x.
          apply existsb_pt_eqb in Hx. congruence.
        - apply NoDup_singleton. }
      destruct (IH (acc ++ [pt]) Hnd1) as (added & Heq & Hnd' & Hsub & Hall).
      exists (pt :: added). rewrite <- app_assoc in *. simpl in *.
      split_and!; try done.
      * intros p Hp. apply elem_of_cons in Hp as [->|Hp]; [by left|].
        right. by apply Hsub.
      * intros p Hp. apply elem_of_cons in Hp as [->|Hp]; [|by apply Hall].
        rewrite fmap_app. apply elem_of_app. right. by left.
Qed.

Lemma merge_point_vec_from vs : ∀ acc,
  NoDup (pt_id <$> acc) →
  ∃ added, foldl merge_into acc vs = acc ++ added ∧
    NoDup (pt_id <$> (acc ++ added)) ∧
    (∀ p, p ∈ added → ∃ vec, vec ∈ vs ∧ p ∈ vec) ∧
    (∀ vec p, vec ∈ vs → p ∈ vec → pt_id p ∈ pt_id <$> (acc ++ added)).
Proof.
  induction vs as [|vec vs IH]; simpl; intros acc Hnd.
  - exists []. rewrite app_nil_r. split_and!; try done.
    + intros p Hp. by apply elem_of_nil in Hp.
    + intros vec p Hv. by apply elem_of_nil in Hv.
  - destruct (merge_into_spec vec acc Hnd) as (a1 & -> & Hnd1 & Hsub1 & Hall1).
    destruct (IH _ Hnd1) as (a2 & -> & Hnd2 & Hsub2 & Hall2).
    exists (a1 ++ a2). rewrite <- !app_assoc in *. split_and!; try done.
    + intros p Hp. apply elem_of_app in Hp as [Hp|Hp].
      * exists vec. split; [by left|by apply Hsub1].
      * destruct (Hsub2 p Hp) as (v & Hv & Hpv). exists v. split; [by right|done].
    + intros v p Hv Hp. apply elem_of_cons in Hv as [->|Hv]; [|by eapply Hall2].
      specialize (Hall1 p Hp). rewrite app_assoc, fmap_app. apply elem_of_app. by left.
Qed.

(** X23: [merge_point_vec] returns every point once: no two points of
    the result are the same point, every point of the result is a point
    of one of the vectors, and every point of a vector is in the result. *)
Theorem merge_point_vec_distinct (pts_change : list (list Point3d)) :
  NoDup (pt_id <$> merge_point_vec pts_change) ∧
  (∀ p, p ∈ merge_point_vec pts_change → ∃ vec, vec ∈ pts_change ∧ p ∈ vec) ∧
  (∀ vec p, vec ∈ pts_change → p ∈ vec →
     pt_id p ∈ pt_id <$> merge_point_vec pts_change).
Proof.
  destruct (merge_point_vec_from pts_change [] (NoDup_nil_2)) as (added & Heq & Hnd & Hsub & Hall).
  change (merge_point_vec pts_change) with (foldl merge_into [] pts_change).
  rewrite Heq. simpl in *. done.
Qed.

Lemma filter_ext_elem {A} (P1 P2 : A → Prop) `{∀ x, Decision (P1 x)}
    `{∀ x, Decision (P2 x)} (l : list A) :
  (∀ x, x ∈ l → P1 x ↔ P2 x) → filter P1 l = filter P2 l.
Proof.
  induction l as [|x l IH]; intros Hext; [done|].
  rewrite !filter_cons.
  assert (filter P1 l = filter P2 l) as -> by (apply IH; intros y Hy; apply Hext; by right).
  destruct (decide (P1 x)) as [Hp|Hp], (decide (P2 x)) as [Hq|Hq]; try done;
    exfalso; apply (Hext x ltac:(by left)) in Hp || apply (Hext x ltac:(by left)) in Hq; done.
Qed.

Lemma merge_into_filter vec : ∀ acc,
  NoDup (pt_id <$> vec) →
  merge_into acc vec = acc ++ filter (λ q, pt_id q ∉ pt_id <$> acc) vec.
Proof.
  induction vec as [|pt vec IH]; simpl; intros acc Hnd; [by rewrite app_nil_r|].
  apply NoDup_cons in Hnd as [Hpt Hnd].
  rewrite filter_cons.
  destruct (existsb (pt_eqb pt) acc) eqn:Hex.
  - apply existsb_pt_eqb in Hex. rewrite decide_False by (intros Hn; by apply Hn).
    by apply IH.
  - assert (pt_id pt ∉ pt_id <$> acc) as Hnin.
    { intros Hin. apply existsb_pt_eqb in Hin. congruence. }
    rewrite decide_True by done.
    change (merge_into (acc ++ [pt]) vec = acc ++ pt :: filter (λ q, pt_id q ∉ pt_id <$> acc) vec).
    rewrite IH by done. rewrite <- app_assoc. simpl. do 2 f_equal.
    apply filter_ext_elem. intros q Hq.
    rewrite fmap_app, elem_of_app. simpl. rewrite list_elem_of_singleton.
    split; [tauto|]. intros Hn [Hin|Heq]; [done|].
    apply Hpt. rewrite <- Heq. apply list_elem_of_fmap. by exists q.
Qed.

Lemma merge_into_nil (a : list Point3d) :
  NoDup (pt_id <$> a) → merge_into [] a = a.
Proof.
  intros Ha. rewrite (merge_into_filter a [] Ha). simpl.
  clear Ha. induction a as [|p a IH]; [done|].
  rewrite filter_cons, decide_True by (intros Hin; by apply elem_of_nil in Hin).
  by f_equal.
Qed.

(** X24: for two vectors without repeated points, as [check_lanes]
    merges them, the result is the first vector followed by the points of
    the second one that are not in the first: the merged points are
    grouped by vector and not ordered along the polyline. *)
Theorem merge_point_vec_two (a b : list Point3d) :
  NoDup (pt_id <$> a) → NoDup (pt_id <$> b) →
  merge_point_vec [a; b] = a ++ filter (λ q, pt_id q ∉ pt_id <$> a) b.
Proof.
  intros Ha Hb.
  change (merge_point_vec [a; b]) with (merge_into (merge_into [] a) b).
  rewrite (merge_into_nil a Ha). by apply merge_into_filter.
Qed.

(** *** Point attributes and intersection nodes *)

Lemma remove_attributes_lookup (pt : Point3d) (names : list string) (k : string) :
  pt_attrs (remove_attributes pt names) !! k =
    if bool_decide (k ∈ names) then None else pt_attrs pt !! k.
Proof.
  unfold remove_attributes. simpl. generalize (pt_attrs pt). 
  induction names as [|name names IH]; intros attr.
  - case_bool_decide as Hin; [by apply elem_of_nil in Hin|done].
  - cbn [foldl]. rewrite IH. destruct (decide (k = name)) as [->|Hne].
    + rewrite lookup_delete_eq.
      rewrite (bool_decide_eq_true_2 (name ∈ name :: names)) by (by left).
      by case_bool_decide.
    + rewrite lookup_delete_ne by done.
      destruct (decide (k ∈ names)) as [Hin|Hnin].
      * rewrite !bool_decide_eq_true_2; [done|by right|done].
      * rewrite !bool_decide_eq_false_2; [done| |done].
        intros Hin. apply elem_of_cons in Hin as [?|?]; done.
Qed.

Lemma remove_attributes_idemp (pt : Point3d) (names : list string) :
  remove_attributes (remove_attributes pt names) names = remove_attributes pt names.
Proof.
  assert (pt_attrs (remove_attributes (remove_attributes pt names) names) =
          pt_attrs (remove_attributes pt names)) as Hattrs.
  { apply map_eq. intros k. rewrite !remove_attributes_lookup.
    by case_bool_decide. }
  unfold remove_attributes in *. simpl in *. by rewrite Hattrs.
Qed.


Lemma seen_before_spec point ls_pts :
  seen_before point ls_pts = true ↔ pt_id point ∈ pt_id <$> ls_pts.
Proof.
  unfold seen_before. induction ls_pts as [|q r IH]; simpl.
  - split; [done|]. intros Hin. by apply elem_of_nil in Hin.
  - by rewrite orb_true_iff, IH, elem_of_cons, bool_decide_eq_true.
Qed.

Lemma foldl_concat {A B} (f : A → B → A) (ls : list (list B)) : ∀ a,
  foldl (λ st l, foldl f st l) a ls = foldl f a (concat ls).
Proof.
  induction ls as [|l ls IH]; intros a; simpl; [done|].
  by rewrite foldl_app, IH.
Qed.

Lemma visit_points l : ∀ ls_pts out,
  NoDup (pt_id <$> ls_pts) →
  ∃ firsts repeats,
    foldl visit_point (ls_pts, out) l = (ls_pts ++ firsts, out ++ repeats) ∧
    l ≡ₚ firsts ++ repeats ∧
    NoDup (pt_id <$> (ls_pts ++ firsts)) ∧
    (∀ p, p ∈ repeats → pt_id p ∈ pt_id <$> (ls_pts ++ firsts)).
Proof.
  induction l as [|point l IH]; intros ls_pts out Hnd; simpl.
  - exists [], []. rewrite !app_nil_r. split_and!; try done.
    intros p Hp. by apply elem_of_nil in Hp.
  - destruct (seen_before point ls_pts) eqn:Hseen.
    + destruct (IH ls_pts (out ++ [point]) Hnd) as (f & r & -> & Hperm & Hnd' & Hrep).
      exists f, (point :: r). rewrite <- app_assoc. simpl. split_and!; try done.
      * rewrite Hperm. by rewrite Permutation_middle.
      * intros p Hp. apply elem_of_cons in Hp as [->|Hp]; [|by apply Hrep].
        apply seen_before_spec in Hseen. rewrite fmap_app. apply elem_of_app. by left.
    + assert (NoDup (pt_id <$> ls_pts ++ [point])) as Hnd1.
      { rewrite fmap_app. apply NoDup_app. split_and!; try done.
        - intros x Hx Hx'. apply list_elem_of_singleton in Hx'. subst x.
          apply seen_before_spec in Hx. congruence.
        - apply NoDup_singleton. }
      destruct (IH (ls_pts ++ [point]) out Hnd1) as (f & r & -> & Hperm & Hnd' & Hrep).
      exists (point :: f), r. rewrite <- !app_assoc in *. simpl in *.
      split_and!; try done. by rewrite Hperm.
Qed.

(** X25: [get_intersection_nodes] appends to [pt] each point whose id
    was met before, in the order of the visit: the points of the
    linestrings are the first occurrences, one per id, and the repeats,
    which are what is appended; a point that occurs [k] times is appended
    [k - 1] times, whatever its valence, and the caller's points stay in
    front. *)
Theorem get_intersection_nodes_repeats (osm_ls : list (list Point3d))
    (pt : list Point3d) :
  ∃ firsts repeats,
    get_intersection_nodes osm_ls pt = pt ++ repeats ∧
    concat osm_ls ≡ₚ firsts ++ repeats ∧
    NoDup (pt_id <$> firsts) ∧
    (∀ p, p ∈ concat osm_ls → pt_id p ∈ pt_id <$> firsts) ∧
    (length repeats =
       length (concat osm_ls) - length (remove_dups (pt_id <$> concat osm_ls)))%nat.
Proof.
  unfold get_intersection_nodes. rewrite foldl_concat.
  destruct (visit_points (concat osm_ls) [] pt (NoDup_nil_2))
    as (firsts & repeats & -> & Hperm & Hnd & Hrep).
  simpl in *. exists firsts, repeats.
  assert (∀ p, p ∈ concat osm_ls → pt_id p ∈ pt_id <$> firsts) as Hall.
  { intros p Hp. rewrite Hperm in Hp. apply elem_of_app in Hp as [Hp|Hp]; [|by apply Hrep].
    apply list_elem_of_fmap. by exists p. }
  split_and!; try done.
  assert (pt_id <$> firsts ≡ₚ remove_dups (pt_id <$> concat osm_ls)) as Hf.
  { apply NoDup_Permutation; [done|apply NoDup_remove_dups|].
    intros x. rewrite elem_of_remove_dups. split.
    - intros Hx. apply list_elem_of_fmap in Hx as (p & -> & Hp).
      apply list_elem_of_fmap. exists p. split; [done|].
      rewrite Hperm. apply elem_of_app. by left.
    - intros Hx. apply list_elem_of_fmap in Hx as (p & -> & Hp). by apply Hall. }
  apply Permutation_length in Hf. rewrite length_fmap in Hf.
  apply Permutation_length in Hperm. rewrite length_app in Hperm. lia.
Qed.

(** *** Chains, active values and segment indices *)

Lemma chain_length (attrs : AttributeMap) (key : string) (n : nat) :
  (∀ i, (1 ≤ i ≤ n)%nat → is_Some (attrs !! chain_key key i)) →
  attrs !! chain_key key (S n) = None →
  length (chain attrs key) = n.
Proof.
  intros Hpresent Hstop.
  pose proof (chain_complete attrs key) as Hend.
  destruct (decide (length (chain attrs key) < n)%nat) as [Hlt|Hge].
  - destruct (Hpresent (S (length (chain attrs key))) ltac:(lia)) as [v Hv]. congruence.
  - destruct (decide (n < length (chain attrs key))%nat) as [Hgt|]; [|lia].
    destruct (lookup_lt_is_Some_2 (chain attrs key) n Hgt) as [v Hv].
    unfold chain in Hv. apply chain_from_lookup in Hv. simpl in Hv. congruence.
Qed.

Lemma chain_lookup (attrs : AttributeMap) (key : string) (j : nat) (v : string) :
  chain attrs key !! j = Some v → attrs !! chain_key key (S j) = Some v.
Proof. unfold chain. intros Hj. by apply chain_from_lookup in Hj. Qed.

(** X22: [count_lanes_dir] adds the length of the run of keys [key1],
    [key2], ... that the segment has: with the keys up to [n] present and
    [n + 1] missing it adds [n], whatever keys follow the gap. *)
Theorem count_lanes_dir_contiguous (key : string) (seg : Segment) (count : Z) (n : nat) :
  (∀ i, (1 ≤ i ≤ n)%nat → is_Some (seg_attrs seg !! chain_key key i)) →
  seg_attrs seg !! chain_key key (S n) = None →
  count_lanes_dir key seg count = count + Z.of_nat n.
Proof.
  intros Hpresent Hstop. unfold count_lanes_dir.
  by rewrite (chain_length _ _ n Hpresent Hstop).
Qed.

Lemma active_value_run {A} (ind : nat) (ind_change : list nat) (values : list A) :
  ∀ j val,
  (j + length ind_change < length values)%nat →
  ∃ v, active_value ind j ind_change values val = Ok v ∧
    ((∀ c, c ∈ ind_change → (ind < c)%nat) → v = val) ∧
    (∀ k c, ind_change !! k = Some c → (c ≤ ind)%nat →
       (∀ k' c', (k < k')%nat → ind_change !! k' = Some c' → (ind < c')%nat) →
       values !! (S (j + k)) = Some v).
Proof.
  induction ind_change as [|c ic IH]; intros j val Hlen; simpl.
  - exists val. split_and!; try done.
  - simpl in Hlen.
    assert (∀ v0, ∃ v, active_value ind (S j) ic values v0 = Ok v ∧
      ((∀ c, c ∈ ic → (ind < c)%nat) → v = v0) ∧
      (∀ k c, ic !! k = Some c → (c ≤ ind)%nat →
         (∀ k' c', (k < k')%nat → ic !! k' = Some c' → (ind < c')%nat) →
         values !! (S (S j + k)) = Some v)) as IH'.
    { intros v0. apply IH. lia. }
    case_bool_decide as Hc.
    + destruct (lookup_lt_is_Some_2 values (S j) ltac:(lia)) as [x Hx].
      unfold at_. rewrite Hx. simpl.
      destruct (IH' x) as (v & Hv & Hnone & Hlast).
      exists v. split_and!; try done.
      * intros Hall. specialize (Hall c ltac:(by left)). lia.
      * intros [|k] c' Hk Hle Hafter; simpl in Hk.
        -- rewrite Nat.add_0_r. rewrite Hnone; [done|].
           intros c'' Hc''. apply list_elem_of_lookup in Hc'' as [k' Hk'].
           apply (Hafter (S k') c''); [lia|done].
        -- replace (S (j + S k)) with (S (S j + k)) by lia.
           apply (Hlast k c' Hk Hle). intros k' c'' Hlt Hk'.
           apply (Hafter (S k') c''); [lia|done].
    + destruct (IH' val) as (v & Hv & Hnone & Hlast).
      exists v. split_and!; try done.
      * intros Hall. apply Hnone. intros c' Hc'. apply Hall. by right.
      * intros [|k] c' Hk Hle Hafter; simpl in Hk.
        -- injection Hk as <-. lia.
        -- replace (S (j + S k)) with (S (S j + k)) by lia.
           apply (Hlast k c' Hk Hle). intros k' c'' Hlt Hk'.
           apply (Hafter (S k') c''); [lia|done].
Qed.

(** X10: the loop over [ind_change] in [set_type_location],
    [transfer_tag] and [check_lanes] stays inside [values] when [values]
    has one element more than [ind_change]; it yields the start value when
    no change index is at or before the segment, and otherwise the value
    behind the last change index that is at or before the segment, also
    when the change indices are not in ascending order. *)
Theorem active_value_last {A} (ind : nat) (ind_change : list nat)
    (values : list A) (val : A) :
  length values = S (length ind_change) →
  ∃ v, active_value ind 0 ind_change values val = Ok v ∧
    ((∀ c, c ∈ ind_change → (ind < c)%nat) → v = val) ∧
    (∀ k c, ind_change !! k = Some c → (c ≤ ind)%nat →
       (∀ k' c', (k < k')%nat → ind_change !! k' = Some c' → (ind < c')%nat) →
       values !! S k = Some v).
Proof.
  intros Hlen. apply (active_value_run ind ind_change values 0 val). lia.
Qed.

Lemma omapM_Ok {A B} (f : A → outcome B) (l : list A) :
  (∀ x, x ∈ l → ∃ y, f x = Ok y) →
  ∃ ys, omapM f l = Ok ys ∧ length ys = length l.
Proof.
  induction l as [|x l IH]; intros Hf; simpl; [by exists []|].
  destruct (Hf x ltac:(by left)) as [y ->]. simpl.
  destruct IH as (ys & -> & Hlen); [intros z Hz; apply Hf; by right|].
  simpl. exists (y :: ys). split; [done|]. simpl. by rewrite Hlen.
Qed.

Lemma omapM_length {A B} (f : A → outcome B) (l : list A) ys :
  omapM f l = Ok ys → length ys = length l.
Proof.
  revert ys. induction l as [|x l IH]; intros ys; simpl.
  - by intros [= <-].
  - intros Hrun. apply obind_Ok in Hrun as (y & _ & Hrun).
    apply obind_Ok in Hrun as (ys' & Hys & [= <-]). simpl. f_equal. by apply IH.
Qed.

(** X14: [get_index] returns 0 for an empty reference polyline, an
    index that names no segment; for a reference polyline whose segments
    have points it returns the index of one of its segments; a segment
    without points makes it read [front()] of an empty linestring. *)
Theorem get_index_range (match_ : s_match) (pt : Point3d) :
  (ref_pline match_ = [] → get_index match_ pt = Ok 0%nat) ∧
  (ref_pline match_ ≠ [] →
   (∀ seg, seg ∈ ref_pline match_ → seg_pts seg ≠ []) →
   ∃ i, get_index match_ pt = Ok i ∧ (i < length (ref_pline match_))%nat) ∧
  (∀ seg, seg ∈ ref_pline match_ → seg_pts seg = [] →
   get_index match_ pt = Undefined).
Proof.
  unfold get_index. split_and!.
  - intros ->. reflexivity.
  - intros Hne Hpts.
    destruct (omapM_Ok (λ seg, f <- front (seg_pts seg) ;;;
                 b <- back (seg_pts seg) ;;;
                 Ok (distance2d f pt + distance2d b pt)%float) (ref_pline match_))
      as (d & Hd & Hlen).
    { intros seg Hseg. specialize (Hpts seg Hseg).
      unfold front, back. destruct (seg_pts seg) as [|p r] eqn:Hp; [done|].
      assert (is_Some (last (p :: r))) as [q Hq].
      { rewrite last_lookup. apply lookup_lt_is_Some_2. simpl. lia. }
      rewrite Hq. simpl. eauto. }
    rewrite Hd. simpl. eexists. split; [done|].
    rewrite <- Hlen. apply min_element_bound.
    intros ->. simpl in Hlen. destruct (ref_pline match_); [done|discriminate].
  - intros seg Hseg Hempty.
    assert (omapM (λ seg, f <- front (seg_pts seg) ;;;
                 b <- back (seg_pts seg) ;;;
                 Ok (distance2d f pt + distance2d b pt)%float) (ref_pline match_)
            = Undefined) as ->; [|done].
    (* the first segment without points, or an earlier failure *)
    induction (ref_pline match_) as [|s l IH]; [by apply elem_of_nil in Hseg|].
    simpl. apply elem_of_cons in Hseg as [<-|Hseg].
    + by rewrite Hempty.
    + specialize (IH Hseg).
      destruct (front (seg_pts s)) as [f|[]] eqn:Hf; simpl; try done.
      * destruct (back (seg_pts s)) as [b|[]] eqn:Hb; simpl; try done.
        -- by rewrite IH.
        -- unfold back in Hb. destruct (last (seg_pts s)); discriminate.
        -- unfold back in Hb. destruct (last (seg_pts s)); discriminate.
      * unfold front in Hf. destruct (head (seg_pts s)); discriminate.
      * unfold front in Hf. destruct (head (seg_pts s)); discriminate.
Qed.

(** *** The order of binary64 and the minimum *)

(** float order *)
Lemma SFltb_irrefl (x : spec_float) : SFltb x x = false.
Proof.
  unfold SFltb. destruct x as [s|s| |s m e]; cbn [SFcompare];
    try (destruct s; reflexivity); try reflexivity.
  change (IntDef.Z.compare e e) with (Z.compare e e).
  change (PosDef.Pos.compare_cont Eq m m) with (Pos.compare m m).
  rewrite Z.compare_refl, Pos.compare_refl. by destruct s.
Qed.

Lemma SFltb_trans (x y z : spec_float) :
  SFltb x y = true → SFltb y z = true → SFltb x z = true.
Proof.
  unfold SFltb.
  destruct x as [s1|s1| |s1 m1 e1], y as [s2|s2| |s2 m2 e2], z as [s3|s3| |s3 m3 e3];
    cbn [SFcompare]; try discriminate;
    try (destruct s1; try discriminate); try (destruct s2; try discriminate);
    try (destruct s3; try discriminate); try reflexivity;
    change (IntDef.Z.compare e1 e2) with (Z.compare e1 e2);
    change (IntDef.Z.compare e2 e3) with (Z.compare e2 e3);
    change (IntDef.Z.compare e1 e3) with (Z.compare e1 e3);
    change (PosDef.Pos.compare_cont Eq m1 m2) with (Pos.compare m1 m2);
    change (PosDef.Pos.compare_cont Eq m2 m3) with (Pos.compare m2 m3);
    change (PosDef.Pos.compare_cont Eq m1 m3) with (Pos.compare m1 m3);
    destruct (Z.compare_spec e1 e2), (Z.compare_spec e2 e3), (Z.compare_spec e1 e3);
    try discriminate; try reflexivity; try lia; subst;
    destruct (Pos.compare_spec m1 m2), (Pos.compare_spec m2 m3),
      (Pos.compare_spec m1 m3); cbn [CompOpp];
    try discriminate; try reflexivity; lia.
Qed.

Lemma ltb_irrefl (x : float) : PrimFloat.ltb x x = false.
Proof. rewrite ltb_spec. apply SFltb_irrefl. Qed.

Lemma ltb_trans (x y z : float) :
  PrimFloat.ltb x y = true → PrimFloat.ltb y z = true → PrimFloat.ltb x z = true.
Proof. rewrite !ltb_spec. apply SFltb_trans. Qed.

Lemma ltb_asym (x y : float) : PrimFloat.ltb x y = true → PrimFloat.ltb y x = false.
Proof.
  intros Hxy. destruct (PrimFloat.ltb y x) eqn:Hyx; [|done].
  by rewrite <- (ltb_irrefl x), (ltb_trans x y x Hxy Hyx).
Qed.

Lemma min_element_from_min (l : list float) : ∀ bi b i,
  (bi < i)%nat →
  ∃ v, ((min_element_from bi b i l = bi ∧ v = b) ∨
        (i ≤ min_element_from bi b i l ∧
         l !! (min_element_from bi b i l - i) = Some v ∧
         PrimFloat.ltb v b = true))%nat ∧
       ∀ x, x ∈ l → PrimFloat.ltb x v = false.
Proof.
  induction l as [|x l IH]; intros bi b i Hlt; simpl.
  - exists b. split; [by left|]. intros x Hx. by apply elem_of_nil in Hx.
  - destruct (PrimFloat.ltb x b) eqn:Hxb.
    + destruct (IH i x (S i) ltac:(lia)) as (v & Hv & Hmin).
      exists v. destruct Hv as [[Hr ->]|(Hle & Hr & Hvx)].
      * split.
        -- right. rewrite Hr, Nat.sub_diag. simpl. split_and!; try done.
        -- intros y Hy. apply elem_of_cons in Hy as [->|Hy]; [apply ltb_irrefl|by apply Hmin].
      * split.
        -- right. split_and!; [lia| |by eapply ltb_trans].
           replace (min_element_from i x (S i) l - i)%nat
             with (S (min_element_from i x (S i) l - S i)) by lia. done.
        -- intros y Hy. apply elem_of_cons in Hy as [->|Hy]; [by apply ltb_asym|by apply Hmin].
    + destruct (IH bi b (S i) ltac:(lia)) as (v & Hv & Hmin).
      exists v. destruct Hv as [[Hr ->]|(Hle & Hr & Hvb)].
      * split; [by left|].
        intros y Hy. apply elem_of_cons in Hy as [->|Hy]; [done|by apply Hmin].
      * split.
        -- right. split_and!; [lia| |done].
           replace (min_element_from bi b (S i) l - i)%nat
             with (S (min_element_from bi b (S i) l - S i)) by lia. done.
        -- intros y Hy. apply elem_of_cons in Hy as [->|Hy]; [|by apply Hmin].
           destruct (PrimFloat.ltb x v) eqn:Hyv; [|done].
           by rewrite (ltb_trans x v b Hyv Hvb) in Hxb.
Qed.

Lemma min_element_min (l : list float) :
  l ≠ [] →
  ∃ v, l !! min_element l = Some v ∧ ∀ x, x ∈ l → PrimFloat.ltb x v = false.
Proof.
  destruct l as [|x l]; [done|]. intros _. simpl.
  destruct (min_element_from_min l 0 x 1 ltac:(lia)) as (v & Hv & Hmin).
  exists v. destruct Hv as [[-> ->]|(Hle & Hr & Hvx)].
  - split; [done|]. intros y Hy.
    apply elem_of_cons in Hy as [->|Hy]; [apply ltb_irrefl|by apply Hmin].
  - split.
    + destruct (min_element_from 0 x 1 l) as [|k]; [lia|].
      simpl in *. by rewrite Nat.sub_0_r in Hr.
    + intros y Hy.
      apply elem_of_cons in Hy as [->|Hy]; [by apply ltb_asym|by apply Hmin].
Qed.

(** X17: on a linestring of two or more points [find_segment_2D]
    returns the index of a segment whose deviation no other segment
    undercuts. *)
Theorem find_segment_2D_minimal (pt : Point3d) (ls : list Point3d) :
  (2 ≤ length ls)%nat →
  ∃ i v, find_segment_2D pt ls = Ok i ∧
    segment_diffs pt ls !! i = Some v ∧
    ∀ x, x ∈ segment_diffs pt ls → PrimFloat.ltb x v = false.
Proof.
  intros Hlen. destruct ls as [|p tl]; [simpl in Hlen; lia|].
  destruct (min_element_min (segment_diffs pt (p :: tl))) as (v & Hv & Hmin).
  { pose proof (segment_diffs_length pt (p :: tl)) as Hd.
    intros E. rewrite E in Hd. simpl in *. lia. }
  eexists _, v. split; [reflexivity|]. done.
Qed.

Lemma is_nan_spec (x : float) : is_nan x = true → Prim2SF x = S754_nan.
Proof.
  unfold is_nan. rewrite FloatAxioms.eqb_spec. unfold SFeqb.
  destruct (Prim2SF x) as [s|s| |s m e]; cbn [SFcompare]; try (by destruct s); try done.
  change (IntDef.Z.compare e e) with (Z.compare e e).
  change (PosDef.Pos.compare_cont Eq m m) with (Pos.compare m m).
  rewrite Z.compare_refl, Pos.compare_refl. by destruct s.
Qed.

Lemma ltb_nan (x y : float) : is_nan x = true → PrimFloat.ltb y x = false.
Proof.
  intros Hx. rewrite ltb_spec, (is_nan_spec x Hx). unfold SFltb.
  by destruct (Prim2SF y).
Qed.

Lemma min_element_from_nan (l : list float) : ∀ bi b i,
  is_nan b = true → min_element_from bi b i l = bi.
Proof.
  induction l as [|x l IH]; intros bi b i Hb; simpl; [done|].
  rewrite (ltb_nan b x Hb). by apply IH.
Qed.

(** X18: when the deviation of the first segment is not a number, as
    for a vertical first segment, [find_segment_2D] returns 0 whatever the
    deviations of the other segments are: nothing compares less than a
    NaN. *)
Theorem find_segment_2D_nan_first (pt : Point3d) (ls : list Point3d)
    (x : float) (rest : list float) :
  segment_diffs pt ls = x :: rest → is_nan x = true →
  find_segment_2D pt ls = Ok 0%nat.
Proof.
  intros Hd Hx. unfold find_segment_2D. destruct ls as [|p tl]; [done|].
  rewrite Hd. simpl. by rewrite min_element_from_nan.
Qed.

Lemma omapM_lookup {A B} (f : A → outcome B) (l : list A) : ∀ ys,
  omapM f l = Ok ys →
  ∀ j, match l !! j, ys !! j with
       | Some x, Some y => f x = Ok y
       | None, None => True
       | _, _ => False
       end.
Proof.
  induction l as [|x l IH]; intros ys Hrun j; simpl in Hrun.
  - injection Hrun as <-. by rewrite !lookup_nil.
  - apply obind_Ok in Hrun as (y & Hy & Hrun).
    apply obind_Ok in Hrun as (ys' & Hys & [= <-]).
    destruct j as [|j]; simpl; [done|]. by apply IH.
Qed.

(** X15: the segment that [get_index] chooses on a non-empty reference
    polyline has a sum of the distances from its two end points to the
    point that no other segment undercuts. *)
Theorem get_index_closest (match_ : s_match) (pt : Point3d) (i : nat) :
  ref_pline match_ ≠ [] →
  get_index match_ pt = Ok i →
  ∃ seg f b,
    ref_pline match_ !! i = Some seg ∧
    head (seg_pts seg) = Some f ∧ last (seg_pts seg) = Some b ∧
    ∀ seg' f' b', seg' ∈ ref_pline match_ →
      head (seg_pts seg') = Some f' → last (seg_pts seg') = Some b' →
      PrimFloat.ltb (distance2d f' pt + distance2d b' pt)
                    (distance2d f pt + distance2d b pt) = false.
Proof.
  intros Hne Hrun. unfold get_index in Hrun.
  apply obind_Ok in Hrun as (d & Hd & [= <-]).
  pose proof (omapM_lookup _ _ _ Hd) as Hlook.
  pose proof (omapM_length _ _ _ Hd) as Hlen.
  destruct (min_element_min d) as (v & Hv & Hmin).
  { intros ->. destruct (ref_pline match_); [done|discriminate]. }
  specialize (Hlook (min_element d)) as Hi. rewrite Hv in Hi.
  destruct (ref_pline match_ !! min_element d) as [seg|] eqn:Hseg; [|done].
  apply obind_Ok in Hi as (f & Hf & Hi). apply obind_Ok in Hi as (b & Hb & [= <-]).
  exists seg, f, b. split_and!; try done.
  - unfold front in Hf. destruct (head (seg_pts seg)); by simplify_eq/=.
  - unfold back in Hb. destruct (last (seg_pts seg)); by simplify_eq/=.
  - intros seg' f' b' Hin Hf' Hb'.
    apply list_elem_of_lookup in Hin as [j Hj].
    specialize (Hlook j). rewrite Hj in Hlook.
    destruct (d !! j) as [y|] eqn:Hy; [|done].
    unfold front, back in Hlook. rewrite Hf', Hb' in Hlook. simpl in Hlook.
    injection Hlook as <-. apply Hmin. by eapply list_elem_of_lookup_2.
Qed.

(** *** Lookups by bounds, merged values *)

Lemma ls_id_Ok ls w i w' :
  ls_id ls w = Ok (i, w') ↔ w' = w ∧ ∃ d, w_heap w !! ls_loc ls = Some d ∧ lsd_id d = i.
Proof.
  unfold ls_id, bind, deref, lift. destruct (w_heap w !! ls_loc ls) as [d|]; simpl.
  - split.
    + intros [= <- <-]. split; [done|]. by exists d.
    + intros [-> (d' & [= <-] & <-)]. done.
  - split; [done|]. by intros [_ (d & ? & _)].
Qed.

Lemma find_ll_from_bound_loop_spec lls left right : ∀ w ll w',
  find_ll_from_bound_loop lls left right w = Ok (ll, w') →
  w_map w' = w_map w ∧ w_heap w' = w_heap w ∧
  w_next_loc w' = w_next_loc w ∧ w_next_id w' = w_next_id w ∧
  match ll with
  | LlIn id =>
      w_log w' = w_log w ∧
      ∃ d, (id, d) ∈ lls ∧ bounds_match (w_heap w) d left right
  | LlEmpty =>
      w_log w' =
        w_log w ++ [find_ll_from_bound_message] ∧
      ∀ id d, (id, d) ∈ lls → ¬ bounds_match (w_heap w) d left right
  end.
Proof.
  induction lls as [|[id d] lls IH]; intros w ll w' Hrun.
  - simpl in Hrun. injection Hrun as <- <-. simpl. split_and!; try done.
    intros id d Hin. by apply elem_of_nil in Hin.
  - cbn [find_ll_from_bound_loop fst snd] in Hrun.
    apply bind_Ok in Hrun as (l & w1 & Hl & Hrun).
    apply ls_id_Ok in Hl as [-> (dl & Hdl & <-)].
    apply bind_Ok in Hrun as (l' & w1 & Hl' & Hrun).
    apply ls_id_Ok in Hl' as [-> (dl' & Hdl' & <-)].
    assert (∀ ll w', find_ll_from_bound_loop lls left right w = Ok (ll, w') →
              ¬ bounds_match (w_heap w) d left right →
              w_map w' = w_map w ∧ w_heap w' = w_heap w ∧
              w_next_loc w' = w_next_loc w ∧ w_next_id w' = w_next_id w ∧
              match ll with
              | LlIn id0 =>
                  w_log w' = w_log w ∧
                  ∃ d0, (id0, d0) ∈ (id, d) :: lls ∧ bounds_match (w_heap w) d0 left right
              | LlEmpty =>
                  w_log w' =
                    w_log w ++ [find_ll_from_bound_message] ∧
                  ∀ id0 d0, (id0, d0) ∈ (id, d) :: lls →
                    ¬ bounds_match (w_heap w) d0 left right
              end) as Hnext.
    { intros ll0 w0 Hrun0 Hno. apply IH in Hrun0 as (? & ? & ? & ? & Hll).
      split_and!; try done. destruct ll0 as [id0|].
      - destruct Hll as (? & d0 & Hin & Hb). split; [done|]. exists d0. split; [by right|done].
      - destruct Hll as (? & Hall). split; [done|]. intros id0 d0 Hin.
        apply elem_of_cons in Hin as [[= -> ->]|Hin]; [done|by eapply Hall]. }
    case_bool_decide as Hleq.
    + apply bind_Ok in Hrun as (r & w1 & Hr & Hrun).
      apply ls_id_Ok in Hr as [-> (dr & Hdr & <-)].
      apply bind_Ok in Hrun as (r' & w1 & Hr' & Hrun).
      apply ls_id_Ok in Hr' as [-> (dr' & Hdr' & <-)].
      case_bool_decide as Hreq.
      * injection Hrun as <- <-. split_and!; try done.
        exists d. split; [by left|]. by exists dl, dr, dl', dr'.
      * apply Hnext; [done|]. intros (dl0 & dr0 & l0 & r0 & ? & ? & ? & ? & ? & ?).
        apply Hreq. congruence.
    + apply Hnext; [done|]. intros (dl0 & dr0 & l0 & r0 & ? & ? & ? & ? & ? & ?).
      apply Hleq. congruence.
Qed.

(** X16: [find_ll_from_bound] changes neither the map nor the
    linestrings; the lanelet it returns is one of the lanelet layer whose
    left and right bound have the ids of the given linestrings, and
    nothing is printed; when it returns the empty lanelet, no lanelet of
    the layer has these bounds and the message is printed. *)
Theorem find_ll_from_bound_spec (left right : LineString3d) (w : World)
    (ll : Lanelet) (w' : World) :
  find_ll_from_bound left right w = Ok (ll, w') →
  w_map w' = w_map w ∧ w_heap w' = w_heap w ∧
  match ll with
  | LlIn id =>
      w_log w' = w_log w ∧
      ∃ d, laneletLayer (w_map w) !! id = Some d ∧
           bounds_match (w_heap w) d left right
  | LlEmpty =>
      w_log w' =
        w_log w ++ [find_ll_from_bound_message] ∧
      ∀ id d, laneletLayer (w_map w) !! id = Some d →
        ¬ bounds_match (w_heap w) d left right
  end.
Proof.
  unfold find_ll_from_bound, bind, get_map. intros Hrun.
  apply find_ll_from_bound_loop_spec in Hrun as (? & ? & _ & _ & Hll).
  split_and!; try done. destruct ll as [id|].
  - destruct Hll as (? & d & Hin & Hb). split; [done|]. exists d.
    split; [by apply elem_of_map_to_list|done].
  - destruct Hll as (? & Hall). split; [done|]. intros id d Hd.
    apply (Hall id d). by apply elem_of_map_to_list.
Qed.

(** X19: for a map [lanelet_layer] returns every lanelet of the lanelet
    layer once and nothing else, and leaves the world as it is; for a
    null pointer it returns no lanelet and prints a message. *)
Theorem lanelet_layer_all (map_ptr : option LaneletMap) (w : World) :
  match map_ptr with
  | None =>
      ∃ w', lanelet_layer None w = Ok ([], w') ∧
        w_map w' = w_map w ∧ w_heap w' = w_heap w ∧
        w_log w' = w_log w ++ ["No map received!"]
  | Some m =>
      ∃ lls, lanelet_layer (Some m) w = Ok (lls, w) ∧
        NoDup lls ∧ length lls = size (laneletLayer m) ∧
        ∀ ll, ll ∈ lls ↔ ∃ id, ll = LlIn id ∧ is_Some (laneletLayer m !! id)
  end.
Proof.
  destruct map_ptr as [m|].
  - exists (lanelets_of m). split; [done|]. split_and!.
    + unfold lanelets_of. apply NoDup_fmap; [by intros ?? [=]|].
      apply NoDup_fst_map_to_list.
    + unfold lanelets_of. by rewrite !length_fmap, length_map_to_list.
    + apply elem_of_lanelets_of.
  - eexists. split; [reflexivity|]. done.
Qed.

Lemma existsb_pt_eqb_r pt l :
  existsb (λ q, pt_eqb q pt) l = true ↔ pt_id pt ∈ pt_id <$> l.
Proof.
  induction l as [|q r IH]; simpl.
  - split; [done|]. intros Hin. by apply elem_of_nil in Hin.
  - rewrite orb_true_iff, IH, elem_of_cons. unfold pt_eqb.
    rewrite bool_decide_eq_true. split; intros [?|?]; auto.
Qed.

Lemma among_length (p l : list Point3d) :
  NoDup (pt_id <$> l) → (length (among p l) ≤ length p)%nat.
Proof.
  intros Hnd. rewrite <- (length_fmap pt_id (among p l)), <- (length_fmap pt_id p).
  apply submseteq_length, NoDup_submseteq.
  - unfold among. clear -Hnd. induction l as [|x l IH]; simpl; [constructor|].
    apply NoDup_cons in Hnd as [Hx Hnd]. rewrite filter_cons.
    destruct (decide _); [|by apply IH]. simpl. apply NoDup_cons. split; [|by apply IH].
    intros Hin. apply Hx. apply list_elem_of_fmap in Hin as (y & -> & Hy).
    apply list_elem_of_filter in Hy as [_ Hy]. apply list_elem_of_fmap. by exists y.
  - intros x Hx. apply list_elem_of_fmap in Hx as (y & -> & Hy).
    by apply list_elem_of_filter in Hy as [Hy _].
Qed.

Lemma among_cons p pt l :
  among p (pt :: l) = if decide (pt_id pt ∈ pt_id <$> p) then pt :: among p l else among p l.
Proof. unfold among. by rewrite filter_cons. Qed.

Lemma merged_values_run pm p6 p7 v6 v7 : ∀ c6 c7 n6 n7,
  (c6 + length (among p6 pm) < length v6)%nat →
  (c7 + length (among p7 pm) < length v7)%nat →
  ∃ vln vsn,
    merged_values pm p6 p7 v6 v7 c6 c7 n6 n7 = Ok (vln, vsn) ∧
    length vln = (length n6 + length pm)%nat ∧
    length vsn = (length n7 + length pm)%nat ∧
    (∀ k, (k < length pm)%nat →
       vln !! (length n6 + k)%nat = v6 !! (c6 + length (among p6 (take (S k) pm)))%nat ∧
       vsn !! (length n7 + k)%nat = v7 !! (c7 + length (among p7 (take (S k) pm)))%nat) ∧
    n6 `prefix_of` vln ∧ n7 `prefix_of` vsn.
Proof.
  induction pm as [|pt pm IH]; intros c6 c7 n6 n7 H6 H7.
  - exists n6, n7. simpl. split_and!; try done; try lia.
  - cbn [merged_values]. rewrite among_cons in H6, H7.
    set (c6' := if existsb (λ q, pt_eqb q pt) p6 then S c6 else c6).
    set (c7' := if existsb (λ q, pt_eqb q pt) p7 then S c7 else c7).
    assert (c6' = c6 + (if decide (pt_id pt ∈ pt_id <$> p6) then 1 else 0))%nat as Hc6.
    { unfold c6'. destruct (existsb _ p6) eqn:E.
      - apply existsb_pt_eqb_r in E. rewrite decide_True by done. lia.
      - rewrite decide_False; [lia|]. intros Hin. apply existsb_pt_eqb_r in Hin.
        rewrite E in Hin. discriminate. }
    assert (c7' = c7 + (if decide (pt_id pt ∈ pt_id <$> p7) then 1 else 0))%nat as Hc7.
    { unfold c7'. destruct (existsb _ p7) eqn:E.
      - apply existsb_pt_eqb_r in E. rewrite decide_True by done. lia.
      - rewrite decide_False; [lia|]. intros Hin. apply existsb_pt_eqb_r in Hin.
        rewrite E in Hin. discriminate. }
    clearbody c6' c7'.
    assert (c6' + length (among p6 pm) < length v6)%nat as H6'.
    { rewrite Hc6. destruct (decide (pt_id pt ∈ pt_id <$> p6)); simpl in *; lia. }
    assert (c7' + length (among p7 pm) < length v7)%nat as H7'.
    { rewrite Hc7. destruct (decide (pt_id pt ∈ pt_id <$> p7)); simpl in *; lia. }
    destruct (lookup_lt_is_Some_2 v6 c6' ltac:(lia)) as [vl Hvl].
    destruct (lookup_lt_is_Some_2 v7 c7' ltac:(lia)) as [vs Hvs].
    unfold at_. rewrite Hvl, Hvs. simpl.
    destruct (IH c6' c7' (n6 ++ [vl]) (n7 ++ [vs]) H6' H7')
      as (vln & vsn & Hrun & Hl6 & Hl7 & Hk & Hp6 & Hp7).
    exists vln, vsn. rewrite !length_app in *. simpl in *.
    split_and!; try done; try lia.
    + intros [|k] Hlt.
      * rewrite !Nat.add_0_r. rewrite take_0, !among_cons.
        change (among p6 []) with (@nil Point3d). change (among p7 []) with (@nil Point3d).
        split.
        -- rewrite (prefix_lookup_Some (n6 ++ [vl]) vln (length n6) vl); [|by apply list_lookup_middle|done].
           rewrite <- Hvl. f_equal. rewrite Hc6.
           destruct (decide (pt_id pt ∈ pt_id <$> p6)); simpl; lia.
        -- rewrite (prefix_lookup_Some (n7 ++ [vs]) vsn (length n7) vs); [|by apply list_lookup_middle|done].
           rewrite <- Hvs. f_equal. rewrite Hc7.
           destruct (decide (pt_id pt ∈ pt_id <$> p7)); simpl; lia.
      * destruct (Hk k ltac:(lia)) as [Hk6 Hk7].
        replace (length n6 + S k)%nat with (length n6 + 1 + k)%nat by lia.
        replace (length n7 + S k)%nat with (length n7 + 1 + k)%nat by lia.
        rewrite Hk6, Hk7. rewrite !among_cons.
        split; f_equal; [rewrite Hc6|rewrite Hc7];
          [destruct (decide (pt_id pt ∈ pt_id <$> p6))
          |destruct (decide (pt_id pt ∈ pt_id <$> p7))]; simpl; lia.
    + etrans; [|exact Hp6]. by apply prefix_app_r.
    + etrans; [|exact Hp7]. by apply prefix_app_r.
Qed.

(** X9: with the value lists of [check_tag_change], which have one
    element more than the change points, the loop of [check_lanes] that
    spreads the [lanes] and [shoulder] values over the merged change
    points stays inside both value lists; it returns one value more than
    there are merged points, the first ones being the start values, and
    the value at a merged point is the one behind as many changes as there
    are points of that key among the merged points up to it. *)
Theorem merged_values_in_range (p6 p7 : list Point3d) (v6 v7 : list string)
    (l0 s0 : string) :
  length v6 = S (length p6) → length v7 = S (length p7) →
  let pm := merge_point_vec [p6; p7] in
  ∃ vln vsn,
    merged_values pm p6 p7 v6 v7 0 0 [l0] [s0] = Ok (vln, vsn) ∧
    head vln = Some l0 ∧ head vsn = Some s0 ∧
    length vln = S (length pm) ∧ length vsn = S (length pm) ∧
    ∀ k, (k < length pm)%nat →
      vln !! S k = v6 !! length (among p6 (take (S k) pm)) ∧
      vsn !! S k = v7 !! length (among p7 (take (S k) pm)).
Proof.
  intros H6 H7 pm.
  assert (NoDup (pt_id <$> pm)) as Hnd.
  { destruct (merge_point_vec_from [p6; p7] [] (NoDup_nil_2)) as (added & Heq & Hnd & _).
    unfold pm. change (merge_point_vec [p6; p7]) with (foldl merge_into [] [p6; p7]).
    by rewrite Heq. }
  pose proof (among_length p6 pm Hnd). pose proof (among_length p7 pm Hnd).
  destruct (merged_values_run pm p6 p7 v6 v7 0 0 [l0] [s0])
    as (vln & vsn & Hrun & Hl6 & Hl7 & Hk & Hp6 & Hp7); [lia|lia|].
  exists vln, vsn. simpl in *. split_and!; try done.
  - destruct Hp6 as [r ->]. done.
  - destruct Hp7 as [r ->]. done.
Qed.

(** *** Runs of values *)

Lemma adjacent_distinct_snoc l a b :
  adjacent_distinct l → last l = Some a → a ≠ b → adjacent_distinct (l ++ [b]).
Proof.
  intros Hl Hlast Hne i x y Hx Hy.
  destruct (decide (S i < length l)%nat) as [Hlt|Hge].
  - rewrite lookup_app_l in Hx by lia. rewrite lookup_app_l in Hy by lia. by eapply Hl.
  - pose proof (lookup_lt_Some _ _ _ Hy) as Hlen. rewrite length_app in Hlen. simpl in Hlen.
    assert (S i = length l) as Hi by lia.
    rewrite lookup_app_l in Hx by lia.
    rewrite Hi, list_lookup_middle in Hy by done. injection Hy as <-.
    rewrite last_lookup in Hlast. replace (Nat.pred (length l)) with i in Hlast by lia.
    congruence.
Qed.

Lemma tag_changes_runs key rest : ∀ val pts_ values_ pts' values',
  tag_changes key val rest pts_ values_ = Ok (pts', values') →
  last values_ = Some val → adjacent_distinct values_ →
  values_ `prefix_of` values' ∧
  adjacent_distinct values' ∧
  last values' = last (val :: (seg_value key <$> rest)) ∧
  (∃ new, pts' = pts_ ++ new ∧
     length new = changes (val :: (seg_value key <$> rest)) ∧
     ∀ q, q ∈ new → ∃ seg, seg ∈ rest ∧ head (seg_pts seg) = Some q).
Proof.
  induction rest as [|it rest IH]; intros val pts_ values_ pts' values' Hrun Hlast Hadj.
  - injection Hrun as <- <-. split_and!; try done.
    exists []. rewrite app_nil_r. split_and!; try done.
    intros q Hq. by apply elem_of_nil in Hq.
  - cbn [tag_changes] in Hrun.
    assert (∀ v, seg_value key it = v → v ≠ val →
      (p <- front (seg_pts it) ;;; tag_changes key v rest (pts_ ++ [p]) (values_ ++ [v]))
        = Ok (pts', values') →
      values_ `prefix_of` values' ∧ adjacent_distinct values' ∧
      last values' = last (val :: (seg_value key <$> it :: rest)) ∧
      (∃ new, pts' = pts_ ++ new ∧
         length new = changes (val :: (seg_value key <$> it :: rest)) ∧
         ∀ q, q ∈ new → ∃ seg, seg ∈ it :: rest ∧ head (seg_pts seg) = Some q)) as Hchange.
    { intros v Hv Hne Hrun'. apply obind_Ok in Hrun' as (p & Hp & Hrun').
      apply IH in Hrun' as (Hpre & Hadj' & Hlast' & new & -> & Hlen & Hnew).
      - split_and!.
        + etrans; [|exact Hpre]. by apply prefix_app_r.
        + done.
        + rewrite Hlast'. cbn [fmap list_fmap]. rewrite Hv. done.
        + exists (p :: new). rewrite <- app_assoc. split_and!; [done| |].
          * cbn [fmap list_fmap]. rewrite Hv. unfold changes in *.
            cbn [tail zip zip_with]. rewrite filter_cons. simpl.
            destruct (decide (val ≠ v)) as [_|Hn]; [|destruct Hn; congruence].
            simpl. by rewrite Hlen.
          * intros q Hq. apply elem_of_cons in Hq as [->|Hq].
            -- exists it. split; [by left|]. unfold front in Hp.
               destruct (head (seg_pts it)); by simplify_eq/=.
            -- destruct (Hnew q Hq) as (seg & ? & ?). exists seg. split; [by right|done].
      - by rewrite last_snoc.
      - by apply adjacent_distinct_snoc with (a := val). }
    assert (seg_value key it = val →
      tag_changes key val rest pts_ values_ = Ok (pts', values') →
      values_ `prefix_of` values' ∧ adjacent_distinct values' ∧
      last values' = last (val :: (seg_value key <$> it :: rest)) ∧
      (∃ new, pts' = pts_ ++ new ∧
         length new = changes (val :: (seg_value key <$> it :: rest)) ∧
         ∀ q, q ∈ new → ∃ seg, seg ∈ it :: rest ∧ head (seg_pts seg) = Some q)) as Hsame.
    { intros Hv Hrun'.
      apply IH in Hrun' as (Hpre & Hadj' & Hlast' & new & -> & Hlen & Hnew); try done.
      split_and!; try done.
      - rewrite Hlast'. cbn [fmap list_fmap]. rewrite Hv. done.
      - exists new. split_and!; [done| |].
        + cbn [fmap list_fmap]. rewrite Hv. unfold changes in *.
          cbn [tail zip zip_with]. rewrite filter_cons. simpl.
          destruct (decide (val ≠ val)) as [Hn|_]; [by destruct Hn|]. done.
        + intros q Hq. destruct (Hnew q Hq) as (seg & ? & ?).
          exists seg. split; [by right|done]. }
    unfold seg_value in Hchange, Hsame.
    destruct (seg_attrs it !! key) as [v|] eqn:Hv; simpl in *.
    + case_bool_decide as Hne; [by apply (Hchange v)|].
      apply Hsame; [|done]. destruct (decide (v = val)); [done|by destruct Hne].
    + case_bool_decide as Hne; [apply (Hchange ""); try done; by apply not_eq_sym|].
      apply Hsame; [|done]. destruct (decide (val = "")); [done|by destruct Hne].
Qed.

(** X11: the values that [check_tag_change] returns for a key start
    with the value of the first segment and end with the value of the
    last one, and no two neighbours are equal; there are as many change
    points as there are neighbouring segments with different values, and
    every change point is the first point of a segment behind the first
    one. *)
Theorem check_tag_change_runs (pline : list Segment) (keys : list string)
    (pts : list (list Point3d)) (values : list (list string)) :
  check_tag_change pline keys [] [] = Ok (pts, values) →
  ∀ i key p vs, keys !! i = Some key → pts !! i = Some p → values !! i = Some vs →
    head vs = Some (first_value pline key) ∧
    last vs = Some (default (first_value pline key) (last (seg_value key <$> pline))) ∧
    adjacent_distinct vs ∧
    length p = changes (seg_value key <$> pline) ∧
    ∀ q, q ∈ p → ∃ seg, seg ∈ tail pline ∧ head (seg_pts seg) = Some q.
Proof.
  intros Hrun i key p vs Hkey Hp Hvs.
  apply check_tag_change_scans in Hrun as (rs & Hrs & -> & ->). simpl in Hp, Hvs.
  rewrite list_lookup_fmap in Hp. rewrite list_lookup_fmap in Hvs.
  destruct (Forall2_lookup_l _ _ _ _ _ Hrs Hkey) as ([p' vs'] & Hi & Hr).
  rewrite Hi in Hp, Hvs. simpl in Hp, Hvs. injection Hp as ->. injection Hvs as ->.
  unfold check_tag_change_key in Hr.
  apply tag_changes_runs in Hr as (Hpre & Hadj & Hlast & new & Hnew & Hlen & Hfront).
  - simpl in Hnew. subst new. split_and!; try done.
    + destruct Hpre as [r ->]. done.
    + rewrite Hlast. unfold first_value, seg_value.
      destruct pline as [|seg pline]; [done|]. cbn [tail fmap list_fmap].
      destruct pline as [|seg' pline]; [done|].
      cbn [fmap list_fmap]. rewrite !last_cons_cons.
      destruct (last (_ :: _)) eqn:E; [done|]. by apply last_None in E.
    + rewrite Hlen. unfold first_value, seg_value.
      destruct pline as [|seg pline]; done.
  - done.
  - intros j a b Ha Hb. destruct j; simpl in Hb; done.
Qed.

(** *** The two linestrings of a split *)

Lemma view_negb d inv : view d (negb inv) = rev (view d inv).
Proof. unfold view. destruct inv; simpl; [by rewrite rev_involutive|done]. Qed.

Lemma split_linestring_fails (orig_ls : LineString3d) (d : LineStringData)
    splitted new_lss pt (inv : bool) (w : World) f :
  let dir := ls_inverted (if inv then invert orig_ls else orig_ls) in
  w_heap w !! ls_loc orig_ls = Some d →
  lsd_id d ∉ splitted →
  split_vertex (w_next_id w) (view d dir) pt = Fail f →
  split_linestring orig_ls splitted new_lss pt inv w = Fail f.
Proof.
  intros dir Hd Hin Hsv. unfold split_linestring, bind, deref.
  rewrite ls_loc_dir, Hd. simpl.
  unfold used_Id. rewrite bool_decide_eq_false_2 by done. simpl.
  fold dir. rewrite Hsv. reflexivity.
Qed.


(** X13: [split_linestring] keeps the memo and the list of new
    linestrings aligned: they have the same length, no id is twice in the
    memo, both only grow at the end, and after the call the entry for the
    id of the linestring is the linestring that was returned. *)
Theorem split_linestring_memo_aligned (orig_ls : LineString3d) (d : LineStringData)
    (splitted : list Id) (new_lss : list LineString3d) (pt : Point3d)
    (inv : bool) (w : World) (new_ls : LineString3d) (splitted' : list Id)
    (new_lss' : list LineString3d) (w' : World) :
  w_heap w !! ls_loc orig_ls = Some d →
  length splitted = length new_lss → NoDup splitted →
  split_linestring orig_ls splitted new_lss pt inv w =
    Ok (new_ls, splitted', new_lss', w') →
  length splitted' = length new_lss' ∧ NoDup splitted' ∧
  splitted `prefix_of` splitted' ∧ new_lss `prefix_of` new_lss' ∧
  lsd_id d ∈ splitted' ∧
  new_lss' !! index_of (lsd_id d) splitted' =
    Some (if inv then invert new_ls else new_ls).
Proof.
  intros Hd Hlen Hnd Hsplit.
  destruct (decide (lsd_id d ∈ splitted)) as [Hin|Hnin].
  - assert (is_Some (new_lss !! index_of (lsd_id d) splitted)) as [prev Hprev].
    { apply lookup_lt_is_Some_2. rewrite <- Hlen. by apply index_of_lt. }
    rewrite (split_linestring_memo orig_ls d splitted new_lss pt inv w prev Hd Hin Hprev)
      in Hsplit.
    injection Hsplit as <- <- <- <-. split_and!; try done.
    rewrite Hprev. f_equal. destruct inv, prev as [l []]; done.
  - set (dir := ls_inverted (if inv then invert orig_ls else orig_ls)).
    destruct (split_vertex (w_next_id w) (view d dir) pt) as [[new_pt ind]|f] eqn:Hsv.
    + rewrite (split_linestring_fresh orig_ls d splitted new_lss pt inv w
                 new_pt ind Hd Hnin Hsv) in Hsplit.
      injection Hsplit as <- <- <- <-. split_and!.
      * rewrite !length_app. simpl. lia.
      * apply NoDup_app. split_and!; [done| |apply NoDup_singleton].
        intros x Hx Hx'. apply list_elem_of_singleton in Hx'. by subst.
      * by apply prefix_app_r.
      * by apply prefix_app_r.
      * apply elem_of_app. right. by left.
      * rewrite index_of_app_fresh by done. rewrite Hlen, list_lookup_middle by done.
        f_equal. by destruct inv.
    + by rewrite (split_linestring_fails orig_ls d splitted new_lss pt inv w f Hd Hnin Hsv)
        in Hsplit.
Qed.

(** *** What the engine keeps *)

(** The lanelets of [l] are in [l'] with their bounds and with their
    attributes outside [keys]. *)

Lemma lanelets_kept_refl keys l : lanelets_kept keys l l.
Proof. intros id d Hd. by exists d. Qed.

Lemma lanelets_kept_trans keys l1 l2 l3 :
  lanelets_kept keys l1 l2 → lanelets_kept keys l2 l3 → lanelets_kept keys l1 l3.
Proof.
  intros H12 H23 id d Hd.
  destruct (H12 id d Hd) as (d2 & Hd2 & Hl2 & Hr2 & [Hc2 Hg2] & Ha2).
  destruct (H23 id d2 Hd2) as (d3 & Hd3 & Hl3 & Hr3 & [Hc3 Hg3] & Ha3).
  exists d3. split_and!; try congruence. intros k Hk. rewrite Ha3, Ha2; done.
Qed.

Lemma lanelets_kept_mono keys keys' l l' :
  keys ⊆ keys' → lanelets_kept keys l l' → lanelets_kept keys' l l'.
Proof.
  intros Hsub Hk id d Hd. destruct (Hk id d Hd) as (d' & ? & ? & ? & [? ?] & Ha).
  exists d'. split_and!; try done. intros k Hk'. apply Ha. intros Hin. by apply Hk', Hsub.
Qed.

Lemma linestrings_kept_refl h : linestrings_kept h h.
Proof. intros l d Hd. by exists d. Qed.

Lemma linestrings_kept_trans h1 h2 h3 :
  linestrings_kept h1 h2 → linestrings_kept h2 h3 → linestrings_kept h1 h3.
Proof.
  intros H12 H23 l d Hd.
  destruct (H12 l d Hd) as (d2 & Hd2 & Hi2 & ?).
  destruct (H23 l d2 Hd2) as (d3 & Hd3 & Hi3 & ?).
  exists d3. split_and!; [done| |congruence].
  intros Hid. rewrite Hi3; [by apply Hi2|]. by rewrite Hi2.
Qed.

Lemma world_kept_refl keys w : world_kept keys w w.
Proof.
  unfold world_kept. split_and!; try done; try lia;
    [apply lanelets_kept_refl|apply linestrings_kept_refl].
Qed.

Lemma world_kept_trans keys w1 w2 w3 :
  world_kept keys w1 w2 → world_kept keys w2 w3 → world_kept keys w1 w3.
Proof.
  intros (Hl & ? & ? & ? & [? ?] & Hh & ? & ? & ?)
         (Hl' & ? & ? & ? & [? ?] & Hh' & ? & ? & ?).
  unfold world_kept. split_and!; try congruence; try lia.
  - by eapply lanelets_kept_trans.
  - by etrans.
  - by etrans.
  - by eapply linestrings_kept_trans.
  - by etrans.
Qed.

Lemma world_kept_mono keys keys' w w' :
  keys ⊆ keys' → world_kept keys w w' → world_kept keys' w w'.
Proof.
  intros Hsub (Hl & Hrest). split; [|done]. by eapply lanelets_kept_mono.
Qed.

Lemma log_only_kept keys w w' : log_only w w' → world_kept keys w w'.
Proof.
  intros (Hm & Hh & Hl & Hi & Hlog). unfold world_kept. rewrite Hm, Hh, Hl, Hi.
  split_and!; try done; try lia; [apply lanelets_kept_refl|apply linestrings_kept_refl].
Qed.

Lemma log_only_wf w w' : log_only w w' → heap_wf w → heap_wf w'.
Proof. intros (Hm & Hh & Hl & Hi & Hlog) Hwf l. rewrite Hh, Hl. apply Hwf. Qed.

Lemma keeps_ret {A} keys (a : A) : keeps keys (ret a).
Proof. intros w a' w' [= <- <-] Hwf. split; [done|apply world_kept_refl]. Qed.

Lemma keeps_lift {A} keys (o : outcome A) : keeps keys (lift o).
Proof.
  intros w a w' Hrun Hwf. apply lift_Ok in Hrun as [_ ->].
  split; [done|apply world_kept_refl].
Qed.

Lemma keeps_bind {A B} keys (m : M A) (k : A → M B) :
  keeps keys m → (∀ a, keeps keys (k a)) → keeps keys (bind m k).
Proof.
  intros Hm Hk w b w' Hrun Hwf. apply bind_Ok in Hrun as (a & w1 & Hma & Hkb).
  destruct (Hm _ _ _ Hma Hwf) as [Hwf1 Hk1].
  destruct (Hk a _ _ _ Hkb Hwf1) as [Hwf2 Hk2].
  split; [done|]. by eapply world_kept_trans.
Qed.

Lemma keeps_mono {A} keys keys' (m : M A) : keys ⊆ keys' → keeps keys m → keeps keys' m.
Proof.
  intros Hsub Hm w a w' Hrun Hwf. destruct (Hm _ _ _ Hrun Hwf) as [? ?].
  split; [done|]. by eapply world_kept_mono.
Qed.

Lemma keeps_log_only {A} keys (m : M A) :
  (∀ w a w', m w = Ok (a, w') → log_only w w') → keeps keys m.
Proof.
  intros Hm w a w' Hrun Hwf. apply Hm in Hrun.
  split; [by eapply log_only_wf|by apply log_only_kept].
Qed.

Lemma keeps_print keys s : keeps keys (print s).
Proof.
  apply keeps_log_only. intros w [] w' Hrun.
  destruct (print_log_only s w) as (w1 & Hp & Hlog). congruence.
Qed.

Lemma keeps_get_map keys : keeps keys get_map.
Proof. intros w a w' [= <- <-] Hwf. split; [done|apply world_kept_refl]. Qed.

Lemma keeps_getId keys : keeps keys getId.
Proof.
  intros w a w' [= <- <-] Hwf. split; [done|].
  unfold world_kept. simpl. split_and!; try done; try lia;
    [apply lanelets_kept_refl|apply linestrings_kept_refl].
Qed.

Lemma keeps_deref keys ls : keeps keys (deref ls).
Proof. intros w a w' Hrun. unfold deref in Hrun. by eapply keeps_lift. Qed.

Lemma keeps_alloc keys d : keeps keys (alloc d).
Proof.
  intros w a w' [= <- <-] Hwf. split.
  - intros l Hl. simpl in *. rewrite lookup_insert_ne by lia. apply Hwf. lia.
  - unfold world_kept. simpl. split_and!; try done; try lia.
    + apply lanelets_kept_refl.
    + intros l d' Hd'. exists d'. split; [|done].
      rewrite lookup_insert_ne; [done|]. intros E.
      rewrite (Hwf l) in Hd'; [done|lia].
Qed.

Lemma keeps_find_ll keys id : keeps keys (find_ll id).
Proof. apply keeps_log_only. intros w ll w' Hrun. by apply find_ll_spec in Hrun as [? _]. Qed.

Create HintDb keeps discriminated.
Hint Resolve keeps_ret keeps_lift keeps_print keeps_get_map keeps_getId keeps_deref
  keeps_alloc keeps_find_ll : keeps.

Ltac keeps_step :=
  match goal with
  | |- keeps _ (bind _ _) => apply keeps_bind; [|intros ?]
  | |- context [let '(_, _) := ?x in _] => destruct x
  | |- context [if ?b then _ else _] => destruct b
  | |- context [match ?x with Some _ => _ | None => _ end] => destruct x
  | |- context [match ?x with LlIn _ => _ | LlEmpty => _ end] => destruct x
  end.

Ltac keeps_auto := repeat (first [progress eauto 2 with keeps | keeps_step]).

Lemma keeps_leftBound keys ll : keeps keys (leftBound ll).
Proof. unfold leftBound. keeps_auto. Qed.

Lemma keeps_rightBound keys ll : keeps keys (rightBound ll).
Proof. unfold rightBound. keeps_auto. Qed.

Lemma keeps_attributes keys ll : keeps keys (attributes ll).
Proof. unfold attributes. keeps_auto. Qed.

Lemma layer_add_subseteq {A} (id : Id) (x : A) (layer : gmap Id A) :
  layer ⊆ layer_add id x layer.
Proof.
  unfold layer_add. destruct (layer !! id) eqn:Hid; [done|]. by apply insert_subseteq.
Qed.

Lemma prims_added_refl w : prims_added w w.
Proof.
  unfold prims_added. split_and!; try done; try lia. apply linestrings_kept_refl.
Qed.

Lemma prims_added_trans w1 w2 w3 :
  prims_added w1 w2 → prims_added w2 w3 → prims_added w1 w3.
Proof.
  intros (? & ? & ? & ? & ? & ? & ? & Hn & ? & ? & ?)
         (? & ? & ? & ? & ? & ? & ? & Hn' & ? & ? & ?).
  unfold prims_added. split_and!; try congruence; try lia; try (by etrans).
  - by eapply linestrings_kept_trans.
  - intros l Hl. by apply Hn', Hn.
Qed.

Lemma prims_added_kept keys w w' :
  prims_added w w' → heap_wf w → heap_wf w' ∧ world_kept keys w w'.
Proof.
  intros (Hll & ? & ? & ? & ? & ? & ? & Hn & Hloc & ? & Hlog) Hwf. split.
  - intros l Hl. rewrite Hloc in Hl. by apply Hn, Hwf.
  - unfold world_kept. rewrite Hll, Hloc, Hlog. split_and!; try done.
    apply lanelets_kept_refl.
Qed.

Lemma id_to_add_spec {A} (layer : gmap Id A) id w go w' :
  id_to_add layer id w = Ok (go, w') →
  w_map w' = w_map w ∧ w_heap w' = w_heap w ∧ w_next_loc w' = w_next_loc w ∧
  w_next_id w ≤ w_next_id w' ∧ w_log w' = w_log w ∧
  match go with
  | Some id' => if bool_decide (id = InvalId) then id' = w_next_id w
                else id' = id ∧ layer !! id = None
  | None => id ≠ InvalId ∧ is_Some (layer !! id)
  end.
Proof.
  unfold id_to_add. case_bool_decide as Hid.
  - intros [= <- <-]. simpl. split_and!; try done; lia.
  - destruct (layer !! id) eqn:Hl.
    + intros [= <- <-]. split_and!; try done; lia.
    + intros [= <- <-]. simpl. split_and!; try done; lia.
Qed.

Lemma id_to_add_added {A} (layer : gmap Id A) id w go w' :
  id_to_add layer id w = Ok (go, w') → prims_added w w'.
Proof.
  intros Hrun. apply id_to_add_spec in Hrun as (Hm & Hh & Hl & Hi & Hlog & _).
  unfold prims_added. rewrite Hm, Hh, Hl, Hlog. split_and!; try done.
  apply linestrings_kept_refl.
Qed.

Lemma pointLayer_add_added id p w u w' :
  pointLayer_add id p w = Ok (u, w') → prims_added w w'.
Proof.
  intros [= <- <-]. unfold prims_added. simpl. split_and!; try done; try lia.
  - apply layer_add_subseteq.
  - apply linestrings_kept_refl.
Qed.

Lemma lineStringLayer_add_added id ls w u w' :
  lineStringLayer_add id ls w = Ok (u, w') → prims_added w w'.
Proof.
  intros [= <- <-]. unfold prims_added. simpl. split_and!; try done; try lia.
  - apply layer_add_subseteq.
  - apply linestrings_kept_refl.
Qed.

Lemma add_point_added p w p' w' :
  add_point p w = Ok (p', w') → prims_added w w' ∧ w_heap w' = w_heap w.
Proof.
  unfold add_point. intros Hrun.
  apply bind_Ok in Hrun as (map & w0 & [= <- <-] & Hrun).
  apply bind_Ok in Hrun as (go & w1 & Hgo & Hrun).
  pose proof (id_to_add_added _ _ _ _ _ Hgo) as Ha.
  apply id_to_add_spec in Hgo as (_ & Hh & _).
  destruct go as [id|].
  - apply bind_Ok in Hrun as ([] & w2 & Hadd & [= <- <-]).
    split; [|by injection Hadd as <-].
    eapply prims_added_trans; [done|by eapply pointLayer_add_added].
  - by injection Hrun as <- <-.
Qed.

Lemma add_points_added pts : ∀ w pts' w',
  add_points pts w = Ok (pts', w') → prims_added w w' ∧ w_heap w' = w_heap w.
Proof.
  induction pts as [|p pts IH]; simpl; intros w pts' w' Hrun.
  - injection Hrun as <- <-. split; [apply prims_added_refl|done].
  - apply bind_Ok in Hrun as (p' & w1 & Hp & Hrun).
    apply bind_Ok in Hrun as (ps & w2 & Hps & [= <- <-]).
    apply add_point_added in Hp as [Hp Hh]. apply IH in Hps as [Hps Hh'].
    split; [by eapply prims_added_trans|congruence].
Qed.

Lemma add_linestring_added ls w u w' :
  add_linestring ls w = Ok (u, w') → prims_added w w'.
Proof.
  unfold add_linestring. intros Hrun.
  apply bind_Ok in Hrun as (d & w0 & Hd & Hrun).
  unfold deref in Hd. apply lift_Ok in Hd as [Hd ->].
  destruct (w_heap w !! ls_loc ls) as [d0|] eqn:Hd0; [|done]. injection Hd as ->.
  apply bind_Ok in Hrun as (map & w0 & [= <- <-] & Hrun).
  apply bind_Ok in Hrun as (go & w1 & Hgo & Hrun).
  pose proof (id_to_add_added _ _ _ _ _ Hgo) as Ha.
  apply id_to_add_spec in Hgo as (_ & Hh1 & _ & _ & _ & Hid).
  destruct go as [id|]; [|by injection Hrun as <- <-].
  apply bind_Ok in Hrun as (pts & w2 & Hpts & Hrun).
  apply add_points_added in Hpts as [Hpts Hh2].
  apply bind_Ok in Hrun as ([] & w3 & [= <-] & Hrun).
  apply lineStringLayer_add_added in Hrun.
  eapply prims_added_trans; [exact Ha|]. eapply prims_added_trans; [exact Hpts|].
  eapply prims_added_trans; [|exact Hrun].
  unfold prims_added. simpl. split_and!; try done; try lia.
  - intros l dl Hl. destruct (decide (l = ls_loc ls)) as [->|Hne].
    + rewrite lookup_insert_eq. eexists. split; [done|].
      rewrite Hh2, Hh1, Hd0 in Hl. injection Hl as <-.
      split; [|by destruct (ls_inverted ls)].
      intros Hvalid. case_bool_decide; [done|]. destruct Hid as [-> _].
      by destruct (ls_inverted ls).
    + rewrite lookup_insert_ne by done. exists dl. split_and!; done.
  - intros l Hl. rewrite lookup_insert_ne; [done|]. intros <-.
    rewrite Hh2, Hh1, Hd0 in Hl. done.
Qed.

Lemma keeps_added {A} keys (m : M A) :
  (∀ w a w', m w = Ok (a, w') → prims_added w w') → keeps keys m.
Proof. intros Hm w a w' Hrun Hwf. apply Hm in Hrun. by apply prims_added_kept. Qed.

Lemma keeps_add_linestring keys ls : keeps keys (add_linestring ls).
Proof. apply keeps_added. intros w [] w'. apply add_linestring_added. Qed.

Lemma keeps_id_to_add {A} keys (layer : gmap Id A) id : keeps keys (id_to_add layer id).
Proof. apply keeps_added. intros w go w'. apply id_to_add_added. Qed.

Lemma keeps_laneletLayer_add keys id d : keeps keys (laneletLayer_add id d).
Proof.
  intros w a w' [= <- <-] Hwf. split; [done|].
  unfold world_kept. simpl. split_and!; try done; try lia; [|apply linestrings_kept_refl].
  intros i di Hi. exists di. split; [|done].
  by apply (lookup_weaken _ _ _ _ Hi), layer_add_subseteq.
Qed.

(** [map_ptr->add(new_ll)] for the lanelet that [split_ll_dir] makes. *)
Lemma keeps_add_lanelet keys src id left right attrs :
  keeps keys (add_lanelet 1 src id (mkLaneletData left right attrs None [])).
Proof.
  simpl. keeps_auto;
    first [apply keeps_id_to_add | apply keeps_add_linestring
          | apply keeps_laneletLayer_add].
Qed.

Lemma keeps_set_attribute keys ll key val :
  key ∈ keys → keeps keys (set_attribute ll key val).
Proof.
  intros Hkey w a w' Hrun Hwf. destruct ll as [id|]; simpl in Hrun.
  - unfold bind, get_map, set_lanelets in Hrun. injection Hrun as <- <-.
    split; [done|].
    unfold world_kept. simpl. split_and!; try done; try lia; [|apply linestrings_kept_refl].
    intros i di Hi. destruct (decide (i = id)) as [->|Hne].
    + eexists. rewrite lookup_alter_eq, Hi. simpl. split; [done|].
      split_and!; try done. intros k Hk. simpl.
      rewrite lookup_insert_ne; [done|]. by intros <-.
    + exists di. by rewrite lookup_alter_ne.
  - injection Hrun as <- <-. split; [done|apply world_kept_refl].
Qed.

Hint Resolve keeps_leftBound keeps_rightBound keeps_attributes keeps_add_lanelet
  keeps_id_to_add keeps_add_linestring keeps_laneletLayer_add : keeps.

Lemma keeps_split_linestring keys orig_ls splitted new_lss pt inv :
  keeps keys (split_linestring orig_ls splitted new_lss pt inv).
Proof.
  intros w r w' Hrun Hwf. unfold split_linestring in Hrun.
  apply bind_Ok in Hrun as (d & w0 & Hd & Hrun).
  unfold deref in Hd. apply lift_Ok in Hd as [Hd ->].
  rewrite ls_loc_dir in Hd.
  destruct (w_heap w !! ls_loc orig_ls) as [d0|] eqn:Hd0; [|done].
  injection Hd as ->.
  apply bind_Ok in Hrun as ([[nl sp] nlss] & w1 & Hbody & Hrun).
  injection Hrun as <- <-.
  destruct (negb (used_Id splitted (lsd_id d))).
  - apply bind_Ok in Hbody as (new_id & w2 & [= <- <-] & Hbody).
    apply bind_Ok in Hbody as ([new_pt ind] & w3 & Hsv & Hbody).
    apply lift_Ok in Hsv as [_ ->].
    apply bind_Ok in Hbody as (ls_id & w4 & [= <- <-] & Hbody).
    apply bind_Ok in Hbody as (new_ls & w5 & [= <- <-] & Hbody).
    apply bind_Ok in Hbody as ([] & w6 & [= <-] & Hbody).
    injection Hbody as <- <- <- <-. simpl. rewrite ls_loc_dir.
    assert (ls_loc orig_ls ≠ w_next_loc w) as Hne.
    { intros E. rewrite E, (Hwf (w_next_loc w)) in Hd0; [done|lia]. }
    split.
    + intros l Hl. simpl in *.
      assert (ls_loc orig_ls ≠ l) as Hnl.
      { intros E. rewrite (Hwf (ls_loc orig_ls)) in Hd0; [done|lia]. }
      rewrite lookup_insert_ne by done. rewrite lookup_insert_ne by lia.
      apply Hwf. lia.
    + unfold world_kept. simpl. split_and!; try done; try lia.
      * apply lanelets_kept_refl.
      * intros l dl Hl. destruct (decide (l = ls_loc orig_ls)) as [->|Hnl].
        -- rewrite lookup_insert_eq. eexists. split; [done|]. simpl.
           rewrite Hd0 in Hl. by injection Hl as <-.
        -- rewrite lookup_insert_ne by done. exists dl. split; [|done].
           rewrite lookup_insert_ne; [done|]. intros E.
           rewrite (Hwf l) in Hl; [done|lia].
  - apply bind_Ok in Hbody as (new_ls & w2 & Hat & Hbody).
    apply lift_Ok in Hat as [_ ->]. injection Hbody as <- <- <- <-.
    split; [done|apply world_kept_refl].
Qed.
Hint Resolve keeps_split_linestring : keeps.

Lemma keeps_split_ll_dir_loop keys fuel : ∀ match_ ind key i splitted newls pt,
  keeps keys (split_ll_dir_loop fuel match_ ind key i splitted newls pt).
Proof.
  induction fuel as [|fuel IH]; intros match_ ind key i splitted newls pt; simpl;
    keeps_auto.
Qed.
Hint Resolve keeps_split_ll_dir_loop : keeps.

Lemma keeps_split_lanelet_loop keys fuel pts : ∀ match_ splitted newLss,
  keeps keys (split_lanelet_loop fuel match_ pts splitted newLss).
Proof.
  induction pts as [|pt pts IH]; intros match_ splitted newLss; simpl;
    unfold split_ll_dir; keeps_auto.
Qed.
Hint Resolve keeps_split_lanelet_loop : keeps.

Lemma keeps_split_on_tag_change keys fuel match_ target_keys :
  keeps keys (split_on_tag_change fuel match_ target_keys).
Proof. unfold split_on_tag_change, split_lanelet. keeps_auto. Qed.

Hint Resolve keeps_split_on_tag_change : keeps.

Lemma keeps_set_value_ids keys ids key_ref val : key_ref ∈ keys → ∀ setll,
  keeps keys (set_value_ids ids key_ref val setll).
Proof.
  intros Hkey. induction ids as [|a ids IH]; intros setll; simpl; keeps_auto.
  by apply keeps_set_attribute.
Qed.

Lemma keeps_set_type_location_loop keys segs ind_change values :
  "subtype" ∈ keys → "location" ∈ keys → ∀ ind s1 s2,
  keeps keys (set_type_location_loop segs ind ind_change values s1 s2).
Proof.
  intros Hs Hl. induction segs as [|seg segs IH]; intros ind s1 s2; simpl;
    unfold set_value_dir; keeps_auto; by apply keeps_set_value_ids.
Qed.

Lemma keeps_set_type_location keys match_ pts_change values :
  "subtype" ∈ keys → "location" ∈ keys →
  keeps keys (set_type_location match_ pts_change values).
Proof.
  intros Hs Hl. unfold set_type_location. keeps_auto;
    by apply keeps_set_type_location_loop.
Qed.

Lemma keeps_transfer_tag_loop keys segs key_ref ind_change values :
  key_ref ∈ keys → ∀ ind setll,
  keeps keys (transfer_tag_loop segs ind key_ref ind_change values setll).
Proof.
  intros Hkey. induction segs as [|seg segs IH]; intros ind setll; simpl;
    unfold set_value_dir; keeps_auto; by apply keeps_set_value_ids.
Qed.

Lemma keeps_transfer_att keys match_ ref_key pts_change values :
  ref_key ∈ keys → keeps keys (transfer_att match_ ref_key pts_change values).
Proof.
  intros Hkey. unfold transfer_att, transfer_tag. keeps_auto;
    by apply keeps_transfer_tag_loop.
Qed.

Lemma check_lanes_loop_log n : ∀ ind ind_change vln vsn cols deleted match_ w r w',
  check_lanes_loop n ind ind_change vln vsn cols deleted match_ w = Ok (r, w') →
  log_only w w'.
Proof.
  induction n as [|n IH]; simpl; intros ind ind_change vln vsn cols deleted match_ w r w' Hrun.
  - injection Hrun as <- <-. apply log_only_refl.
  - apply bind_Ok in Hrun as ([[cols1 del1] m1] & w1 & Hseg & Hrun).
    apply check_lanes_seg_inv in Hseg
      as (seg & l0 & s0 & vl & vs & cc & lo & added & removed & Hrest).
    destruct_and!. apply IH in Hrun. by eapply log_only_trans.
Qed.

Lemma check_lanes_log match_ cols p6 p7 v6 v7 deleted w r w' :
  check_lanes match_ cols p6 p7 v6 v7 deleted w = Ok (r, w') → log_only w w'.
Proof.
  unfold check_lanes. intros Hrun.
  apply bind_Ok in Hrun as (ic & w1 & Hic & Hrun). apply lift_Ok in Hic as [_ ->].
  apply bind_Ok in Hrun as (sd & w2 & Hsd & Hrun). apply lift_Ok in Hsd as [_ ->].
  apply bind_Ok in Hrun as (l0 & w3 & Hl0 & Hrun). apply lift_Ok in Hl0 as [_ ->].
  apply bind_Ok in Hrun as (s0 & w4 & Hs0 & Hrun). apply lift_Ok in Hs0 as [_ ->].
  apply bind_Ok in Hrun as ([vln vsn] & w5 & Hmv & Hrun). apply lift_Ok in Hmv as [_ ->].
  by eapply check_lanes_loop_log.
Qed.

Lemma keeps_check_lanes keys match_ cols p6 p7 v6 v7 deleted :
  keeps keys (check_lanes match_ cols p6 p7 v6 v7 deleted).
Proof. apply keeps_log_only. intros w r w'. apply check_lanes_log. Qed.

(** The attributes of a lanelet that the conflation writes. *)
Lemma keeps_conflate_match fuel match_ cols deleted :
  keeps written_keys (conflate_match fuel match_ cols deleted).
Proof.
  unfold conflate_match.
  keeps_auto;
    first [apply keeps_set_type_location | apply keeps_transfer_att
          | apply keeps_check_lanes]; unfold written_keys; repeat constructor.
Qed.

Lemma keeps_conflate_matches fuel matches : ∀ cols deleted,
  keeps written_keys (conflate_matches fuel matches cols deleted).
Proof.
  induction matches as [|m matches IH]; intros cols deleted; simpl; keeps_auto.
  apply keeps_conflate_match.
Qed.

Lemma keeps_print_all keys msgs : keeps keys (print_all msgs).
Proof. induction msgs as [|s msgs IH]; simpl; keeps_auto. Qed.

Lemma keeps_conflate_lanelet_OSM fuel matches cols deleted :
  keeps written_keys (conflate_lanelet_OSM fuel matches cols deleted).
Proof.
  unfold conflate_lanelet_OSM. keeps_auto;
    [apply keeps_conflate_matches|apply keeps_print_all].
Qed.

(** X6: [split_on_tag_change] takes nothing from the map: every lanelet
    keeps its bounds and all its attributes, lanelets are only added;
    every linestring keeps its attributes and, when it has one, its id
    (its points change); the layers of the linestrings and of the points
    keep their entries, to which [map_ptr->add(new_ll)] adds the bounds
    of the new lanelets and their points; areas, regulatory elements and
    polygons stay as they are. *)
Theorem split_on_tag_change_keeps (fuel : nat) (match_ : s_match)
    (keys : list string) (w : World)
    (r : s_match * list (list Point3d) * list (list string)) (w' : World) :
  heap_wf w →
  split_on_tag_change fuel match_ keys w = Ok (r, w') →
  heap_wf w' ∧ world_kept [] w w'.
Proof. intros Hwf Hrun. by eapply keeps_split_on_tag_change. Qed.


Lemma check_lanes_loop_deleted n : ∀ ind ind_change vln vsn cols deleted match_ w r w',
  check_lanes_loop n ind ind_change vln vsn cols deleted match_ w = Ok (r, w') →
  deleted `prefix_of` r.1.2.
Proof.
  induction n as [|n IH]; simpl; intros ind ind_change vln vsn cols deleted match_ w r w' Hrun.
  - by injection Hrun as <- <-.
  - apply bind_Ok in Hrun as ([[cols1 del1] m1] & w1 & Hseg & Hrun).
    apply check_lanes_seg_inv in Hseg
      as (seg & l0 & s0 & vl & vs & cc & lo & added & removed & Hrest).
    destruct_and!. subst. apply IH in Hrun. etrans; [|exact Hrun]. by apply prefix_app_r.
Qed.

Lemma check_lanes_deleted match_ cols p6 p7 v6 v7 deleted w r w' :
  check_lanes match_ cols p6 p7 v6 v7 deleted w = Ok (r, w') →
  deleted `prefix_of` r.1.2.
Proof.
  unfold check_lanes. intros Hrun.
  apply bind_Ok in Hrun as (ic & w1 & _ & Hrun).
  apply bind_Ok in Hrun as (sd & w2 & _ & Hrun).
  apply bind_Ok in Hrun as (l0 & w3 & _ & Hrun).
  apply bind_Ok in Hrun as (s0 & w4 & _ & Hrun).
  apply bind_Ok in Hrun as ([vln vsn] & w5 & _ & Hrun).
  by eapply check_lanes_loop_deleted.
Qed.

(** X26: [check_lanes] changes neither the map nor the linestrings: it
    prints, adds colour entries for ids that had none, and appends the
    lanelets it takes for wrong to [deleted]; they stay in the map. *)
Theorem check_lanes_read_only (match_ : s_match) (cols : list (Id * string))
    (p6 p7 : list Point3d) (v6 v7 : list string) (deleted : list Lanelet)
    (w : World) (cols' : list (Id * string)) (deleted' : list Lanelet)
    (match' : s_match) (w' : World) :
  check_lanes match_ cols p6 p7 v6 v7 deleted w = Ok (cols', deleted', match', w') →
  log_only w w' ∧ cols_grow cols cols' ∧ deleted `prefix_of` deleted'.
Proof.
  intros Hrun. split_and!.
  - by eapply check_lanes_log.
  - by apply check_lanes_cols in Hrun.
  - by apply check_lanes_deleted in Hrun.
Qed.

Lemma conflate_matches_deleted fuel matches : ∀ cols deleted w r w',
  conflate_matches fuel matches cols deleted w = Ok (r, w') →
  deleted `prefix_of` r.2 ∧ length r.1.1 = length matches.
Proof.
  induction matches as [|m matches IH]; simpl; intros cols deleted w r w' Hrun.
  - by injection Hrun as <- <-.
  - apply bind_Ok in Hrun as ([[m1 cols1] del1] & w1 & Hm & Hrun).
    apply bind_Ok in Hrun as ([[ms cols2] del2] & w2 & Hms & Hrun).
    injection Hrun as <- <-. simpl. apply IH in Hms as [Hpre Hlen]. simpl in *.
    split; [|by rewrite Hlen]. etrans; [|exact Hpre].
    apply conflate_match_inv in Hm
      as [(_ & [= <- <- <-] & _)|(_ & ? & ? & ? & ? & ? & ? & ? & ? & ? & ? & ? & ?
                                  & _ & _ & _ & _ & _ & Hcl & [= <- <- <-])].
    + done.
    + by apply check_lanes_deleted in Hcl.
Qed.

Lemma print_all_log msgs : ∀ w w',
  print_all msgs w = Ok (tt, w') →
  w_map w' = w_map w ∧ w_heap w' = w_heap w ∧ w_log w' = w_log w ++ msgs.
Proof.
  induction msgs as [|s msgs IH]; simpl; intros w w' Hrun.
  - injection Hrun as <-. by rewrite app_nil_r.
  - apply bind_Ok in Hrun as ([] & w1 & [= <-] & Hrun).
    apply IH in Hrun as (-> & -> & ->). simpl. by rewrite <- app_assoc.
Qed.

(** X5: [conflate_lanelet_OSM] only appends to [deleted], returns one
    match for each match it was given, and ends with the seven report
    lines, also when there is no match at all. *)
Theorem conflate_lanelet_OSM_report (fuel : nat) (matches : list s_match)
    (cols : list (Id * string)) (deleted : list Lanelet) (w : World)
    (b : bool) (matches' : list s_match) (cols' : list (Id * string))
    (deleted' : list Lanelet) (w' : World) :
  conflate_lanelet_OSM fuel matches cols deleted w =
    Ok (b, matches', cols', deleted', w') →
  deleted `prefix_of` deleted' ∧
  length matches' = length matches ∧
  final_messages `suffix_of` w_log w'.
Proof.
  unfold conflate_lanelet_OSM. intros Hrun.
  apply bind_Ok in Hrun as ([[ms c'] d'] & w1 & Hms & Hrun).
  apply bind_Ok in Hrun as ([] & w2 & Hp & Hrun).
  injection Hrun as <- <- <- <- <-.
  apply print_all_log in Hp as (_ & _ & Hlog).
  pose proof (conflate_matches_deleted _ _ _ _ _ _ _ Hms) as [Hpre Hlen].
  split_and!; try done. rewrite Hlog. by apply suffix_app_r.
Qed.

(** *** The map finalizer *)

Lemma grown_refl w : grown w w.
Proof.
  unfold grown. split_and!; try done; try lia. apply linestrings_kept_refl.
Qed.

Lemma grown_trans w1 w2 w3 : grown w1 w2 → grown w2 w3 → grown w1 w3.
Proof.
  intros (? & ? & ? & ? & ? & ? & ? & Hn & ? & ? & ?)
         (? & ? & ? & ? & ? & ? & ? & Hn' & ? & ? & ?).
  unfold grown. split_and!; try congruence; try lia; try (by etrans).
  - by eapply linestrings_kept_trans.
  - intros l Hl. by apply Hn', Hn.
Qed.

Lemma prims_added_grown w w' : prims_added w w' → grown w w'.
Proof.
  intros (Hl & Ha & Hr & Hp & ? & ? & ? & ? & ? & ? & ?).
  unfold grown. rewrite Hl, Ha, Hr, Hp. split_and!; done.
Qed.

Lemma adds_refl src w : adds src w w.
Proof.
  split_and!; [apply grown_refl| |split_and!; intros; by left].
  intros r re i Hr Hn. congruence.
Qed.

Lemma adds_trans src w1 w2 w3 : adds src w1 w2 → adds src w2 w3 → adds src w1 w3.
Proof.
  intros (Hg & Hf & Hl & Ha & Hr) (Hg' & Hf' & Hl' & Ha' & Hr').
  split_and!; [by eapply grown_trans| |split_and!].
  - intros r re i Hr3 Hr1 Hi Hv Hs.
    destruct (regulatoryElementLayer (w_map w2) !! r) as [re2|] eqn:Hr2.
    + destruct Hg' as (Hll & _ & Hrr & _).
      pose proof (lookup_weaken _ _ _ _ Hr2 Hrr) as Hr3'.
      assert (re2 = re) as -> by congruence.
      destruct (Hf r re i Hr2 Hr1 Hi Hv Hs) as [d Hd]. exists d.
      by apply (lookup_weaken _ _ _ _ Hd).
    + by eapply Hf'.
  - intros id x Hx. destruct (Hl' id x Hx) as [Hx2|]; [|by right]. by apply Hl.
  - intros id x Hx. destruct (Ha' id x Hx) as [Hx2|]; [|by right]. by apply Ha.
  - intros id x Hx. destruct (Hr' id x Hx) as [Hx2|]; [|by right]. by apply Hr.
Qed.

Lemma prims_added_adds src w w' : prims_added w w' → adds src w w'.
Proof.
  intros Hp. split_and!; [by apply prims_added_grown| |].
  - destruct Hp as (_ & _ & Hr & _). intros r re i Hr' Hn. rewrite Hr in Hr'. congruence.
  - destruct Hp as (Hl & Ha & Hr & _). unfold from_src. rewrite Hl, Ha, Hr.
    split_and!; intros; by left.
Qed.

Lemma iterM_rel {A} (R : World → World → Prop) (f : A → M unit) (l : list A) :
  (∀ w, R w w) → (∀ w1 w2 w3, R w1 w2 → R w2 w3 → R w1 w3) →
  (∀ x w u w', x ∈ l → f x w = Ok (u, w') → R w w') →
  ∀ w u w', iterM f l w = Ok (u, w') → R w w'.
Proof.
  intros Hrefl Htrans. induction l as [|x l IH]; simpl; intros Hf w u w' Hrun.
  - injection Hrun as <- <-. apply Hrefl.
  - apply bind_Ok in Hrun as (u1 & w1 & Hx & Hrun).
    eapply Htrans; [eapply Hf; [by left|done]|].
    eapply IH; [|done]. intros y ? ? ? Hy. apply Hf. by right.
Qed.

Lemma iterM_post {A} (R : World → World → Prop) (Q : A → World → Prop)
    (f : A → M unit) (l : list A) :
  (∀ w, R w w) → (∀ w1 w2 w3, R w1 w2 → R w2 w3 → R w1 w3) →
  (∀ x w w', R w w' → Q x w → Q x w') →
  (∀ x w u w', x ∈ l → f x w = Ok (u, w') → R w w' ∧ Q x w') →
  ∀ w u w', iterM f l w = Ok (u, w') → R w w' ∧ ∀ x, x ∈ l → Q x w'.
Proof.
  intros Hrefl Htrans Hmono. induction l as [|x l IH]; simpl; intros Hf w u w' Hrun.
  - injection Hrun as <- <-. split; [apply Hrefl|]. intros x Hx. by apply elem_of_nil in Hx.
  - apply bind_Ok in Hrun as (u1 & w1 & Hx & Hrun).
    destruct (Hf x w u1 w1 (list_elem_of_here _ _) Hx) as [HR HQ].
    destruct (IH (λ y w u w' Hy, Hf y w u w' (list_elem_of_further _ _ _ Hy)) _ _ _ Hrun)
      as [HR' HQ'].
    split; [by eapply Htrans|]. intros y Hy.
    apply elem_of_cons in Hy as [->|Hy]; [by eapply Hmono|by apply HQ'].
Qed.

Lemma lookup_layer_add {A} (id : Id) (x : A) (layer : gmap Id A) i y :
  layer_add id x layer !! i = Some y →
  layer !! i = Some y ∨ (i = id ∧ y = x ∧ layer !! id = None).
Proof.
  unfold layer_add. destruct (layer !! id) eqn:Hid; [by left|].
  destruct (decide (i = id)) as [->|Hne].
  - rewrite lookup_insert_eq. intros [= <-]. by right.
  - rewrite lookup_insert_ne by done. by left.
Qed.

Lemma layer_add_is_Some {A} (id : Id) (x : A) (layer : gmap Id A) :
  is_Some (layer_add id x layer !! id).
Proof.
  unfold layer_add. destruct (layer !! id) eqn:Hid; [by rewrite Hid|].
  rewrite lookup_insert_eq. by eexists.
Qed.

Lemma laneletLayer_add_adds src id d w u w' :
  laneletLayer src !! id = Some d →
  laneletLayer_add id d w = Ok (u, w') →
  adds src w w' ∧ is_Some (laneletLayer (w_map w') !! id).
Proof.
  intros Hsrc [= <- <-]. simpl. split; [|apply layer_add_is_Some].
  split_and!.
  - unfold grown. simpl. split_and!; try done; try lia;
      [apply layer_add_subseteq|apply linestrings_kept_refl].
  - intros r re i Hr Hn. simpl in *. congruence.
  - unfold from_src. simpl. split_and!; try (intros; by left).
    intros i x Hx. apply lookup_layer_add in Hx as [Hx|(-> & -> & _)]; [by left|by right].
Qed.

Lemma areaLayer_add_adds src id a w u w' :
  areaLayer src !! id = Some a →
  areaLayer_add id a w = Ok (u, w') →
  adds src w w' ∧ is_Some (areaLayer (w_map w') !! id).
Proof.
  intros Hsrc [= <- <-]. simpl. split; [|apply layer_add_is_Some].
  split_and!.
  - unfold grown. simpl. split_and!; try done; try lia;
      [apply layer_add_subseteq|apply linestrings_kept_refl].
  - intros r re i Hr Hn. simpl in *. congruence.
  - unfold from_src. simpl. split_and!; try (intros; by left).
    intros i x Hx. apply lookup_layer_add in Hx as [Hx|(-> & -> & _)]; [by left|by right].
Qed.

Lemma polygonLayer_add_adds src id p w u w' :
  polygonLayer_add id p w = Ok (u, w') → adds src w w'.
Proof.
  intros [= <- <-]. split_and!.
  - unfold grown. simpl. split_and!; try done; try lia;
      [apply layer_add_subseteq|apply linestrings_kept_refl].
  - intros r re i Hr Hn. simpl in *. congruence.
  - unfold from_src. simpl. split_and!; intros; by left.
Qed.

Lemma add_polygon_adds src id poly w u w' :
  add_polygon id poly w = Ok (u, w') → adds src w w'.
Proof.
  unfold add_polygon. intros Hrun.
  apply bind_Ok in Hrun as (map & w0 & [= <- <-] & Hrun).
  apply bind_Ok in Hrun as (go & w1 & Hgo & Hrun).
  apply id_to_add_added in Hgo. apply (prims_added_adds src) in Hgo.
  destruct go as [id'|]; [|by injection Hrun as <- <-].
  apply bind_Ok in Hrun as (pts & w2 & Hpts & Hrun).
  apply add_points_added in Hpts as [Hpts _]. apply (prims_added_adds src) in Hpts.
  apply (polygonLayer_add_adds src) in Hrun.
  eapply adds_trans; [exact Hgo|]. by eapply adds_trans.
Qed.

Lemma add_linestring_adds src ls w u w' :
  add_linestring ls w = Ok (u, w') → adds src w w'.
Proof. intros Hrun. by apply add_linestring_added, (prims_added_adds src) in Hrun. Qed.

Lemma add_point_adds src p w p' w' :
  add_point p w = Ok (p', w') → adds src w w'.
Proof. intros Hrun. apply add_point_added in Hrun as [Hrun _]. by apply prims_added_adds. Qed.

Lemma adds_lanelet src w w' id :
  adds src w w' → is_Some (laneletLayer (w_map w) !! id) →
  is_Some (laneletLayer (w_map w') !! id).
Proof.
  intros ((Hl & _) & _) [d Hd]. exists d. by apply (lookup_weaken _ _ _ _ Hd).
Qed.

Lemma adds_area src w w' id :
  adds src w w' → is_Some (areaLayer (w_map w) !! id) →
  is_Some (areaLayer (w_map w') !! id).
Proof.
  intros ((_ & Hl & _) & _) [d Hd]. exists d. by apply (lookup_weaken _ _ _ _ Hd).
Qed.

Lemma adds_regelem src w w' id :
  adds src w w' → is_Some (regulatoryElementLayer (w_map w) !! id) →
  is_Some (regulatoryElementLayer (w_map w') !! id).
Proof.
  intros ((_ & _ & Hl & _) & _) [d Hd]. exists d. by apply (lookup_weaken _ _ _ _ Hd).
Qed.

Section Adds.
Variable src : LaneletMap.
Hypothesis Hvalid : ids_valid src.

Lemma iterM_regelems_adds fuel (l : list Id) :
  (∀ id regElem w u w',
     regulatoryElementLayer src !! id = Some regElem →
     add_regelem fuel src id regElem w = Ok (u, w') →
     adds src w w' ∧ is_Some (regulatoryElementLayer (w_map w') !! id)) →
  ∀ w u w',
    iterM (λ r, resolved (regulatoryElementLayer src) r (add_regelem fuel src)) l w
      = Ok (u, w') →
    adds src w w'.
Proof.
  intros IH. apply iterM_rel; [apply adds_refl|apply adds_trans|].
  intros r w u w' _ Hrun. unfold resolved in Hrun.
  destruct (regulatoryElementLayer src !! r) as [re|] eqn:Hr.
  - by eapply IH.
  - injection Hrun as <- <-. apply adds_refl.
Qed.

Lemma add_adds fuel :
  (∀ id d w id' w',
     laneletLayer src !! id = Some d →
     add_lanelet fuel src id d w = Ok (id', w') →
     adds src w w' ∧ is_Some (laneletLayer (w_map w') !! id)) ∧
  (∀ id regElem w u w',
     regulatoryElementLayer src !! id = Some regElem →
     add_regelem fuel src id regElem w = Ok (u, w') →
     adds src w w' ∧ is_Some (regulatoryElementLayer (w_map w') !! id)) ∧
  (∀ id area w u w',
     areaLayer src !! id = Some area →
     add_area fuel src id area w = Ok (u, w') →
     adds src w w' ∧ is_Some (areaLayer (w_map w') !! id)).
Proof.
  destruct Hvalid as (Hvl & Hva & Hvr & _).
  induction fuel as [|fuel (IHl & IHr & IHa)]; [by split_and!; intros|].
  split_and!.
  - intros id d w id' w' Hsrc Hrun. simpl in Hrun.
    assert (id ≠ InvalId) as Hid by (intros ->; congruence).
    apply bind_Ok in Hrun as (map & w0 & [= <- <-] & Hrun).
    apply bind_Ok in Hrun as (go & w1 & Hgo & Hrun).
    pose proof (id_to_add_added _ _ _ _ _ Hgo) as Ha1.
    apply (prims_added_adds src) in Ha1.
    apply id_to_add_spec in Hgo as (Hm1 & _ & _ & _ & _ & Hgo).
    destruct go as [id1|].
    + rewrite bool_decide_eq_false_2 in Hgo by done. destruct Hgo as [-> _].
      apply bind_Ok in Hrun as ([] & w2 & Hl & Hrun). apply (add_linestring_adds src) in Hl.
      apply bind_Ok in Hrun as ([] & w3 & Hr & Hrun). apply (add_linestring_adds src) in Hr.
      apply bind_Ok in Hrun as ([] & w4 & Hc & Hrun).
      assert (adds src w3 w4) as Hc'.
      { destruct (lld_centerline d); [by eapply add_linestring_adds|].
        injection Hc as <-. apply adds_refl. }
      apply bind_Ok in Hrun as ([] & w5 & Hadd & Hrun).
      apply (laneletLayer_add_adds src _ _ _ _ _ Hsrc) in Hadd as [Hadd Hin].
      apply bind_Ok in Hrun as ([] & w6 & Hit & [= <- <-]).
      apply (iterM_regelems_adds _ _ IHr) in Hit.
      split; [|by eapply adds_lanelet].
      repeat (eapply adds_trans; [eassumption|]). apply adds_refl.
    + injection Hrun as <- <-. split; [done|]. rewrite Hm1. by destruct Hgo.
  - intros id re w u w' Hsrc Hrun. simpl in Hrun.
    assert (id ≠ InvalId) as Hid by (intros ->; congruence).
    apply bind_Ok in Hrun as (map & w0 & [= <- <-] & Hrun).
    apply bind_Ok in Hrun as (go & w1 & Hgo & Hrun).
    pose proof (id_to_add_added _ _ _ _ _ Hgo) as Ha1.
    apply (prims_added_adds src) in Ha1.
    apply id_to_add_spec in Hgo as (Hm1 & _ & _ & _ & _ & Hgo).
    destruct go as [id1|].
    + rewrite bool_decide_eq_false_2 in Hgo by done. destruct Hgo as [-> Hnew].
      apply bind_Ok in Hrun as ([] & w2 & Hadd & Hrun).
      injection Hadd as <-.
      set (w2 := mkWorld _ _ _ _ _) in Hrun.
      set (Q := λ (p : RuleParameter) (w : World),
             ∀ i, p = ParamLanelet i → i ≠ InvalId → is_Some (laneletLayer src !! i) →
                  is_Some (laneletLayer (w_map w) !! i)).
      apply (iterM_post (adds src) Q) in Hrun as [Hit HQ];
        [|apply adds_refl|apply adds_trans| |].
      * assert (is_Some (regulatoryElementLayer (w_map w') !! id)) as Hin.
        { eapply adds_regelem; [exact Hit|]. simpl. apply layer_add_is_Some. }
        split; [|done].
        eapply adds_trans; [exact Ha1|]. destruct Hit as (Hg & Hf & Hfrom).
        split_and!.
        -- eapply grown_trans; [|exact Hg].
           unfold grown, w2. simpl. split_and!; try done; try lia;
             [apply layer_add_subseteq|apply linestrings_kept_refl].
        -- intros r re' i Hr' Hr1 Hi Hiv His.
           destruct (regulatoryElementLayer (w_map w2) !! r) as [re2|] eqn:Hr2;
             [|by eapply Hf].
           unfold w2 in Hr2. simpl in Hr2.
           apply lookup_layer_add in Hr2 as Hr2'.
           destruct Hr2' as [Hr2'|(-> & -> & _)]; [congruence|].
           destruct Hg as (_ & _ & Hrr & _).
           pose proof (lookup_weaken _ _ _ _ Hr2 Hrr) as Hr3.
           assert (re' = re) as -> by congruence.
           by apply (HQ (ParamLanelet i) Hi i).
        -- destruct Hfrom as (Hfl & Hfa & Hfr). unfold from_src, w2 in *. simpl in *.
           split_and!; [done|done|].
           intros i x Hx. destruct (Hfr i x Hx) as [Hx'|]; [|by right].
           apply lookup_layer_add in Hx' as [Hx'|(-> & -> & _)]; [by left|by right].
      * intros p wa wb Hab HQa i -> Hi His. eapply adds_lanelet; [exact Hab|by apply HQa].
      * intros p wa ua wb _ Hp. destruct p as [p|l|i|i|i].
        -- apply bind_Ok in Hp as (p' & wc & Hp & [= <- <-]).
           split; [by eapply add_point_adds|]. by intros i.
        -- split; [by eapply add_linestring_adds|]. by intros i.
        -- split; [|by intros i']. unfold resolved in Hp.
           destruct (polygonLayer src !! i); [by eapply add_polygon_adds|].
           injection Hp as <- <-. apply adds_refl.
        -- unfold resolved in Hp. destruct (laneletLayer src !! i) as [d|] eqn:Hd.
           ++ apply bind_Ok in Hp as (i' & wc & Hp & [= <- <-]).
              destruct (IHl _ _ _ _ _ Hd Hp) as [Hadds Hin].
              split; [done|]. by intros ? [= <-].
           ++ injection Hp as <- <-. split; [apply adds_refl|].
              intros ? [= <-] _ [? ?]. congruence.
        -- split; [|by intros i']. unfold resolved in Hp.
           destruct (areaLayer src !! i) as [a|] eqn:Ha; [by eapply IHa|].
           injection Hp as <- <-. apply adds_refl.
    + injection Hrun as <- <-. split; [done|]. rewrite Hm1. by destruct Hgo.
  - intros id a w u w' Hsrc Hrun. simpl in Hrun.
    assert (id ≠ InvalId) as Hid by (intros ->; congruence).
    apply bind_Ok in Hrun as (map & w0 & [= <- <-] & Hrun).
    apply bind_Ok in Hrun as (go & w1 & Hgo & Hrun).
    pose proof (id_to_add_added _ _ _ _ _ Hgo) as Ha1.
    apply (prims_added_adds src) in Ha1.
    apply id_to_add_spec in Hgo as (Hm1 & _ & _ & _ & _ & Hgo).
    destruct go as [id1|].
    + rewrite bool_decide_eq_false_2 in Hgo by done. destruct Hgo as [-> _].
      apply bind_Ok in Hrun as ([] & w2 & Ho & Hrun).
      apply (iterM_rel (adds src)) in Ho;
        [|apply adds_refl|apply adds_trans|intros; by eapply add_linestring_adds].
      apply bind_Ok in Hrun as ([] & w3 & Hi & Hrun).
      apply (iterM_rel (adds src)) in Hi; [|apply adds_refl|apply adds_trans|].
      2:{ intros l wa ua wb _ Hl.
          apply (iterM_rel (adds src)) in Hl;
            [done|apply adds_refl|apply adds_trans|intros; by eapply add_linestring_adds]. }
      apply bind_Ok in Hrun as ([] & w4 & Hadd & Hrun).
      apply (areaLayer_add_adds src _ _ _ _ _ Hsrc) in Hadd as [Hadd Hin].
      apply (iterM_regelems_adds _ _ IHr) in Hrun.
      split; [|by eapply adds_area].
      repeat (eapply adds_trans; [eassumption|]). apply adds_refl.
    + injection Hrun as <- <-. split; [done|]. rewrite Hm1. by destruct Hgo.
Qed.

End Adds.

Lemma add_polygon_in id poly w u w' :
  id ≠ InvalId → add_polygon id poly w = Ok (u, w') →
  is_Some (polygonLayer (w_map w') !! id).
Proof.
  unfold add_polygon. intros Hid Hrun.
  apply bind_Ok in Hrun as (map & w0 & [= <- <-] & Hrun).
  apply bind_Ok in Hrun as (go & w1 & Hgo & Hrun).
  apply id_to_add_spec in Hgo as (Hm1 & _ & _ & _ & _ & Hgo).
  destruct go as [id'|].
  - rewrite bool_decide_eq_false_2 in Hgo by done. destruct Hgo as [-> _].
    apply bind_Ok in Hrun as (pts & w2 & Hpts & Hrun).
    injection Hrun as <- <-. simpl. apply layer_add_is_Some.
  - injection Hrun as <- <-. rewrite Hm1. by destruct Hgo.
Qed.

Lemma adds_polygon src w w' id :
  adds src w w' → is_Some (polygonLayer (w_map w) !! id) →
  is_Some (polygonLayer (w_map w') !! id).
Proof.
  intros ((_ & _ & _ & Hl & _) & _) [d Hd]. exists d. by apply (lookup_weaken _ _ _ _ Hd).
Qed.

(** What [create_updated_map] files in the new map. *)
Lemma create_updated_map_adds fuel map_ptr deleted w b w' :
  ids_valid map_ptr →
  create_updated_map fuel map_ptr deleted w = Ok (b, w') →
  b = true ∧ adds map_ptr w w' ∧
  (∀ id, is_Some (laneletLayer map_ptr !! id) → LlIn id ∉ deleted →
     is_Some (laneletLayer (w_map w') !! id)) ∧
  (∀ id, is_Some (areaLayer map_ptr !! id) → is_Some (areaLayer (w_map w') !! id)) ∧
  (∀ id, is_Some (regulatoryElementLayer map_ptr !! id) →
     is_Some (regulatoryElementLayer (w_map w') !! id)) ∧
  (∀ id, is_Some (polygonLayer map_ptr !! id) →
     is_Some (polygonLayer (w_map w') !! id)).
Proof.
  intros Hvalid Hrun. unfold create_updated_map in Hrun.
  destruct (add_adds map_ptr Hvalid fuel) as (Hal & Har & Haa).
  destruct Hvalid as (Hvl & Hva & Hvr & Hvp).
  apply bind_Ok in Hrun as ([] & w1 & Hl & Hrun).
  apply (iterM_post (adds map_ptr)
           (λ ll w, LlIn ll.1 ∉ deleted → is_Some (laneletLayer (w_map w) !! ll.1)))
    in Hl as [Hl Hl']; [|apply adds_refl|apply adds_trans| |].
  2:{ intros x wa wb Hab Hx Hd. eapply adds_lanelet; [exact Hab|by apply Hx]. }
  2:{ intros [i d] wa u wb Hin Hx. apply elem_of_map_to_list in Hin. simpl in *.
      case_bool_decide as Hd.
      - apply bind_Ok in Hx as (i' & wc & Hx & [= <- <-]).
        destruct (Hal _ _ _ _ _ Hin Hx) as [? ?]. by split.
      - injection Hx as <- <-. split; [apply adds_refl|done]. }
  apply bind_Ok in Hrun as ([] & w2 & Ha & Hrun).
  apply (iterM_post (adds map_ptr) (λ a w, is_Some (areaLayer (w_map w) !! a.1)))
    in Ha as [Ha Ha']; [|apply adds_refl|apply adds_trans| |].
  2:{ intros x wa wb Hab Hx. by eapply adds_area. }
  2:{ intros [i a] wa u wb Hin Hx. apply elem_of_map_to_list in Hin. simpl in *.
      by eapply Haa. }
  apply bind_Ok in Hrun as ([] & w3 & Hr & Hrun).
  apply (iterM_post (adds map_ptr)
           (λ r w, is_Some (regulatoryElementLayer (w_map w) !! r.1)))
    in Hr as [Hr Hr']; [|apply adds_refl|apply adds_trans| |].
  2:{ intros x wa wb Hab Hx. by eapply adds_regelem. }
  2:{ intros [i r] wa u wb Hin Hx. apply elem_of_map_to_list in Hin. simpl in *.
      by eapply Har. }
  apply bind_Ok in Hrun as ([] & w4 & Hp & [= <- <-]).
  apply (iterM_post (adds map_ptr) (λ p w, is_Some (polygonLayer (w_map w) !! p.1)))
    in Hp as [Hp Hp']; [|apply adds_refl|apply adds_trans| |].
  2:{ intros x wa wb Hab Hx. by eapply adds_polygon. }
  2:{ intros [i p] wa u wb Hin Hx. apply elem_of_map_to_list in Hin. simpl in *.
      split; [by eapply add_polygon_adds|].
      eapply add_polygon_in; [|done]. intros ->. congruence. }
  split; [done|]. split.
  { eapply adds_trans; [exact Hl|]. eapply adds_trans; [exact Ha|].
    by eapply adds_trans. }
  split_and!.
  - intros id [d Hd] Hdel.
    eapply adds_lanelet; [exact Hp|]. eapply adds_lanelet; [exact Hr|].
    eapply adds_lanelet; [exact Ha|].
    apply (Hl' (id, d)); [by apply elem_of_map_to_list|done].
  - intros id [a Hin]. eapply adds_area; [exact Hp|]. eapply adds_area; [exact Hr|].
    apply (Ha' (id, a)). by apply elem_of_map_to_list.
  - intros id [r Hin]. eapply adds_regelem; [exact Hp|].
    apply (Hr' (id, r)). by apply elem_of_map_to_list.
  - intros id [p Hin]. apply (Hp' (id, p)). by apply elem_of_map_to_list.
Qed.

(** C7: [create_updated_map] files a lanelet that a regulatory element of
    the original map refers to in the new map although it is in
    [deleted].  The lanelets that are not in [deleted], the areas and
    the regulatory elements of the original map are in the new map as
    they are, the polygons with their id, and every lanelet of the new
    map is a lanelet of the original map. *)
Theorem create_updated_map_readds (fuel : nat) (map_ptr : LaneletMap)
    (deleted : list Lanelet) (w : World) (b : bool) (w' : World) :
  ids_valid map_ptr → w_map w = empty_map →
  create_updated_map fuel map_ptr deleted w = Ok (b, w') →
  (∀ r regElem id,
     regulatoryElementLayer map_ptr !! r = Some regElem →
     ParamLanelet id ∈ regelem_params regElem → id ≠ InvalId →
     laneletLayer (w_map w') !! id = laneletLayer map_ptr !! id) ∧
  (∀ id, LlIn id ∉ deleted →
     laneletLayer (w_map w') !! id = laneletLayer map_ptr !! id) ∧
  (∀ id d, laneletLayer (w_map w') !! id = Some d →
     laneletLayer map_ptr !! id = Some d) ∧
  areaLayer (w_map w') = areaLayer map_ptr ∧
  regulatoryElementLayer (w_map w') = regulatoryElementLayer map_ptr ∧
  (∀ id, is_Some (polygonLayer map_ptr !! id) →
     is_Some (polygonLayer (w_map w') !! id)).
Proof.
  intros Hvalid Hempty Hrun.
  apply create_updated_map_adds in Hrun
    as (_ & (Hg & Hf & Hfl & Hfa & Hfr) & Hl & Ha & Hr & Hp); [|done].
  unfold refs_filed in Hf. rewrite Hempty in Hfl, Hfa, Hfr, Hf. simpl in *.
  assert (∀ id d, laneletLayer (w_map w') !! id = Some d →
            laneletLayer map_ptr !! id = Some d) as Hfl'.
  { intros id d Hd. by destruct (Hfl id d Hd) as [?|?]. }
  assert (∀ id, is_Some (laneletLayer (w_map w') !! id) →
            laneletLayer (w_map w') !! id = laneletLayer map_ptr !! id) as Heq.
  { intros id [d Hd]. rewrite Hd. symmetry. by apply Hfl'. }
  assert (∀ id, laneletLayer map_ptr !! id = None →
            laneletLayer (w_map w') !! id = None) as Hnone.
  { intros id Hn. destruct (laneletLayer (w_map w') !! id) as [d|] eqn:Hd; [|done].
    apply Hfl' in Hd. congruence. }
  assert (regulatoryElementLayer (w_map w') = regulatoryElementLayer map_ptr) as Hregs.
  { apply map_eq. intros id.
    destruct (regulatoryElementLayer map_ptr !! id) as [x|] eqn:Hx.
    - destruct (Hr id (mk_is_Some _ _ Hx)) as [y Hy]. rewrite Hy.
      destruct (Hfr id y Hy) as [?|?]; [done|congruence].
    - destruct (regulatoryElementLayer (w_map w') !! id) as [y|] eqn:Hy; [|done].
      destruct (Hfr id y Hy) as [?|?]; [done|congruence]. }
  split_and!; try done.
  - intros r regElem id Hreg Hin Hid.
    destruct (laneletLayer map_ptr !! id) as [d|] eqn:Hd; [|by apply Hnone].
    rewrite <- Hd. apply Heq. eapply (Hf r regElem id); try done.
    by rewrite Hregs.
  - intros id Hdel. destruct (laneletLayer map_ptr !! id) as [d|] eqn:Hd; [|by apply Hnone].
    rewrite <- Hd. apply Heq. apply Hl; [by rewrite Hd|done].
  - apply map_eq. intros id.
    destruct (areaLayer map_ptr !! id) as [x|] eqn:Hx.
    + destruct (Ha id (mk_is_Some _ _ Hx)) as [y Hy]. rewrite Hy.
      destruct (Hfa id y Hy) as [?|?]; [done|congruence].
    + destruct (areaLayer (w_map w') !! id) as [y|] eqn:Hy; [|done].
      destruct (Hfa id y Hy) as [?|?]; [done|congruence].
Qed.

(** X2: [create_updated_map] overwrites nothing that the new map holds
    when it is called: every layer of the new map keeps its entries, and
    the linestrings keep their attributes and, when they have one, their
    id.  The lanelets, areas and regulatory elements that it files are
    those of the original map, and every lanelet of the original map that
    is not in [deleted] is in the new map. *)
Theorem create_updated_map_only_adds (fuel : nat) (map_ptr : LaneletMap)
    (deleted : list Lanelet) (w : World) (b : bool) (w' : World) :
  ids_valid map_ptr →
  create_updated_map fuel map_ptr deleted w = Ok (b, w') →
  grown w w' ∧ from_src map_ptr w w' ∧
  (∀ id, is_Some (laneletLayer map_ptr !! id) → LlIn id ∉ deleted →
     is_Some (laneletLayer (w_map w') !! id)).
Proof.
  intros Hvalid Hrun.
  destruct (create_updated_map_adds _ _ _ _ _ _ Hvalid Hrun)
    as (_ & (Hg & _ & Hf) & Hl & _).
  by split_and!.
Qed.

(** *** The map finalizer returns *)

Lemma add_point_Ok p w : ∃ p' w', add_point p w = Ok (p', w').
Proof.
  unfold add_point, bind, get_map, id_to_add.
  case_bool_decide; simpl; [by eexists _, _|].
  destruct (pointLayer (w_map w) !! pt_id p); by eexists _, _.
Qed.

Lemma add_points_Ok pts : ∀ w, ∃ pts' w', add_points pts w = Ok (pts', w').
Proof.
  induction pts as [|p pts IH]; intros w; simpl; [by eexists _, _|].
  destruct (add_point_Ok p w) as (p' & w1 & Hp). rewrite (bind_eq _ _ _ _ _ Hp).
  destruct (IH w1) as (ps & w2 & Hps). rewrite (bind_eq _ _ _ _ _ Hps).
  by eexists _, _.
Qed.

Lemma id_to_add_Ok {A} (layer : gmap Id A) id w :
  ∃ go w', id_to_add layer id w = Ok (go, w').
Proof.
  unfold id_to_add. case_bool_decide; [by eexists _, _|].
  destruct (layer !! id); by eexists _, _.
Qed.

Lemma add_linestring_Ok ls w :
  is_Some (w_heap w !! ls_loc ls) → ∃ w', add_linestring ls w = Ok (tt, w').
Proof.
  intros [d Hd]. unfold add_linestring.
  assert (deref ls w = Ok (d, w)) as Hderef by (unfold deref, lift; by rewrite Hd).
  rewrite (bind_eq _ _ _ _ _ Hderef). unfold bind at 1, get_map at 1.
  destruct (id_to_add_Ok (lineStringLayer (w_map w)) (lsd_id d) w) as (go & w1 & Hgo).
  rewrite (bind_eq _ _ _ _ _ Hgo). destruct go as [id|]; [|by eexists].
  destruct (add_points_Ok (view d (ls_inverted ls)) w1) as (pts & w2 & Hpts).
  rewrite (bind_eq _ _ _ _ _ Hpts). by eexists.
Qed.

Lemma add_polygon_Ok id poly w : ∃ w', add_polygon id poly w = Ok (tt, w').
Proof.
  unfold add_polygon. unfold bind at 1, get_map at 1.
  destruct (id_to_add_Ok (polygonLayer (w_map w)) id w) as (go & w1 & Hgo).
  rewrite (bind_eq _ _ _ _ _ Hgo). destruct go as [id'|]; [|by eexists].
  destruct (add_points_Ok (poly_pts poly) w1) as (pts & w2 & Hpts).
  rewrite (bind_eq _ _ _ _ _ Hpts). by eexists.
Qed.

Lemma iterM_Ok {A} (I : World → Prop) (f : A → M unit) (l : list A) : ∀ w,
  I w →
  (∀ x w, x ∈ l → I w → ∃ w', f x w = Ok (tt, w') ∧ I w') →
  ∃ w', iterM f l w = Ok (tt, w') ∧ I w'.
Proof.
  induction l as [|x l IH]; intros w HI Hf; simpl; [by exists w|].
  destruct (Hf x w (list_elem_of_here _ _) HI) as (w1 & Hx & HI1).
  rewrite (bind_eq _ _ _ _ _ Hx). apply IH; [done|].
  intros y w2 Hy. apply Hf. by right.
Qed.

Lemma handles_in_grown src w w' :
  grown w w' → handles_in (w_heap w) src → handles_in (w_heap w') src.
Proof.
  intros (_ & _ & _ & _ & _ & _ & Hk & _) (Hl & Ha & Hr).
  assert (∀ l, is_Some (w_heap w !! l) → is_Some (w_heap w' !! l)) as Hin.
  { intros l [d Hd]. destruct (Hk l d Hd) as (d' & Hd' & _). by exists d'. }
  split_and!.
  - intros id d Hd. destruct (Hl id d Hd) as (? & ? & Hc).
    split_and!; [by apply Hin|by apply Hin|]. intros c Hcc. by apply Hin, Hc.
  - intros id a Hida. destruct (Ha id a Hida) as [Ho Hi]. split.
    + intros l Hlo. by apply Hin, Ho.
    + intros ls l Hls Hll. by eapply Hin, Hi.
  - intros id r l Hidr Hp. by eapply Hin, Hr.
Qed.

Lemma size_difference_mono (X Y Y' : gset Id) :
  Y ⊆ Y' → (size (X ∖ Y') ≤ size (X ∖ Y))%nat.
Proof.
  intros Hsub. apply subseteq_size.
  intros x [Hx Hn]%elem_of_difference. apply elem_of_difference.
  split; [done|]. intros Hy. apply Hn. by apply Hsub.
Qed.

Lemma missing_grown src w w' : grown w w' → (missing src w' ≤ missing src w)%nat.
Proof.
  intros (Hl & Ha & Hr & _). unfold missing.
  pose proof (size_difference_mono (dom (laneletLayer src)) _ _ (subseteq_dom _ _ Hl)).
  pose proof (size_difference_mono (dom (areaLayer src)) _ _ (subseteq_dom _ _ Ha)).
  pose proof (size_difference_mono (dom (regulatoryElementLayer src)) _ _
                (subseteq_dom _ _ Hr)).
  lia.
Qed.

Lemma size_difference_insert {A} (X : gset Id) (layer : gmap Id A) (id : Id) (x : A) :
  id ∈ X → layer !! id = None →
  (size (X ∖ dom (layer_add id x layer)) < size (X ∖ dom layer))%nat.
Proof.
  intros Hin Hnone. apply subset_size. unfold layer_add. rewrite Hnone.
  rewrite dom_insert_L. apply not_elem_of_dom in Hnone. split.
  - intros y [Hy Hn]%elem_of_difference. apply elem_of_difference.
    split; [done|]. intros Hd. apply Hn, elem_of_union. by right.
  - intros Hsub. specialize (Hsub id). rewrite !elem_of_difference in Hsub.
    destruct Hsub as [_ Hn]; [done|].
    apply Hn, elem_of_union. left. by apply elem_of_singleton.
Qed.

Lemma missing_le src w :
  (missing src w ≤ size (laneletLayer src) + size (areaLayer src) +
                   size (regulatoryElementLayer src))%nat.
Proof.
  assert (∀ X Y : gset Id, (size (X ∖ Y) ≤ size X)%nat) as Hle.
  { intros X Y. apply subseteq_size. by intros x [Hx _]%elem_of_difference. }
  unfold missing. rewrite <- !size_dom.
  pose proof (Hle (dom (laneletLayer src)) (dom (laneletLayer (w_map w)))).
  pose proof (Hle (dom (areaLayer src)) (dom (areaLayer (w_map w)))).
  pose proof (Hle (dom (regulatoryElementLayer src))
                (dom (regulatoryElementLayer (w_map w)))).
  lia.
Qed.

Section Returns.
Variable src : LaneletMap.
Hypothesis Hvalid : ids_valid src.

Lemma ready_adds fuel w w' : adds src w w' → ready src fuel w → ready src fuel w'.
Proof.
  intros (Hg & _) [Hh Hm]. split; [by eapply handles_in_grown|].
  pose proof (missing_grown src _ _ Hg). lia.
Qed.

Lemma add_Ok fuel : ∀ w, ready src fuel w →
  (∀ id d, laneletLayer src !! id = Some d →
     ∃ id' w', add_lanelet fuel src id d w = Ok (id', w')) ∧
  (∀ id regElem, regulatoryElementLayer src !! id = Some regElem →
     ∃ w', add_regelem fuel src id regElem w = Ok (tt, w')) ∧
  (∀ id area, areaLayer src !! id = Some area →
     ∃ w', add_area fuel src id area w = Ok (tt, w')).
Proof.
  destruct Hvalid as (Hvl & Hva & Hvr & _).
  induction fuel as [|fuel IH]; intros w [Hh Hm]; [lia|].
  assert (∀ l w0, ready src fuel w0 →
            ∃ w', iterM (λ r, resolved (regulatoryElementLayer src) r
                                (add_regelem fuel src)) l w0 = Ok (tt, w') ∧
                  ready src fuel w') as Hregs.
  { intros l w0 Hw0. apply (iterM_Ok (ready src fuel)); [done|].
    intros r w1 _ Hw1. unfold resolved.
    destruct (regulatoryElementLayer src !! r) as [re|] eqn:Hr; [|by exists w1].
    destruct (proj1 (proj2 (IH w1 Hw1)) r re Hr) as (w2 & Hrun).
    exists w2. split; [done|]. eapply ready_adds; [|done].
    by eapply (proj1 (proj2 (add_adds src Hvalid fuel))). }
  destruct Hh as (Hhl & Hha & Hhr).
  split_and!.
  - intros id d Hd. simpl.
    assert (id ≠ InvalId) as Hid by (intros ->; congruence).
    unfold bind at 1, get_map at 1.
    destruct (id_to_add_Ok (laneletLayer (w_map w)) id w) as (go & w1 & Hgo).
    rewrite (bind_eq _ _ _ _ _ Hgo).
    pose proof (id_to_add_added _ _ _ _ _ Hgo) as Ha1.
    apply id_to_add_spec in Hgo as (Hm1 & Hh1 & _ & _ & _ & Hgo).
    destruct go as [id1|]; [|by eexists _, _].
    rewrite bool_decide_eq_false_2 in Hgo by done. destruct Hgo as [-> Hnew].
    destruct (Hhl id d Hd) as (Hleft & Hright & Hcenter).
    destruct (add_linestring_Ok (lld_left d) w1) as (w2 & Hl); [by rewrite Hh1|].
    rewrite (bind_eq _ _ _ _ _ Hl). apply add_linestring_added in Hl.
    assert (∀ l, is_Some (w_heap w !! l) → is_Some (w_heap w2 !! l)) as Hin2.
    { intros l [x Hx]. rewrite <- Hh1 in Hx.
      destruct Hl as (_ & _ & _ & _ & _ & _ & Hk & _).
      destruct (Hk l x Hx) as (x' & Hx' & _). by exists x'. }
    destruct (add_linestring_Ok (lld_right d) w2) as (w3 & Hr); [by apply Hin2|].
    rewrite (bind_eq _ _ _ _ _ Hr). apply add_linestring_added in Hr.
    assert (∀ l, is_Some (w_heap w !! l) → is_Some (w_heap w3 !! l)) as Hin3.
    { intros l Hx. apply Hin2 in Hx as [x Hx].
      destruct Hr as (_ & _ & _ & _ & _ & _ & Hk & _).
      destruct (Hk l x Hx) as (x' & Hx' & _). by exists x'. }
    assert (∃ w4, (match lld_centerline d with
                   | Some center => add_linestring center
                   | None => ret tt
                   end) w3 = Ok (tt, w4) ∧ prims_added w3 w4) as (w4 & Hc & Hc').
    { destruct (lld_centerline d) as [c|] eqn:Hcd.
      - destruct (add_linestring_Ok c w3) as (w4 & Hc); [by apply Hin3, Hcenter|].
        exists w4. split; [done|]. by eapply add_linestring_added.
      - exists w3. split; [done|apply prims_added_refl]. }
    rewrite (bind_eq _ _ _ _ _ Hc).
    unfold bind at 1, laneletLayer_add at 1, set_lanelets at 1.
    set (w5 := mkWorld _ _ _ _ _).
    assert (prims_added w w4) as H04.
    { eapply prims_added_trans; [exact Ha1|]. eapply prims_added_trans; [exact Hl|].
      by eapply prims_added_trans. }
    assert (ready src fuel w5) as Hw5.
    { split.
      - eapply (handles_in_grown src w4 w5).
        + unfold grown, w5. simpl. split_and!; try done; try lia;
            [apply layer_add_subseteq|apply linestrings_kept_refl].
        + eapply handles_in_grown; [by apply prims_added_grown|]. by split_and!.
      - destruct H04 as (Hl4 & Ha4 & Hr4 & _).
        unfold missing in *. unfold w5. simpl. rewrite Ha4, Hr4.
        pose proof (size_difference_insert (dom (laneletLayer src))
                      (laneletLayer (w_map w4)) id d) as Hlt.
        rewrite Hl4 in Hlt. rewrite Hl4.
        specialize (Hlt ltac:(by eapply elem_of_dom_2) Hnew). lia. }
    destruct (Hregs (lld_regelems d) w5 Hw5) as (w6 & Hit & _).
    rewrite (bind_eq _ _ _ _ _ Hit). by eexists _, _.
  - intros id re Hre. simpl.
    assert (id ≠ InvalId) as Hid by (intros ->; congruence).
    unfold bind at 1, get_map at 1.
    destruct (id_to_add_Ok (regulatoryElementLayer (w_map w)) id w) as (go & w1 & Hgo).
    rewrite (bind_eq _ _ _ _ _ Hgo).
    pose proof (id_to_add_added _ _ _ _ _ Hgo) as Ha1.
    apply id_to_add_spec in Hgo as (Hm1 & Hh1 & _ & _ & _ & Hgo).
    destruct go as [id1|]; [|by eexists].
    rewrite bool_decide_eq_false_2 in Hgo by done. destruct Hgo as [-> Hnew].
    unfold bind at 1, regulatoryElementLayer_add at 1, set_regelems at 1, set_map at 1.
    set (w2 := mkWorld _ _ _ _ _).
    assert (ready src fuel w2) as Hw2.
    { split.
      - eapply (handles_in_grown src w1 w2).
        + unfold grown, w2. simpl. split_and!; try done; try lia;
            [apply layer_add_subseteq|apply linestrings_kept_refl].
        + eapply handles_in_grown; [by apply prims_added_grown|]. by split_and!.
      - destruct Ha1 as (Hl1 & Ha1' & Hr1 & _).
        unfold missing in *. unfold w2. simpl. rewrite Hl1, Ha1'.
        pose proof (size_difference_insert (dom (regulatoryElementLayer src))
                      (regulatoryElementLayer (w_map w1)) id re) as Hlt.
        rewrite Hr1 in Hlt. rewrite Hr1.
        specialize (Hlt ltac:(by eapply elem_of_dom_2) Hnew). lia. }
    destruct (iterM_Ok (ready src fuel)
      (λ p, match p with
            | ParamPoint p => bind (add_point p) (λ _, ret tt)
            | ParamLineString l => add_linestring l
            | ParamPolygon i => resolved (polygonLayer src) i add_polygon
            | ParamLanelet i =>
                resolved (laneletLayer src) i
                  (λ i ll, bind (add_lanelet fuel src i ll) (λ _, ret tt))
            | ParamArea i => resolved (areaLayer src) i (add_area fuel src)
            end) (regelem_params re) w2 Hw2) as (w3 & Hit & _); [|by exists w3].
    intros p wa Hp Hwa. destruct p as [p|l|i|i|i].
    + destruct (add_point_Ok p wa) as (p' & wb & Hpt). exists wb.
      rewrite (bind_eq _ _ _ _ _ Hpt). split; [done|].
      eapply ready_adds; [|done]. apply prims_added_adds.
      by apply add_point_added in Hpt as [? _].
    + destruct (add_linestring_Ok l wa) as (wb & Hl).
      { destruct Hwa as [(_ & _ & Hr') _]. by eapply Hr'. }
      exists wb. split; [done|]. eapply ready_adds; [|done].
      by apply add_linestring_added, (prims_added_adds src) in Hl.
    + unfold resolved. destruct (polygonLayer src !! i) as [poly|]; [|by exists wa].
      destruct (add_polygon_Ok i poly wa) as (wb & Hpo). exists wb. split; [done|].
      eapply ready_adds; [|done]. by eapply add_polygon_adds.
    + unfold resolved. destruct (laneletLayer src !! i) as [ll|] eqn:Hll; [|by exists wa].
      destruct (proj1 (IH wa Hwa) i ll Hll) as (i' & wb & Hrun).
      exists wb. rewrite (bind_eq _ _ _ _ _ Hrun). split; [done|].
      eapply ready_adds; [|done].
      by eapply (proj1 (add_adds src Hvalid fuel)).
    + unfold resolved. destruct (areaLayer src !! i) as [ar|] eqn:Har; [|by exists wa].
      destruct (proj2 (proj2 (IH wa Hwa)) i ar Har) as (wb & Hrun).
      exists wb. split; [done|]. eapply ready_adds; [|done].
      by eapply (proj2 (proj2 (add_adds src Hvalid fuel))).
  - intros id a Ha. simpl.
    assert (id ≠ InvalId) as Hid by (intros ->; congruence).
    unfold bind at 1, get_map at 1.
    destruct (id_to_add_Ok (areaLayer (w_map w)) id w) as (go & w1 & Hgo).
    rewrite (bind_eq _ _ _ _ _ Hgo).
    pose proof (id_to_add_added _ _ _ _ _ Hgo) as Ha1.
    apply id_to_add_spec in Hgo as (Hm1 & Hh1 & _ & _ & _ & Hgo).
    destruct go as [id1|]; [|by eexists].
    rewrite bool_decide_eq_false_2 in Hgo by done. destruct Hgo as [-> Hnew].
    destruct (Hha id a Ha) as [Houter Hinner].
    set (I := λ w0 : World, prims_added w w0).
    assert (∀ l w0, is_Some (w_heap w !! ls_loc l) → I w0 →
              ∃ w', add_linestring l w0 = Ok (tt, w') ∧ I w') as Hls.
    { intros l w0 [x Hx] Hw0.
      destruct (add_linestring_Ok l w0) as (w' & Hrun).
      { destruct Hw0 as (_ & _ & _ & _ & _ & _ & Hk & _).
        destruct (Hk _ x Hx) as (x' & Hx' & _). by exists x'. }
      exists w'. split; [done|]. unfold I. eapply prims_added_trans; [exact Hw0|].
      by eapply add_linestring_added. }
    destruct (iterM_Ok I add_linestring (area_outer a) w1 Ha1) as (w2 & Ho & Hw2).
    { intros l w0 Hl Hw0. apply Hls; [by apply Houter|done]. }
    rewrite (bind_eq _ _ _ _ _ Ho).
    destruct (iterM_Ok I (iterM add_linestring) (area_inner a) w2 Hw2) as (w3 & Hi & Hw3).
    { intros ls w0 Hlsin Hw0. apply (iterM_Ok I); [done|].
      intros l w0' Hl Hw0'. apply Hls; [by eapply Hinner|done]. }
    rewrite (bind_eq _ _ _ _ _ Hi).
    unfold bind at 1, areaLayer_add at 1, set_areas at 1, set_map at 1.
    set (w4 := mkWorld _ _ _ _ _).
    assert (ready src fuel w4) as Hw4.
    { split.
      - eapply (handles_in_grown src w3 w4).
        + unfold grown, w4. simpl. split_and!; try done; try lia;
            [apply layer_add_subseteq|apply linestrings_kept_refl].
        + eapply handles_in_grown; [by apply prims_added_grown|]. by split_and!.
      - destruct Hw3 as (Hl3 & Ha3 & Hr3 & _).
        unfold missing in *. unfold w4. simpl. rewrite Hl3, Hr3.
        pose proof (size_difference_insert (dom (areaLayer src))
                      (areaLayer (w_map w3)) id a) as Hlt.
        rewrite Ha3 in Hlt. rewrite Ha3.
        specialize (Hlt ltac:(by eapply elem_of_dom_2) Hnew). lia. }
    destruct (Hregs (area_regelems a) w4 Hw4) as (w5 & Hit & _).
    by exists w5.
Qed.

(** [create_updated_map] returns [true]. *)
Lemma create_updated_map_returns fuel deleted w :
  handles_in (w_heap w) src →
  (size (laneletLayer src) + size (areaLayer src) +
   size (regulatoryElementLayer src) < fuel)%nat →
  ∃ w', create_updated_map fuel src deleted w = Ok (true, w').
Proof.
  intros Hh Hfuel. unfold create_updated_map.
  assert (ready src fuel w) as Hw.
  { split; [done|]. pose proof (missing_le src w). lia. }
  destruct (iterM_Ok (ready src fuel)
    (λ ll, if bool_decide (LlIn ll.1 ∉ deleted)
           then bind (add_lanelet fuel src ll.1 ll.2) (λ _, ret tt) else ret tt)
    (map_to_list (laneletLayer src)) w Hw) as (w1 & Hl & Hw1).
  { intros [i d] wa Hin Hwa. apply elem_of_map_to_list in Hin. simpl.
    case_bool_decide; [|by exists wa].
    destruct (proj1 (add_Ok fuel wa Hwa) i d Hin) as (i' & wb & Hrun).
    exists wb. rewrite (bind_eq _ _ _ _ _ Hrun). split; [done|].
    eapply ready_adds; [|done]. by eapply (proj1 (add_adds src Hvalid fuel)). }
  rewrite (bind_eq _ _ _ _ _ Hl).
  destruct (iterM_Ok (ready src fuel) (λ area, add_area fuel src area.1 area.2)
    (map_to_list (areaLayer src)) w1 Hw1) as (w2 & Ha & Hw2).
  { intros [i a] wa Hin Hwa. apply elem_of_map_to_list in Hin. simpl.
    destruct (proj2 (proj2 (add_Ok fuel wa Hwa)) i a Hin) as (wb & Hrun).
    exists wb. split; [done|]. eapply ready_adds; [|done].
    by eapply (proj2 (proj2 (add_adds src Hvalid fuel))). }
  rewrite (bind_eq _ _ _ _ _ Ha).
  destruct (iterM_Ok (ready src fuel) (λ regEl, add_regelem fuel src regEl.1 regEl.2)
    (map_to_list (regulatoryElementLayer src)) w2 Hw2) as (w3 & Hr & Hw3).
  { intros [i r] wa Hin Hwa. apply elem_of_map_to_list in Hin. simpl.
    destruct (proj1 (proj2 (add_Ok fuel wa Hwa)) i r Hin) as (wb & Hrun).
    exists wb. split; [done|]. eapply ready_adds; [|done].
    by eapply (proj1 (proj2 (add_adds src Hvalid fuel))). }
  rewrite (bind_eq _ _ _ _ _ Hr).
  destruct (iterM_Ok (λ _, True) (λ poly, add_polygon poly.1 poly.2)
    (map_to_list (polygonLayer src)) w3 I) as (w4 & Hp & _).
  { intros [i p] wa _ _. destruct (add_polygon_Ok i p wa) as (wb & Hrun). by exists wb. }
  rewrite (bind_eq _ _ _ _ _ Hp). by exists w4.
Qed.

End Returns.

(** *** What the engine writes *)

Lemma find_ll_inv id w ll w' :
  find_ll id w = Ok (ll, w') →
  w_map w' = w_map w ∧ w_heap w' = w_heap w ∧
  match laneletLayer (w_map w) !! id with
  | Some _ => ll = LlIn id
  | None => ll = LlEmpty
  end.
Proof.
  unfold find_ll, bind, get_map.
  destruct (laneletLayer (w_map w) !! id); simpl; by intros [= <- <-].
Qed.

Lemma set_attribute_inv ll key val w w' :
  set_attribute ll key val w = Ok (tt, w') →
  w_heap w' = w_heap w ∧
  laneletLayer (w_map w') =
    match ll with
    | LlIn id => alter (set_attr key val) id (laneletLayer (w_map w))
    | LlEmpty => laneletLayer (w_map w)
    end.
Proof. destruct ll; simpl; by intros [= <-]. Qed.

Lemma set_value_ids_inv ids key val : ∀ setll w setll' w',
  set_value_ids ids key val setll w = Ok (setll', w') →
  setll `prefix_of` setll' ∧
  w_heap w' = w_heap w ∧
  (∀ id, is_Some (laneletLayer (w_map w') !! id) ↔
         is_Some (laneletLayer (w_map w) !! id)) ∧
  (∀ id, id ∈ setll ∨ (∀ a, a ∈ ids → asId a ≠ Some id) →
     laneletLayer (w_map w') !! id = laneletLayer (w_map w) !! id) ∧
  (∀ a id d, a ∈ ids → asId a = Some id → id ≠ InvalId →
     laneletLayer (w_map w) !! id = Some d →
     id ∈ setll' ∧
     (id ∉ setll → laneletLayer (w_map w') !! id = Some (set_attr key val d))) ∧
  (∀ x, x ∈ setll' ↔
     x ∈ setll ∨ ∃ a i, a ∈ ids ∧ asId a = Some i ∧ found_id (w_map w) i = x).
Proof.
  induction ids as [|a ids IH]; simpl; intros setll w setll' w' Hrun.
  - injection Hrun as <- <-. split_and!; try done.
    + intros a id d Ha. by apply elem_of_nil in Ha.
    + intros x. split; [by left|]. intros [?|(a & i & Ha & _)]; [done|].
      by apply elem_of_nil in Ha.
  - apply bind_Ok in Hrun as (i0 & w0 & Hi0 & Hrun).
    apply lift_Ok in Hi0 as [Hi0 ->].
    destruct (asId a) as [i0'|] eqn:Ha; [|done]. injection Hi0 as ->.
    apply bind_Ok in Hrun as (ll & w1 & Hll & Hrun).
    apply find_ll_inv in Hll as (Hm1 & Hh1 & Hll).
    apply bind_Ok in Hrun as (setll1 & w2 & Hset & Hrun).
    apply IH in Hrun as (Hpre & Hheap & Hdom & Hsame & Hwrite & Hmem). clear IH.
    assert (setll `prefix_of` setll1 ∧ w_heap w2 = w_heap w ∧
            laneletLayer (w_map w2) =
              (if negb (used_Id setll (ll_id ll)) then
                 match ll with
                 | LlIn id => alter (set_attr key val) id (laneletLayer (w_map w))
                 | LlEmpty => laneletLayer (w_map w)
                 end
               else laneletLayer (w_map w)) ∧
            setll1 = (if negb (used_Id setll (ll_id ll)) then setll ++ [ll_id ll]
                      else setll)) as (Hpre1 & Hheap1 & Hlayer1 & Hsetll1).
    { destruct (negb (used_Id setll (ll_id ll))).
      - apply bind_Ok in Hset as ([] & w3 & Hsa & [= <- <-]).
        apply set_attribute_inv in Hsa as [Hh Hl]. rewrite Hh, Hl, Hh1, Hm1.
        split_and!; try done. by apply prefix_app_r.
      - injection Hset as <- <-. by rewrite Hh1, Hm1. }
    clear Hset.
    assert (ll = match laneletLayer (w_map w) !! i0 with
                 | Some _ => LlIn i0 | None => LlEmpty end) as Hll'.
    { by destruct (laneletLayer (w_map w) !! i0). }
    clear Hll.
    assert (∀ id, ll ≠ LlIn id ∨ used_Id setll (ll_id ll) = true →
              laneletLayer (w_map w2) !! id = laneletLayer (w_map w) !! id) as Hother.
    { intros id Hid. rewrite Hlayer1.
      destruct (used_Id setll (ll_id ll)) eqn:Hu; simpl; [done|].
      destruct Hid as [Hid|?]; [|done].
      destruct ll as [i|]; [|done]. rewrite lookup_alter_ne; [done|]. congruence. }
    assert (∀ id, is_Some (laneletLayer (w_map w2) !! id) ↔
                  is_Some (laneletLayer (w_map w) !! id)) as Hdom1.
    { intros id. rewrite Hlayer1.
      destruct (negb (used_Id setll (ll_id ll))); [|done].
      destruct ll as [i|]; [|done].
      destruct (decide (id = i)) as [->|Hne].
      - rewrite lookup_alter_eq. rewrite <- !not_eq_None_Some.
        by destruct (laneletLayer (w_map w) !! i).
      - by rewrite lookup_alter_ne. }
    split_and!.
    + by etrans.
    + congruence.
    + intros id. by rewrite Hdom, Hdom1.
    + intros id Hid. rewrite Hsame.
      * apply Hother. destruct Hid as [Hin|Hnot].
        -- destruct (used_Id setll (ll_id ll)) eqn:Hu; [by right|left].
           intros ->. unfold used_Id in Hu. by apply bool_decide_eq_false in Hu.
        -- left. intros ->. apply (Hnot a ltac:(by left)). rewrite Ha.
           destruct (laneletLayer (w_map w) !! i0); congruence.
      * destruct Hid as [Hin|Hnot].
        -- left. by eapply elem_of_prefix.
        -- right. intros a' Ha'. apply Hnot. by right.
    + intros a' id d Ha' Hid Hne Hd.
      destruct (decide (id = i0)) as [->|Hni].
      * rewrite Hd in Hll'. subst ll. simpl in *.
        destruct (used_Id setll i0) eqn:Hu; simpl in *.
        -- apply bool_decide_eq_true in Hu. split; [|done].
           eapply elem_of_prefix; [|exact Hpre]. by subst setll1.
        -- assert (i0 ∈ setll1) as Hin1.
           { subst setll1. apply elem_of_app. right. by left. }
           split; [by eapply elem_of_prefix|]. intros _.
           rewrite Hsame by (by left). rewrite Hlayer1, lookup_alter_eq, Hd. done.
      * assert (a' ∈ ids) as Hin.
        { apply elem_of_cons in Ha' as [->|?]; [congruence|done]. }
        assert (ll ≠ LlIn id) as Hll.
        { rewrite Hll'. destruct (laneletLayer (w_map w) !! i0); congruence. }
        assert (laneletLayer (w_map w2) !! id = Some d) as Hd2.
        { rewrite Hother; [done|by left]. }
        destruct (Hwrite a' id d Hin Hid Hne Hd2) as [Hin' Hw].
        split; [done|]. intros Hnin. apply Hw.
        subst setll1. destruct (negb (used_Id setll (ll_id ll))); [|done].
        intros Hin1. apply elem_of_app in Hin1 as [?|Hin1]; [done|].
        apply list_elem_of_singleton in Hin1.
        rewrite Hll' in Hin1. destruct (laneletLayer (w_map w) !! i0); simpl in *; congruence.
    + assert (∀ i, found_id (w_map w2) i = found_id (w_map w) i) as Hfound.
      { intros i. unfold found_id. specialize (Hdom1 i).
        destruct (laneletLayer (w_map w2) !! i) as [?|] eqn:E2,
          (laneletLayer (w_map w) !! i) as [?|] eqn:E; try done.
        - destruct Hdom1 as [Hd _]. by destruct Hd.
        - destruct Hdom1 as [_ Hd]. by destruct Hd. }
      assert (ll_id ll = found_id (w_map w) i0) as Hllid.
      { rewrite Hll'. unfold found_id. by destruct (laneletLayer (w_map w) !! i0). }
      intros x. rewrite Hmem. setoid_rewrite Hfound. split.
      * intros [Hx|(a' & i & Ha' & Hi & Hx)].
        -- subst setll1. destruct (negb (used_Id setll (ll_id ll))); [|by left].
           apply elem_of_app in Hx as [?|Hx]; [by left|].
           apply list_elem_of_singleton in Hx as ->.
           right. exists a, i0. split_and!; [by left|done|done].
        -- right. exists a', i. split_and!; [by right|done|done].
      * intros [Hx|(a' & i & Ha' & Hi & Hx)].
        -- left. by eapply elem_of_prefix.
        -- apply elem_of_cons in Ha' as [->|Ha'].
           ++ left. rewrite Ha in Hi. injection Hi as <-. rewrite <- Hx, <- Hllid.
              subst setll1. destruct (used_Id setll (ll_id ll)) eqn:Hu; simpl.
              ** by apply bool_decide_eq_true in Hu.
              ** apply elem_of_app. right. by left.
           ++ right. by exists a', i.
Qed.

Lemma set_value_ids_returns ids key val : ∀ setll w,
  (∀ a, a ∈ ids → is_Some (asId a)) →
  ∃ setll' w', set_value_ids ids key val setll w = Ok (setll', w').
Proof.
  induction ids as [|a ids IH]; simpl; intros setll w Hids; [by eexists _, _|].
  destruct (Hids a ltac:(by left)) as [i Hi].
  unfold bind at 1. rewrite Hi. simpl.
  destruct (find_ll_returns i w) as (ll & w1 & Hll).
  unfold bind at 1. rewrite Hll.
  assert (∀ a, a ∈ ids → is_Some (asId a)) as Hrest by (intros a' ?; apply Hids; by right).
  destruct (negb (used_Id setll (ll_id ll))).
  - destruct ll as [id|]; unfold bind; simpl; by apply IH.
  - unfold bind. simpl. by apply IH.
Qed.

Lemma set_value_ids_app ids1 ids2 key val : ∀ setll w,
  set_value_ids (ids1 ++ ids2) key val setll w =
  (setll <~ set_value_ids ids1 key val setll ;; set_value_ids ids2 key val setll) w.
Proof.
  induction ids1 as [|a ids1 IH]; intros setll w; simpl; [reflexivity|].
  unfold bind in *.
  destruct (lift (of_option (asId a)) w) as [[i w0]|f]; [|done].
  destruct (find_ll i w0) as [[ll w1]|f]; [|done].
  destruct (negb (used_Id setll (ll_id ll))).
  - destruct (set_attribute ll key val w1) as [[[] w2]|f]; [|done]. apply IH.
  - apply IH.
Qed.

(** X21: [set_value_dir] writes the value on the lanelets of the chain
    that are not yet in [setll], and on no other lanelet: a lanelet whose
    id is in [setll] keeps the value it has (the first writer wins), a
    lanelet outside the chain is not touched, and the linestrings are not
    touched; [setll] only grows at the end. *)
Theorem set_value_dir_first_writer (key : string) (seg : Segment)
    (key_ref val : string) (setll : list Id) (w : World)
    (setll' : list Id) (w' : World) :
  set_value_dir key seg key_ref val setll w = Ok (setll', w') →
  setll `prefix_of` setll' ∧ w_heap w' = w_heap w ∧
  (∀ id, id ∈ setll →
     laneletLayer (w_map w') !! id = laneletLayer (w_map w) !! id) ∧
  (∀ id, (∀ a, a ∈ chain (seg_attrs seg) key → asId a ≠ Some id) →
     laneletLayer (w_map w') !! id = laneletLayer (w_map w) !! id) ∧
  (∀ a id d, a ∈ chain (seg_attrs seg) key → asId a = Some id →
     id ≠ InvalId → id ∉ setll → laneletLayer (w_map w) !! id = Some d →
     id ∈ setll' ∧
     laneletLayer (w_map w') !! id =
       Some (with_attrs d
               (<[key_ref := val]> (lld_attrs d)))).
Proof.
  intros Hrun. apply set_value_ids_inv in Hrun
    as (Hpre & Hheap & Hdom & Hsame & Hwrite & Hmem).
  split_and!; try done.
  - intros id Hid. apply Hsame. by left.
  - intros id Hid. apply Hsame. by right.
  - intros a id d Ha Hid Hne Hnin Hd.
    destruct (Hwrite a id d Ha Hid Hne Hd) as [Hin Hw]. split; [done|]. by apply Hw.
Qed.

Lemma found_id_dom (m m' : LaneletMap) :
  (∀ id, is_Some (laneletLayer m' !! id) ↔ is_Some (laneletLayer m !! id)) →
  ∀ i, found_id m' i = found_id m i.
Proof.
  intros Hdom i. unfold found_id. specialize (Hdom i).
  destruct (laneletLayer m' !! i) as [?|] eqn:E2, (laneletLayer m !! i) as [?|] eqn:E;
    try done.
  - destruct Hdom as [Hd _]. by destruct Hd.
  - destruct Hdom as [_ Hd]. by destruct Hd.
Qed.

Lemma set_value_ids_writes ids key val setll w setll' w' :
  set_value_ids ids key val setll w = Ok (setll', w') →
  writes (set_attr key val) ids setll w setll' w'.
Proof.
  intros Hrun. apply set_value_ids_inv in Hrun
    as (Hpre & Hheap & Hdom & Hsame & Hwrite & Hmem).
  unfold writes. split_and!; try done.
  intros x Hx. by eapply elem_of_prefix.
Qed.

Lemma writes_nil f s w : writes f [] s w s w.
Proof.
  unfold writes. split_and!; try done.
  - intros a id d Ha. by apply elem_of_nil in Ha.
  - intros x. split; [by left|]. intros [?|(a & i & Ha & _)]; [done|].
    by apply elem_of_nil in Ha.
Qed.

Lemma writes_seq f ids1 ids2 s w s1 w1 s2 w2 :
  writes f ids1 s w s1 w1 → writes f ids2 s1 w1 s2 w2 →
  writes f (ids1 ++ ids2) s w s2 w2.
Proof.
  intros (Hsub1 & Hheap1 & Hdom1 & Hsame1 & Hwrite1 & Hmem1)
         (Hsub2 & Hheap2 & Hdom2 & Hsame2 & Hwrite2 & Hmem2).
  pose proof (found_id_dom _ _ Hdom1) as Hfound.
  unfold writes. split_and!.
  - by etrans.
  - congruence.
  - intros id. by rewrite Hdom2, Hdom1.
  - intros id Hid. rewrite Hsame2, Hsame1; [done| |].
    + destruct Hid as [?|Hn]; [by left|right].
      intros a Ha. apply Hn. apply elem_of_app. by left.
    + destruct Hid as [?|Hn]; [left; by apply Hsub1|right].
      intros a Ha. apply Hn. apply elem_of_app. by right.
  - intros a id d Ha Hid Hne Hd.
    assert (∀ a', a' ∈ ids1 → asId a' = Some id →
              id ∈ s2 ∧ (id ∉ s → laneletLayer (w_map w2) !! id = Some (f d))) as Hfirst.
    { intros a' Ha' Hid'. destruct (Hwrite1 a' id d Ha' Hid' Hne Hd) as [Hin Hw].
      split; [by apply Hsub2|]. intros Hnin. rewrite Hsame2 by (by left). by apply Hw. }
    apply elem_of_app in Ha as [Ha|Ha]; [by eapply Hfirst|].
    destruct (decide (id ∈ s1)) as [Hin1|Hnin1].
    + apply Hmem1 in Hin1 as [Hin|(a' & i & Ha' & Hi & Hx)].
      * split; [by apply Hsub2, Hsub1|done].
      * assert (i = id) as ->.
        { unfold found_id in Hx. destruct (laneletLayer (w_map w) !! i); congruence. }
        by eapply Hfirst.
    + assert (laneletLayer (w_map w1) !! id = Some d) as Hd1.
      { rewrite Hsame1; [done|]. right. intros a' Ha' Hid'.
        by destruct (Hwrite1 a' id d Ha' Hid' Hne Hd) as [Hin _]. }
      destruct (Hwrite2 a id d Ha Hid Hne Hd1) as [Hin Hw].
      split; [done|]. intros _. by apply Hw.
  - intros x. rewrite Hmem2, Hmem1. setoid_rewrite Hfound. split.
    + intros [[?|(a & i & Ha & Hi & Hx)]|(a & i & Ha & Hi & Hx)]; [by left| |];
        right; exists a, i; split_and!; try done; apply elem_of_app; [by left|by right].
    + intros [?|(a & i & Ha & Hi & Hx)]; [by left; left|].
      apply elem_of_app in Ha as [Ha|Ha]; [left; right|right]; by exists a, i.
Qed.

(** Two passes over the same entries, with memos that hold the same ids. *)
Lemma writes_pair f1 f2 ids s1 s2 w s1' w1 s2' w2 :
  writes f1 ids s1 w s1' w1 → writes f2 ids s2 w1 s2' w2 →
  (∀ x, x ∈ s1 ↔ x ∈ s2) →
  writes (f2 ∘ f1) ids s1 w s1' w2 ∧ (∀ x, x ∈ s1' ↔ x ∈ s2').
Proof.
  intros (Hsub1 & Hheap1 & Hdom1 & Hsame1 & Hwrite1 & Hmem1)
         (Hsub2 & Hheap2 & Hdom2 & Hsame2 & Hwrite2 & Hmem2) Heq.
  pose proof (found_id_dom _ _ Hdom1) as Hfound.
  assert (∀ x, x ∈ s1' ↔ x ∈ s2') as Heq'.
  { intros x. rewrite Hmem1, Hmem2, Heq. by setoid_rewrite Hfound. }
  split; [|done]. unfold writes. split_and!; try done.
  - congruence.
  - intros id. by rewrite Hdom2, Hdom1.
  - intros id Hid. rewrite Hsame2, Hsame1; [done|done|].
    destruct Hid as [?|?]; [left; by apply Heq|by right].
  - intros a id d Ha Hid Hne Hd.
    destruct (Hwrite1 a id d Ha Hid Hne Hd) as [Hin Hw]. split; [done|].
    intros Hnin. specialize (Hw Hnin).
    destruct (Hwrite2 a id (f1 d) Ha Hid Hne Hw) as [_ Hw2].
    apply Hw2. by rewrite <- Heq.
Qed.

Lemma elem_of_pline_ids a segs :
  a ∈ pline_ids segs ↔ ∃ seg, seg ∈ segs ∧ a ∈ seg_ids seg.
Proof.
  unfold pline_ids. induction segs as [|seg segs IH]; simpl.
  - split; [intros Ha; by apply elem_of_nil in Ha|].
    intros (seg & Hseg & _). by apply elem_of_nil in Hseg.
  - rewrite elem_of_app, IH. split.
    + intros [Ha|(seg' & Hseg' & Ha)]; [exists seg; split; [by left|done]|].
      exists seg'. split; [by right|done].
    + intros (seg' & Hseg' & Ha). apply elem_of_cons in Hseg' as [->|Hseg'];
        [by left|right; by exists seg'].
Qed.

Lemma transfer_tag_loop_constant segs key v : ∀ ind setll w,
  transfer_tag_loop segs ind key [] [v] setll w =
  set_value_ids (pline_ids segs) key v setll w.
Proof.
  induction segs as [|seg segs IH]; intros ind setll w; [reflexivity|].
  unfold pline_ids. cbn [list_fmap fmap concat]. fold (pline_ids segs).
  unfold seg_ids at 1. rewrite <- app_assoc, set_value_ids_app.
  cbn [transfer_tag_loop]. unfold set_value_dir.
  unfold bind. simpl.
  destruct (set_value_ids (chain (seg_attrs seg) "ll_id_forward_") key v setll w)
    as [[s1 w1]|f]; [|done].
  rewrite set_value_ids_app. unfold bind.
  destruct (set_value_ids (chain (seg_attrs seg) "ll_id_backward_") key v s1 w1)
    as [[s2 w2]|f]; [|done].
  apply IH.
Qed.

(** X8: when the value of the OSM key does not change along the match,
    [transfer_att] returns whenever the chain entries are ids and
    [same_direction] is defined; it writes the value, the empty string
    for a missing key included, under [ref_key] on every lanelet that a
    segment of the reference polyline names, and leaves all other
    lanelets and the linestrings as they are. *)
Theorem transfer_att_constant (match_ : s_match) (ref_key v : string) (w : World) :
  (∀ sd, same_direction match_ = Ok sd →
     (∀ seg a, seg ∈ ref_pline match_ → a ∈ seg_ids seg → is_Some (asId a)) →
     ∃ w', transfer_att match_ ref_key [] [v] w = Ok (tt, w')) ∧
  (∀ w', transfer_att match_ ref_key [] [v] w = Ok (tt, w') →
     w_heap w' = w_heap w ∧
     (∀ id, (∀ seg a, seg ∈ ref_pline match_ → a ∈ seg_ids seg → asId a ≠ Some id) →
        laneletLayer (w_map w') !! id = laneletLayer (w_map w) !! id) ∧
     (∀ seg a id d, seg ∈ ref_pline match_ → a ∈ seg_ids seg →
        asId a = Some id → id ≠ InvalId →
        laneletLayer (w_map w) !! id = Some d →
        laneletLayer (w_map w') !! id =
          Some (with_attrs d
                  (<[ref_key := v]> (lld_attrs d))))).
Proof.
  assert (∀ sd w0, same_direction match_ = Ok sd →
            transfer_att match_ ref_key [] [v] w0 =
            (r <~ set_value_ids (pline_ids (ref_pline match_)) ref_key v [] ;; ret tt) w0)
    as Heq.
  { intros sd w0 Hsd. unfold transfer_att, transfer_tag. simpl.
    unfold bind at 1. simpl. unfold bind at 1. simpl.
    unfold bind at 1. rewrite Hsd. simpl.
    replace (if negb sd then [v] else [v]) with [v] by (by destruct sd).
    unfold bind. rewrite transfer_tag_loop_constant. done. }
  split.
  - intros sd Hsd Hids. rewrite (Heq sd w Hsd).
    destruct (set_value_ids_returns (pline_ids (ref_pline match_)) ref_key v [] w)
      as (s' & w' & Hrun).
    { intros a Ha. apply elem_of_pline_ids in Ha as (seg & Hseg & Ha). by eapply Hids. }
    exists w'. unfold bind. by rewrite Hrun.
  - intros w' Hrun.
    destruct (same_direction match_) as [sd|f] eqn:Hsd.
    + rewrite (Heq sd w eq_refl) in Hrun.
      apply bind_Ok in Hrun as (s' & w1 & Hset & [= <-]).
      apply set_value_ids_inv in Hset as (_ & Hheap & _ & Hsame & Hwrite & _).
      split_and!; try done.
      * intros id Hid. apply Hsame. right. intros a Ha.
        apply elem_of_pline_ids in Ha as (seg & Hseg & Ha). by eapply Hid.
      * intros seg a id d Hseg Ha Hid Hne Hd.
        destruct (Hwrite a id d) as [_ Hw]; try done.
        { apply elem_of_pline_ids. by exists seg. }
        apply Hw. intros Hin. by apply elem_of_nil in Hin.
    + exfalso. unfold transfer_att, transfer_tag in Hrun. simpl in Hrun.
      unfold bind at 1 in Hrun. simpl in Hrun. unfold bind at 1 in Hrun. simpl in Hrun.
      unfold bind at 1 in Hrun. rewrite Hsd in Hrun. done.
Qed.

Lemma set_type_location_loop_constant segs v : ∀ ind s1 s2 w w',
  set_type_location_loop segs ind [] [v] s1 s2 w = Ok (tt, w') →
  (∀ x, x ∈ s1 ↔ x ∈ s2) →
  ∃ s1', writes (set_attr "location" (highway2subtype_location v).2 ∘
                 set_attr "subtype" (highway2subtype_location v).1)
           (pline_ids segs) s1 w s1' w'.
Proof.
  induction segs as [|seg segs IH]; intros ind s1 s2 w w' Hrun Heq.
  - injection Hrun as <-. exists s1. apply writes_nil.
  - cbn [set_type_location_loop] in Hrun.
    apply bind_Ok in Hrun as (v0 & w0 & Hv0 & Hrun).
    apply lift_Ok in Hv0 as [[= <-] ->].
    apply bind_Ok in Hrun as (v0 & w0 & Hv0 & Hrun).
    apply lift_Ok in Hv0 as [[= <-] ->].
    destruct (highway2subtype_location v) as [subtype location]. simpl.
    unfold set_value_dir in Hrun.
    apply bind_Ok in Hrun as (s1a & wa & HA & Hrun). apply set_value_ids_writes in HA.
    apply bind_Ok in Hrun as (s1b & wb & HB & Hrun). apply set_value_ids_writes in HB.
    apply bind_Ok in Hrun as (s2a & wc & HC & Hrun). apply set_value_ids_writes in HC.
    apply bind_Ok in Hrun as (s2b & wd & HD & Hrun). apply set_value_ids_writes in HD.
    pose proof (writes_seq _ _ _ _ _ _ _ _ _ HA HB) as Hsub.
    pose proof (writes_seq _ _ _ _ _ _ _ _ _ HC HD) as Hloc.
    destruct (writes_pair _ _ _ _ _ _ _ _ _ _ Hsub Hloc Heq) as [Hpair Heq'].
    destruct (IH _ _ _ _ _ Hrun Heq') as [s1' Hrest].
    exists s1'. unfold pline_ids. cbn [list_fmap fmap concat]. fold (pline_ids segs).
    by eapply writes_seq.
Qed.

Lemma set_type_location_loop_returns segs ind_change values : ∀ ind s1 s2 w,
  (∀ seg a, seg ∈ segs → a ∈ seg_ids seg → is_Some (asId a)) →
  (∀ ind, ∃ v, obind (front values) (active_value ind 0 ind_change values) = Ok v) →
  ∃ w', set_type_location_loop segs ind ind_change values s1 s2 w = Ok (tt, w').
Proof.
  induction segs as [|seg segs IH]; intros ind s1 s2 w Hids Hval; [by eexists|].
  cbn [set_type_location_loop].
  destruct (Hval ind) as [v Hv]. apply obind_Ok in Hv as (v0 & Hv0 & Hv).
  unfold bind at 1. rewrite Hv0. simpl. unfold bind at 1. rewrite Hv. simpl.
  destruct (highway2subtype_location v) as [subtype location].
  assert (∀ a, a ∈ chain (seg_attrs seg) "ll_id_forward_" → is_Some (asId a)) as Hf.
  { intros a Ha. apply (Hids seg a); [by left|]. apply elem_of_app. by left. }
  assert (∀ a, a ∈ chain (seg_attrs seg) "ll_id_backward_" → is_Some (asId a)) as Hb.
  { intros a Ha. apply (Hids seg a); [by left|]. apply elem_of_app. by right. }
  unfold set_value_dir.
  destruct (set_value_ids_returns _ "subtype" subtype s1 w Hf) as (s1a & wa & HA).
  unfold bind at 1. rewrite HA.
  destruct (set_value_ids_returns _ "subtype" subtype s1a wa Hb) as (s1b & wb & HB).
  unfold bind at 1. rewrite HB.
  destruct (set_value_ids_returns _ "location" location s2 wb Hf) as (s2a & wc & HC).
  unfold bind at 1. rewrite HC.
  destruct (set_value_ids_returns _ "location" location s2a wc Hb) as (s2b & wd & HD).
  unfold bind at 1. rewrite HD.
  apply IH; [|done]. intros seg' a Hseg'. apply Hids. by right.
Qed.

(** X7: when the [highway] value does not change along the match,
    [set_type_location] writes the subtype and the location that
    [highway2subtype_location] gives for it on every lanelet that a
    segment of the reference polyline names (both empty for a value that
    is not in the table), and leaves all other lanelets and the
    linestrings as they are. *)
Theorem set_type_location_constant (match_ : s_match) (v : string) (w : World) :
  (∀ sd, same_direction match_ = Ok sd →
     (∀ seg a, seg ∈ ref_pline match_ → a ∈ seg_ids seg → is_Some (asId a)) →
     ∃ w', set_type_location match_ [] [v] w = Ok (tt, w')) ∧
  (∀ w', set_type_location match_ [] [v] w = Ok (tt, w') →
     w_heap w' = w_heap w ∧
     (∀ id, (∀ seg a, seg ∈ ref_pline match_ → a ∈ seg_ids seg → asId a ≠ Some id) →
        laneletLayer (w_map w') !! id = laneletLayer (w_map w) !! id) ∧
     (∀ seg a id d, seg ∈ ref_pline match_ → a ∈ seg_ids seg →
        asId a = Some id → id ≠ InvalId →
        laneletLayer (w_map w) !! id = Some d →
        laneletLayer (w_map w') !! id =
          Some (with_attrs d
                  (<["location" := (highway2subtype_location v).2]>
                     (<["subtype" := (highway2subtype_location v).1]> (lld_attrs d)))))).
Proof.
  assert (∀ sd w0, same_direction match_ = Ok sd →
            set_type_location match_ [] [v] w0 =
            set_type_location_loop (ref_pline match_) 0 [] [v] [] [] w0) as Heq.
  { intros sd w0 Hsd. unfold set_type_location. simpl.
    unfold bind at 1. simpl. unfold bind at 1. rewrite Hsd. simpl.
    by destruct sd. }
  split.
  - intros sd Hsd Hids. rewrite (Heq sd w Hsd).
    apply set_type_location_loop_returns; [done|]. intros ind. by exists v.
  - intros w' Hrun.
    destruct (same_direction match_) as [sd|f] eqn:Hsd.
    + rewrite (Heq sd w eq_refl) in Hrun.
      apply set_type_location_loop_constant in Hrun as [s1' Hw]; [|done].
      destruct Hw as (_ & Hheap & _ & Hsame & Hwrite & _).
      split_and!; try done.
      * intros id Hid. apply Hsame. right. intros a Ha.
        apply elem_of_pline_ids in Ha as (seg & Hseg & Ha). by eapply Hid.
      * intros seg a id d Hseg Ha Hid Hne Hd.
        destruct (Hwrite a id d) as [_ Hw]; try done.
        { apply elem_of_pline_ids. by exists seg. }
        apply Hw. intros Hin. by apply elem_of_nil in Hin.
    + exfalso. unfold set_type_location in Hrun. simpl in Hrun.
      unfold bind at 1 in Hrun. simpl in Hrun.
      unfold bind at 1 in Hrun. rewrite Hsd in Hrun. done.
Qed.

Lemma front_Ok {A} (l : list A) x : front l = Ok x ↔ head l = Some x.
Proof. unfold front. destruct (head l); simpl; split; intros; simplify_eq; done. Qed.

Lemma back_Ok {A} (l : list A) x : back l = Ok x ↔ last l = Some x.
Proof. unfold back. destruct (last l); simpl; split; intros; simplify_eq; done. Qed.

(** X20: [same_direction] is false when one of the two polylines is
    empty; otherwise it reads the first point of the first segment and the
    last point of the last segment of both polylines: it is defined when
    these four segments have points and reads an empty linestring when one
    of them has none. *)
Theorem same_direction_defined (match_ : s_match) :
  (ref_pline match_ = [] ∨ target_pline match_ = [] →
   same_direction match_ = Ok false) ∧
  (∀ rf rb tf tb,
     head (ref_pline match_) = Some rf → last (ref_pline match_) = Some rb →
     head (target_pline match_) = Some tf → last (target_pline match_) = Some tb →
     (seg_pts rf ≠ [] ∧ seg_pts rb ≠ [] ∧ seg_pts tf ≠ [] ∧ seg_pts tb ≠ [] →
      ∃ sd, same_direction match_ = Ok sd) ∧
     (seg_pts rf = [] ∨ seg_pts rb = [] ∨ seg_pts tf = [] ∨ seg_pts tb = [] →
      same_direction match_ = Undefined)).
Proof.
  unfold same_direction. split.
  - intros Hempty. rewrite bool_decide_eq_false_2; [done|]. intros [? ?].
    by destruct Hempty.
  - intros rf rb tf tb Hrf Hrb Htf Htb.
    rewrite bool_decide_eq_true_2.
    2:{ split; intros E; rewrite E in *; discriminate. }
    apply front_Ok in Hrf, Htf. apply back_Ok in Hrb, Htb.
    rewrite Hrf, Hrb, Htf, Htb. cbn [obind].
    split.
    + intros (Hn1 & Hn2 & Hn3 & Hn4).
      assert (∀ l : list Point3d, l ≠ [] → ∃ p, front l = Ok p) as Hfront.
      { intros [|p l] Hl; [done|]. by exists p. }
      assert (∀ l : list Point3d, l ≠ [] → ∃ p, back l = Ok p) as Hback.
      { intros l Hl. destruct (last l) as [p|] eqn:E.
        - exists p. by apply back_Ok.
        - by apply last_None in E. }
      destruct (Hback _ Hn2) as [p1 ->]. destruct (Hfront _ Hn1) as [p2 ->].
      destruct (Hback _ Hn4) as [p3 ->]. destruct (Hfront _ Hn3) as [p4 ->].
      cbn [obind]. by eexists.
    + assert (∀ l : list Point3d, l = [] → front l = Undefined) as Hfront by (by intros ? ->).
      assert (∀ l : list Point3d, l = [] → back l = Undefined) as Hback by (by intros ? ->).
      assert (∀ l : list Point3d, (∃ p, back l = Ok p) ∨ back l = Undefined) as Hb.
      { intros l. unfold back. destruct (last l); eauto. }
      assert (∀ l : list Point3d, (∃ p, front l = Ok p) ∨ front l = Undefined) as Hf.
      { intros l. unfold front. destruct (head l); eauto. }
      intros Hempty.
      destruct (Hb (seg_pts rb)) as [[p1 E1]|E1]; rewrite E1; [|done]. cbn [obind].
      destruct (Hf (seg_pts rf)) as [[p2 E2]|E2]; rewrite E2; [|done]. cbn [obind].
      destruct (Hb (seg_pts tb)) as [[p3 E3]|E3]; rewrite E3; [|done]. cbn [obind].
      destruct (Hf (seg_pts tf)) as [[p4 E4]|E4]; rewrite E4; [|done]. cbn [obind].
      exfalso. destruct Hempty as [E|[E|[E|E]]]; rewrite E in *; done.
Qed.

Lemma set_type_location_writes match_ v w w' :
  set_type_location match_ [] [v] w = Ok (tt, w') →
  ∃ s', writes (set_attr "location" (highway2subtype_location v).2 ∘
                set_attr "subtype" (highway2subtype_location v).1)
          (pline_ids (ref_pline match_)) [] w s' w'.
Proof.
  intros Hrun. unfold set_type_location in Hrun. simpl in Hrun.
  apply bind_Ok in Hrun as (ic & w0 & Hic & Hrun). apply lift_Ok in Hic as [[= <-] ->].
  apply bind_Ok in Hrun as (sd & w0 & Hsd & Hrun). apply lift_Ok in Hsd as [_ ->].
  assert ((if negb sd then [v] else [v]) = [v]) as Hv by (by destruct sd).
  rewrite Hv in Hrun. by apply set_type_location_loop_constant in Hrun.
Qed.

Lemma transfer_att_writes match_ key v w w' :
  transfer_att match_ key [] [v] w = Ok (tt, w') →
  ∃ s', writes (set_attr key v) (pline_ids (ref_pline match_)) [] w s' w'.
Proof.
  intros Hrun. unfold transfer_att, transfer_tag in Hrun. simpl in Hrun.
  apply bind_Ok in Hrun as (ic & w0 & Hic & Hrun). apply lift_Ok in Hic as [[= <-] ->].
  apply bind_Ok in Hrun as (s' & w1 & Hrun & [= <-]).
  apply bind_Ok in Hrun as (sd & w0 & Hsd & Hrun). apply lift_Ok in Hsd as [_ ->].
  assert ((if negb sd then [v] else [v]) = [v]) as Hv by (by destruct sd).
  rewrite Hv in Hrun. rewrite transfer_tag_loop_constant in Hrun.
  exists s'. by apply set_value_ids_writes.
Qed.

Lemma writes_then f1 f2 ids w s1 w1 s2 w2 :
  writes f1 ids [] w s1 w1 → writes f2 ids [] w1 s2 w2 →
  writes (f2 ∘ f1) ids [] w s1 w2.
Proof. intros H1' H2'. by destruct (writes_pair _ _ _ _ _ _ _ _ _ _ H1' H2'). Qed.

(** X3: for a match whose eight OSM values do not change along the
    target polyline [conflate_match] splits nothing; every lanelet that a
    segment of the reference polyline names keeps its bounds and gets the
    seven attributes of [conflated_attrs] from the values of the first
    target segment (the empty string for a missing key), the other
    lanelets and the linestrings stay as they are. *)
Theorem conflate_match_constant (fuel : nat) (match_ : s_match)
    (cols : list (Id * string)) (deleted : list Lanelet) (w : World)
    (r : s_match * list (Id * string) * list Lanelet) (w' : World) :
  target_pline match_ ≠ [] →
  (∀ key seg, key ∈ target_keys → seg ∈ target_pline match_ →
     default "" (seg_attrs seg !! key) = first_value (target_pline match_) key) →
  conflate_match fuel match_ cols deleted w = Ok (r, w') →
  w_heap w' = w_heap w ∧
  (∀ id, (∀ seg a, seg ∈ ref_pline match_ → a ∈ seg_ids seg → asId a ≠ Some id) →
     laneletLayer (w_map w') !! id = laneletLayer (w_map w) !! id) ∧
  (∀ seg a id d, seg ∈ ref_pline match_ → a ∈ seg_ids seg →
     asId a = Some id → id ≠ InvalId → laneletLayer (w_map w) !! id = Some d →
     laneletLayer (w_map w') !! id =
       Some (with_attrs d
               (conflated_attrs (first_value (target_pline match_)) (lld_attrs d)))).
Proof.
  intros Ht Hconst Hrun. unfold conflate_match in Hrun.
  rewrite bool_decide_eq_true_2 in Hrun by done.
  assert (split_on_tag_change fuel match_ target_keys w =
            Ok (match_, replicate (length target_keys) [],
                (λ key, [first_value (target_pline match_) key]) <$> target_keys, w))
    as Hsplit.
  { unfold split_on_tag_change, bind, lift.
    by rewrite (check_tag_change_constant _ _ Hconst). }
  rewrite (bind_eq _ _ _ _ _ Hsplit) in Hrun. simpl in Hrun.
  unfold bind at 1 2 in Hrun; simpl in Hrun.
  apply bind_Ok in Hrun as ([] & w1 & H1' & Hrun).
  apply set_type_location_writes in H1' as [s1 Hw1].
  unfold bind at 1 2 in Hrun; simpl in Hrun.
  apply bind_Ok in Hrun as ([] & w2 & H2' & Hrun).
  apply transfer_att_writes in H2' as [s2 Hw2].
  unfold bind at 1 2 in Hrun; simpl in Hrun.
  apply bind_Ok in Hrun as ([] & w3 & H3' & Hrun).
  apply transfer_att_writes in H3' as [s3 Hw3].
  unfold bind at 1 2 in Hrun; simpl in Hrun.
  apply bind_Ok in Hrun as ([] & w4 & H4' & Hrun).
  apply transfer_att_writes in H4' as [s4 Hw4].
  unfold bind at 1 2 in Hrun; simpl in Hrun.
  apply bind_Ok in Hrun as ([] & w5 & H5' & Hrun).
  apply transfer_att_writes in H5' as [s5 Hw5].
  unfold bind at 1 2 in Hrun; simpl in Hrun.
  apply bind_Ok in Hrun as ([] & w6 & H6' & Hrun).
  apply transfer_att_writes in H6' as [s6 Hw6].
  unfold bind at 1 2 3 4 in Hrun; simpl in Hrun.
  apply bind_Ok in Hrun as ([[c' d'] m'] & w7 & Hcl & Hrun).
  injection Hrun as <- <-.
  apply check_lanes_log in Hcl as (Hmap & Hheap & _).
  pose proof (writes_then _ _ _ _ _ _ _ _ Hw1 Hw2) as Hw.
  pose proof (writes_then _ _ _ _ _ _ _ _ Hw Hw3) as Hw'. clear Hw.
  pose proof (writes_then _ _ _ _ _ _ _ _ Hw' Hw4) as Hw. clear Hw'.
  pose proof (writes_then _ _ _ _ _ _ _ _ Hw Hw5) as Hw'. clear Hw.
  pose proof (writes_then _ _ _ _ _ _ _ _ Hw' Hw6) as Hw. clear Hw'.
  destruct Hw as (_ & Hh & _ & Hsame & Hwrite & _).
  rewrite Hmap, Hheap. split_and!; try done.
  - intros id Hid. apply Hsame. right. intros a Ha.
    apply elem_of_pline_ids in Ha as (seg & Hseg & Ha). by eapply Hid.
  - intros seg a id d Hseg Ha Hid Hne Hd.
    destruct (Hwrite a id d) as [_ Hwr]; try done.
    { apply elem_of_pline_ids. by exists seg. }
    rewrite Hwr; [done|]. intros Hin. by apply elem_of_nil in Hin.
Qed.

(** *** The loops end *)

Lemma o_no_fuel_Ok {A} (a : A) : o_no_fuel (Ok a).
Proof. done. Qed.

Lemma o_no_fuel_Undefined {A} : o_no_fuel (@Fail A UB).
Proof. done. Qed.

Lemma o_no_fuel_Throws {A} e : o_no_fuel (@Fail A (Thrown e)).
Proof. done. Qed.

Lemma o_no_fuel_of_option {A} (o : option A) : o_no_fuel (of_option o).
Proof. by destruct o. Qed.

Lemma o_no_fuel_at {A} (l : list A) i : o_no_fuel (at_ l i).
Proof. apply o_no_fuel_of_option. Qed.

Lemma o_no_fuel_front {A} (l : list A) : o_no_fuel (front l).
Proof. apply o_no_fuel_of_option. Qed.

Lemma o_no_fuel_back {A} (l : list A) : o_no_fuel (back l).
Proof. apply o_no_fuel_of_option. Qed.

Lemma o_no_fuel_obind {A B} (m : outcome A) (k : A → outcome B) :
  o_no_fuel m → (∀ a, o_no_fuel (k a)) → o_no_fuel (obind m k).
Proof.
  intros Hm Hk. destruct m as [a|f]; simpl; [apply Hk|].
  intros [= ->]. by apply Hm.
Qed.

Lemma o_no_fuel_omapM {A B} (f : A → outcome B) (l : list A) :
  (∀ a, o_no_fuel (f a)) → o_no_fuel (omapM f l).
Proof.
  intros Hf. induction l as [|x r IH]; simpl; [done|].
  apply o_no_fuel_obind; [done|]. intros y.
  apply o_no_fuel_obind; [done|]. by intros ys.
Qed.

Lemma no_fuel_ret {A} (a : A) : no_fuel (ret a).
Proof. by intros w. Qed.

Lemma no_fuel_lift {A} (o : outcome A) : o_no_fuel o → no_fuel (lift o).
Proof. intros Ho w. unfold lift. destruct o as [a|f]; [done|]. by intros [= ->]. Qed.

Lemma no_fuel_bind {A B} (m : M A) (k : A → M B) :
  no_fuel m → (∀ a, no_fuel (k a)) → no_fuel (bind m k).
Proof.
  intros Hm Hk w. unfold bind. destruct (m w) as [[a w']|f] eqn:Hmw; [apply Hk|].
  intros [= ->]. by apply (Hm w).
Qed.

Lemma no_fuel_getId : no_fuel getId.
Proof. by intros w. Qed.

Lemma no_fuel_alloc d : no_fuel (alloc d).
Proof. by intros w. Qed.

Lemma no_fuel_store l d : no_fuel (store l d).
Proof. by intros w. Qed.

Lemma no_fuel_print s : no_fuel (print s).
Proof. by intros w. Qed.

Lemma no_fuel_get_map : no_fuel get_map.
Proof. by intros w. Qed.

Lemma no_fuel_set_lanelets ll : no_fuel (set_lanelets ll).
Proof. by intros w. Qed.

Lemma no_fuel_registerId id : no_fuel (registerId id).
Proof. by intros w. Qed.

Lemma no_fuel_laneletLayer_add id d : no_fuel (laneletLayer_add id d).
Proof. by intros w. Qed.

Lemma no_fuel_lineStringLayer_add id l : no_fuel (lineStringLayer_add id l).
Proof. by intros w. Qed.

Lemma no_fuel_pointLayer_add id p : no_fuel (pointLayer_add id p).
Proof. by intros w. Qed.

Lemma no_fuel_deref ls : no_fuel (deref ls).
Proof. intros w. unfold deref. apply no_fuel_lift, o_no_fuel_of_option. Qed.

Lemma o_no_fuel_stoi s : o_no_fuel (stoi s).
Proof.
  unfold stoi. destruct (read_sign (skip_spaces s)) as [neg r].
  destruct r as [|c r]; [done|]. destruct (digit_of c); [|done]. by case_bool_decide.
Qed.

Lemma o_no_fuel_int_add a b : o_no_fuel (int_add a b).
Proof. unfold int_add. by case_bool_decide. Qed.

Create HintDb nofuel discriminated.

Hint Resolve o_no_fuel_Ok o_no_fuel_Undefined o_no_fuel_Throws o_no_fuel_of_option
  o_no_fuel_at o_no_fuel_front o_no_fuel_back no_fuel_ret no_fuel_getId
  no_fuel_alloc no_fuel_store no_fuel_print no_fuel_get_map no_fuel_set_lanelets
  no_fuel_registerId no_fuel_laneletLayer_add no_fuel_lineStringLayer_add
  no_fuel_pointLayer_add no_fuel_deref o_no_fuel_stoi o_no_fuel_int_add : nofuel.

Ltac no_fuel_step :=
  match goal with
  | |- no_fuel (bind _ _) => apply no_fuel_bind; [|intros ?]
  | |- no_fuel (lift _) => apply no_fuel_lift
  | |- o_no_fuel (obind _ _) => apply o_no_fuel_obind; [|intros ?]
  | |- o_no_fuel (omapM _ _) => apply o_no_fuel_omapM; intros ?
  | |- context [let '(_, _) := ?x in _] => destruct x
  | |- context [if ?b then _ else _] => destruct b
  | |- context [match ?x with Some _ => _ | None => _ end] => destruct x
  | |- context [match ?x with LlIn _ => _ | LlEmpty => _ end] => destruct x
  end.

Ltac no_fuel_auto := repeat (first [progress eauto 2 with nofuel | no_fuel_step]).

Lemma no_fuel_id_to_add {A} (layer : gmap Id A) id : no_fuel (id_to_add layer id).
Proof. unfold id_to_add. no_fuel_auto. Qed.
Hint Resolve no_fuel_id_to_add : nofuel.

Lemma no_fuel_add_point p : no_fuel (add_point p).
Proof. unfold add_point. no_fuel_auto. Qed.
Hint Resolve no_fuel_add_point : nofuel.

Lemma no_fuel_add_points pts : no_fuel (add_points pts).
Proof. induction pts as [|p pts IH]; simpl; no_fuel_auto. Qed.
Hint Resolve no_fuel_add_points : nofuel.

Lemma no_fuel_add_linestring ls : no_fuel (add_linestring ls).
Proof. unfold add_linestring. no_fuel_auto. Qed.
Hint Resolve no_fuel_add_linestring : nofuel.

(** [map_ptr->add(new_ll)] for the lanelet that [split_ll_dir] makes. *)
Lemma no_fuel_add_lanelet src id left right attrs :
  no_fuel (add_lanelet 1 src id (mkLaneletData left right attrs None [])).
Proof. simpl. no_fuel_auto. Qed.
Hint Resolve no_fuel_add_lanelet : nofuel.

Lemma o_no_fuel_find_segment_2D p v : o_no_fuel (find_segment_2D p v).
Proof. unfold find_segment_2D. destruct v; eauto with nofuel. Qed.
Hint Resolve o_no_fuel_find_segment_2D : nofuel.

Lemma o_no_fuel_split_vertex new_id v pt : o_no_fuel (split_vertex new_id v pt).
Proof. unfold split_vertex. no_fuel_auto. Qed.
Hint Resolve o_no_fuel_split_vertex : nofuel.

Lemma no_fuel_split_linestring orig_ls splitted new_lss pt inv :
  no_fuel (split_linestring orig_ls splitted new_lss pt inv).
Proof. unfold split_linestring. no_fuel_auto. Qed.
Hint Resolve no_fuel_split_linestring : nofuel.

Lemma no_fuel_find_ll id : no_fuel (find_ll id).
Proof. unfold find_ll. no_fuel_auto. Qed.

Lemma no_fuel_leftBound ll : no_fuel (leftBound ll).
Proof. unfold leftBound. no_fuel_auto. Qed.

Lemma no_fuel_rightBound ll : no_fuel (rightBound ll).
Proof. unfold rightBound. no_fuel_auto. Qed.

Lemma no_fuel_attributes ll : no_fuel (attributes ll).
Proof. unfold attributes. no_fuel_auto. Qed.

Lemma no_fuel_set_attribute ll key val : no_fuel (set_attribute ll key val).
Proof. unfold set_attribute. no_fuel_auto. Qed.

Hint Resolve no_fuel_find_ll no_fuel_leftBound no_fuel_rightBound
  no_fuel_attributes no_fuel_set_attribute : nofuel.

Lemma o_no_fuel_get_index match_ pt : o_no_fuel (get_index match_ pt).
Proof. unfold get_index. no_fuel_auto. Qed.

Lemma o_no_fuel_same_direction match_ : o_no_fuel (same_direction match_).
Proof. unfold same_direction. no_fuel_auto. Qed.
Hint Resolve o_no_fuel_get_index o_no_fuel_same_direction : nofuel.

Lemma o_no_fuel_tag_changes key rest : ∀ val pts_ values_,
  o_no_fuel (tag_changes key val rest pts_ values_).
Proof.
  induction rest as [|it rest IH]; intros val pts_ values_; simpl; no_fuel_auto.
Qed.
Hint Resolve o_no_fuel_tag_changes : nofuel.

Lemma o_no_fuel_check_tag_change pline keys : ∀ pts values,
  o_no_fuel (check_tag_change pline keys pts values).
Proof.
  induction keys as [|key keys IH]; intros pts values; simpl;
    unfold check_tag_change_key; no_fuel_auto.
Qed.
Hint Resolve o_no_fuel_check_tag_change : nofuel.

Lemma no_fuel_set_value_ids ids key_ref val : ∀ setll,
  no_fuel (set_value_ids ids key_ref val setll).
Proof. induction ids as [|a ids IH]; intros setll; simpl; no_fuel_auto. Qed.
Hint Resolve no_fuel_set_value_ids : nofuel.

Lemma o_no_fuel_active_value {A} ind ind_change (values : list A) : ∀ j val,
  o_no_fuel (active_value ind j ind_change values val).
Proof.
  induction ind_change as [|c ic IH]; intros j val; simpl; no_fuel_auto.
Qed.
Hint Resolve o_no_fuel_active_value : nofuel.

Lemma no_fuel_set_type_location_loop segs ind_change values : ∀ ind s1 s2,
  no_fuel (set_type_location_loop segs ind ind_change values s1 s2).
Proof.
  induction segs as [|seg segs IH]; intros ind s1 s2; simpl;
    unfold set_value_dir; no_fuel_auto.
Qed.
Hint Resolve no_fuel_set_type_location_loop : nofuel.

Lemma no_fuel_set_type_location match_ pts_change values :
  no_fuel (set_type_location match_ pts_change values).
Proof. unfold set_type_location. no_fuel_auto. Qed.

Lemma no_fuel_transfer_tag_loop segs key_ref ind_change values : ∀ ind setll,
  no_fuel (transfer_tag_loop segs ind key_ref ind_change values setll).
Proof.
  induction segs as [|seg segs IH]; intros ind setll; simpl;
    unfold set_value_dir; no_fuel_auto.
Qed.
Hint Resolve no_fuel_transfer_tag_loop : nofuel.

Lemma no_fuel_transfer_att match_ ref_key pts_change values :
  no_fuel (transfer_att match_ ref_key pts_change values).
Proof. unfold transfer_att, transfer_tag. no_fuel_auto. Qed.

Hint Resolve no_fuel_set_type_location no_fuel_transfer_att : nofuel.

Lemma no_fuel_set_color_code_ids ids col_code : ∀ cols,
  no_fuel (set_color_code_ids ids col_code cols).
Proof. induction ids as [|a ids IH]; intros cols; simpl; no_fuel_auto. Qed.
Hint Resolve no_fuel_set_color_code_ids : nofuel.

Lemma no_fuel_find_wrong_lanelet_candidates_loop attrs : ∀ cand,
  no_fuel (find_wrong_lanelet_candidates_loop attrs cand).
Proof. induction attrs as [|a attrs IH]; intros cand; simpl; no_fuel_auto. Qed.
Hint Resolve no_fuel_find_wrong_lanelet_candidates_loop : nofuel.

Lemma no_fuel_find_wrong_lanelet seg deleted match_ :
  no_fuel (find_wrong_lanelet seg deleted match_).
Proof.
  unfold find_wrong_lanelet, find_wrong_lanelet_candidates.
  apply no_fuel_bind; [eauto with nofuel|]. intros cands w.
  by destruct (List.find _ cands).
Qed.
Hint Resolve no_fuel_find_wrong_lanelet : nofuel.

Lemma no_fuel_remove_wrong_lanelets excess ind : ∀ deleted match_,
  no_fuel (remove_wrong_lanelets excess ind deleted match_).
Proof.
  induction excess as [|excess IH]; intros deleted match_; simpl; no_fuel_auto.
Qed.
Hint Resolve no_fuel_remove_wrong_lanelets : nofuel.

Lemma o_no_fuel_merged_values pts_merged p6 p7 v6 v7 : ∀ c6 c7 n6 n7,
  o_no_fuel (merged_values pts_merged p6 p7 v6 v7 c6 c7 n6 n7).
Proof.
  induction pts_merged as [|pt pts IH]; intros c6 c7 n6 n7; simpl; no_fuel_auto.
Qed.
Hint Resolve o_no_fuel_merged_values : nofuel.

Lemma o_no_fuel_col_code_of vl vs n : o_no_fuel (col_code_of vl vs n).
Proof. unfold col_code_of, lanes_osm_of. no_fuel_auto. Qed.
Hint Resolve o_no_fuel_col_code_of : nofuel.

Lemma no_fuel_check_lanes_seg ind ind_change vln vsn cols deleted match_ :
  no_fuel (check_lanes_seg ind ind_change vln vsn cols deleted match_).
Proof. unfold check_lanes_seg, set_color_code_dir. no_fuel_auto. Qed.
Hint Resolve no_fuel_check_lanes_seg : nofuel.

Lemma no_fuel_check_lanes_loop n : ∀ ind ind_change vln vsn cols deleted match_,
  no_fuel (check_lanes_loop n ind ind_change vln vsn cols deleted match_).
Proof.
  induction n as [|n IH]; intros ind ind_change vln vsn cols deleted match_; simpl;
    no_fuel_auto.
Qed.
Hint Resolve no_fuel_check_lanes_loop : nofuel.

Lemma no_fuel_check_lanes match_ cols p6 p7 v6 v7 deleted :
  no_fuel (check_lanes match_ cols p6 p7 v6 v7 deleted).
Proof. unfold check_lanes. no_fuel_auto. Qed.
Hint Resolve no_fuel_check_lanes : nofuel.

Lemma no_fuel_print_all msgs : no_fuel (print_all msgs).
Proof. induction msgs as [|s msgs IH]; simpl; no_fuel_auto. Qed.
Hint Resolve no_fuel_print_all : nofuel.

Lemma ends_bind {A B} (P : B → Prop) (m : M A) (k : A → M B) w :
  no_fuel m → (∀ a w1, m w = Ok (a, w1) → ends P (k a w1)) → ends P (bind m k w).
Proof.
  intros Hm Hk. unfold bind. destruct (m w) as [[a w1]|f] eqn:Hmw; [by apply Hk|].
  simpl. intros ->. by apply (Hm w).
Qed.

Lemma ends_no_fuel {A} (P : A → Prop) (o : outcome (A * World)) :
  ends P o → o ≠ Fail Fuel.
Proof. destruct o as [[a w]|f]; [done|]. simpl. by intros Hf [= ->]. Qed.

Lemma ends_mono {A} (P Q : A → Prop) (o : outcome (A * World)) :
  (∀ a, P a → Q a) → ends P o → ends Q o.
Proof. intros HPQ. destruct o as [[a w]|f]; simpl; [apply HPQ|done]. Qed.

Lemma same_keys_refl m : same_keys m m.
Proof. unfold same_keys. by apply Forall2_same_length_lookup_2; [|intros; simplify_eq]. Qed.

Lemma same_keys_trans m1 m2 m3 : same_keys m1 m2 → same_keys m2 m3 → same_keys m1 m3.
Proof.
  unfold same_keys. intros H12 H23.
  eapply Forall2_trans; [|exact H12|exact H23]. intros; congruence.
Qed.

Lemma same_keys_below fuel m' m : same_keys m' m → keys_below fuel m → keys_below fuel m'.
Proof.
  unfold same_keys, keys_below. intros Hs Hb.
  apply Forall_lookup. intros i s' Hs'.
  destruct (Forall2_lookup_l _ _ _ _ _ Hs Hs') as (s & Hi & Hd).
  pose proof (Forall_lookup_1 _ _ _ _ Hb Hi) as Hlt. simpl in Hlt.
  by rewrite <- !size_dom, Hd, size_dom.
Qed.

(** A map that holds the keys [key1] to [keyi] has at least [i] entries. *)
Lemma chain_keys_size (attrs : AttributeMap) (key : string) (i : nat) :
  (∀ j, (1 ≤ j ≤ i)%nat → is_Some (attrs !! chain_key key j)) → (i ≤ size attrs)%nat.
Proof.
  intros Hkeys.
  assert (NoDup (chain_key key <$> seq 1 i)) as Hnd.
  { apply NoDup_fmap; [apply chain_key_inj|apply NoDup_seq]. }
  assert (list_to_set (C := gset string) (chain_key key <$> seq 1 i) ⊆ dom attrs)
    as Hsub.
  { intros k Hk. apply elem_of_list_to_set, list_elem_of_fmap in Hk as (j & -> & Hj).
    apply elem_of_seq in Hj. apply elem_of_dom, Hkeys. lia. }
  apply subseteq_size in Hsub.
  by rewrite size_list_to_set, length_fmap, length_seq, size_dom in Hsub.
Qed.

Section Update.
Hypothesis Hupd : ∀ key id_orig id_new ind m,
  same_keys (update_ref_tags key id_orig id_new ind m) m.

Lemma split_ll_dir_loop_ends fuel : ∀ match_ ind key i splitted newls pt w,
  (∀ seg, ref_pline match_ !! ind = Some seg →
     (size (seg_attrs seg) < fuel + i)%nat ∧
     ∀ j, (1 ≤ j ≤ i)%nat → is_Some (seg_attrs seg !! chain_key key j)) →
  ends (λ r, same_keys r.1.1 match_)
       (split_ll_dir_loop fuel match_ ind key (S i) splitted newls pt w).
Proof.
  induction fuel as [|fuel IH]; intros match_ ind key i splitted newls pt w Hpre.
  - simpl. unfold bind at 1, lift at 1, at_.
    destruct (ref_pline match_ !! ind) as [seg|] eqn:Hseg; simpl; [|done].
    destruct (seg_attrs seg !! chain_key key (S i)) as [a|] eqn:Ha;
      [|apply same_keys_refl].
    exfalso. destruct (Hpre seg eq_refl) as [Hsize Hkeys].
    assert (S i ≤ size (seg_attrs seg))%nat; [|lia].
    apply (chain_keys_size _ key). intros j Hj.
    destruct (decide (j = S i)) as [->|Hne]; [by rewrite Ha|]. apply Hkeys. lia.
  - simpl. unfold bind at 1, lift at 1, at_.
    destruct (ref_pline match_ !! ind) as [seg|] eqn:Hseg; simpl; [|done].
    destruct (seg_attrs seg !! chain_key key (S i)) as [a|] eqn:Ha;
      [|apply same_keys_refl].
    destruct (Hpre seg eq_refl) as [Hsize Hkeys].
    apply ends_bind; [no_fuel_auto|]. intros id w1 _.
    apply ends_bind; [no_fuel_auto|]. intros orig w2 _.
    apply ends_bind; [no_fuel_auto|]. intros left w3 _.
    apply ends_bind; [no_fuel_auto|]. intros [[new_left sp] nl] w4 _.
    apply ends_bind; [no_fuel_auto|]. intros right w5 _.
    apply ends_bind; [no_fuel_auto|]. intros [[new_right sp'] nl'] w6 _.
    apply ends_bind; [no_fuel_auto|]. intros attrs w7 _.
    apply ends_bind; [no_fuel_auto|]. intros new_id w8 _.
    apply ends_bind; [no_fuel_auto|]. intros map w9 _.
    apply ends_bind; [no_fuel_auto|]. intros new_id' w10 _.
    set (m' := update_ref_tags _ _ _ _ _).
    pose proof (Hupd (chain_key key (S i)) (ll_id orig) new_id' ind match_) as Hm'.
    fold m' in Hm'.
    eapply ends_mono; [|apply IH].
    + intros r Hr. simpl in *. eapply same_keys_trans; [exact Hr|exact Hm'].
    + intros seg' Hseg'.
      destruct (Forall2_lookup_l _ _ _ _ _ Hm' Hseg') as (s & Hs & Hd).
      rewrite Hseg in Hs. injection Hs as <-. split.
      * rewrite <- size_dom, Hd, size_dom. lia.
      * intros j Hj. apply elem_of_dom. rewrite Hd. apply elem_of_dom.
        destruct (decide (j = S i)) as [->|Hne]; [by rewrite Ha|]. apply Hkeys. lia.
Qed.

Lemma split_ll_dir_ends fuel match_ ind key splitted newls pt w :
  keys_below fuel match_ →
  ends (λ r, same_keys r.1.1 match_)
       (split_ll_dir fuel match_ ind key splitted newls pt w).
Proof.
  intros Hb. apply split_ll_dir_loop_ends. intros seg Hseg. split; [|lia].
  pose proof (Forall_lookup_1 _ _ _ _ Hb Hseg) as Hlt. simpl in Hlt. lia.
Qed.

Lemma split_lanelet_loop_ends fuel pts : ∀ match_ splitted newLss w,
  keys_below fuel match_ →
  ends (λ _, True) (split_lanelet_loop fuel match_ pts splitted newLss w).
Proof.
  induction pts as [|pt pts IH]; intros match_ splitted newLss w Hb; simpl; [done|].
  apply ends_bind; [no_fuel_auto|]. intros ind w1 _.
  apply ends_bind; [intros w'; eapply ends_no_fuel; by apply split_ll_dir_ends|].
  intros [[m1 sp] nl] w2 Hr1.
  pose proof (split_ll_dir_ends fuel match_ ind "ll_id_forward_" splitted newLss pt w1 Hb)
    as He1. rewrite Hr1 in He1. simpl in He1.
  pose proof (same_keys_below _ _ _ He1 Hb) as Hb1.
  apply ends_bind; [intros w'; eapply ends_no_fuel; by apply split_ll_dir_ends|].
  intros [[m2 sp2] nl2] w3 Hr2.
  pose proof (split_ll_dir_ends fuel m1 ind "ll_id_backward_" sp nl pt w2 Hb1) as He2.
  rewrite Hr2 in He2. simpl in He2.
  apply IH. by eapply same_keys_below.
Qed.

Lemma split_on_tag_change_ends fuel match_ keys w :
  keys_below fuel match_ → split_on_tag_change fuel match_ keys w ≠ Fail Fuel.
Proof.
  intros Hb. apply (ends_no_fuel (λ _, True)). unfold split_on_tag_change.
  apply ends_bind; [no_fuel_auto|]. intros [pc vals] w1 _.
  apply ends_bind.
  - intros w'. case_bool_decide; [|done].
    eapply ends_no_fuel. by apply split_lanelet_loop_ends.
  - by intros m w2 _.
Qed.

Lemma conflate_match_ends fuel match_ cols deleted w :
  keys_below fuel match_ → conflate_match fuel match_ cols deleted w ≠ Fail Fuel.
Proof.
  intros Hb. apply (ends_no_fuel (λ _, True)). unfold conflate_match.
  case_bool_decide; [|done].
  apply ends_bind; [intros w'; by apply split_on_tag_change_ends|].
  intros [[m pc] vals] w1 _.
  assert (∀ {A} (m : M A) w, no_fuel m → ends (λ _, True) (m w)) as Hnf.
  { intros A m0 w0 Hm0. specialize (Hm0 w0). by destruct (m0 w0) as [[? ?]|[]]. }
  apply Hnf. no_fuel_auto.
Qed.

Lemma conflate_matches_ends fuel matches : ∀ cols deleted w,
  Forall (keys_below fuel) matches →
  conflate_matches fuel matches cols deleted w ≠ Fail Fuel.
Proof.
  induction matches as [|m matches IH]; intros cols deleted w Hb; simpl; [done|].
  apply Forall_cons in Hb as [Hm Hb].
  unfold bind at 1.
  destruct (conflate_match fuel m cols deleted w) as [[[[m1 c1] d1] w1]|f] eqn:Hrun.
  - unfold bind.
    destruct (conflate_matches fuel matches c1 d1 w1) as [[[[ms c2] d2] w2]|f] eqn:Hrun2;
      [done|].
    intros [= ->]. by eapply IH.
  - intros [= ->]. by eapply conflate_match_ends.
Qed.

Lemma conflate_lanelet_OSM_ends fuel matches cols deleted w :
  Forall (keys_below fuel) matches →
  conflate_lanelet_OSM fuel matches cols deleted w ≠ Fail Fuel.
Proof.
  intros Hb. unfold conflate_lanelet_OSM, bind at 1.
  destruct (conflate_matches fuel matches cols deleted w) as [[[[ms c] d] w1]|f] eqn:Hrun.
  - apply (no_fuel_bind (print_all final_messages)); [apply no_fuel_print_all|].
    intros []. apply no_fuel_ret.
  - intros [= ->]. by eapply conflate_matches_ends.
Qed.

End Update.

(** The model of [update_ref_tags] leaves the keys as they are. *)
Lemma update_ref_tags_spec_keys key id_orig id_new ind m :
  same_keys (update_ref_tags_spec key id_orig id_new ind m) m.
Proof.
  unfold same_keys, update_ref_tags_spec. simpl.
  apply Forall2_same_length_lookup_2; [by rewrite length_alter|].
  intros i s' s Hs' Hs. destruct (decide (i = ind)) as [->|Hne].
  - rewrite list_lookup_alter_eq, Hs in Hs'. simpl in Hs'. injection Hs' as <-.
    destruct (seg_attrs s !! key) as [a|] eqn:Ha; [|done].
    case_bool_decide; [|done]. simpl. rewrite dom_insert_L.
    apply elem_of_dom_2 in Ha. apply subseteq_union_1_L. by apply singleton_subseteq_l.
  - rewrite list_lookup_alter_ne in Hs' by done. congruence.
Qed.


(** *** Matches on which the engine returns *)

Lemma set_type_location_returns match_ v w :
  (∃ sd, same_direction match_ = Ok sd) →
  (∀ seg a, seg ∈ ref_pline match_ → a ∈ seg_ids seg → is_Some (asId a)) →
  ∃ w', set_type_location match_ [] [v] w = Ok (tt, w').
Proof.
  intros [sd Hsd] Hids. unfold set_type_location. simpl.
  unfold bind at 1. simpl. unfold bind at 1, lift at 1. rewrite Hsd.
  destruct sd; simpl;
    (apply set_type_location_loop_returns; [done|]; intros ind; by exists v).
Qed.

Lemma transfer_att_returns match_ key v w :
  (∃ sd, same_direction match_ = Ok sd) →
  (∀ seg a, seg ∈ ref_pline match_ → a ∈ seg_ids seg → is_Some (asId a)) →
  ∃ w', transfer_att match_ key [] [v] w = Ok (tt, w').
Proof.
  intros [sd Hsd] Hids. unfold transfer_att, transfer_tag. simpl.
  unfold bind at 1. simpl. unfold bind at 2, lift at 1. rewrite Hsd.
  destruct (set_value_ids_returns (pline_ids (ref_pline match_)) key v [] w)
    as (s' & w' & Hrun).
  { intros a Ha. apply elem_of_pline_ids in Ha as (seg & Hseg & Ha). by eapply Hids. }
  exists w'. unfold bind. destruct sd; simpl; by rewrite transfer_tag_loop_constant, Hrun.
Qed.

Lemma set_color_code_ids_returns ids col_code : ∀ cols w,
  (∀ a, a ∈ ids → is_Some (asId a)) →
  ∃ cols' w', set_color_code_ids ids col_code cols w = Ok (cols', w').
Proof.
  induction ids as [|a ids IH]; intros cols w Hids; simpl; [by eexists _, _|].
  destruct (Hids a (list_elem_of_here _ _)) as [id Hid].
  unfold bind at 1, lift at 1. rewrite Hid. simpl.
  destruct (find_ll_returns id w) as (ll & w1 & Hll).
  rewrite (bind_eq _ _ _ _ _ Hll). apply IH. intros b Hb. apply Hids. by right.
Qed.

Lemma check_lanes_seg_returns ind vl vs cols deleted match_ seg w :
  ref_pline match_ !! ind = Some seg →
  (∀ a, a ∈ seg_ids seg → is_Some (asId a)) →
  (vl = "" ∨ ∃ n, stoi vl = Ok n ∧ n + shoulder_lanes vs ≤ INT_MAX ∧
                  lanes_count_of seg ≤ n + shoulder_lanes vs) →
  ∃ cols' w', check_lanes_seg ind [] [vl] [vs] cols deleted match_ w =
                Ok (cols', deleted, match_, w').
Proof.
  intros Hseg Hids Hlanes. unfold check_lanes_seg.
  unfold bind at 1, lift at 1, at_. rewrite Hseg. simpl.
  unfold bind at 1. simpl. unfold bind at 1. simpl. unfold bind at 1. simpl.
  assert (∃ cc lo, col_code_of vl vs (lanes_count_of seg) = Ok (cc, lo) ∧
            (vl ≠ "" → Z.to_nat (lanes_count_of seg - lo) = 0%nat))
    as (cc & lo & Hcc & Hlo).
  { destruct Hlanes as [->|(n & Hn & Hmax & Hcount)].
    - by exists "WEBBlueLight", 0.
    - destruct check_lanes_classification as (Hosm & Hcol & _).
      pose proof (Hosm vl vs n Hn Hmax) as Ho.
      assert (vl ≠ "") as Hne by (intros ->; by vm_compute in Hn).
      rewrite (Hcol vl vs (lanes_count_of seg) _ Hne Ho).
      eexists _, _. split; [done|]. intros _. lia. }
  unfold bind at 1, lift at 1. rewrite Hcc. simpl.
  unfold set_color_code_dir.
  destruct (set_color_code_ids_returns (chain (seg_attrs seg) "ll_id_forward_") cc cols w)
    as (cols1 & w1 & Hc1).
  { intros a Ha. apply Hids. unfold seg_ids. apply elem_of_app. by left. }
  rewrite (bind_eq _ _ _ _ _ Hc1).
  destruct (set_color_code_ids_returns (chain (seg_attrs seg) "ll_id_backward_") cc cols1 w1)
    as (cols2 & w2 & Hc2).
  { intros a Ha. apply Hids. unfold seg_ids. apply elem_of_app. by right. }
  rewrite (bind_eq _ _ _ _ _ Hc2).
  exists cols2, w2. case_bool_decide as Hvl; [|done].
  by rewrite (Hlo Hvl).
Qed.

Lemma check_lanes_loop_returns vl vs match_ n : ∀ ind cols deleted w,
  (ind + n = length (ref_pline match_))%nat →
  (∀ seg a, seg ∈ ref_pline match_ → a ∈ seg_ids seg → is_Some (asId a)) →
  (vl = "" ∨ ∃ k, stoi vl = Ok k ∧ k + shoulder_lanes vs ≤ INT_MAX ∧
     ∀ seg, seg ∈ ref_pline match_ → lanes_count_of seg ≤ k + shoulder_lanes vs) →
  ∃ cols' w', check_lanes_loop n ind [] [vl] [vs] cols deleted match_ w =
                Ok (cols', deleted, match_, w').
Proof.
  induction n as [|n IH]; intros ind cols deleted w Hlen Hids Hlanes; simpl;
    [by eexists _, _|].
  destruct (lookup_lt_is_Some_2 (ref_pline match_) ind) as [seg Hseg]; [lia|].
  pose proof (list_elem_of_lookup_2 _ _ _ Hseg) as Hin.
  destruct (check_lanes_seg_returns ind vl vs cols deleted match_ seg w Hseg)
    as (cols1 & w1 & Hrun).
  { intros a. by apply Hids. }
  { destruct Hlanes as [->|(k & ? & ? & Hc)]; [by left|right].
    exists k. split_and!; try done. by apply Hc. }
  rewrite (bind_eq _ _ _ _ _ Hrun). apply IH; [lia|done|done].
Qed.

Lemma check_lanes_returns match_ cols vl vs deleted w :
  (∃ sd, same_direction match_ = Ok sd) →
  (∀ seg a, seg ∈ ref_pline match_ → a ∈ seg_ids seg → is_Some (asId a)) →
  (vl = "" ∨ ∃ k, stoi vl = Ok k ∧ k + shoulder_lanes vs ≤ INT_MAX ∧
     ∀ seg, seg ∈ ref_pline match_ → lanes_count_of seg ≤ k + shoulder_lanes vs) →
  ∃ cols' w', check_lanes match_ cols [] [] [vl] [vs] deleted w =
                Ok (cols', deleted, match_, w').
Proof.
  intros [sd Hsd] Hids Hlanes. unfold check_lanes. simpl.
  unfold bind at 1. simpl. unfold bind at 1, lift at 1. rewrite Hsd.
  destruct sd; simpl;
    (unfold bind at 1; simpl; unfold bind at 1; simpl; unfold bind at 1; simpl;
     by apply check_lanes_loop_returns).
Qed.

Lemma conflate_match_returns fuel match_ cols deleted w :
  target_pline match_ = [] ∨ steady match_ →
  ∃ cols' w', conflate_match fuel match_ cols deleted w =
                Ok (match_, cols', deleted, w').
Proof.
  intros [Hnone|(Hconst & Hsd & Hids & Hlanes)]; unfold conflate_match.
  { rewrite bool_decide_eq_false_2; [by eexists _, _|]. intros Hne. by apply Hne. }
  case_bool_decide; [|by eexists _, _].
  assert (split_on_tag_change fuel match_ target_keys w =
            Ok (match_, replicate (length target_keys) [],
                (λ key, [first_value (target_pline match_) key]) <$> target_keys, w))
    as Hsplit.
  { unfold split_on_tag_change, bind, lift.
    by rewrite (check_tag_change_constant _ _ Hconst). }
  rewrite (bind_eq _ _ _ _ _ Hsplit). simpl.
  unfold bind at 1 2; simpl.
  destruct (set_type_location_returns match_
              (first_value (target_pline match_) "highway") w Hsd Hids) as (w1 & Hr1).
  rewrite (bind_eq _ _ _ _ _ Hr1).
  unfold bind at 1 2; simpl.
  destruct (transfer_att_returns match_ "speed_limit"
              (first_value (target_pline match_) "maxspeed") w1 Hsd Hids) as (w2 & Hr2).
  rewrite (bind_eq _ _ _ _ _ Hr2).
  unfold bind at 1 2; simpl.
  destruct (transfer_att_returns match_ "road_name"
              (first_value (target_pline match_) "name") w2 Hsd Hids) as (w3 & Hr3).
  rewrite (bind_eq _ _ _ _ _ Hr3).
  unfold bind at 1 2; simpl.
  destruct (transfer_att_returns match_ "one_way"
              (first_value (target_pline match_) "oneway") w3 Hsd Hids) as (w4 & Hr4).
  rewrite (bind_eq _ _ _ _ _ Hr4).
  unfold bind at 1 2; simpl.
  destruct (transfer_att_returns match_ "road_surface"
              (first_value (target_pline match_) "surface") w4 Hsd Hids) as (w5 & Hr5).
  rewrite (bind_eq _ _ _ _ _ Hr5).
  unfold bind at 1 2; simpl.
  destruct (transfer_att_returns match_ "lane_markings"
              (first_value (target_pline match_) "lane_markings") w5 Hsd Hids)
    as (w6 & Hr6).
  rewrite (bind_eq _ _ _ _ _ Hr6).
  unfold bind at 1 2 3 4; simpl.
  destruct (check_lanes_returns match_ cols (first_value (target_pline match_) "lanes")
              (first_value (target_pline match_) "shoulder") deleted w6 Hsd Hids Hlanes)
    as (cols' & w7 & Hr7).
  rewrite (bind_eq _ _ _ _ _ Hr7). by eexists _, _.
Qed.

Lemma conflate_matches_returns fuel matches : ∀ cols deleted w,
  Forall (λ m, target_pline m = [] ∨ steady m) matches →
  ∃ cols' w', conflate_matches fuel matches cols deleted w =
                Ok (matches, cols', deleted, w').
Proof.
  induction matches as [|m matches IH]; intros cols deleted w Hall; simpl;
    [by eexists _, _|].
  apply Forall_cons in Hall as [Hm Hall].
  destruct (conflate_match_returns fuel m cols deleted w Hm) as (c1 & w1 & Hr1).
  rewrite (bind_eq _ _ _ _ _ Hr1).
  destruct (IH c1 deleted w1 Hall) as (c2 & w2 & Hr2).
  rewrite (bind_eq _ _ _ _ _ Hr2). by eexists _, _.
Qed.

Lemma conflate_lanelet_OSM_returns fuel matches cols deleted w :
  Forall (λ m, target_pline m = [] ∨ steady m) matches →
  ∃ cols' w', conflate_lanelet_OSM fuel matches cols deleted w =
                Ok (true, matches, cols', deleted, w').
Proof.
  intros Hall. unfold conflate_lanelet_OSM.
  destruct (conflate_matches_returns fuel matches cols deleted w Hall) as (c & w1 & Hr).
  rewrite (bind_eq _ _ _ _ _ Hr).
  destruct (print_all_Ok final_messages w1) as (w2 & Hp).
  rewrite (bind_eq _ _ _ _ _ Hp). by eexists _, _.
Qed.

(** *** The entry points *)


End Properties.

(** ** The main properties on the example maps *)

Lemma split_linestring_idempotent_witness :
  (∃ prev, [ex_suffix] !! index_of 100 [100] = Some prev ∧
     @split_linestring lanelet2_ref ex_ls [100] [ex_suffix] ex_pt_end true
       ex_world_split =
       Ok (invert prev, [100], [ex_suffix], ex_world_split)) ∧
  (∃ new_ls',
     @split_linestring lanelet2_ref (invert ex_ls) [100] [ex_suffix] ex_pt_end true
       ex_world_split =
       Ok (new_ls', [100], [ex_suffix], ex_world_split) ∧
     ls_loc new_ls' = ls_loc ex_suffix).
Proof.
  split.
  - apply (proj1 (@split_linestring_idempotent lanelet2_ref ex_ls ex_prefix_data
                    [100] [ex_suffix] ex_world_split eq_refl eq_refl)).
    by left.
  - apply (proj2 (@split_linestring_idempotent lanelet2_ref ex_ls ex_curve_data
                    [] [] ex_world eq_refl eq_refl)
             ltac:(apply not_elem_of_nil) ex_pt_mid false ex_suffix [100] [ex_suffix]
             ex_world_split).
    + vm_compute. reflexivity.
    + reflexivity.
Defined.

Lemma split_linestring_last_vertex_witness :
  ∃ new_ls splitted' new_lss' w' dnew,
    @split_linestring lanelet2_ref ex_ls [] [] ex_pt_end false ex_world =
      Ok (new_ls, splitted', new_lss', w') ∧
    w_heap w' !! ls_loc new_ls = Some dnew ∧
    lsd_pts dnew = [P 3 4 3] ∧ length (lsd_pts dnew) = 1%nat.
Proof.
  apply (@split_linestring_last_vertex lanelet2_ref ex_ls ex_curve_data [] []
           ex_pt_end ex_world 0%float (P 3 4 3)).
  - reflexivity.
  - reflexivity.
  - apply not_elem_of_nil.
  - simpl. lia.
  - vm_compute. reflexivity.
  - vm_compute. reflexivity.
  - vm_compute. reflexivity.
  - reflexivity.
Defined.

Lemma split_vertex_cases_witness :
  ∃ p, ex_curve !! 2%nat = Some p ∧
       @split_vertex lanelet2_ref 1000 ex_curve ex_pt_end = Ok (p, 2%nat).
Proof.
  apply (proj1 (proj2 (@split_vertex_cases lanelet2_ref 1000 ex_curve ex_pt_end
                         0%float ltac:(vm_compute; reflexivity)))).
  - vm_compute. reflexivity.
  - vm_compute. discriminate.
Defined.

Lemma check_tag_change_lengths_witness :
  ∃ pts values,
    check_tag_change (target_pline ex_match_noref) ["highway"; "lanes"] [] [] =
      Ok (pts, values) ∧
    length pts = 2%nat ∧ length values = 2%nat ∧
    (∀ i p v, pts !! i = Some p → values !! i = Some v → length v = S (length p)) ∧
    (∀ i key, ["highway"; "lanes"] !! i = Some key →
       (∀ seg, seg ∈ target_pline ex_match_noref →
          default "" (seg_attrs seg !! key) =
            first_value (target_pline ex_match_noref) key) →
       pts !! i = Some [] ∧
       values !! i = Some [first_value (target_pline ex_match_noref) key]).
Proof.
  apply (check_tag_change_lengths (target_pline ex_match_noref) ["highway"; "lanes"]).
  intros seg Hseg. simpl in Hseg.
  apply elem_of_cons in Hseg as [->|Hseg]; [discriminate|].
  apply elem_of_cons in Hseg as [->|Hseg]; [discriminate|].
  by apply elem_of_nil in Hseg.
Defined.

(** The second reference segment of [ex_match_row] lies behind the
    change of [shoulder] and before the change of [lanes]: the target
    polyline has the [lanes] value 1 and no [shoulder] value beside it,
    it stands for one lanelet, and it is classified with the [lanes]
    value 2, so that its lanelet is red. *)
Lemma check_lanes_merged_order_witness :
  check_tag_change (target_pline ex_match_row) ["lanes"; "shoulder"] [] [] =
    Ok ([[P 52 25 2]; [P 51 12 2]], [["1"; "2"]; ["yes"; ""]]) ∧
  (∀ cols deleted m w,
     @check_lanes_seg lanelet2_ref matchops_spec 1 [2; 1]%nat ["1"; "2"; "2"]
       ["yes"; "yes"; ""] cols deleted m w =
     @check_lanes_seg lanelet2_ref matchops_spec 1 [] ["2"] [""] cols deleted m w) ∧
  ∃ m cols deleted w',
    @conflate_match lanelet2_ref libm_ref matchops_spec 3 ex_match_row [] []
      ex_world_row = Ok (m, cols, deleted, w') ∧
    seg_ids <$> ref_pline m = [["20"]; ["1009"]; ["1004"]] ∧
    cols = [(20, "WEBRed"); (1009, "WEBRed"); (1004, "WEBRed")].
Proof.
  split; [vm_compute; reflexivity|]. split.
  - intros cols deleted m w.
    apply (proj1 (proj2 (@check_lanes_merged_order lanelet2_ref libm_ref matchops_spec
                    ex_match_row (P 52 25 2) (P 51 12 2) "1" "2" "yes" "" 2%nat 1%nat
                    ltac:(discriminate) ltac:(vm_compute; reflexivity)
                    ltac:(vm_compute; reflexivity) ltac:(vm_compute; reflexivity)))).
    lia.
  - eexists _, _, _, _. split; [vm_compute; reflexivity|].
    split; vm_compute; reflexivity.
Defined.


Lemma create_updated_map_readds_witness :
  ∃ w', create_updated_map 3 ex_map_regelem [LlIn 11] ex_world_new = Ok (true, w') ∧
        LlIn 11 ∈ [LlIn 11] ∧
        laneletLayer (w_map w') !! 11 = laneletLayer ex_map_regelem !! 11 ∧
        is_Some (laneletLayer ex_map_regelem !! 11).
Proof.
  eexists. split; [vm_compute; reflexivity|]. split; [by left|]. split.
  - eapply (proj1 (create_updated_map_readds 3 ex_map_regelem [LlIn 11] ex_world_new
                     true _ ltac:(by vm_compute) eq_refl ltac:(vm_compute; reflexivity))
              500 (mkRegElem ∅ [ParamLanelet 11]) 11);
      [vm_compute; reflexivity|by left|discriminate].
  - vm_compute. by eexists.
Defined.

(** The new map holds lanelet 10 without regulatory element when the
    finalizer is called: it keeps it, though the original map has another
    lanelet 10. *)
Lemma create_updated_map_only_adds_witness :
  ∃ w', create_updated_map 5 ex_map_regelem [LlIn 11] ex_world3 = Ok (true, w') ∧
        laneletLayer (w_map w') !! 10 = laneletLayer (w_map ex_world3) !! 10 ∧
        laneletLayer (w_map w') !! 10 ≠ laneletLayer ex_map_regelem !! 10.
Proof.
  eexists. split; [vm_compute; reflexivity|]. split.
  - destruct (create_updated_map_only_adds 5 ex_map_regelem [LlIn 11] ex_world3 true _
                ltac:(by vm_compute) ltac:(vm_compute; reflexivity))
      as ((Hl & _) & _ & _).
    assert (laneletLayer (w_map ex_world3) !! 10 =
            Some (mkLaneletData (mkLineString 1%positive false)
                    (mkLineString 2%positive false) ∅ None [])) as H10
      by (vm_compute; reflexivity).
    rewrite (lookup_weaken _ _ _ _ H10 Hl). by rewrite H10.
  - vm_compute. discriminate.
Defined.

(** The match without target polyline is skipped; on the match without
    reference polyline whose [highway] value changes the engine indexes
    the empty reference polyline. *)
Lemma conflate_match_empty_reference_witness :
  @conflate_match lanelet2_ref libm_ref matchops_spec 1 ex_match_notarget [] []
    ex_world3 = Ok (ex_match_notarget, [], [], ex_world3) ∧
  ref_pline ex_match_noref = [] ∧ target_pline ex_match_noref ≠ [] ∧
  @conflate_match lanelet2_ref libm_ref matchops_spec 1 ex_match_noref [] []
    ex_world3 = Undefined.
Proof.
  split.
  - exact (proj1 (@conflate_match_empty_reference lanelet2_ref libm_ref matchops_spec
                    1 ex_match_notarget [] [] ex_world3) eq_refl).
  - split; [reflexivity|]. split; [discriminate|].
    eapply (proj2 (@conflate_match_empty_reference lanelet2_ref libm_ref
                     matchops_spec 1 ex_match_noref [] [] ex_world3));
      [reflexivity|discriminate|vm_compute; reflexivity|vm_compute; discriminate].
Defined.



Lemma find_segment_2D_range_witness :
  ∃ i, find_segment_2D (mkPoint 9 1 1 0 ∅)
         [mkPoint 1 0 0 0 ∅; mkPoint 2 2 2 0 ∅; mkPoint 3 4 0 0 ∅] = Ok i ∧
       0 ≤ Z.of_nat i ≤ 1.
Proof.
  exact (proj1 (find_segment_2D_range (mkPoint 9 1 1 0 ∅)
    [mkPoint 1 0 0 0 ∅; mkPoint 2 2 2 0 ∅; mkPoint 3 4 0 0 ∅]
    ltac:(simpl; lia))).
Defined.

(** ** The engine on the example maps *)

(** The first vertex is the closest one: the split vertex is the midpoint
    of the first two vertices. *)
Example split_vertex_first :
  @split_vertex lanelet2_ref 1000 ex_curve (P 52 (-1) (-1)) = Ok (P 1000 1 0.5, 0%nat).
Proof. vm_compute. reflexivity. Qed.

(** An inner vertex is the closest one: it is the split vertex. *)
Example split_vertex_inner :
  @split_vertex lanelet2_ref 1000 ex_curve (P 53 2 1) = Ok (P 2 2 1, 1%nat).
Proof. vm_compute. reflexivity. Qed.

(** No vertex within the tolerance: a new vertex at the projection. *)
Example split_linestring_inside :
  @split_linestring lanelet2_ref ex_ls [] [] ex_pt_mid false ex_world =
    Ok (ex_suffix, [100], [ex_suffix], ex_world_split).
Proof. vm_compute. reflexivity. Qed.

(** [lanes] = 2 on a segment of two lanelets: green, nothing removed. *)
Example conflate_lanes_two :
  match @conflate_lanelet_OSM lanelet2_ref libm_ref matchops_spec 1
          [ex_match_lanes "2"] [] [] ex_world3 with
  | Ok (b, ms, cols, deleted, w) =>
      b = true ∧ cols = [(10, "WEBGreen"); (11, "WEBGreen")] ∧ deleted = []
  | Fail _ => False
  end.
Proof. vm_compute. repeat split; reflexivity. Qed.

(** [lanes] = 1 on a segment of two lanelets: red, and the lanelet
    without neighbour is removed from the segment. *)
Example conflate_lanes_one :
  match @conflate_lanelet_OSM lanelet2_ref libm_ref matchops_spec 1
          [ex_match_lanes "1"] [] [] ex_world3 with
  | Ok (b, ms, cols, deleted, w) =>
      b = true ∧ cols = [(10, "WEBRed"); (11, "WEBRed")] ∧ deleted = [LlIn 11] ∧
      (λ m, (λ seg, chain (seg_attrs seg) "ll_id_forward_") <$> ref_pline m) <$> ms
        = [[["10"]]]
  | Fail _ => False
  end.
Proof. vm_compute. repeat split; reflexivity. Qed.

(** Without [lanes] value: light blue. *)
Example conflate_lanes_none :
  match @conflate_lanelet_OSM lanelet2_ref libm_ref matchops_spec 1
          [ex_match_lanes ""] [] [] ex_world3 with
  | Ok (b, ms, cols, deleted, w) =>
      b = true ∧ cols = [(10, "WEBBlueLight"); (11, "WEBBlueLight")] ∧ deleted = []
  | Fail _ => False
  end.
Proof. vm_compute. repeat split; reflexivity. Qed.

(** ** The further properties on the example maps *)

Lemma ex_world3_wf : heap_wf ex_world3.
Proof.
  intros l Hl. unfold ex_world3, ex_heap3 in *. simpl in *.
  repeat (rewrite lookup_insert_ne by lia). apply lookup_singleton_ne. lia.
Qed.



Lemma conflate_match_constant_witness :
  ∃ r w' d,
    @conflate_match lanelet2_ref libm_ref matchops_spec 1 (ex_match_lanes "2") [] []
      ex_world3 = Ok (r, w') ∧
    laneletLayer (w_map ex_world3) !! 10 = Some d ∧
    laneletLayer (w_map w') !! 10 =
      Some (with_attrs d
              (conflated_attrs (first_value (target_pline (ex_match_lanes "2")))
                 (lld_attrs d))).
Proof.
  eexists _, _, _.
  split; [vm_compute; reflexivity|]. split; [reflexivity|].
  refine (proj2 (proj2
    (@conflate_match_constant lanelet2_ref libm_ref matchops_spec 1
       (ex_match_lanes "2") [] [] ex_world3 _ _ _ _ _))
    ex_ref_seg "10" 10 _ _ _ _ _ _).
  - discriminate.
  - intros key seg _ Hseg. apply list_elem_of_singleton in Hseg as ->. reflexivity.
  - vm_compute. reflexivity.
  - by left.
  - vm_compute. by left.
  - reflexivity.
  - discriminate.
  - reflexivity.
Defined.


Lemma conflate_lanelet_OSM_report_witness :
  ∃ b matches' cols' deleted' w',
    @conflate_lanelet_OSM lanelet2_ref libm_ref matchops_spec 1 [ex_match_lanes "1"] [] []
      ex_world3 = Ok (b, matches', cols', deleted', w') ∧
    [] `prefix_of` deleted' ∧ length matches' = 1%nat ∧
    final_messages `suffix_of` w_log w'.
Proof.
  eexists _, _, _, _, _. split; [vm_compute; reflexivity|].
  eapply (@conflate_lanelet_OSM_report lanelet2_ref libm_ref matchops_spec 1
           [ex_match_lanes "1"] [] [] ex_world3).
  vm_compute. reflexivity.
Defined.

Lemma split_on_tag_change_keeps_witness :
  ∃ r w',
    @split_on_tag_change lanelet2_ref matchops_spec 5 ex_match_change target_keys
      ex_world3 = Ok (r, w') ∧
    heap_wf w' ∧ world_kept [] ex_world3 w'.
Proof.
  eexists _, _. split; [vm_compute; reflexivity|].
  eapply (@split_on_tag_change_keeps lanelet2_ref matchops_spec 5 ex_match_change
           target_keys ex_world3).
  - apply ex_world3_wf.
  - vm_compute. reflexivity.
Defined.

Lemma ex_ref_seg_ids (seg : Segment) (a : string) :
  seg ∈ ref_pline (ex_match_lanes "2") → a ∈ seg_ids seg → a = "10" ∨ a = "11".
Proof.
  intros Hseg Ha. apply list_elem_of_singleton in Hseg as ->.
  change (seg_ids ex_ref_seg) with ["10"; "11"] in Ha.
  apply elem_of_cons in Ha as [->|Ha]; [by left|].
  apply list_elem_of_singleton in Ha as ->. by right.
Qed.

Lemma set_type_location_constant_witness :
  ∃ w', @set_type_location lanelet2_ref libm_ref (ex_match_lanes "2") [] ["primary"]
          ex_world3 = Ok (tt, w').
Proof.
  apply (proj1 (@set_type_location_constant lanelet2_ref libm_ref
                  (ex_match_lanes "2") "primary" ex_world3) true).
  - vm_compute. reflexivity.
  - intros seg a Hseg Ha.
    destruct (ex_ref_seg_ids seg a Hseg Ha) as [-> | ->]; eexists; vm_compute; reflexivity.
Defined.

Lemma transfer_att_constant_witness :
  ∃ w', @transfer_att lanelet2_ref libm_ref (ex_match_lanes "2") "speed_limit" [] [""]
          ex_world3 = Ok (tt, w').
Proof.
  apply (proj1 (@transfer_att_constant lanelet2_ref libm_ref
                  (ex_match_lanes "2") "speed_limit" "" ex_world3) true).
  - vm_compute. reflexivity.
  - intros seg a Hseg Ha.
    destruct (ex_ref_seg_ids seg a Hseg Ha) as [-> | ->]; eexists; vm_compute; reflexivity.
Defined.

Lemma merged_values_in_range_witness :
  let pm := merge_point_vec [[P 31 5 2]; [P 32 10 2]] in
  ∃ vln vsn,
    merged_values pm [P 31 5 2] [P 32 10 2] ["1"; "2"] [""; "yes"] 0 0 ["1"] [""] =
      Ok (vln, vsn) ∧
    head vln = Some "1" ∧ head vsn = Some "" ∧
    length vln = S (length pm) ∧ length vsn = S (length pm) ∧
    ∀ k, (k < length pm)%nat →
      vln !! S k = ["1"; "2"] !! length (among [P 31 5 2] (take (S k) pm)) ∧
      vsn !! S k = [""; "yes"] !! length (among [P 32 10 2] (take (S k) pm)).
Proof.
  exact (merged_values_in_range [P 31 5 2] [P 32 10 2] ["1"; "2"] [""; "yes"] "1" ""
           eq_refl eq_refl).
Defined.

Lemma active_value_last_witness :
  ∃ v, active_value 2 0 [3; 1]%nat ["a"; "b"; "c"] "a" = Ok v ∧
    ((∀ c, c ∈ [3; 1]%nat → (2 < c)%nat) → v = "a") ∧
    (∀ k c, [3; 1]%nat !! k = Some c → (c ≤ 2)%nat →
       (∀ k' c', (k < k')%nat → [3; 1]%nat !! k' = Some c' → (2 < c')%nat) →
       ["a"; "b"; "c"] !! S k = Some v).
Proof. exact (active_value_last 2 [3; 1]%nat ["a"; "b"; "c"] "a" eq_refl). Defined.

Lemma check_tag_change_runs_witness :
  head ["motorway"; "primary"] =
    Some (first_value (target_pline ex_match_change) "highway") ∧
  last ["motorway"; "primary"] =
    Some (default (first_value (target_pline ex_match_change) "highway")
            (last (seg_value "highway" <$> target_pline ex_match_change))) ∧
  adjacent_distinct ["motorway"; "primary"] ∧
  length [P 31 5 2] = changes (seg_value "highway" <$> target_pline ex_match_change) ∧
  ∀ q, q ∈ [P 31 5 2] →
    ∃ seg, seg ∈ tail (target_pline ex_match_change) ∧ head (seg_pts seg) = Some q.
Proof.
  apply (check_tag_change_runs (target_pline ex_match_change) ["highway"]
           [[P 31 5 2]] [["motorway"; "primary"]] eq_refl 0%nat "highway");
    reflexivity.
Defined.


Lemma split_linestring_memo_aligned_witness :
  ∃ new_ls splitted' new_lss' w',
    @split_linestring lanelet2_ref ex_ls [] [] ex_pt_mid false ex_world =
      Ok (new_ls, splitted', new_lss', w') ∧
    length splitted' = length new_lss' ∧ NoDup splitted' ∧
    [] `prefix_of` splitted' ∧ [] `prefix_of` new_lss' ∧
    lsd_id ex_curve_data ∈ splitted' ∧
    new_lss' !! index_of (lsd_id ex_curve_data) splitted' = Some new_ls.
Proof.
  eexists _, _, _, _. split; [vm_compute; reflexivity|].
  eapply (@split_linestring_memo_aligned lanelet2_ref ex_ls ex_curve_data [] []
           ex_pt_mid false ex_world).
  - reflexivity.
  - reflexivity.
  - constructor.
  - vm_compute. reflexivity.
Defined.

Lemma get_index_range_witness :
  ∃ i, @get_index lanelet2_ref (ex_match_lanes "2") (P 31 5 2) = Ok i ∧
       (i < length (ref_pline (ex_match_lanes "2")))%nat.
Proof.
  apply (proj1 (proj2 (@get_index_range lanelet2_ref (ex_match_lanes "2") (P 31 5 2)))).
  - discriminate.
  - intros seg Hseg. apply list_elem_of_singleton in Hseg as ->. discriminate.
Defined.

Lemma get_index_closest_witness :
  ∃ seg f b,
    ref_pline ex_match_change !! 0%nat = Some seg ∧
    head (seg_pts seg) = Some f ∧ last (seg_pts seg) = Some b ∧
    ∀ seg' f' b', seg' ∈ ref_pline ex_match_change →
      head (seg_pts seg') = Some f' → last (seg_pts seg') = Some b' →
      PrimFloat.ltb (distance2d_ref f' (P 31 5 2) + distance2d_ref b' (P 31 5 2))
                    (distance2d_ref f (P 31 5 2) + distance2d_ref b (P 31 5 2)) = false.
Proof.
  apply (@get_index_closest lanelet2_ref ex_match_change (P 31 5 2) 0%nat).
  - discriminate.
  - vm_compute. reflexivity.
Defined.

Lemma find_ll_from_bound_spec_witness :
  w_log ex_world3 = w_log ex_world3 ∧
  ∃ d, laneletLayer (w_map ex_world3) !! 11 = Some d ∧
       bounds_match (w_heap ex_world3) d
         (mkLineString 3%positive false) (mkLineString 4%positive true).
Proof.
  exact (proj2 (proj2
    (find_ll_from_bound_spec (mkLineString 3%positive false)
       (mkLineString 4%positive true) ex_world3 (LlIn 11) ex_world3
       ltac:(vm_compute; reflexivity)))).
Defined.

Lemma find_segment_2D_minimal_witness :
  ∃ i v, find_segment_2D ex_pt_mid ex_curve = Ok i ∧
    segment_diffs ex_pt_mid ex_curve !! i = Some v ∧
    ∀ x, x ∈ segment_diffs ex_pt_mid ex_curve → PrimFloat.ltb x v = false.
Proof. apply (find_segment_2D_minimal ex_pt_mid ex_curve). simpl. lia. Defined.

Lemma find_segment_2D_nan_first_witness :
  find_segment_2D ex_pt_on_second ex_vertical = Ok 0%nat ∧
  segment_diffs ex_pt_on_second ex_vertical !! 1%nat = Some 0%float.
Proof.
  split; [|vm_compute; reflexivity].
  apply (find_segment_2D_nan_first ex_pt_on_second ex_vertical nan [0%float]).
  - vm_compute. reflexivity.
  - reflexivity.
Defined.

Lemma same_direction_defined_witness :
  @same_direction libm_ref ex_match_notarget = Ok false ∧
  ∃ sd, @same_direction libm_ref ex_match_change = Ok sd.
Proof.
  split.
  - apply (proj1 (@same_direction_defined libm_ref ex_match_notarget)). by right.
  - eapply (proj1 (proj2 (@same_direction_defined libm_ref ex_match_change)
                     _ _ _ _ eq_refl eq_refl eq_refl eq_refl)).
    by split_and!.
Defined.

Lemma set_value_dir_first_writer_witness :
  ∃ setll' w' d,
    @set_value_dir lanelet2_ref "ll_id_forward_" ex_ref_seg "speed_limit" "50" [10]
      ex_world3 = Ok (setll', w') ∧
    laneletLayer (w_map w') !! 10 = laneletLayer (w_map ex_world3) !! 10 ∧
    laneletLayer (w_map ex_world3) !! 11 = Some d ∧
    11 ∈ setll' ∧
    laneletLayer (w_map w') !! 11 =
      Some (with_attrs d
              (<["speed_limit" := "50"]> (lld_attrs d))).
Proof.
  eexists _, _, _.
  destruct (@set_value_dir_first_writer lanelet2_ref "ll_id_forward_" ex_ref_seg
              "speed_limit" "50" [10] ex_world3 _ _ ltac:(vm_compute; reflexivity))
    as (_ & _ & Hfirst & _ & Hwrite).
  split; [vm_compute; reflexivity|].
  split; [apply Hfirst; by left|]. split; [reflexivity|].
  apply (Hwrite "11" 11); try done.
  - vm_compute. right. by left.
  - intros Hin. apply list_elem_of_singleton in Hin. discriminate.
Defined.

Lemma count_lanes_dir_contiguous_witness :
  count_lanes_dir "ll_id_forward_" ex_gap_seg 0 = 0 + Z.of_nat 2 ∧
  is_Some (seg_attrs ex_gap_seg !! chain_key "ll_id_forward_" 4).
Proof.
  split; [|eexists; vm_compute; reflexivity].
  apply (count_lanes_dir_contiguous "ll_id_forward_" ex_gap_seg 0 2).
  - intros i Hi. assert (i = 1 ∨ i = 2)%nat as [-> | ->] by lia;
      eexists; vm_compute; reflexivity.
  - vm_compute. reflexivity.
Defined.

Lemma merge_point_vec_distinct_witness :
  pt_id (P 2 1 0) ∈ pt_id <$> merge_point_vec ex_ways.
Proof.
  apply (proj2 (proj2 (merge_point_vec_distinct ex_ways)) [P 2 1 0; P 3 2 0]).
  - right. by left.
  - by left.
Defined.

Lemma merge_point_vec_two_witness :
  merge_point_vec [[P 1 0 0; P 2 1 0]; [P 2 1 0; P 3 2 0]] =
  [P 1 0 0; P 2 1 0] ++
  filter (λ q, pt_id q ∉ pt_id <$> [P 1 0 0; P 2 1 0]) [P 2 1 0; P 3 2 0].
Proof.
  apply (merge_point_vec_two [P 1 0 0; P 2 1 0] [P 2 1 0; P 3 2 0]);
    apply (bool_decide_unpack _); vm_compute; exact I.
Defined.

Lemma check_lanes_read_only_witness :
  ∃ cols' deleted' match' w',
    @check_lanes lanelet2_ref libm_ref matchops_spec (ex_match_lanes "1") [] [] []
      ["1"] [""] [] ex_world3 = Ok (cols', deleted', match', w') ∧
    log_only ex_world3 w' ∧ cols_grow [] cols' ∧ [] `prefix_of` deleted'.
Proof.
  eexists _, _, _, _. split; [vm_compute; reflexivity|].
  eapply (@check_lanes_read_only lanelet2_ref libm_ref matchops_spec
           (ex_match_lanes "1") [] [] [] ["1"] [""] [] ex_world3).
  vm_compute. reflexivity.
Defined.

Lemma lanelet_layer_all_witness :
  ∃ lls, lanelet_layer (Some (w_map ex_world3)) ex_world3 = Ok (lls, ex_world3) ∧
    NoDup lls ∧ length lls = size (laneletLayer (w_map ex_world3)) ∧
    ∀ ll, ll ∈ lls ↔
      ∃ id, ll = LlIn id ∧ is_Some (laneletLayer (w_map ex_world3) !! id).
Proof. exact (lanelet_layer_all (Some (w_map ex_world3)) ex_world3). Defined.

Lemma get_intersection_nodes_repeats_witness :
  ∃ firsts repeats,
    get_intersection_nodes ex_ways [] = [] ++ repeats ∧
    concat ex_ways ≡ₚ firsts ++ repeats ∧
    NoDup (pt_id <$> firsts) ∧
    (∀ p, p ∈ concat ex_ways → pt_id p ∈ pt_id <$> firsts) ∧
    (length repeats =
       length (concat ex_ways) - length (remove_dups (pt_id <$> concat ex_ways)))%nat.
Proof. exact (get_intersection_nodes_repeats ex_ways []). Defined.

(** ** The further functions on the example maps *)

(** The point 2 is on both linestrings. *)
Example get_intersection_nodes_ways :
  get_intersection_nodes ex_ways [] = [P 2 1 0].
Proof. vm_compute. reflexivity. Qed.

(** The changing [highway] value splits the lanelets 10 and 11: the map
    has two more lanelets behind the pass. *)
Example split_on_tag_change_splits :
  ∃ r w', @split_on_tag_change lanelet2_ref matchops_spec 5 ex_match_change
            target_keys ex_world3 = Ok (r, w') ∧
    size (laneletLayer (w_map w')) = 5%nat.
Proof. eexists _, _. split; vm_compute; reflexivity. Qed.

(** [map_ptr->add(new_ll)] files the bounds of the two new lanelets and
    their points, among them the four split vertices. *)
Example split_on_tag_change_files_bounds :
  ∃ r w', @split_on_tag_change lanelet2_ref matchops_spec 5 ex_match_change
            target_keys ex_world3 = Ok (r, w') ∧
    seg_ids <$> ref_pline r.1.1 = [["1004"; "1009"]] ∧
    (map_to_list (lineStringLayer (w_map w'))).*1 ≡ₚ [1001; 1003; 1006; 1008] ∧
    (map_to_list (pointLayer (w_map w'))).*1 ≡ₚ
      [2; 4; 6; 8; 1000; 1002; 1005; 1007].
Proof.
  eexists _, _. split; [vm_compute; reflexivity|]. split; [vm_compute; reflexivity|].
  split.
  - apply (Permutation_trans (l' := merge_sort Z.leb [1003; 1001; 1006; 1008]));
      [|by vm_compute]. vm_compute (fmap _ _). by rewrite merge_sort_Permutation.
  - apply (Permutation_trans
             (l' := merge_sort Z.leb [1007; 1005; 1002; 6; 1000; 8; 4; 2]));
      [|by vm_compute]. vm_compute (fmap _ _). by rewrite merge_sort_Permutation.
Qed.
